(** * PyFoma finite-state tool: a shallow embedding of [pyfoma/fst.py]

    The embedding covers the [Transition] and [State] classes, the
    constructors [FST.__init__] and [FST.rlg], the tokenizer
    [FST.tokenize_against_alphabet] and the weighted best-first traversal
    [FST.apply] with its two entry points [generate] and [analyze].

    Python objects compared by identity ([State] and [Transition] define
    neither [__eq__] nor [__hash__]) are modelled as indices into an object
    store; a Python [set] of such objects is a duplicate-free list of
    references whose order stands for the (unspecified) iteration order;
    a Python [dict] is an association list in insertion order. *)

From Stdlib Require Import ZArith Lia Ascii Sorted.
From stdpp Require Import base decidable option list strings.

Local Open Scope Z_scope.
Local Open Scope nat_scope.

(** ** Weights

    Weights are Python floats.  The development is parametric in the
    arithmetic it uses from them: the constants [0.0] and [float("inf")],
    addition, equality and the strict order used by tuple comparison. *)

Class Weight (W : Type) := {
  weight_eq_dec :: EqDecision W;
  w0 : W;
  winf : W;
  wadd : W → W → W;
  wlt : W → W → bool
}.

(** The laws the proofs rely on.  IEEE doubles without NaN satisfy them:
    the order is strict and total, and rounding is monotone, so adding a
    non-negative weight never decreases a cost. *)
Class WeightLaws (W : Type) `{Weight W} := {
  wlt_irrefl : ∀ a : W, wlt a a = false;
  wlt_trans : ∀ a b c : W, wlt a b = true → wlt b c = true → wlt a c = true;
  wlt_total : ∀ a b : W, wlt a b = true ∨ a = b ∨ wlt b a = true;
  wadd_nonneg : ∀ a w : W, wlt w w0 = false → wlt (wadd a w) a = false;
  wadd_0_0 : wadd w0 w0 = (w0 : W)
}.

Definition wle {W} `{Weight W} (a b : W) : bool := negb (wlt b a).

(** Integer weights, used to run the model on concrete automata. *)
#[export] Instance Z_Weight : Weight Z := {
  w0 := 0%Z;
  winf := 1000000000%Z;
  wadd := Z.add;
  wlt := Z.ltb
}.

#[export] Instance Z_WeightLaws : WeightLaws Z.
Proof.
  split; simpl.
  - intros a. apply Z.ltb_irrefl.
  - intros a b c. rewrite !Z.ltb_lt. lia.
  - intros a b. rewrite !Z.ltb_lt. lia.
  - intros a w. rewrite !Z.ltb_ge. lia.
  - reflexivity.
Qed.

(** ** Python dictionaries as association lists in insertion order *)

Section dict.
Context {K V : Type} `{EqDecision K}.

(** [d.get(k)] *)
Fixpoint dict_get (d : list (K * V)) (k : K) : option V :=
  match d with
  | [] => None
  | (k', v) :: d' => if decide (k' = k) then Some v else dict_get d' k
  end.

(** [d[k] = v]: an existing key keeps its position, a new key goes last. *)
Fixpoint dict_set (d : list (K * V)) (k : K) (v : V) : list (K * V) :=
  match d with
  | [] => [(k, v)]
  | (k', v') :: d' =>
      if decide (k' = k) then (k', v) :: d' else (k', v') :: dict_set d' k v
  end.

(** [d.pop(k)] on a key that is present (the result value is not used). *)
Fixpoint dict_pop (d : list (K * V)) (k : K) : list (K * V) :=
  match d with
  | [] => []
  | (k', v') :: d' =>
      if decide (k' = k) then d' else (k', v') :: dict_pop d' k
  end.

(** [d.get(k, dflt)] *)
Definition dict_get_or (d : list (K * V)) (k : K) (dflt : V) : V :=
  default dflt (dict_get d k).

(** [d.keys()] *)
Definition dict_keys (d : list (K * V)) : list K := d.*1.
End dict.

(** ** Labels

    A label is a non-empty tuple of symbols; [lbl[0]] is its input side and
    [lbl[-1]] its output side. *)

Record Label := mkLabel { lhead : string; ltail : list string }.

#[export] Instance Label_eq_dec : EqDecision Label.
Proof. solve_decision. Defined.

(** [(x,)] and [(i, o)] *)
Definition L1 (x : string) : Label := mkLabel x [].
Definition L2 (i o : string) : Label := mkLabel i [o].

(** [lbl[0]] *)
Definition label_first (l : Label) : string := lhead l.
(** [lbl[-1]] *)
Definition label_last (l : Label) : string := List.last (ltail l) (lhead l).
(** the symbols of a label, as in [{s for s in label}] *)
Definition label_symbols (l : Label) : list string := lhead l :: ltail l.

Section model.
Context {W : Type} `{!Weight W}.

(** ** class Transition *)

Record Transition := mkTransition {
  targetstate : nat;
  label : Label;
  weight : W
}.

(** The store of [Transition] objects: a reference is an index. *)
Local Abbreviation TStore := (list Transition).

(** ** class State *)

(** The lazily built indices: symbol ↦ set of [(label, transition)]. *)
Local Abbreviation Index := (list (string * list (Label * nat))).

Record State := mkState {
  transitions : list (Label * list nat);
  _transitionsin : option Index;
  _transitionsout : option Index;
  finalweight : W;
  name : option string
}.

(** [State.__init__(finalweight = None, name = None)] *)
Definition State_init (fw : option W) (nm : option string) : State :=
  mkState [] None None (default winf fw) nm.

Definition set_transitions (s : State) (tr : list (Label * list nat)) : State :=
  mkState tr (_transitionsin s) (_transitionsout s) (finalweight s) (name s).

Definition set_finalweight (s : State) (fw : W) : State :=
  mkState (transitions s) (_transitionsin s) (_transitionsout s) fw (name s).

(** The body shared by the two index properties: for every label and every
    transition under it, [index[proj label] |= {(label, t)}]. *)
Definition index_add (proj : Label → string) (lbl : Label) (idx : Index) (t : nat) : Index :=
  dict_set idx (proj lbl)
    (list_union (dict_get_or idx (proj lbl) []) [(lbl, t)]).

Definition build_index (proj : Label → string) (tr : list (Label * list nat)) : Index :=
  foldl (λ idx '(lbl, newtrans), foldl (index_add proj lbl) idx newtrans) [] tr.

(** [State.transitionsin] (a property): returns the index and the state
    with its cache filled. *)
Definition transitionsin (self : State) : Index * State :=
  match _transitionsin self with
  | None =>
      let idx := build_index label_first (transitions self) in
      (idx, mkState (transitions self) (Some idx) (_transitionsout self)
              (finalweight self) (name self))
  | Some idx => (idx, self)
  end.

(** [State.transitionsout] *)
Definition transitionsout (self : State) : Index * State :=
  match _transitionsout self with
  | None =>
      let idx := build_index label_last (transitions self) in
      (idx, mkState (transitions self) (_transitionsin self) (Some idx)
              (finalweight self) (name self))
  | Some idx => (idx, self)
  end.

(** [t.label = new] on the object behind reference [r] *)
Definition set_label (new : Label) (th : TStore) (r : nat) : TStore :=
  alter (λ t, mkTransition (targetstate t) new (weight t)) r th.

(** [State.rename_label]; [None] is the [KeyError] of
    [self.transitions[original]]. *)
Definition rename_label (th : TStore) (self : State) (original new : Label)
    : option (TStore * State) :=
  match dict_get (transitions self) original with
  | None => None
  | Some moved =>
      let th' := foldl (set_label new) th moved in
      let tr1 := dict_set (transitions self) new
                   (list_union (dict_get_or (transitions self) new []) moved) in
      let tr2 := dict_pop tr1 original in
      Some (th', set_transitions self tr2)
  end.

(** [t.targetstate not in targets] *)
Definition not_to_targets (th : TStore) (targets : list nat) (r : nat) : bool :=
  match th !! r with
  | Some t => bool_decide (targetstate t ∉ targets)
  | None => true
  end.

(** the body of [for label, transitions in self.transitions.items()] in
    [remove_transitions_to_targets] *)
Definition remove_step (th : TStore) (targets : list nat)
    (newt : list (Label * list nat)) (item : Label * list nat)
    : list (Label * list nat) :=
  let kept := List.filter (not_to_targets th targets) item.2 in
  let newt1 := dict_set newt item.1 kept in
  if length kept =? 0 then dict_pop newt1 item.1 else newt1.

(** [State.remove_transitions_to_targets] *)
Definition remove_transitions_to_targets (th : TStore) (self : State)
    (targets : list nat) : State :=
  let newt := foldl (remove_step th targets) [] (transitions self) in
  set_transitions self newt.

(** [State.add_transition]: a new [Transition] object is allocated on
    every call. *)
Definition add_transition (th : TStore) (self : State) (other : nat)
    (lbl : Label) (wt : W) : TStore * State :=
  let newtrans := length th in
  (th ++ [mkTransition other lbl wt],
   set_transitions self
     (dict_set (transitions self) lbl
        (list_union (dict_get_or (transitions self) lbl []) [newtrans]))).

(** [State.all_transitions]: the generator's items in iteration order. *)
Definition all_transitions (th : TStore) (self : State) : list (Label * Transition) :=
  flat_map (λ '(lbl, trs), omap (λ r, (λ t, (lbl, t)) <$> th !! r) trs)
           (transitions self).

End model.

Arguments Transition : clear implicits.
Arguments State : clear implicits.

Abbreviation TStore W := (list (Transition W)).
Abbreviation Index := (list (string * list (Label * nat))).

(** ** The flag-diacritic collaborator *)

(** Modelled from the spec: the module [pyfoma.flag] ([FlagOp],
    [FlagStringFilter]) is not part of the sources.  The traversal consumes
    a membership test "is this symbol a flag diacritic" ([FlagOp.is_flag])
    and a predicate over an accumulated output sequence, built from the
    automaton's alphabet, that reports whether its flag diacritics are
    mutually consistent ([FlagStringFilter(alphabet)(output)]). *)
Class Flags := {
  is_flag : string → bool;
  flag_filter : list string → list string → bool
}.

(** Modelled from the spec: [FlagOp.filter_flags] is "a pure filter that
    strips flag-diacritic symbols from a finished output sequence". *)
Definition filter_flags `{Flags} (out : list string) : list string :=
  List.filter (λ s, negb (is_flag s)) out.

(** An alphabet without flag diacritics. *)
Definition no_flags : Flags := {|
  is_flag := λ _, false;
  flag_filter := λ _ _, true
|}.

Section fst.
Context {W : Type} `{!Weight W}.

(** ** class FST *)

Record FST := mkFST {
  alphabet : list string;
  initialstate : nat;
  states : list nat;
  finalstates : list nat
}.

(** The object store: [State] objects and [Transition] objects, each
    addressed by its index. *)
Record Heap := mkHeap {
  hstates : list (State W);
  htrans : TStore W
}.

Definition empty_heap : Heap := mkHeap [] [].

(** [State(finalweight, name)]: allocate a new state object. *)
Definition new_State (h : Heap) (fw : option W) (nm : option string) : nat * Heap :=
  (length (hstates h), mkHeap (hstates h ++ [State_init fw nm]) (htrans h)).

(** [src.add_transition(other, lbl, wt)] on the object behind [src]. *)
Definition heap_add_transition (h : Heap) (src other : nat) (lbl : Label) (wt : W) : Heap :=
  match hstates h !! src with
  | Some s =>
      let '(th', s') := add_transition (htrans h) s other lbl wt in
      mkHeap (<[src := s']> (hstates h)) th'
  | None => h
  end.

(** [s.finalweight = fw] on the object behind [s]. *)
Definition heap_set_finalweight (h : Heap) (s : nat) (fw : W) : Heap :=
  mkHeap (alter (λ st, set_finalweight st fw) s (hstates h)) (htrans h).

(** [FST.__init__(label, weight, alphabet)] *)
Definition FST_init (h : Heap) (lbl : option Label) (wt : W) (alph : list string)
    : Heap * FST :=
  let '(init, h1) := new_State h None None in
  match lbl with
  | Some l =>
      if decide (l = L1 "") then
        (heap_set_finalweight h1 init wt, mkFST alph init [init] [init])
      else
        let '(target, h2) := new_State h1 None None in
        let h3 := heap_set_finalweight h2 target wt in
        let h4 := heap_add_transition h3 init target l w0 in
        (h4, mkFST (remove_dups (label_symbols l)) init
                   (list_union [init] [target]) [target])
  | None => (h1, mkFST alph init [init] [])
  end.

(** ** FST.tokenize_against_alphabet *)

(** The inner [for length in range(1, len(word) - start + 1)] loop:
    the last matching length wins. *)
Definition longest_symbol (alph : list string) (word : string) (start : nat) : string :=
  foldl (λ t len,
           if bool_decide (String.substring start len word ∈ alph)
           then String.substring start len word else t)
        (String.substring start 1 word)
        (seq 1 (String.length word - start)).

(** The outer [while start < len(word)] loop; every round advances
    [start] by at least one, so [len(word)] rounds suffice. *)
Fixpoint tokenize_loop (fuel : nat) (alph : list string) (word : string)
    (start : nat) (tokens : list string) : list string :=
  match fuel with
  | 0 => tokens
  | S fuel' =>
      if start <? String.length word then
        let t := longest_symbol alph word start in
        tokenize_loop fuel' alph word (start + String.length t) (tokens ++ [t])
      else tokens
  end.

Definition tokenize_against_alphabet (F : FST) (word : string) : list string :=
  tokenize_loop (String.length word) (alphabet F) word 0 [].

(** ** FST.apply *)

(** The heap entries [(cost, negpos, next(cntr), output, state)];
    [state = None] marks a finished path. *)
Record Item := mkItem {
  cost : W;
  negpos : Z;
  seqno : nat;
  output : list string;
  state : option nat
}.

(** Python's tuple comparison [a < b]: the first differing component
    decides.  The counter is unique per entry, so the comparison never
    reaches the output list or the state. *)
Definition item_lt (a b : Item) : bool :=
  if decide (cost a = cost b) then
    if decide (negpos a = negpos b) then seqno a <? seqno b
    else (negpos a <? negpos b)%Z
  else wlt (cost a) (cost b).

(** [heapq] is used through its contract: [heappush] adds an entry and
    [heappop] removes and returns the smallest one. *)
Definition heappush (Q : list Item) (x : Item) : list Item := x :: Q.

Fixpoint heappop (Q : list Item) : option (Item * list Item) :=
  match Q with
  | [] => None
  | x :: Q' =>
      match heappop Q' with
      | None => Some (x, [])
      | Some (m, R) => if item_lt m x then Some (m, x :: R) else Some (x, Q')
      end
  end.

Record Options := mkOptions {
  weights : bool;
  tokenize_outputs : bool;
  obey_flags : bool;
  print_flags : bool
}.

(** [generate]'s and [analyze]'s defaults *)
Definition default_options : Options := mkOptions false false true false.

(** [yield_output]: [''.join(output)] or the token list itself *)
Inductive Output := Joined (s : string) | Tokens (l : list string).

(** what is yielded: [yield_output] or [(yield_output, cost)] *)
Inductive Result := Plain (o : Output) | Weighted (o : Output) (c : W).

Context {FL : Flags}.

Section apply.
Variable h : Heap.
Variable F : FST.
Variable inverse : bool.
Variable opts : Options.
(** the tokenized word *)
Variable w : list string.

(** [lbl[IN]] and [lbl[OUT]] *)
Definition IN (lbl : Label) : string :=
  if inverse then label_last lbl else label_first lbl.
Definition OUT (lbl : Label) : string :=
  if inverse then label_first lbl else label_last lbl.

(** the search state: the heap [Q] and the next value of [cntr] *)
Local Abbreviation Config := (list Item * nat)%type.

Definition push (c : Config) (cst : W) (np : Z) (out : list string)
    (st : option nat) : Config :=
  (heappush c.1 (mkItem cst np c.2 out st), S c.2).

(** [if state in self.finalstates: heappush(...)] *)
Definition push_final (it : Item) (sid : nat) (st : State W) (c : Config) : Config :=
  if bool_decide (sid ∈ finalstates F)
  then push c (wadd (cost it) (finalweight st)) (negpos it) (output it) None
  else c.

(** the body of [for lbl, t in state.all_transitions()] *)
Definition push_transition (it : Item) (c : Config) (lt : Label * Transition W) : Config :=
  let '(lbl, t) := lt in
  if bool_decide (IN lbl = "") || is_flag (IN lbl) then
    push c (wadd (cost it) (weight t)) (negpos it)
         (output it ++ [OUT lbl]) (Some (targetstate t))
  else if (- negpos it <? Z.of_nat (length w))%Z then
    let cur := default "" (w !! Z.to_nat (- negpos it)) in
    let nextsym := if bool_decide (cur ∈ alphabet F) then cur else "." in
    let appendedsym :=
      if bool_decide (nextsym = ".") && bool_decide (OUT lbl = ".")
      then cur else OUT lbl in
    if bool_decide (nextsym = IN lbl) then
      push c (wadd (cost it) (weight t)) (negpos it - 1)
           (output it ++ [appendedsym]) (Some (targetstate t))
    else c
  else c.

(** the [elif state != None] branch *)
Definition expand (it : Item) (sid : nat) (c : Config) : Config :=
  match hstates h !! sid with
  | Some st =>
      foldl (push_transition it) (push_final it sid st c)
            (all_transitions (htrans h) st)
  | None => c
  end.

(** the value yielded for a finished entry *)
Definition yield_value (it : Item) : Result :=
  let out := if print_flags opts then output it else filter_flags (output it) in
  let yield_output :=
    if tokenize_outputs opts then Tokens out else Joined (String.concat "" out) in
  if weights opts then Weighted yield_output (cost it) else Plain yield_output.

(** the [if] condition of the loop body *)
Definition accepts (it : Item) : bool :=
  bool_decide (state it = None)
  && bool_decide ((- negpos it)%Z = Z.of_nat (length w))
  && (negb (obey_flags opts) || flag_filter (alphabet F) (output it)).

(** One round of [while Q]: [None] when the heap is empty; otherwise the
    popped entry, whether it was yielded, and the next search state. *)
Definition step (c : Config) : option (Item * bool * Config) :=
  match heappop c.1 with
  | None => None
  | Some (it, Q') =>
      if accepts it then Some (it, true, (Q', c.2))
      else match state it with
           | Some sid => Some (it, false, expand it sid (Q', c.2))
           | None => Some (it, false, (Q', c.2))
           end
  end.

(** The entries yielded during the first [n] rounds, in order, and the
    search state reached. *)
Fixpoint run (n : nat) (c : Config) : list Item * Config :=
  match n with
  | 0 => ([], c)
  | S n' =>
      match step c with
      | None => ([], c)
      | Some (it, yielded, c') =>
          let '(ys, c'') := run n' c' in
          ((if yielded then [it] else []) ++ ys, c'')
      end
  end.

(** the search state after
    [heappush(Q, (0.0, 0, next(cntr), [], self.initialstate))] *)
Definition start : Config :=
  push ([], 0) w0 0%Z [] (Some (initialstate F)).

(** the entries yielded by the first [n] rounds of the generator *)
Definition yielded (n : nat) : list Item := (run n start).1.

(** the generator has run to completion within [n] rounds *)
Definition exhausted (n : nat) : bool :=
  bool_decide ((run n start).2.1 = []).
End apply.

(** [FST.apply]: what a consumer has received after [n] rounds of the
    loop. *)
Definition apply (h : Heap) (F : FST) (word : string) (inverse : bool)
    (opts : Options) (n : nat) : list Result :=
  let w := tokenize_against_alphabet F word in
  yield_value opts <$> yielded h F inverse opts w n.

(** The whole result sequence, when the generator stops within [n]
    rounds. *)
Definition apply_all (h : Heap) (F : FST) (word : string) (inverse : bool)
    (opts : Options) (n : nat) : option (list Result) :=
  let w := tokenize_against_alphabet F word in
  if exhausted h F inverse opts w n then Some (apply h F word inverse opts n)
  else None.

(** [FST.generate] and [FST.analyze] *)
Definition generate (h : Heap) (F : FST) (word : string) (opts : Options)
    (n : nat) : list Result :=
  apply h F word false opts n.

Definition analyze (h : Heap) (F : FST) (word : string) (opts : Options)
    (n : nat) : list Result :=
  apply h F word true opts n.

End fst.

Arguments FST : clear implicits.
Arguments Heap : clear implicits.
Arguments Item : clear implicits.
Arguments Result : clear implicits.

Abbreviation Config W := (list (Item W) * nat)%type.

(** ** FST.rlg: the right-linear grammar compiler *)

(** The only exception the modelled code raises: a failed dictionary
    lookup [d[k]]. *)
Inductive Error := KeyError (k : string).

Abbreviation Exc := (sum Error).

#[export] Instance Exc_bind : MBind Exc := λ A B k m,
  match m with
  | inl e => inl e
  | inr a => k a
  end.

(** [d[k]] *)
Definition dict_lookup {V} (d : list (string * V)) (k : string) : Exc V :=
  match dict_get d k with
  | Some v => inr v
  | None => inl (KeyError k)
  end.

(** [tok_re] on a word without quotes, backslashes and newlines: every
    character is a [single] token, an unescaped space becoming the empty
    (alignment) token. *)
Fixpoint plain_tokens (w : string) : list string :=
  match w with
  | EmptyString => []
  | String c w' =>
      (if decide (c = " "%char) then "" else String c EmptyString) :: plain_tokens w'
  end.

Section rlg.
Context {W : Type} `{!Weight W}.

(** [rule[0]]: a bare string or an (input, output) pair *)
Inductive Lhs := Bare (s : string) | Pair (i o : string).

(** a rule [(lhs, target)] or [(lhs, target, weight)] *)
Record Rule := mkRule {
  rule_lhs : Lhs;
  rule_target : string;
  rule_weight : option W
}.

Local Abbreviation Grammar := (list (string * list Rule)).

(** The tokens that the [pyre.finditer(tok_re, w)] loop of
    [_rlg_tokenize] collects for a non-empty word, after the optional
    [escaper] substitution.  Python's [re] engine is outside the sources,
    so the scan is a parameter of the compiler. *)
Variable scan : string → list string.

Definition _rlg_tokenize (w : string) : list string :=
  if decide (w = "") then [""] else scan w.

(** [{name: State(name = name) for name in names}] *)
Definition make_statedict (h : Heap W) (names : list string)
    : Heap W * list (string * nat) :=
  foldl (λ '(h, sd) nm,
           let '(s, h') := new_State h None (Some nm) in
           (h', dict_set sd nm s))
        (h, []) names.

(** [itertools.zip_longest(i, o, range(n), fillvalue = '')] for
    [n = max(len(i), len(o))] *)
Definition zip_longest (i o : list string) (n : nat) : list (string * string * nat) :=
  (λ idx, (default "" (i !! idx), default "" (o !! idx), idx)) <$> seq 0 n.

Definition set_states (F : FST) (sts : list nat) : FST :=
  mkFST (alphabet F) (initialstate F) sts (finalstates F).

Definition set_alphabet (F : FST) (a : list string) : FST :=
  mkFST a (initialstate F) (states F) (finalstates F).

(** the compiler's mutable state inside a rule: the store, [newfst] and
    [currstate] *)
Local Abbreviation RuleState := (Heap W * FST * nat)%type.

(** the [if idx == max(len(i), len(o)) - 1: ... else: ...] of the loop
    body: the transition's target and weight *)
Definition position_target (statedict : list (string * nat)) (rule : Rule)
    (n idx : nat) (h : Heap W) (F : FST) : Exc (Heap W * FST * nat * W) :=
  if decide (idx = n - 1) then
    match dict_lookup statedict (rule_target rule) with
    | inr ts => inr (h, F, ts, default w0 (rule_weight rule))
    | inl e => inl e
    end
  else
    let '(ts, h') := new_State h None None in
    inr (h', set_states F (list_union (states F) [ts]), ts, w0).

(** [newtuple = (ii,) if ii == oo else (ii, oo)] *)
Definition newtuple (ii oo : string) : Label :=
  if decide (ii = oo) then L1 ii else L2 ii oo.

(** the body of the [for ii, oo, idx in zip_longest(...)] loop *)
Definition position_step (statedict : list (string * nat)) (rule : Rule)
    (n : nat) (acc : Exc RuleState) (x : string * string * nat) : Exc RuleState :=
  '(h, F, currstate) ← acc;
  let '(ii, oo, idx) := x in
  '(h1, F1, targetstate, w) ← position_target statedict rule n idx h F;
  inr (heap_add_transition h1 currstate targetstate (newtuple ii oo) w, F1, targetstate).

(** [i = _rlg_tokenize(lhs[0])] *)
Definition rule_i (rule : Rule) : list string :=
  match rule_lhs rule with
  | Bare s => _rlg_tokenize s
  | Pair s _ => _rlg_tokenize s
  end.

(** [o = i if len(lhs) == 1 else _rlg_tokenize(lhs[1])] *)
Definition rule_o (rule : Rule) : list string :=
  match rule_lhs rule with
  | Bare _ => rule_i rule
  | Pair _ s => _rlg_tokenize s
  end.

(** [{sym for sym in i + o if sym != ''}] *)
Definition rule_symbols (rule : Rule) : list string :=
  remove_dups (List.filter (λ sym, negb (bool_decide (sym = "")))
                 (rule_i rule ++ rule_o rule)).

(** the body of [for rule in grammar[lexstate]] *)
Definition compile_rule (statedict : list (string * nat)) (lexstate : string)
    (acc : Exc (Heap W * FST)) (rule : Rule) : Exc (Heap W * FST) :=
  '(h, F) ← acc;
  currstate ← dict_lookup statedict lexstate;
  let i := rule_i rule in
  let o := rule_o rule in
  let F1 := set_alphabet F (list_union (alphabet F) (rule_symbols rule)) in
  let n := max (length i) (length o) in
  '(h', F', _) ←
    foldl (position_step statedict rule n) (inr (h, F1, currstate)) (zip_longest i o n);
  inr (h', F').

(** the body of [for lexstate in statedict.keys() - {"#"}] *)
Definition compile_ruleset (grammar : Grammar) (statedict : list (string * nat))
    (acc : Exc (Heap W * FST)) (lexstate : string) : Exc (Heap W * FST) :=
  _ ← acc;
  rules ← dict_lookup grammar lexstate;
  foldl (compile_rule statedict lexstate) acc rules.

(** [FST.rlg(grammar, startsymbol)]; the rule-sets are visited in the
    order of the grammar's keys. *)
Definition rlg (h0 : Heap W) (grammar : Grammar) (startsymbol : string)
    : Exc (Heap W * FST) :=
  let '(h1, newfst) := FST_init h0 None w0 [] in
  let '(h2, statedict) :=
    make_statedict h1 (list_union (dict_keys grammar) ["#"]) in
  init ← dict_lookup statedict startsymbol;
  final ← dict_lookup statedict "#";
  let h3 := heap_set_finalweight h2 final w0 in
  let F1 := mkFST (alphabet newfst) init (remove_dups statedict.*2) [final] in
  foldl (compile_ruleset grammar statedict) (inr (h3, F1))
        (list_difference (dict_keys statedict) ["#"]).

End rlg.

Arguments Rule : clear implicits.

Abbreviation Grammar W := (list (string * list (Rule W))).

(** ** The query methods of [State] *)

Section state_queries.
Context {W : Type} `{!Weight W}.

(** [State.all_targets]:
    [{t.targetstate for tr in self.transitions.values() for t in tr}] *)
Definition all_targets (th : TStore W) (self : State W) : list nat :=
  remove_dups
    (flat_map (λ Lb : Label * list nat, omap (λ r, targetstate <$> th !! r) Lb.2)
              (transitions self)).

(** Python's [min(a, b)]: [b] when [b < a], otherwise [a] *)
Definition wmin (a b : W) : W := if wlt b a then b else a.

(** [targets[s.targetstate] = min(targets[s.targetstate], s.weight)] on a
    [defaultdict(lambda: float("inf"))] *)
Definition cheapest_step (th : TStore W) (targets : list (nat * W)) (r : nat)
    : list (nat * W) :=
  match th !! r with
  | Some s =>
      dict_set targets (targetstate s)
        (wmin (dict_get_or targets (targetstate s) winf) (weight s))
  | None => targets
  end.

(** [State.all_targets_cheapest] *)
Definition all_targets_cheapest (th : TStore W) (self : State W) : list (nat * W) :=
  foldl (λ targets (Lb : Label * list nat), foldl (cheapest_step th) targets Lb.2)
        [] (transitions self).

(** [all(len(sublabel) == 0 for sublabel in lbl)] *)
Definition is_epsilon_label (lbl : Label) : bool :=
  forallb (λ sublabel, String.length sublabel =? 0) (label_symbols lbl).

(** [State.all_epsilon_targets_cheapest] *)
Definition all_epsilon_targets_cheapest (th : TStore W) (self : State W)
    : list (nat * W) :=
  foldl (λ targets (Lb : Label * list nat),
           if is_epsilon_label Lb.1 then foldl (cheapest_step th) targets Lb.2
           else targets)
        [] (transitions self).

End state_queries.

(** ** The utility methods of [FST] *)

(** the values of [number_unnamed_states]: a counter value or a name *)
Inductive StateNum := Num (n : nat) | Name (nm : string).

#[export] Instance StateNum_eq_dec : EqDecision StateNum.
Proof. solve_decision. Defined.

Section fst_methods.
Context {W : Type} `{!Weight W}.

(** [FST.all_transitions(states)]: the generator's items
    [(state, label, transition)] in iteration order *)
Definition FST_all_transitions (h : Heap W) (sts : list nat)
    : list (nat * Label * Transition W) :=
  flat_map (λ s, match hstates h !! s with
                 | Some st =>
                     (λ lt : Label * Transition W, (s, lt.1, lt.2))
                       <$> all_transitions (htrans h) st
                 | None => []
                 end) sts.

(** the transitions map of the object behind [s] *)
Definition state_transitions (h : Heap W) (s : nat) : list (Label * list nat) :=
  match hstates h !! s with
  | Some st => transitions st
  | None => []
  end.

(** [FST.all_transitions_by_label(states)]: one item [(l, targets)] per
    label of [{l for s in states for l in s.transitions.keys()}] *)
Definition all_transitions_by_label (h : Heap W) (sts : list nat)
    : list (Label * list nat) :=
  let all_labels :=
    remove_dups (flat_map (λ s, dict_keys (state_transitions h s)) sts) in
  (λ l, (l, remove_dups
              (flat_map (λ s, omap (λ r, targetstate <$> htrans h !! r)
                                   (dict_get_or (state_transitions h s) l []))
                        sts)))
    <$> all_labels.

(** the body of the dictionary comprehension of [number_unnamed_states]:
    [id(s): (next(cntr) if s.name == None or force == True else s.name)] *)
Definition number_step (h : Heap W) (force : bool)
    (acc : list (nat * StateNum) * nat) (s : nat) : list (nat * StateNum) * nat :=
  match hstates h !! s with
  | Some st =>
      match name st with
      | Some nm =>
          if force then (dict_set acc.1 s (Num acc.2), S acc.2)
          else (dict_set acc.1 s (Name nm), acc.2)
      | None => (dict_set acc.1 s (Num acc.2), S acc.2)
      end
  | None => acc
  end.

(** [FST.number_unnamed_states(force)] *)
Definition number_unnamed_states (h : Heap W) (F : FST) (force : bool)
    : list (nat * StateNum) :=
  let ordered :=
    [initialstate F] ++ list_difference (states F) [initialstate F] in
  (foldl (number_step h force) ([], 0) ordered).1.

(** [{sym for _, lbl, _ in self.all_transitions(self.states) for sym in lbl}] *)
Definition seen_symbols (h : Heap W) (F : FST) : list string :=
  remove_dups
    (flat_map (λ x : nat * Label * Transition W, label_symbols x.1.2)
              (FST_all_transitions h (states F))).

(** [FST.cleanup_sigma] *)
Definition cleanup_sigma (h : Heap W) (F : FST) : FST :=
  let seen := seen_symbols h F in
  if bool_decide ("." ∉ seen)
  then set_alphabet F (list_intersection (alphabet F) seen)
  else F.

(** ** FST.words *)

(** the queue entries [(s, cost, seq)] *)
Local Abbreviation WordItem := (nat * W * list Label)%type.

(** One round of [while Q]: [None] when the queue is empty; otherwise what
    the round yields (at most one pair [(cost + s.finalweight, seq)]) and
    the queue after [popleft] and the [append]s. *)
Definition words_step (h : Heap W) (F : FST) (Q : list WordItem)
    : option (list (W * list Label) * list WordItem) :=
  match Q with
  | [] => None
  | (s, cost, sq) :: Q' =>
      match hstates h !! s with
      | Some st =>
          Some (if bool_decide (s ∈ finalstates F)
                then [(wadd cost (finalweight st), sq)] else [],
                Q' ++ ((λ lt : Label * Transition W,
                          (targetstate lt.2, wadd cost (weight lt.2), sq ++ [lt.1]))
                         <$> all_transitions (htrans h) st))
      | None => Some ([], Q')
      end
  end.

(** what the first [n] rounds yield, in order, and the queue reached *)
Fixpoint words_run (h : Heap W) (F : FST) (n : nat) (Q : list WordItem)
    : list (W * list Label) * list WordItem :=
  match n with
  | 0 => ([], Q)
  | S n' =>
      match words_step h F Q with
      | None => ([], Q)
      | Some (ys, Q') =>
          (ys ++ (words_run h F n' Q').1, (words_run h F n' Q').2)
      end
  end.

(** [FST.words]: what a consumer has received after [n] rounds, starting
    from [deque([(self.initialstate, 0.0, [])])] *)
Definition words (h : Heap W) (F : FST) (n : nat) : list (W * list Label) :=
  (words_run h F n [(initialstate F, w0, [])]).1.

End fst_methods.

Abbreviation WordItem W := (nat * W * list Label)%type.

(** ** FST.character_ranges *)

(** The values met by the membership test [symbol not in alphabet]: the
    loop variable is an [int], the elements of [alphabet] are the strings
    [chr(symbol)]. *)
Inductive PyVal := PyInt (n : Z) | PyStr (s : string).

#[export] Instance PyVal_eq_dec : EqDecision PyVal.
Proof. solve_decision. Defined.

Section character_ranges.
Context {W : Type} `{!Weight W}.

(** The built-in [chr] on the code points for which it is defined. *)
Variable chr : Z → string.

(** [chr(symbol)] raises [ValueError] outside [range(0x110000)] *)
Definition valid_code_point (symbol : Z) : bool :=
  (0 <=? symbol)%Z && (symbol <? 1114112)%Z.

(** [range(start, end + 1)] *)
Definition code_range (r : Z * Z) : list Z :=
  (λ k, (r.1 + Z.of_nat k)%Z) <$> seq 0 (Z.to_nat (r.2 + 1 - r.1)).

(** the symbols visited by the two nested loops, in order *)
Definition range_symbols (ranges : list (Z * Z)) : list Z :=
  flat_map code_range ranges.

(** the body of [for symbol in range(start, end + 1)]; [None] is the
    [ValueError] of [chr] *)
Definition character_ranges_step (complement : bool) (init second : nat)
    (acc : option (Heap W * list string)) (symbol : Z)
    : option (Heap W * list string) :=
  match acc with
  | None => None
  | Some (h, alphabet) =>
      if bool_decide (PyInt symbol ∉ PyStr <$> alphabet) then
        if valid_code_point symbol then
          Some (if complement then h
                else heap_add_transition h init second (L1 (chr symbol)) w0,
                list_union alphabet [chr symbol])
        else None
      else Some (h, alphabet)
  end.

(** [FST.character_ranges(ranges, complement)] *)
Definition character_ranges (h : Heap W) (ranges : list (Z * Z)) (complement : bool)
    : option (Heap W * FST) :=
  let '(h1, newfst) := FST_init h None w0 [] in
  let '(secondstate, h2) := new_State h1 None None in
  let h3 := heap_set_finalweight h2 secondstate w0 in
  match foldl (character_ranges_step complement (initialstate newfst) secondstate)
              (Some (h3, [])) (range_symbols ranges) with
  | None => None
  | Some (h4, alphabet) =>
      let h5 := if complement
                then heap_add_transition h4 (initialstate newfst) secondstate
                                         (L1 ".") w0
                else h4 in
      let alphabet' := if complement then list_union alphabet ["."] else alphabet in
      Some (h5, mkFST alphabet' (initialstate newfst)
                      (list_union (states newfst) [secondstate]) [secondstate])
  end.

End character_ranges.

(** ** Quoting of multi-character symbols *)

(** Python's [s.replace(old, new)] for a non-empty [old]: the occurrences
    of [old] are found from left to right and do not overlap; [skip]
    counts the characters of a replaced occurrence still to be passed. *)
Fixpoint str_replace_from (old new s : string) (skip : nat) : string :=
  match s with
  | EmptyString => EmptyString
  | String c s' =>
      match skip with
      | S k => str_replace_from old new s' k
      | 0 =>
          if String.prefix old s
          then new +:+ str_replace_from old new s' (String.length old - 1)
          else String c (str_replace_from old new s' 0)
      end
  end.

Definition str_replace (s old new : string) : string :=
  str_replace_from old new s 0.

(** [_multichar_replacer]: [matchobj.groups()] is [(quoted, sym)] *)
Definition _multichar_replacer (quoted : option string) (sym : string) : string :=
  match quoted with
  | Some q => q
  | None => "'" +:+ str_replace sym "'" "\'" +:+ "'"
  end.

(** [token.replace(r"\'", "'")], applied by [_rlg_tokenize] to the text
    between the quotes of a [multi] token *)
Definition multi_unquote (token : string) : string :=
  str_replace token "\'" "'".

(** ** FST.copy_filtered and FST.__copy__ *)

Section copying.
Context {W : Type} `{!Weight W}.

Definition set_name (s : State W) (nm : option string) : State W :=
  mkState (transitions s) (_transitionsin s) (_transitionsout s) (finalweight s) nm.

(** [s.name = nm] on the object behind [s] *)
Definition heap_set_name (h : Heap W) (s : nat) (nm : option string) : Heap W :=
  mkHeap (alter (λ st, set_name st nm) s (hstates h)) (htrans h).

(** [q1q2 = {k: State() for k in self.states}] *)
Definition copy_states (h : Heap W) (sts : list nat) : Heap W * list (nat * nat) :=
  foldl (λ '(h, q1q2) k,
           let '(s, h') := new_State h None None in
           (h', dict_set q1q2 k s))
        (h, []) sts.

(** [for s in self.states: q1q2[s].name = s.name]; in this and the
    following loops [None] is the [KeyError] of a lookup [q1q2[...]] *)
Definition copy_names (q1q2 : list (nat * nat)) (h : Heap W) (sts : list nat)
    : option (Heap W) :=
  foldl (λ acc s,
           h ← acc;
           s' ← dict_get q1q2 s;
           st ← hstates h !! s;
           Some (heap_set_name h s' (name st)))
        (Some h) sts.

(** the body of [for s, lbl, t in self.all_transitions(q1q2.keys())] *)
Definition copy_transition (labelfilter : Label → bool) (q1q2 : list (nat * nat))
    (acc : option (Heap W)) (x : nat * Label * Transition W) : option (Heap W) :=
  h ← acc;
  if labelfilter x.1.2 then
    s' ← dict_get q1q2 x.1.1;
    t' ← dict_get q1q2 (targetstate x.2);
    Some (heap_add_transition h s' t' x.1.2 (weight x.2))
  else Some h.

(** the loop over the transitions: the generator reads the transitions of
    a source state when it reaches that state *)
Definition copy_transitions (labelfilter : Label → bool) (q1q2 : list (nat * nat))
    (h : Heap W) : option (Heap W) :=
  foldl (λ acc s,
           h ← acc;
           foldl (copy_transition labelfilter q1q2) (Some h)
                 (FST_all_transitions h [s]))
        (Some h) (dict_keys q1q2).

(** [for s in self.finalstates: q1q2[s].finalweight = s.finalweight] *)
Definition copy_finalweights (q1q2 : list (nat * nat)) (h : Heap W)
    (fins : list nat) : option (Heap W) :=
  foldl (λ acc s,
           h ← acc;
           s' ← dict_get q1q2 s;
           st ← hstates h !! s;
           Some (heap_set_finalweight h s' (finalweight st)))
        (Some h) fins.

(** [FST.copy_filtered(labelfilter)]: the store after the copy, the new
    automaton and the dictionary [q1q2] from the states to their copies *)
Definition copy_filtered (h : Heap W) (F : FST) (labelfilter : Label → bool)
    : option (Heap W * FST * list (nat * nat)) :=
  let '(h1, newfst) := FST_init h None w0 (alphabet F) in
  let '(h2, q1q2) := copy_states h1 (states F) in
  h3 ← copy_names q1q2 h2 (states F);
  finals ← mapM (dict_get q1q2) (finalstates F);
  init ← dict_get q1q2 (initialstate F);
  h4 ← copy_transitions labelfilter q1q2 h3;
  h5 ← copy_finalweights q1q2 h4 (finalstates F);
  Some (h5,
        mkFST (alphabet newfst) init (remove_dups q1q2.*2) (remove_dups finals),
        q1q2).

(** [FST.__copy__]: [self.copy_filtered()[0]], the filter defaulting to
    [lambda x: True] *)
Definition FST_copy (h : Heap W) (F : FST) : option (Heap W * FST) :=
  (λ r : Heap W * FST * list (nat * nat), (r.1.1, r.1.2))
    <$> copy_filtered h F (λ _, true).

End copying.

(** * [FST.todict]: the export to a JSON dictionary *)

(** Python's [<] on tuples of [str]: the first position where the tuples
    differ decides, a proper prefix is smaller.  Strings are compared
    character by character ([String.ltb]). *)
Fixpoint tuple_lt (a b : list string) : bool :=
  match a, b with
  | [], [] => false
  | [], _ :: _ => true
  | _ :: _, [] => false
  | x :: a', y :: b' => if decide (x = y) then tuple_lt a' b' else String.ltb x y
  end.

Definition label_lt (a b : Label) : bool :=
  tuple_lt (label_symbols a) (label_symbols b).

(** [sorted(l, key = ...)], with [lt] the order of the keys: the sort is
    stable, so an element goes behind the elements that came before it and
    are not greater.  This is the list Python's sort returns when the keys
    are totally ordered, as tuples of strings and floats other than NaN
    are. *)
Fixpoint insert_by {A} (lt : A → A → bool) (x : A) (l : list A) : list A :=
  match l with
  | [] => [x]
  | y :: l' => if lt x y then x :: l else y :: insert_by lt x l'
  end.

Definition sorted_by {A} (lt : A → A → bool) (l : list A) : list A :=
  foldl (λ acc x, insert_by lt x acc) [] l.

(** what [todict] returns: [transitions], [alphabet] and [finals] *)
Record JsNet := mkJsNet {
  js_transitions : list (nat * list (string * list nat));
  js_alphabet : list (string * nat);
  js_finals : list (nat * nat)
}.

Section todict.
Context {W : Type} `{!Weight W}.

(** the two nested loops that both passes of [todict] run over a state:
    [for label, arcs in sorted(state.transitions.items(), key=itemgetter(0))]
    and, inside, [for arc in sorted(arcs, key=attrgetter("weight"))] *)
Definition sorted_items (h : Heap W) (s : nat)
    : list (Label * list (Transition W)) :=
  (λ item : Label * list nat,
     (item.1, sorted_by (λ a b : Transition W, wlt (weight a) (weight b))
                        (omap (λ r, htrans h !! r) item.2)))
    <$> sorted_by (λ a b : Label * list nat, label_lt a.1 b.1)
                  (state_transitions h s).

(** [if id(arc.targetstate) not in statenums: q.append(arc.targetstate)] *)
Definition number_arc (statenums : list (nat * nat)) (q : list nat)
    (arc : Transition W) : list nat :=
  if bool_decide (targetstate arc ∈ dict_keys statenums) then q
  else q ++ [targetstate arc].

(** One round of [while q] in the first pass, on the queue [q], the list
    [states] and the dictionary [statenums]; [None] when the queue is
    empty. *)
Definition number_round (h : Heap W)
    (x : list nat * list nat * list (nat * nat))
    : option (list nat * list nat * list (nat * nat)) :=
  let '(q, sts, statenums) := x in
  match q with
  | [] => None
  | state :: q' =>
      if bool_decide (state ∈ dict_keys statenums) then Some (q', sts, statenums)
      else
        let statenums' := dict_set statenums state (length sts) in
        let sts' := sts ++ [state] in
        Some (foldl (λ q item, foldl (number_arc statenums') q item.2)
                    q' (sorted_items h state),
              sts', statenums')
  end.

(** the [while] loop; [None] when the rounds allowed do not empty the
    queue, otherwise [states] and [statenums] as the loop leaves them *)
Fixpoint number_loop (h : Heap W) (fuel : nat)
    (x : list nat * list nat * list (nat * nat))
    : option (list nat * list (nat * nat)) :=
  match number_round h x with
  | None => Some (x.1.2, x.2)
  | Some x' =>
      match fuel with
      | 0 => None
      | S fuel' => number_loop h fuel' x'
      end
  end.

(** the first pass of [todict], from [q = deque([self.initialstate])] *)
Definition todict_numbering (h : Heap W) (F : FST) (fuel : nat)
    : option (list nat * list (nat * nat)) :=
  number_loop h fuel ([initialstate F], [], []).

(** [isym = osym = label[0]] for a label of one member, [isym, osym = label]
    otherwise; [None] is the [ValueError] of unpacking a longer label *)
Definition label_syms (l : Label) : option (string * string) :=
  match ltail l with
  | [] => Some (lhead l, lhead l)
  | [o] => Some (lhead l, o)
  | _ => None
  end.

(** the body of [for sym in isym, osym]; the last assignment to [sym] in
    the source has no effect *)
Definition add_symbol (alph : list (string * nat)) (sym : string)
    : list (string * nat) :=
  if decide (sym = "") then alph
  else if bool_decide (sym ∈ dict_keys alph) then alph
  else dict_set alph sym (3 + length alph).

(** [tlabel = isym if isym == osym else f"{isym}|{osym}"] *)
Definition tlabel (isym osym : string) : string :=
  if decide (isym = osym) then isym else (isym ++ "|" ++ osym)%string.

(** [transitions.setdefault(src, {}).setdefault(tlabel, []).append(n)] *)
Definition append_target (trs : list (nat * list (string * list nat)))
    (src : nat) (tl : string) (n : nat) : list (nat * list (string * list nat)) :=
  let inner := dict_get_or trs src [] in
  dict_set trs src (dict_set inner tl (dict_get_or inner tl [] ++ [n])).

(** the body of the loop over the arcs; [None] is the [KeyError] of
    [statenums[id(arc.targetstate)]] *)
Definition todict_arc (statenums : list (nat * nat)) (src : nat) (tl : string)
    (acc : option (list (nat * list (string * list nat)))) (arc : Transition W)
    : option (list (nat * list (string * list nat))) :=
  trs ← acc;
  n ← dict_get statenums (targetstate arc);
  Some (append_target trs src tl n).

(** the body of the loop over the labels of a state *)
Definition todict_item (statenums : list (nat * nat)) (src : nat)
    (acc : option (list (nat * list (string * list nat)) * list (string * nat)))
    (item : Label * list (Transition W))
    : option (list (nat * list (string * list nat)) * list (string * nat)) :=
  ta ← acc;
  io ← label_syms item.1;
  let alph := add_symbol (add_symbol ta.2 io.1) io.2 in
  trs ← foldl (todict_arc statenums src (tlabel io.1 io.2)) (Some ta.1) item.2;
  Some (trs, alph).

(** the body of [for src, state in enumerate(states)] *)
Definition todict_state (h : Heap W) (F : FST) (statenums : list (nat * nat))
    (acc : option JsNet) (x : nat * nat) : option JsNet :=
  net ← acc;
  ta ← foldl (todict_item statenums x.1)
             (Some (js_transitions net, js_alphabet net)) (sorted_items h x.2);
  Some (mkJsNet ta.1 ta.2
          (if bool_decide (x.2 ∈ finalstates F)
           then dict_set (js_finals net) x.1 1 else js_finals net)).

(** the second pass of [todict]; [None] when it raises *)
Definition todict_build (h : Heap W) (F : FST) (sts : list nat)
    (statenums : list (nat * nat)) : option JsNet :=
  foldl (todict_state h F statenums) (Some (mkJsNet [] [] [])) (imap pair sts).

(** [FST.todict]: [None] when the rounds allowed do not end the first
    pass; otherwise the dictionary returned, or [None] when the second
    pass raises *)
Definition todict (h : Heap W) (F : FST) (fuel : nat) : option (option JsNet) :=
  (λ r : list nat * list (nat * nat), todict_build h F r.1 r.2)
    <$> todict_numbering h F fuel.

End todict.

(** ** Predicates used to state the properties *)

Section predicates.
Context {W : Type} `{!Weight W}.

(** The representation invariant of [State]: the transitions map is a
    dictionary (its keys are distinct), and a reference stored under the
    key [L] points to an allocated [Transition] whose own [label] field
    is [L]. *)
Definition labels_agree (th : TStore W) (s : State W) : Prop :=
  Forall (λ Lb : Label * list nat,
            Forall (λ r, label <$> th !! r = Some Lb.1) Lb.2)
         (transitions s).

Definition State_inv (th : TStore W) (s : State W) : Prop :=
  NoDup (dict_keys (transitions s)) ∧ labels_agree th s.

(** Every reference stored in the state points into the store. *)
Definition refs_valid (th : TStore W) (s : State W) : Prop :=
  Forall (λ Lb : Label * list nat, Forall (λ r, r < length th) Lb.2)
         (transitions s).

(** what [remove_transitions_to_targets] keeps of a bucket; [None] when
    the label is dropped *)
Definition kept_entry (th : TStore W) (targets : list nat) (Lb : Label * list nat)
    : option (Label * list nat) :=
  let kept := List.filter (not_to_targets th targets) Lb.2 in
  if length kept =? 0 then None else Some (Lb.1, kept).

(** The field triples [(targetstate, label, weight)] of the transitions
    leaving a state, as [all_transitions] enumerates them. *)
Definition triples (th : TStore W) (s : State W) : list (nat * Label * W) :=
  (λ lt : Label * Transition W, (targetstate lt.2, lt.1, weight lt.2))
    <$> all_transitions th s.

End predicates.

(** Longest-match tokenization, in the words of the specification: the
    input is cut left to right; at each position the token is the longest
    alphabet symbol that matches there, and the single next character when
    no alphabet symbol matches. *)
Inductive longest_match_tokens (alph : list string) : string → list string → Prop :=
  | lmt_end : longest_match_tokens alph "" []
  | lmt_symbol t rest ts :
      t ≠ "" → t ∈ alph →
      (∀ p q, p ∈ alph → t +:+ rest = p +:+ q → String.length p ≤ String.length t) →
      longest_match_tokens alph rest ts →
      longest_match_tokens alph (t +:+ rest) (t :: ts)
  | lmt_char c rest ts :
      (∀ p q, p ∈ alph → p ≠ "" → String c rest ≠ p +:+ q) →
      longest_match_tokens alph rest ts →
      longest_match_tokens alph (String c rest) (String c "" :: ts).

Section apply_predicates.
Context {W : Type} `{!Weight W} {FL : Flags}.

(** No transition weight and no final weight of a final state is
    negative. *)
Definition nonneg_weights (h : Heap W) (F : FST) : Prop :=
  Forall (λ t : Transition W, wlt (weight t) w0 = false) (htrans h) ∧
  Forall (λ sid, match hstates h !! sid with
                 | Some st => wlt (finalweight st) w0 = false
                 | None => True
                 end) (finalstates F).

(** Two heap entries stand for the same partial path: they agree on
    everything but the insertion number. *)
Definition same_path (a b : Item W) : Prop :=
  cost a = cost b ∧ negpos a = negpos b ∧ output a = output b ∧ state a = state b.

(** [x] is one of the entries pushed when [p] is expanded. *)
Definition child (h : Heap W) (F : FST) (inverse : bool) (w : list string)
    (p x : Item W) : Prop :=
  ∃ sid x', state p = Some sid ∧
            x' ∈ (expand h F inverse w p sid ([], 0)).1 ∧ same_path x' x.

(** [leads_to ... target p]: expanding [p] and then its descendants
    reaches the entry [target]; from the initial entry, a path through the
    automaton. *)
Inductive leads_to (h : Heap W) (F : FST) (inverse : bool) (w : list string)
    (target : Item W) : Item W → Prop :=
  | leads_here p : same_path p target → leads_to h F inverse w target p
  | leads_step p x :
      child h F inverse w p x → leads_to h F inverse w target x →
      leads_to h F inverse w target p.

(** What an expansion pushes, apart from the insertion numbers: the
    cost, negated position, output and state of each new entry, in the
    order of the pushes. *)
Definition transition_data (F : FST) (inverse : bool) (w : list string)
    (it : Item W) (lt : Label * Transition W)
    : option (W * Z * list string * option nat) :=
  if bool_decide (IN inverse lt.1 = "") || is_flag (IN inverse lt.1) then
    Some (wadd (cost it) (weight lt.2), negpos it,
          output it ++ [OUT inverse lt.1], Some (targetstate lt.2))
  else if (- negpos it <? Z.of_nat (length w))%Z then
    let cur := default "" (w !! Z.to_nat (- negpos it)) in
    let nextsym := if bool_decide (cur ∈ alphabet F) then cur else "." in
    let appendedsym :=
      if bool_decide (nextsym = ".") && bool_decide (OUT inverse lt.1 = ".")
      then cur else OUT inverse lt.1 in
    if bool_decide (nextsym = IN inverse lt.1) then
      Some (wadd (cost it) (weight lt.2), (negpos it - 1)%Z,
            output it ++ [appendedsym], Some (targetstate lt.2))
    else None
  else None.

Definition expand_data (h : Heap W) (F : FST) (inverse : bool) (w : list string)
    (it : Item W) (sid : nat) : list (W * Z * list string * option nat) :=
  match hstates h !! sid with
  | Some st =>
      (if bool_decide (sid ∈ finalstates F)
       then [(wadd (cost it) (finalweight st), negpos it, output it, None)]
       else [])
      ++ omap (transition_data F inverse w it) (all_transitions (htrans h) st)
  | None => []
  end.

Definition push_data (c : Config W) (d : W * Z * list string * option nat)
    : Config W :=
  push c d.1.1.1 d.1.1.2 d.1.2 d.2.

Definition item_data (x : Item W) : W * Z * list string * option nat :=
  (cost x, negpos x, output x, state x).

(** the insertion numbers in the heap are distinct and below the counter *)
Definition counter_inv (c : Config W) : Prop :=
  NoDup (seqno <$> c.1) ∧ ∀ x, x ∈ c.1 → seqno x < c.2.

(** the entry pushed before the loop starts *)
Definition start_item (F : FST) : Item W :=
  mkItem w0 0%Z 0 [] (Some (initialstate F)).

(** entries with the same heap key *)
Definition same_key (a b : Item W) : Prop :=
  cost a = cost b ∧ negpos a = negpos b ∧ seqno a = seqno b.

(** the heap order on costs *)
Definition cost_le (a b : Item W) : Prop := wle (cost a) (cost b) = true.

End apply_predicates.

Section rlg_predicates.
Context {W : Type} `{!Weight W}.

(** pad a token sequence with epsilon fillers at the end *)
Definition pad (n : nat) (l : list string) : list string :=
  l ++ replicate (n - length l) "".

(** The transitions of one rule, in the words of the specification: both
    token sequences are padded to the same length and paired position by
    position into labels; every position but the last leads to a new
    intermediate state (the [k]-th new state is [fresh + k]) with weight
    0.0, the last one leads to the rule's target state and carries the
    rule's weight. *)
Definition rule_transitions (i o : list string) (target : nat) (wt : W)
    (fresh : nat) : list (Transition W) :=
  let n := max (length i) (length o) in
  imap (λ k io,
          if decide (k = n - 1)
          then mkTransition target (newtuple io.1 io.2) wt
          else mkTransition (fresh + k) (newtuple io.1 io.2) w0)
       (zip (pad n i) (pad n o)).

(** the state a position's transition leaves: the rule-set's state for the
    first position, the previous position's new state otherwise *)
Definition position_source (src fresh k : nat) : nat :=
  match k with
  | 0 => src
  | S k' => fresh + k'
  end.

(** [h'] keeps the states of [h], their names, and the transitions stored
    in them *)
Definition heap_extends (h h' : Heap W) : Prop :=
  ∀ j s, hstates h !! j = Some s →
    ∃ s', hstates h' !! j = Some s' ∧ name s' = name s ∧
          ∀ L r, r ∈ dict_get_or (transitions s) L [] →
                 r ∈ dict_get_or (transitions s') L [].

(** the state [id] of the store carries the name [nm] *)
Definition state_named (h : Heap W) (id : nat) (nm : option string) : Prop :=
  ∃ s, hstates h !! id = Some s ∧ name s = nm.

(** the state dictionary maps every name to the state of that name *)
Definition statedict_valid (sd : list (string * nat)) (h : Heap W) : Prop :=
  ∀ nm id, dict_get sd nm = Some id → state_named h id (Some nm).

(** the compiler's store and automaton only grow: states and their
    transitions are kept, transitions are appended to the store, states are
    added to the automaton *)
Definition grows (a b : Heap W * FST) : Prop :=
  heap_extends a.1 b.1 ∧ htrans a.1 `prefix_of` htrans b.1 ∧
  states a.2 ⊆ states b.2.

End rlg_predicates.

(** ** Concrete states and automata used as examples *)

(** a state with one transition on [a] to state 1, and its store *)
Definition th_a : TStore Z := [mkTransition 1 (L1 "a") 0%Z].
Definition s_a : State Z := mkState [(L1 "a", [0])] None None 0%Z None.

(** the same state after both indices have been looked up *)
Definition s_a_indexed : State Z := (transitionsout (transitionsin s_a).2).2.

(** the result of a compilation that succeeds *)
Definition compiled (r : Exc (Heap Z * FST)) : Heap Z * FST :=
  match r with
  | inr p => p
  | inl _ => (empty_heap, mkFST [] 0 [] [])
  end.

(** [{"Start": [(("a","x"), "#", 1), (("a","y"), "#", 2)]}]: two paths for
    the word [a], of costs 1 and 2 *)
Definition cost_grammar : Grammar Z :=
  [("Start", [mkRule (Pair "a" "x") "#" (Some 1%Z);
              mkRule (Pair "a" "y") "#" (Some 2%Z)])].
Definition cost_fst : Heap Z * FST :=
  compiled (rlg plain_tokens empty_heap cost_grammar "Start").

(** [{"Start": [(("a","x"), "#", 1), (("a","y"), "B", 2)],
      "B": [("", "#", -5)]}]: the second path ends with a negative weight *)
Definition neg_grammar : Grammar Z :=
  [("Start", [mkRule (Pair "a" "x") "#" (Some 1%Z);
              mkRule (Pair "a" "y") "B" (Some 2%Z)]);
   ("B", [mkRule (Bare "") "#" (Some (-5)%Z)])].
Definition neg_fst : Heap Z * FST :=
  compiled (rlg plain_tokens empty_heap neg_grammar "Start").

(** results with their costs *)
Definition with_weights : Options := mkOptions true false true false.

(** an automaton with an epsilon transition and a transition on [a]
    leaving the initial state, both of weight 0 *)
Definition tie_heap : Heap Z :=
  mkHeap [mkState [(L1 "", [0]); (L1 "a", [1])] None None winf None;
          mkState [] None None 0%Z None;
          mkState [] None None 0%Z None]
         [mkTransition 1 (L1 "") 0%Z; mkTransition 2 (L1 "a") 0%Z].
Definition tie_fst : FST := mkFST ["a"] 0 [0; 1; 2] [1; 2].

(** the specification's example diacritic [@U.X.Y@] as the only flag *)
Definition one_flag : Flags := {|
  is_flag := λ s, bool_decide (s = "@U.X.Y@");
  flag_filter := λ _ _, true
|}.

(** [FST(label = (x,))] built in an empty store *)
Definition acceptor (x : string) : Heap Z * FST :=
  FST_init empty_heap (Some (L1 x)) 0%Z [].

(** [{"Start": [("a", "#")], "#": [("b", "Nowhere")]}]: the rule kept under
    the terminal name continues to a rule-set that is not declared *)
Definition hash_grammar : Grammar Z :=
  [("Start", [mkRule (Bare "a") "#" None]);
   ("#", [mkRule (Bare "b") "Nowhere" None])].

(** [{"Start": [("a", "Nowhere")]}] *)
Definition undeclared_grammar : Grammar Z :=
  [("Start", [mkRule (Bare "a") "Nowhere" None])].

(** [{"Start": [(("ab", "x"), "#", 3)]}] *)
Definition rule_ab_x : Rule Z := mkRule (Pair "ab" "x") "#" (Some 3%Z).
Definition ab_grammar : Grammar Z := [("Start", [rule_ab_x])].
Definition ab_fst : Heap Z * FST :=
  compiled (rlg plain_tokens empty_heap ab_grammar "Start").

(** ** Predicates and examples for the further properties *)

Section cheapest_predicates.
Context {W : Type} `{!Weight W}.

(** the weights of the transitions among [rs] that lead to [q], in order *)
Definition weights_to (th : TStore W) (q : nat) (rs : list nat) : list W :=
  omap (λ r, match th !! r with
             | Some t => if decide (targetstate t = q) then Some (weight t) else None
             | None => None
             end) rs.

(** the references stored under the labels that satisfy [P], in order *)
Definition refs_under (P : Label → bool) (tr : list (Label * list nat)) : list nat :=
  flat_map (λ Lb : Label * list nat, if P Lb.1 then Lb.2 else []) tr.

End cheapest_predicates.

(** a state with two epsilon transitions, to the states 1 (weight 5) and 2
    (weight 7), and a transition on [a] to state 1 (weight 3) *)
Definition th_eps : TStore Z :=
  [mkTransition 1 (L1 "") 5%Z; mkTransition 1 (L1 "a") 3%Z;
   mkTransition 2 (L1 "") 7%Z].
Definition s_eps : State Z :=
  mkState [(L1 "", [0; 2]); (L1 "a", [1])] None None winf None.

Section words_predicates.
Context {W : Type} `{!Weight W}.

(** [walk h s0 s c p]: following transitions from the state [s0] one
    reaches the state [s]; [p] lists the labels passed, and [c] is the sum
    of the weights, added from left to right starting from 0.0. *)
Inductive walk (h : Heap W) (s0 : nat) : nat → W → list Label → Prop :=
  | walk_start : walk h s0 s0 w0 []
  | walk_snoc s c p st lbl t :
      walk h s0 s c p →
      hstates h !! s = Some st →
      (lbl, t) ∈ all_transitions (htrans h) st →
      walk h s0 (targetstate t) (wadd c (weight t)) (p ++ [lbl]).

(** the queue entry stands for a walk from the initial state *)
Definition is_walk (h : Heap W) (F : FST) (x : WordItem W) : Prop :=
  walk h (initialstate F) x.1.1 x.1.2 x.2.

(** the entries of the queue are ordered by the length of their label
    sequences, which are [d] or [d + 1] long *)
Definition level_sorted (d : nat) (Q : list (WordItem W)) : Prop :=
  Forall (λ x : WordItem W, d ≤ length x.2 ≤ d + 1) Q ∧
  StronglySorted (λ a b : WordItem W, length a.2 ≤ length b.2) Q.

End words_predicates.

Section words_accepted.
Context {W : Type} `{!Weight W}.

(** [(c, p)] is the cost and the label sequence of a walk from the initial
    state to a final state, the final weight added last *)
Definition accepted (h : Heap W) (F : FST) (y : W * list Label) : Prop :=
  ∃ s st c0,
    walk h (initialstate F) s c0 y.2 ∧ s ∈ finalstates F ∧
    hstates h !! s = Some st ∧ y.1 = wadd c0 (finalweight st).

End words_accepted.

Section presentation.
Context {W : Type}.

(** a result without its cost *)
Definition drop_cost (r : Result W) : Result W :=
  match r with
  | Plain o => Plain o
  | Weighted o _ => Plain o
  end.

(** a result with its tokens joined into one string *)
Definition join_result (r : Result W) : Result W :=
  let join o := match o with
                | Joined s => Joined s
                | Tokens l => Joined (String.concat "" l)
                end in
  match r with
  | Plain o => Plain (join o)
  | Weighted o c => Weighted (join o) c
  end.

End presentation.

Section apply_shapes.
Context {W : Type} `{!Weight W}.

(** every label used as a key in the store has exactly one member *)
Definition single_member_labels (h : Heap W) : Prop :=
  ∀ s st L, hstates h !! s = Some st → L ∈ dict_keys (transitions st) → ltail L = [].

(** no label used as a key in the store has the symbol [sym] on its input
    side *)
Definition no_input_symbol (h : Heap W) (inverse : bool) (sym : string) : Prop :=
  ∀ s st L, hstates h !! s = Some st → L ∈ dict_keys (transitions st) →
            IN inverse L ≠ sym.

End apply_shapes.

Section rlg_shape.
Context {W : Type} `{!Weight W}.

(** [h'] keeps the states of [h] with their final weights *)
Definition finalweights_kept (h h' : Heap W) : Prop :=
  ∀ j s, hstates h !! j = Some s →
         ∃ s', hstates h' !! j = Some s' ∧ finalweight s' = finalweight s.

(** the rule has at least one token position *)
Definition has_position (scan : string → list string) (rule : Rule W) : Prop :=
  0 < max (length (rule_i scan rule)) (length (rule_o scan rule)).

(** the name is a key of the grammar or the terminal name [#] *)
Definition declared (grammar : Grammar W) (nm : string) : Prop :=
  nm ∈ dict_keys grammar ∨ nm = "#".

End rlg_shape.

Section bucket_items.
Context {W : Type} `{!Weight W}.

(** the items that [all_transitions] yields for one entry of the
    transitions map *)
Definition bucket_items (th : TStore W) (Lb : Label * list nat)
    : list (Label * Transition W) :=
  omap (λ r, (λ t, (Lb.1, t)) <$> th !! r) Lb.2.

(** the sequence of [add_transition] calls made by [character_ranges] on
    the initial state *)
Definition add_labels (h : Heap W) (init second : nat) (labels : list string)
    : Heap W :=
  foldl (λ h sym, heap_add_transition h init second (L1 sym) w0) h labels.

End bucket_items.

Section apply_paths.
Context {W : Type} `{!Weight W} {FL : Flags}.

(** [consumes F inverse w p pos out]: reading the labels [p] one after
    the other against the tokens [w] is possible, reaches the position
    [pos] and collects the output [out].  A label whose input side is
    empty or a flag diacritic reads nothing; any other label reads the next
    token, which it must equal, the wildcard [.] standing for every token
    outside the alphabet. *)
Inductive consumes (F : FST) (inverse : bool) (w : list string)
    : list Label → nat → list string → Prop :=
  | consumes_nil : consumes F inverse w [] 0 []
  | consumes_epsilon p pos out lbl :
      consumes F inverse w p pos out →
      IN inverse lbl = "" ∨ is_flag (IN inverse lbl) = true →
      consumes F inverse w (p ++ [lbl]) pos (out ++ [OUT inverse lbl])
  | consumes_symbol p pos out lbl tok :
      consumes F inverse w p pos out →
      IN inverse lbl ≠ "" →
      is_flag (IN inverse lbl) = false →
      w !! pos = Some tok →
      (if bool_decide (tok ∈ alphabet F) then tok else ".") = IN inverse lbl →
      consumes F inverse w (p ++ [lbl]) (S pos)
        (out ++ [if bool_decide (IN inverse lbl = ".")
                    && bool_decide (OUT inverse lbl = ".")
                 then tok else OUT inverse lbl]).

(** the heap entry [x] stands for a walk from the initial state that has
    read the first [-negpos] tokens; a finished entry ([state = None])
    stands for a walk to a final state whose final weight is included in
    the cost *)
Definition tracked (h : Heap W) (F : FST) (inverse : bool) (w : list string)
    (x : Item W) : Prop :=
  (negpos x ≤ 0)%Z ∧
  match state x with
  | Some s =>
      ∃ p, walk h (initialstate F) s (cost x) p ∧
           consumes F inverse w p (Z.to_nat (- negpos x)) (output x)
  | None =>
      ∃ p s st c0,
        walk h (initialstate F) s c0 p ∧ s ∈ finalstates F ∧
        hstates h !! s = Some st ∧ cost x = wadd c0 (finalweight st) ∧
        consumes F inverse w p (Z.to_nat (- negpos x)) (output x)
  end.

End apply_paths.

Section copy_predicates.
Context {W : Type} `{!Weight W}.

(** the items of the source state [s] among the triples enumerated so
    far *)
Definition items_of (processed : list (nat * Label * Transition W)) (s : nat)
    : list (Label * Transition W) :=
  omap (λ x : nat * Label * Transition W,
          if decide (x.1.1 = s) then Some (x.1.2, x.2) else None) processed.

(** the copy of an item: the same label and weight, the target replaced
    by its copy *)
Definition copied_item (q1q2 : list (nat * nat)) (x : Label * Transition W)
    : option (Label * Transition W) :=
  (λ t', (x.1, mkTransition t' x.1 (weight x.2))) <$> dict_get q1q2 (targetstate x.2).

(** what the copy of a state holds once the items [its] of the state have
    been visited: the copies of those whose label passes the filter *)
Definition copied_items (labelfilter : Label → bool) (q1q2 : list (nat * nat))
    (its : list (Label * Transition W)) : list (Label * Transition W) :=
  omap (copied_item q1q2) (List.filter (λ x, labelfilter x.1) its).

(** The automaton is closed: its set of states holds the initial state,
    the final states and the target of every transition, and every state
    is an object of the store whose transitions are objects of the store. *)
Definition closed_automaton (h : Heap W) (F : FST) : Prop :=
  NoDup (states F) ∧ initialstate F ∈ states F ∧
  (∀ s, s ∈ finalstates F → s ∈ states F) ∧
  ∀ s, s ∈ states F →
    ∃ st, hstates h !! s = Some st ∧ refs_valid (htrans h) st ∧
          ∀ lt, lt ∈ all_transitions (htrans h) st → targetstate lt.2 ∈ states F.

(** the copies are distinct objects allocated after the objects of [h] *)
Definition fresh_copies (h : Heap W) (q1q2 : list (nat * nat)) : Prop :=
  NoDup (dict_keys q1q2) ∧ NoDup q1q2.*2 ∧
  ∀ s s', (s, s') ∈ q1q2 → length (hstates h) ≤ s'.

(** the invariant of the loop over the transitions: the source objects are
    untouched, and the copy of every state holds the copies of the items
    visited so far *)
Definition copy_inv (h : Heap W) (q1q2 : list (nat * nat))
    (labelfilter : Label → bool) (hc : Heap W)
    (processed : list (nat * Label * Transition W)) : Prop :=
  hstates h `prefix_of` hstates hc ∧ htrans h `prefix_of` htrans hc ∧
  ∀ s s', dict_get q1q2 s = Some s' →
    ∃ st st', hstates h !! s = Some st ∧ hstates hc !! s' = Some st' ∧
      name st' = name st ∧ finalweight st' = winf ∧
      refs_valid (htrans hc) st' ∧
      all_transitions (htrans hc) st'
        ≡ₚ copied_items labelfilter q1q2 (items_of processed s).

End copy_predicates.

Section todict_spec.
Context {W : Type} `{!Weight W}.

(** following transitions from [s0] one reaches [s] *)
Definition reachable (h : Heap W) (s0 s : nat) : Prop :=
  ∃ c p, walk h s0 s c p.

(** the arcs of a state in the order the loops of [todict] visit them *)
Definition arcs (h : Heap W) (s : nat) : list (Transition W) :=
  concat (sorted_items h s).*2.

(** the transitions of a state with the labels they are filed under *)
Definition FST_labelled_arcs (h : Heap W) (s : nat) : list (Label * Transition W) :=
  match hstates h !! s with
  | Some st => all_transitions (htrans h) st
  | None => []
  end.

(** the number of transitions of all the states of the store *)
Definition total_arcs (h : Heap W) : nat :=
  sum_list ((λ st, length (all_transitions (htrans h) st)) <$> hstates h).

(** the arcs of the states of the store that are not numbered yet *)
Definition arcs_left (h : Heap W) (sts : list nat) : nat :=
  sum_list ((λ s, if bool_decide (s ∈ sts) then 0 else length (arcs h s))
              <$> seq 0 (length (hstates h))).

(** what holds of the queue, the list of states and the dictionary of their
    numbers before every round of the first pass *)
Definition numbering_inv (h : Heap W) (F : FST)
    (x : list nat * list nat * list (nat * nat)) : Prop :=
  let '(q, sts, statenums) := x in
  statenums = zip sts (seq 0 (length sts)) ∧
  NoDup sts ∧
  (∀ s, s ∈ sts ++ q → reachable h (initialstate F) s) ∧
  head (sts ++ q) = Some (initialstate F) ∧
  ∀ s t, s ∈ sts → t ∈ arcs h s → targetstate t ∈ sts ++ q.

(** [transitions.get(src, {}).get(tl, [])] *)
Definition tr_list (trs : list (nat * list (string * list nat)))
    (src : nat) (tl : string) : list nat :=
  dict_get_or (dict_get_or trs src []) tl [].

(** the symbol table numbers its symbols 3, 4, ... in the order of their
    insertion and does not hold the empty symbol *)
Definition alph_ok (al : list (string * nat)) : Prop :=
  al.*2 = seq 3 (length al) ∧ "" ∉ dict_keys al.

(** the entry that [todict] files a label under; the empty string for a
    label that cannot be unpacked *)
Definition tlabel_of (L : Label) : string :=
  match label_syms L with
  | Some io => tlabel io.1 io.2
  | None => ""
  end.

(** what the second pass has built after the states [xs], given with their
    numbers, starting from the dictionaries of [net0] *)
Definition build_inv (h : Heap W) (F : FST) (statenums : list (nat * nat))
    (net0 net : JsNet) (xs : list (nat * nat)) : Prop :=
  (alph_ok (js_alphabet net0) → alph_ok (js_alphabet net)) ∧
  (∀ x, x ∈ dict_keys (js_alphabet net) ↔
        x ∈ dict_keys (js_alphabet net0) ∨
        (x ≠ "" ∧ ∃ k s L b, (k, s) ∈ xs ∧ (L, b) ∈ state_transitions h s ∧
                             x ∈ label_symbols L)) ∧
  ((∀ k v, dict_get (js_finals net0) k = Some v → v = 1) →
   ∀ k v, dict_get (js_finals net) k = Some v → v = 1) ∧
  (∀ k, is_Some (dict_get (js_finals net) k) ↔
        is_Some (dict_get (js_finals net0) k) ∨
        ∃ s, (k, s) ∈ xs ∧ s ∈ finalstates F) ∧
  ∀ src tl n, n ∈ tr_list (js_transitions net) src tl ↔
     n ∈ tr_list (js_transitions net0) src tl ∨
     ∃ s t L, (src, s) ∈ xs ∧ (L, t) ∈ FST_labelled_arcs h s ∧
              tlabel_of L = tl ∧ dict_get statenums (targetstate t) = Some n.

End todict_spec.

Section rlg_layout.
Context {W : Type} `{!Weight W}.
Variable scan : string → list string.

(** the number of positions of a rule: the length of the longer of its two
    token sequences *)
Definition rule_positions (rule : Rule W) : nat :=
  max (length (rule_i scan rule)) (length (rule_o scan rule)).

(** the number of transitions that the rules [rs] add to the store, and
    the number of intermediate states they allocate *)
Definition positions_of (rs : list (Rule W)) : nat :=
  sum_list (rule_positions <$> rs).

Definition intermediates_of (rs : list (Rule W)) : nat :=
  sum_list ((λ r, rule_positions r - 1) <$> rs).

(** the rules of the rule-sets of [g], the rule-set named [#] apart, in the
    order of [g] *)
Definition ruleset_rules (g : Grammar W) : list (Rule W) :=
  concat (snd <$> List.filter (λ e : string * list (Rule W),
                                 negb (bool_decide (e.1 = "#"))) g).

(** the rules compiled before a rule: those of the rule-sets [g1] that
    come before its own rule-set in the grammar, then the rules [rs1] that
    come before it in its rule-set *)
Definition compiled_before (g1 : Grammar W) (rs1 : list (Rule W)) : list (Rule W) :=
  ruleset_rules g1 ++ rs1.

(** What compiling the rules [rs] one after the other does to the store
    and the automaton [a], with [b] the result: [rs] add their transitions
    and intermediate states and nothing else; the states of [a] keep their
    names and transitions, those from [nb] on are not touched at all; a
    new transition leads to a state below [nb] or to a new state. *)
Definition compiled_run (nb : nat) (rs : list (Rule W)) (a b : Heap W * FST)
    : Prop :=
  length (htrans b.1) = length (htrans a.1) + positions_of rs ∧
  length (hstates b.1) = length (hstates a.1) + intermediates_of rs ∧
  grows a b ∧
  finalstates b.2 = finalstates a.2 ∧
  (∀ j, nb ≤ j → j < length (hstates a.1) → hstates b.1 !! j = hstates a.1 !! j) ∧
  (∀ r t, htrans b.1 !! r = Some t → length (htrans a.1) ≤ r →
          (targetstate t < nb ∨ length (hstates a.1) ≤ targetstate t) ∧
          targetstate t < length (hstates b.1)).

End rlg_layout.

(** * Properties *)

(** ** Dictionaries *)

Section dict_lemmas.
Context {K V : Type} `{EqDecision K}.
Implicit Types (d : list (K * V)) (k : K) (v : V).

Lemma dict_get_Some_elem d k v : dict_get d k = Some v → (k, v) ∈ d.
Proof.
  induction d as [|[k' v'] d IH]; simpl; [done|].
  case_decide; intros Hg.
  - simplify_eq. left.
  - right. by apply IH.
Qed.

Lemma dict_get_None d k : dict_get d k = None ↔ k ∉ dict_keys d.
Proof.
  unfold dict_keys. induction d as [|[k' v'] d IH]; simpl.
  - split; [intros _; apply not_elem_of_nil | done].
  - rewrite not_elem_of_cons. case_decide; split; try done.
    + intros [? _]. congruence.
    + intros ?. split; [congruence | by apply IH].
    + intros [_ ?]. by apply IH.
Qed.

Lemma dict_get_elem d k v :
  NoDup (dict_keys d) → (k, v) ∈ d → dict_get d k = Some v.
Proof.
  unfold dict_keys. induction d as [|[k' v'] d IH]; simpl; intros Hnd Hin.
  - by apply elem_of_nil in Hin.
  - apply NoDup_cons in Hnd as [Hk Hnd]. apply elem_of_cons in Hin as [Heq|Hin].
    + simplify_eq. by rewrite decide_True.
    + case_decide; [|by apply IH]. subst. exfalso. apply Hk.
      apply list_elem_of_fmap. by exists (k, v).
Qed.

Lemma dict_get_set_eq d k v : dict_get (dict_set d k v) k = Some v.
Proof.
  induction d as [|[k' v'] d IH]; simpl.
  - by rewrite decide_True.
  - case_decide; simpl; [by rewrite decide_True | by rewrite decide_False].
Qed.

Lemma dict_get_set_ne d k k' v :
  k ≠ k' → dict_get (dict_set d k v) k' = dict_get d k'.
Proof.
  intros Hne. induction d as [|[k0 v0] d IH]; simpl.
  - by rewrite decide_False.
  - case_decide; simpl.
    + subst. by rewrite !decide_False.
    + by rewrite IH.
Qed.

Lemma dict_set_fresh d k v : k ∉ dict_keys d → dict_set d k v = d ++ [(k, v)].
Proof.
  unfold dict_keys. induction d as [|[k' v'] d IH]; simpl; [done|].
  rewrite not_elem_of_cons. intros [Hne Hk].
  rewrite decide_False by done. by rewrite IH.
Qed.

Lemma dict_keys_set_present d k v :
  k ∈ dict_keys d → dict_keys (dict_set d k v) = dict_keys d.
Proof.
  unfold dict_keys. induction d as [|[k' v'] d IH]; simpl; intros Hin.
  - by apply elem_of_nil in Hin.
  - case_decide; simpl; [done|]. f_equal. apply IH.
    apply elem_of_cons in Hin as [?|?]; [congruence | done].
Qed.

Lemma dict_keys_set d k v :
  dict_keys (dict_set d k v) =
    if decide (k ∈ dict_keys d) then dict_keys d else dict_keys d ++ [k].
Proof.
  case_decide.
  - by apply dict_keys_set_present.
  - rewrite dict_set_fresh by done. unfold dict_keys. by rewrite fmap_app.
Qed.

Lemma dict_set_NoDup d k v :
  NoDup (dict_keys d) → NoDup (dict_keys (dict_set d k v)).
Proof.
  intros Hnd. rewrite dict_keys_set. case_decide; [done|].
  apply NoDup_app. split_and!; [done | | apply NoDup_singleton].
  intros x Hx Hx'. apply list_elem_of_singleton in Hx'. by subst.
Qed.

Lemma elem_of_dict_set d k v k' v' :
  (k', v') ∈ dict_set d k v → (k' = k ∧ v' = v) ∨ (k', v') ∈ d.
Proof.
  induction d as [|[k0 v0] d IH]; simpl.
  - intros Hin. apply list_elem_of_singleton in Hin. left. by simplify_eq.
  - case_decide; intros Hin; apply elem_of_cons in Hin as [Heq|Hin].
    + left. by simplify_eq.
    + right. by right.
    + right. simplify_eq. left.
    + destruct (IH Hin) as [?|?]; [by left | right; by right].
Qed.

Lemma elem_of_dict_set_ne d k v k' v' :
  k' ≠ k → (k', v') ∈ d → (k', v') ∈ dict_set d k v.
Proof.
  intros Hne. induction d as [|[k0 v0] d IH]; simpl.
  - intros Hin. by apply elem_of_nil in Hin.
  - intros Hin. apply elem_of_cons in Hin as [Heq|Hin].
    + simplify_eq. rewrite decide_False by done. left.
    + case_decide; right; [done | by apply IH].
Qed.

Lemma elem_of_dict_pop d k x : x ∈ dict_pop d k → x ∈ d.
Proof.
  induction d as [|[k0 v0] d IH]; simpl; [done|].
  case_decide; intros Hin.
  - by right.
  - apply elem_of_cons in Hin as [->|Hin]; [left | right; by apply IH].
Qed.

Lemma dict_keys_pop_subseteq d k : dict_keys (dict_pop d k) ⊆ dict_keys d.
Proof.
  unfold dict_keys. intros x Hx. apply list_elem_of_fmap in Hx as [y [-> Hy]].
  apply list_elem_of_fmap. exists y. split; [done|]. by eapply elem_of_dict_pop.
Qed.

Lemma dict_pop_NoDup d k :
  NoDup (dict_keys d) → NoDup (dict_keys (dict_pop d k)).
Proof.
  unfold dict_keys. induction d as [|[k0 v0] d IH]; simpl; [done|].
  intros Hnd. apply NoDup_cons in Hnd as [Hk Hnd].
  case_decide; [done|]. simpl. apply NoDup_cons. split; [|by apply IH].
  intros Hin. apply Hk. by apply (dict_keys_pop_subseteq d k).
Qed.

Lemma dict_pop_key_gone d k :
  NoDup (dict_keys d) → k ∉ dict_keys (dict_pop d k).
Proof.
  unfold dict_keys. induction d as [|[k0 v0] d IH]; simpl.
  - intros _. apply not_elem_of_nil.
  - intros Hnd. apply NoDup_cons in Hnd as [Hk Hnd].
    case_decide; [by subst|]. simpl. apply not_elem_of_cons. split; [done|].
    by apply IH.
Qed.

Lemma elem_of_dict_pop_ne d k k' v' :
  k' ≠ k → (k', v') ∈ d → (k', v') ∈ dict_pop d k.
Proof.
  intros Hne. induction d as [|[k0 v0] d IH]; simpl; [done|].
  intros Hin. apply elem_of_cons in Hin as [Heq|Hin].
  - simplify_eq. rewrite decide_False by done. left.
  - case_decide; [done|]. right. by apply IH.
Qed.

Lemma dict_pop_snoc d k v : k ∉ dict_keys d → dict_pop (d ++ [(k, v)]) k = d.
Proof.
  unfold dict_keys. induction d as [|[k0 v0] d IH]; simpl.
  - intros _. by rewrite decide_True.
  - rewrite not_elem_of_cons. intros [Hne Hk].
    rewrite decide_False by done. by rewrite IH.
Qed.

End dict_lemmas.

(** ** The State class *)

Section state_lemmas.
Context {W : Type} `{!Weight W}.
Implicit Types (th : TStore W) (s self : State W) (lbl L : Label).

Lemma labels_agree_alt th s :
  labels_agree th s ↔
  ∀ L b r, (L, b) ∈ transitions s → r ∈ b → label <$> th !! r = Some L.
Proof.
  unfold labels_agree. rewrite Forall_forall. split.
  - intros Hall L b r Hin Hr. specialize (Hall _ Hin). simpl in Hall.
    rewrite Forall_forall in Hall. by apply Hall.
  - intros Hall [L b] Hin. apply Forall_forall. intros r Hr. by eapply Hall.
Qed.

Lemma refs_valid_alt th s :
  refs_valid th s ↔ ∀ L b r, (L, b) ∈ transitions s → r ∈ b → r < length th.
Proof.
  unfold refs_valid. rewrite Forall_forall. split.
  - intros Hall L b r Hin Hr. specialize (Hall _ Hin). simpl in Hall.
    rewrite Forall_forall in Hall. by apply Hall.
  - intros Hall [L b] Hin. apply Forall_forall. intros r Hr. by eapply Hall.
Qed.

Lemma labels_agree_refs_valid th s : labels_agree th s → refs_valid th s.
Proof.
  rewrite labels_agree_alt, refs_valid_alt. intros Hall L b r Hin Hr.
  specialize (Hall L b r Hin Hr). destruct (th !! r) eqn:E; [|done].
  by eapply lookup_lt_Some.
Qed.

Lemma dict_get_or_elem (d : list (Label * list nat)) L r :
  r ∈ dict_get_or d L [] → ∃ b, (L, b) ∈ d ∧ dict_get d L = Some b ∧ r ∈ b.
Proof.
  unfold dict_get_or. destruct (dict_get d L) as [b|] eqn:E; simpl.
  - intros Hr. exists b. split_and!; [by apply dict_get_Some_elem | done | done].
  - intros Hr. by apply elem_of_nil in Hr.
Qed.

(** the store after relabelling the transitions in [moved] *)
Lemma foldl_set_label_lookup new moved th r :
  foldl (set_label new) th moved !! r =
    (if decide (r ∈ moved)
     then (λ t, mkTransition (targetstate t) new (weight t)) else id) <$> th !! r.
Proof.
  revert th. induction moved as [|a moved IH]; intros th.
  - destruct (decide (r ∈ [])) as [Hin|_]; [by apply elem_of_nil in Hin|].
    simpl. by destruct (th !! r).
  - change (foldl (set_label new) th (a :: moved))
      with (foldl (set_label new) (set_label new th a) moved).
    rewrite IH. unfold set_label.
    destruct (decide (a = r)) as [->|Hne].
    + rewrite list_lookup_alter_eq.
      destruct (decide (r ∈ r :: moved)) as [_|Hn]; [|exfalso; apply Hn; left].
      destruct (th !! r); simpl; [|done]. by case_decide.
    + rewrite list_lookup_alter_ne by done.
      destruct (decide (r ∈ moved)) as [Hin|Hnin];
        destruct (decide (r ∈ a :: moved)) as [Hin'|Hnin']; try done.
      * exfalso. apply Hnin'. by right.
      * exfalso. apply elem_of_cons in Hin' as [?|?]; [congruence | done].
Qed.

Lemma list_difference_disjoint {A} `{EqDecision A} (l k : list A) :
  (∀ x, x ∈ l → x ∉ k) → list_difference l k = l.
Proof.
  induction l as [|a l IH]; simpl; intros Hd; [done|].
  destruct (decide_rel elem_of a k) as [Hin|Hnin].
  - exfalso. revert Hin. apply Hd. left.
  - f_equal. apply IH. intros x Hx. apply Hd. by right.
Qed.

Lemma remove_fold_eq th targets (tr acc : list (Label * list nat)) :
  NoDup (dict_keys tr) →
  (∀ k, k ∈ dict_keys tr → k ∉ dict_keys acc) →
  foldl (remove_step th targets) acc tr = acc ++ omap (kept_entry th targets) tr.
Proof.
  revert acc. induction tr as [|[lbl trs] tr IH]; intros acc Hnd Hdisj.
  - simpl. by rewrite app_nil_r.
  - apply NoDup_cons in Hnd as [Hk Hnd].
    assert (lbl ∉ dict_keys acc) as Hfresh by (apply Hdisj; left).
    change (foldl (remove_step th targets) acc ((lbl, trs) :: tr))
      with (foldl (remove_step th targets) (remove_step th targets acc (lbl, trs)) tr).
    change (omap (kept_entry th targets) ((lbl, trs) :: tr))
      with (match kept_entry th targets (lbl, trs) with
            | Some y => y :: omap (kept_entry th targets) tr
            | None => omap (kept_entry th targets) tr
            end).
    unfold remove_step, kept_entry. cbn [fst snd].
    rewrite dict_set_fresh by done.
    destruct (length (List.filter (not_to_targets th targets) trs) =? 0) eqn:E.
    + rewrite dict_pop_snoc by done. apply IH; [done|].
      intros k Hin. apply Hdisj. by right.
    + rewrite IH; [by rewrite <- app_assoc | done |].
      intros k Hin. unfold dict_keys. rewrite fmap_app. simpl.
      rewrite elem_of_app, list_elem_of_singleton. intros [Hacc | ->].
      * revert Hacc. apply Hdisj. by right.
      * done.
Qed.

Lemma remove_transitions_eq th self targets :
  NoDup (dict_keys (transitions self)) →
  transitions (remove_transitions_to_targets th self targets)
    = omap (kept_entry th targets) (transitions self).
Proof.
  intros Hnd. unfold remove_transitions_to_targets. simpl.
  rewrite remove_fold_eq; [done | done |].
  intros k _. apply not_elem_of_nil.
Qed.

Lemma kept_keys_subseteq th targets (tr : list (Label * list nat)) :
  dict_keys (omap (kept_entry th targets) tr) ⊆ dict_keys tr.
Proof.
  unfold dict_keys. intros k Hk. apply list_elem_of_fmap in Hk as [[L b] [-> Hin]].
  apply list_elem_of_omap in Hin as [[L0 b0] [Hin Hke]].
  unfold kept_entry in Hke. simpl in Hke. case_match; simplify_eq.
  apply list_elem_of_fmap. by exists (L, b0).
Qed.

Lemma omap_kept_cons th targets L b (tr : list (Label * list nat)) :
  omap (kept_entry th targets) ((L, b) :: tr) =
    if length (List.filter (not_to_targets th targets) b) =? 0
    then omap (kept_entry th targets) tr
    else (L, List.filter (not_to_targets th targets) b)
           :: omap (kept_entry th targets) tr.
Proof.
  change (omap (kept_entry th targets) ((L, b) :: tr))
    with (match kept_entry th targets (L, b) with
          | Some y => y :: omap (kept_entry th targets) tr
          | None => omap (kept_entry th targets) tr
          end).
  unfold kept_entry at 1. cbn [fst snd].
  by destruct (length (List.filter (not_to_targets th targets) b) =? 0).
Qed.

Lemma kept_keys_NoDup th targets (tr : list (Label * list nat)) :
  NoDup (dict_keys tr) → NoDup (dict_keys (omap (kept_entry th targets) tr)).
Proof.
  induction tr as [|[L b] tr IH]; [done|].
  intros Hnd. apply NoDup_cons in Hnd as [Hk Hnd].
  rewrite omap_kept_cons. case_match; [by apply IH|].
  apply NoDup_cons. split; [|by apply IH].
  intros Hin. apply Hk. by apply (kept_keys_subseteq th targets tr).
Qed.

Lemma kept_bucket th targets (tr : list (Label * list nat)) L :
  NoDup (dict_keys tr) →
  dict_get_or (omap (kept_entry th targets) tr) L []
    = List.filter (not_to_targets th targets) (dict_get_or tr L []).
Proof.
  unfold dict_get_or.
  induction tr as [|[L0 b0] tr IH]; [done|].
  intros Hnd. apply NoDup_cons in Hnd as [Hk Hnd].
  rewrite omap_kept_cons.
  destruct (decide (L0 = L)) as [->|Hne].
  - assert (dict_get (omap (kept_entry th targets) tr) L = None) as Hnone.
    { apply dict_get_None. intros Hin. apply Hk.
      by apply (kept_keys_subseteq th targets tr). }
    destruct (length (List.filter (not_to_targets th targets) b0) =? 0) eqn:E.
    + rewrite Hnone. cbn [dict_get]. rewrite decide_True by done. simpl.
      apply Nat.eqb_eq in E.
      by destruct (List.filter (not_to_targets th targets) b0).
    + cbn [dict_get]. by rewrite !decide_True by done.
  - case_match.
    + rewrite IH by done. cbn [dict_get]. by rewrite decide_False by done.
    + cbn [dict_get]. rewrite !decide_False by done. by apply IH.
Qed.

Lemma elem_of_all_transitions th s L t :
  (L, t) ∈ all_transitions th s ↔
  ∃ b r, (L, b) ∈ transitions s ∧ r ∈ b ∧ th !! r = Some t.
Proof.
  unfold all_transitions. rewrite list_elem_of_In, in_flat_map. split.
  - intros [[L0 b] [Hin Hx]]. apply list_elem_of_In in Hin, Hx.
    apply list_elem_of_omap in Hx as [r [Hr Hlk]].
    destruct (th !! r) as [t0|] eqn:E; simpl in Hlk; simplify_eq.
    by exists b, r.
  - intros (b & r & Hin & Hr & Hlk). exists (L, b).
    rewrite <- !list_elem_of_In. split; [done|].
    apply list_elem_of_omap. exists r. split; [done|]. by rewrite Hlk.
Qed.

Lemma elem_of_dict_set_inv {V} (d : list (Label * V)) k v k' v' :
  (k', v') ∈ d →
  (k', v') ∈ dict_set d k v ∨ (k' = k ∧ dict_get d k = Some v').
Proof.
  induction d as [|[k0 v0] d IH]; simpl; intros Hin.
  - by apply elem_of_nil in Hin.
  - apply elem_of_cons in Hin as [Heq|Hin].
    + simplify_eq. case_decide; [right; by subst | left; left].
    + case_decide.
      * left. by right.
      * destruct (IH Hin) as [?|?]; [left; by right | by right].
Qed.

End state_lemmas.

Section state_theorems.
Context {W : Type} `{!Weight W}.
Implicit Types (th : TStore W) (s self : State W) (lbl L : Label).

Lemma State_init_inv th fw nm : State_inv th (State_init fw nm).
Proof. split; [apply NoDup_nil_2 | apply Forall_nil_2]. Qed.

Lemma add_transition_inv th s other lbl wt :
  State_inv th s →
  State_inv (add_transition th s other lbl wt).1 (add_transition th s other lbl wt).2.
Proof.
  intros [Hnd Hinv]. split; simpl.
  - by apply dict_set_NoDup.
  - rewrite labels_agree_alt in Hinv. apply labels_agree_alt. simpl.
    intros L b r Hin Hr.
    apply elem_of_dict_set in Hin as [[-> ->]|Hin].
    + apply list_elem_of_union in Hr as [Hr|Hr].
      * apply dict_get_or_elem in Hr as (b0 & Hb0 & _ & Hr).
        specialize (Hinv _ _ _ Hb0 Hr).
        destruct (th !! r) eqn:E; [|done].
        rewrite lookup_app_l by by eapply lookup_lt_Some. by rewrite E.
      * apply list_elem_of_singleton in Hr as ->.
        by rewrite list_lookup_middle.
    + specialize (Hinv _ _ _ Hin Hr).
      destruct (th !! r) eqn:E; [|done].
      rewrite lookup_app_l by by eapply lookup_lt_Some. by rewrite E.
Qed.

Lemma rename_label_moved th s original new th' s' r :
  State_inv th s →
  rename_label th s original new = Some (th', s') →
  r ∈ dict_get_or (transitions s) original [] →
  label <$> th' !! r = Some new.
Proof.
  intros [Hnd Hinv] Hren Hr. rewrite labels_agree_alt in Hinv.
  apply dict_get_or_elem in Hr as (moved & Hin & Hget & Hr).
  unfold rename_label in Hren. rewrite Hget in Hren. simplify_eq.
  rewrite foldl_set_label_lookup, decide_True by done.
  specialize (Hinv _ _ _ Hin Hr). by destruct (th !! r).
Qed.

Lemma rename_label_inv th s original new th' s' :
  State_inv th s →
  rename_label th s original new = Some (th', s') →
  State_inv th' s'.
Proof.
  intros [Hnd Hinv] Hren. unfold rename_label in Hren.
  destruct (dict_get (transitions s) original) as [moved|] eqn:Hget; [|done].
  simplify_eq. pose proof (dict_get_Some_elem _ _ _ Hget) as Hmoved.
  rewrite labels_agree_alt in Hinv.
  split; simpl.
  - by apply dict_pop_NoDup, dict_set_NoDup.
  - apply labels_agree_alt. simpl. intros L b r Hin Hr.
    rewrite foldl_set_label_lookup.
    destruct (decide (r ∈ moved)) as [Hmv|Hmv].
    + pose proof (Hinv _ _ _ Hmoved Hmv) as Hlab.
      destruct (th !! r) as [t|] eqn:E; [simpl|done].
      assert (L ≠ original) as Hne.
      { intros ->. eapply (dict_pop_key_gone (dict_set (transitions s) new _));
          [by apply dict_set_NoDup|].
        apply list_elem_of_fmap. eexists (_, _). split; [|exact Hin]. done. }
      apply elem_of_dict_pop, elem_of_dict_set in Hin as [[-> ->]|Hin]; [done|].
      specialize (Hinv _ _ _ Hin Hr). rewrite E in Hinv. simpl in Hinv.
      simpl in Hlab. congruence.
    + apply elem_of_dict_pop, elem_of_dict_set in Hin as [[-> ->]|Hin].
      * apply list_elem_of_union in Hr as [Hr|Hr]; [|done].
        apply dict_get_or_elem in Hr as (b0 & Hb0 & _ & Hr).
        specialize (Hinv _ _ _ Hb0 Hr). by destruct (th !! r).
      * specialize (Hinv _ _ _ Hin Hr). by destruct (th !! r).
Qed.

Lemma elem_of_kept th targets (tr : list (Label * list nat)) L b' :
  (L, b') ∈ omap (kept_entry th targets) tr →
  ∃ b, (L, b) ∈ tr ∧ b' = List.filter (not_to_targets th targets) b ∧ b' ≠ [].
Proof.
  intros Hin. apply list_elem_of_omap in Hin as [[L0 b0] [Hin Hke]].
  unfold kept_entry in Hke. cbn [fst snd] in Hke.
  destruct (length (List.filter (not_to_targets th targets) b0) =? 0) eqn:E;
    simplify_eq.
  exists b0. split_and!; [done | done |].
  intros Hnil. rewrite Hnil in E. done.
Qed.

Lemma remove_transitions_inv th s targets :
  State_inv th s → State_inv th (remove_transitions_to_targets th s targets).
Proof.
  intros [Hnd Hinv]. rewrite labels_agree_alt in Hinv.
  split; [|apply labels_agree_alt]; rewrite remove_transitions_eq by done.
  - by apply kept_keys_NoDup.
  - intros L b' r Hin Hr. apply elem_of_kept in Hin as (b & Hin & -> & _).
    apply list_elem_of_In, filter_In in Hr as [Hr _].
    apply list_elem_of_In in Hr. by eapply Hinv.
Qed.

(** C10 — the label invariant of [State]: a transition stored under the
    key [L] of the transitions map carries [L] in its own label field.
    The invariant holds for a new state, is established for the inserted
    transition and preserved for the others by [add_transition], is
    preserved by [rename_label], which sets the label field of every
    moved transition to the new label, and by
    [remove_transitions_to_targets], which leaves the store of
    transitions untouched. *)
Theorem State_label_invariant th s :
  State_inv th s →
  (∀ other lbl wt,
     State_inv (add_transition th s other lbl wt).1
               (add_transition th s other lbl wt).2) ∧
  (∀ original new th' s',
     rename_label th s original new = Some (th', s') →
     State_inv th' s' ∧
     ∀ r, r ∈ dict_get_or (transitions s) original [] →
          label <$> th' !! r = Some new) ∧
  (∀ targets, State_inv th (remove_transitions_to_targets th s targets)).
Proof.
  intros Hinv. split_and!.
  - intros. by apply add_transition_inv.
  - intros original new th' s' Hren. split.
    + by eapply rename_label_inv.
    + intros r. by eapply rename_label_moved.
  - intros. by apply remove_transitions_inv.
Qed.

(** C7 — [remove_transitions_to_targets] removes exactly the transitions
    whose target is in the given set, keeps a label key exactly when some
    transition remains under it, and leaves no label mapped to an empty
    set. *)
Theorem remove_transitions_to_targets_spec th self targets :
  NoDup (dict_keys (transitions self)) →
  let s' := remove_transitions_to_targets th self targets in
  (∀ lbl r t, th !! r = Some t →
     (r ∈ dict_get_or (transitions s') lbl [] ↔
      r ∈ dict_get_or (transitions self) lbl [] ∧ targetstate t ∉ targets)) ∧
  (∀ lbl, lbl ∈ dict_keys (transitions s') ↔
          ∃ r, r ∈ dict_get_or (transitions s') lbl []) ∧
  (∀ lbl b, (lbl, b) ∈ transitions s' → b ≠ []) ∧
  NoDup (dict_keys (transitions s')).
Proof.
  intros Hnd s'. subst s'. rewrite remove_transitions_eq by done.
  assert (NoDup (dict_keys (omap (kept_entry th targets) (transitions self))))
    as Hnd' by by apply kept_keys_NoDup.
  split_and!; [| | |done].
  - intros lbl r t Hlk. rewrite kept_bucket by done.
    rewrite list_elem_of_In, filter_In, <- list_elem_of_In.
    unfold not_to_targets. rewrite Hlk, bool_decide_eq_true. done.
  - intros lbl. split.
    + intros Hk. apply list_elem_of_fmap in Hk as [[L b] [-> Hin]].
      pose proof (elem_of_kept _ _ _ _ _ Hin) as (b0 & _ & _ & Hne).
      unfold dict_get_or. rewrite (dict_get_elem _ _ _ Hnd' Hin). simpl.
      destruct b as [|r b]; [done|]. exists r. left.
    + intros [r Hr]. apply dict_get_or_elem in Hr as (b & Hin & _).
      apply list_elem_of_fmap. by exists (lbl, b).
  - intros lbl b Hin. by apply elem_of_kept in Hin as (b0 & _ & _ & Hne).
Qed.

End state_theorems.

Section state_theorems_more.
Context {W : Type} `{!Weight W}.
Implicit Types (th : TStore W) (s self : State W) (lbl L : Label).

Lemma elem_of_triples th s x :
  x ∈ triples th s ↔
  ∃ L b r t, (L, b) ∈ transitions s ∧ r ∈ b ∧ th !! r = Some t ∧
             x = (targetstate t, L, weight t).
Proof.
  unfold triples. rewrite list_elem_of_fmap. split.
  - intros [[L t] [-> Hin]]. apply elem_of_all_transitions in Hin as (b & r & ? & ? & ?).
    by exists L, b, r, t.
  - intros (L & b & r & t & Hin & Hr & Hlk & ->). exists (L, t). split; [done|].
    apply elem_of_all_transitions. by exists b, r.
Qed.

Lemma add_transition_refs_valid th s other lbl wt :
  refs_valid th s →
  refs_valid (add_transition th s other lbl wt).1 (add_transition th s other lbl wt).2.
Proof.
  rewrite !refs_valid_alt. simpl. intros Hv L b r Hin Hr.
  rewrite length_app. simpl.
  apply elem_of_dict_set in Hin as [[-> ->]|Hin].
  - apply list_elem_of_union in Hr as [Hr|Hr].
    + apply dict_get_or_elem in Hr as (b0 & Hb0 & _ & Hr).
      specialize (Hv _ _ _ Hb0 Hr). lia.
    + apply list_elem_of_singleton in Hr as ->. lia.
  - specialize (Hv _ _ _ Hin Hr). lia.
Qed.

Lemma add_transition_bucket th s other lbl wt :
  refs_valid th s →
  (dict_get_or (transitions (add_transition th s other lbl wt).2) lbl []
    = dict_get_or (transitions s) lbl [] ++ [length th]) ∧
  length th ∉ dict_get_or (transitions s) lbl [].
Proof.
  rewrite refs_valid_alt. intros Hv.
  assert (length th ∉ dict_get_or (transitions s) lbl []) as Hfresh.
  { intros Hin. apply dict_get_or_elem in Hin as (b0 & Hb0 & _ & Hr).
    specialize (Hv _ _ _ Hb0 Hr). lia. }
  split; [|done]. simpl. unfold dict_get_or at 1. rewrite dict_get_set_eq. simpl.
  unfold list_union. rewrite list_difference_disjoint; [done|].
  intros x Hx Hx'. apply list_elem_of_singleton in Hx' as ->. done.
Qed.

(** C3 (as amended) — a second [add_transition(t, l, w)] keeps the label
    keys and the set of [(target, label, weight)] values of the first
    call, and leaves every other bucket alone, but it is not idempotent
    on the stored objects: [Transition] objects are compared by identity,
    so the bucket of [l] receives one more object. *)
Theorem add_transition_twice th s other lbl wt :
  refs_valid th s →
  let th1 := (add_transition th s other lbl wt).1 in
  let s1 := (add_transition th s other lbl wt).2 in
  let th2 := (add_transition th1 s1 other lbl wt).1 in
  let s2 := (add_transition th1 s1 other lbl wt).2 in
  dict_keys (transitions s2) = dict_keys (transitions s1) ∧
  (∀ x, x ∈ triples th2 s2 ↔ x ∈ triples th1 s1) ∧
  (dict_get_or (transitions s2) lbl []
    = dict_get_or (transitions s1) lbl [] ++ [length th1]) ∧
  (length th1 ∉ dict_get_or (transitions s1) lbl []) ∧
  (∀ L, L ≠ lbl →
     dict_get_or (transitions s2) L [] = dict_get_or (transitions s1) L []).
Proof.
  intros Hv th1 s1 th2 s2.
  pose proof (add_transition_refs_valid th s other lbl wt Hv) as Hv1.
  fold th1 s1 in Hv1.
  pose proof (add_transition_bucket th1 s1 other lbl wt Hv1) as [Hb2 Hfresh].
  fold s2 in Hb2.
  assert (dict_get (transitions s1) lbl
          = Some (dict_get_or (transitions s1) lbl [])) as Hget1.
  { unfold dict_get_or. subst s1. simpl. by rewrite dict_get_set_eq. }
  split_and!; [| |done|done|].
  - subst s2. simpl. apply dict_keys_set_present.
    destruct (decide (lbl ∈ dict_keys (transitions s1))) as [|Hn]; [done|].
    apply dict_get_None in Hn. congruence.
  - intros x. rewrite !elem_of_triples.
    rewrite refs_valid_alt in Hv1. split.
    + intros (L & b & r & t & Hin & Hr & Hlk & ->).
      subst s2 th2. simpl in Hin, Hlk.
      apply elem_of_dict_set in Hin as [[-> ->]|Hin].
      * apply list_elem_of_union in Hr as [Hr|Hr].
        -- exists lbl, (dict_get_or (transitions s1) lbl []), r, t.
           apply dict_get_Some_elem in Hget1 as Hin1.
           split_and!; [done | done | | done].
           rewrite lookup_app_l in Hlk by by eapply Hv1. done.
        -- apply list_elem_of_singleton in Hr as ->.
           rewrite list_lookup_middle in Hlk by done. simplify_eq. simpl.
           exists lbl, (dict_get_or (transitions s1) lbl []), (length th),
             (mkTransition other lbl wt).
           apply dict_get_Some_elem in Hget1 as Hin1.
           split_and!; [done | | | done].
           ++ subst s1. simpl. unfold dict_get_or. rewrite dict_get_set_eq. simpl.
              apply list_elem_of_union. right. left.
           ++ subst th1. simpl. by rewrite list_lookup_middle.
      * exists L, b, r, t. split_and!; [done | done | | done].
        rewrite lookup_app_l in Hlk by by eapply Hv1. done.
    + intros (L & b & r & t & Hin & Hr & Hlk & ->).
      assert (th2 !! r = Some t) as Hlk2.
      { subst th2. simpl. rewrite lookup_app_l by by eapply lookup_lt_Some. done. }
      destruct (elem_of_dict_set_inv (transitions s1) lbl
                  (list_union (dict_get_or (transitions s1) lbl []) [length th1])
                  L b Hin) as [Hin2|[-> Hgetb]].
      * by exists L, b, r, t.
      * exists lbl, (list_union (dict_get_or (transitions s1) lbl []) [length th1]), r, t.
        split_and!; [| | done | done].
        -- subst s2. simpl. apply dict_get_Some_elem, dict_get_set_eq.
        -- apply list_elem_of_union. left. rewrite Hget1 in Hgetb. by simplify_eq.
  - intros L HL. subst s2. simpl. unfold dict_get_or.
    by rewrite dict_get_set_ne by done.
Qed.

(** C2 (as amended) — the cached indices are neither invalidated nor
    recomputed by a mutation: once [transitionsin] (or [transitionsout])
    has been computed, a lookup after [add_transition],
    [remove_transitions_to_targets] or [rename_label] still returns the
    index as it was computed before the mutation.  Only a lookup on a
    state whose cache is still empty computes the index from the
    current transitions (and caches it). *)
Theorem index_cache_survives_mutation th s :
  (∀ idx, _transitionsin s = Some idx →
     (∀ other lbl wt,
        (transitionsin (add_transition th s other lbl wt).2).1 = idx) ∧
     (∀ targets,
        (transitionsin (remove_transitions_to_targets th s targets)).1 = idx) ∧
     (∀ original new th' s',
        rename_label th s original new = Some (th', s') →
        (transitionsin s').1 = idx)) ∧
  (∀ idx, _transitionsout s = Some idx →
     (∀ other lbl wt,
        (transitionsout (add_transition th s other lbl wt).2).1 = idx) ∧
     (∀ targets,
        (transitionsout (remove_transitions_to_targets th s targets)).1 = idx) ∧
     (∀ original new th' s',
        rename_label th s original new = Some (th', s') →
        (transitionsout s').1 = idx)) ∧
  (_transitionsin s = None →
     (transitionsin s).1 = build_index label_first (transitions s) ∧
     _transitionsin (transitionsin s).2
       = Some (build_index label_first (transitions s))) ∧
  (_transitionsout s = None →
     (transitionsout s).1 = build_index label_last (transitions s) ∧
     _transitionsout (transitionsout s).2
       = Some (build_index label_last (transitions s))).
Proof.
  split_and!.
  - intros idx Hc. split_and!.
    + intros. unfold transitionsin. simpl. by rewrite Hc.
    + intros. unfold transitionsin. simpl. by rewrite Hc.
    + intros original new th' s' Hren. unfold rename_label in Hren.
      destruct (dict_get (transitions s) original); [|done]. simplify_eq.
      unfold transitionsin. simpl. by rewrite Hc.
  - intros idx Hc. split_and!.
    + intros. unfold transitionsout. simpl. by rewrite Hc.
    + intros. unfold transitionsout. simpl. by rewrite Hc.
    + intros original new th' s' Hren. unfold rename_label in Hren.
      destruct (dict_get (transitions s) original); [|done]. simplify_eq.
      unfold transitionsout. simpl. by rewrite Hc.
  - intros Hc. unfold transitionsin. by rewrite Hc.
  - intros Hc. unfold transitionsout. by rewrite Hc.
Qed.

End state_theorems_more.

Lemma State_label_invariant_witness :
  State_inv th_a s_a ∧
  State_inv th_a (remove_transitions_to_targets th_a s_a [1]).
Proof.
  assert (State_inv th_a s_a) as Hinv.
  { split; [apply NoDup_singleton | repeat constructor]. }
  split; [exact Hinv|].
  apply (State_label_invariant th_a s_a Hinv).
Defined.

Lemma remove_transitions_to_targets_witness :
  NoDup (dict_keys (transitions s_a)) ∧
  (0 ∈ dict_get_or (transitions (remove_transitions_to_targets th_a s_a [1])) (L1 "a") []
   ↔ 0 ∈ dict_get_or (transitions s_a) (L1 "a") [] ∧ 1 ∉ [1]).
Proof.
  assert (NoDup (dict_keys (transitions s_a))) as Hnd by apply NoDup_singleton.
  split; [exact Hnd|].
  destruct (remove_transitions_to_targets_spec th_a s_a [1] Hnd) as [Hrm _].
  apply (Hrm (L1 "a") 0 (mkTransition 1 (L1 "a") 0%Z)). reflexivity.
Defined.

Lemma add_transition_twice_witness :
  refs_valid th_a s_a ∧
  length (th_a ++ [mkTransition 1 (L1 "a") 0%Z])
    ∉ dict_get_or (transitions (add_transition th_a s_a 1 (L1 "a") 0%Z).2) (L1 "a") [].
Proof.
  assert (refs_valid th_a s_a) as Hv.
  { repeat constructor. }
  split; [exact Hv|].
  apply (add_transition_twice th_a s_a 1 (L1 "a") 0%Z Hv).
Defined.

(** C3, counterexample: on a new state the second identical
    [add_transition] stores a second [Transition] object, so the state does
    not hold the same set of transitions as after one call. *)
Lemma add_transition_not_idempotent :
  let s0 := State_init (W := Z) None None in
  let once := add_transition [] s0 1 (L1 "a") 0%Z in
  let twice := add_transition once.1 once.2 1 (L1 "a") 0%Z in
  transitions once.2 = [(L1 "a", [0])] ∧
  transitions twice.2 = [(L1 "a", [0; 1])] ∧
  length (all_transitions once.1 once.2) = 1 ∧
  length (all_transitions twice.1 twice.2) = 2 ∧
  ¬ (∀ r, r ∈ dict_get_or (transitions twice.2) (L1 "a") [] ↔
          r ∈ dict_get_or (transitions once.2) (L1 "a") []).
Proof.
  cbv zeta. split_and!; try reflexivity.
  intros Heq. specialize (Heq 1). vm_compute in Heq.
  assert (1 ∈ [0; 1]) as Hin by (right; left).
  apply Heq in Hin. apply list_elem_of_singleton in Hin. discriminate.
Qed.

Lemma index_cache_survives_mutation_witness :
  _transitionsin s_a_indexed = Some [("a", [(L1 "a", 0)])] ∧
  (transitionsin (add_transition th_a s_a_indexed 2 (L1 "b") 0%Z).2).1
    = [("a", [(L1 "a", 0)])].
Proof.
  assert (_transitionsin s_a_indexed = Some [("a", [(L1 "a", 0)])]) as Hc
    by reflexivity.
  split; [exact Hc|].
  destruct (index_cache_survives_mutation th_a s_a_indexed) as [Hin _].
  apply (Hin _ Hc).
Defined.

(** C2, counterexample: the index of a new state is looked up (and cached
    empty), then a transition on [a] is added; the next lookup still
    returns the empty index, not the index of the current transitions. *)
Lemma stale_index_after_add_transition :
  let s0 := State_init (W := Z) None None in
  let s1 := (transitionsin s0).2 in
  let added := add_transition [] s1 1 (L1 "a") 0%Z in
  transitions added.2 = [(L1 "a", [0])] ∧
  build_index label_first (transitions added.2) = [("a", [(L1 "a", 0)])] ∧
  (transitionsin added.2).1 = [] ∧
  (transitionsin added.2).1 ≠ build_index label_first (transitions added.2).
Proof. cbv zeta. split_and!; try reflexivity. discriminate. Qed.

(** ** Tokenization against the alphabet *)

#[local] Arguments String.append : simpl nomatch.

Section strings.
Implicit Types (s p q pre rest : string).

Lemma str_length_app s1 s2 :
  String.length (s1 +:+ s2) = String.length s1 + String.length s2.
Proof. induction s1 as [|c s1 IH]; simpl; [done | by rewrite IH]. Qed.

Lemma str_app_assoc s1 s2 s3 : (s1 +:+ s2) +:+ s3 = s1 +:+ (s2 +:+ s3).
Proof. induction s1 as [|c s1 IH]; simpl; [done | by rewrite IH]. Qed.

Lemma str_app_nil_r s : s +:+ "" = s.
Proof. induction s as [|c s IH]; simpl; [done | by rewrite IH]. Qed.

Lemma str_length_0 s : String.length s = 0 → s = "".
Proof. by destruct s. Qed.

Lemma substring_skip pre rest n :
  String.substring (String.length pre) n (pre +:+ rest) = String.substring 0 n rest.
Proof. induction pre as [|c pre IH]; simpl; [done | apply IH]. Qed.

Lemma substring_0_length n s :
  n ≤ String.length s → String.length (String.substring 0 n s) = n.
Proof.
  revert s. induction n as [|n IH]; intros s Hn.
  - by destruct s.
  - destruct s as [|c s]; simpl in *; [lia|]. rewrite IH; [done | lia].
Qed.

Lemma substring_0_split n s : ∃ r, s = String.substring 0 n s +:+ r.
Proof.
  revert s. induction n as [|n IH]; intros s.
  - exists s. by destruct s.
  - destruct s as [|c s]; simpl; [by exists ""|].
    destruct (IH s) as [r Hr]. exists r. by rewrite <- Hr.
Qed.

Lemma substring_0_app p q : String.substring 0 (String.length p) (p +:+ q) = p.
Proof.
  induction p as [|c p IH]; simpl; [by destruct q | by rewrite IH].
Qed.

Lemma str_app_inv_head p q1 q2 : p +:+ q1 = p +:+ q2 → q1 = q2.
Proof. induction p as [|c p IH]; simpl; intros Heq; [done|]. apply IH. by simplify_eq. Qed.

Lemma str_app_eq_nil s1 s2 : s1 +:+ s2 = "" → s1 = "" ∧ s2 = "".
Proof. by destruct s1. Qed.

End strings.

Section tokenize.
Implicit Types (alph : list string) (s p q pre rest word : string).

Lemma longest_symbol_skip alph pre rest :
  longest_symbol alph (pre +:+ rest) (String.length pre) = longest_symbol alph rest 0.
Proof.
  unfold longest_symbol. rewrite str_length_app.
  replace (String.length pre + String.length rest - String.length pre)
    with (String.length rest - 0) by lia.
  rewrite substring_skip.
  generalize (String.substring 0 1 rest) (seq 1 (String.length rest - 0)).
  intros t l. revert t. induction l as [|len l IH]; intros t; simpl; [done|].
  rewrite substring_skip. apply IH.
Qed.

(** the inner [for length in range(...)] loop run for [k] rounds *)
Local Abbreviation inner alph rest k :=
  (foldl (λ t len,
            if bool_decide (String.substring 0 len rest ∈ alph)
            then String.substring 0 len rest else t)
         (String.substring 0 1 rest) (seq 1 k)).

(** its loop invariant *)
Lemma longest_symbol_upto alph rest k :
  k ≤ String.length rest →
  (∃ L, 1 ≤ L ≤ k ∧ inner alph rest k = String.substring 0 L rest ∧
        inner alph rest k ∈ alph ∧
        ∀ len, 1 ≤ len ≤ k → String.substring 0 len rest ∈ alph → len ≤ L) ∨
  (inner alph rest k = String.substring 0 1 rest ∧
   ∀ len, 1 ≤ len ≤ k → String.substring 0 len rest ∉ alph).
Proof.
  induction k as [|k IH]; intros Hk.
  - right. split; [done|]. intros len Hlen. lia.
  - rewrite seq_S, foldl_app. cbn [foldl Nat.add].
    specialize (IH ltac:(lia)).
    destruct (bool_decide (String.substring 0 (S k) rest ∈ alph)) eqn:E.
    + apply bool_decide_eq_true in E. left. exists (S k).
      split_and!; [lia | lia | done | done |]. intros len Hlen _. lia.
    + apply bool_decide_eq_false in E.
      destruct IH as [(L & HL & Ht & Hin & Hmax)|[Ht Hnone]].
      * left. exists L. split_and!; [lia | lia | done | done |].
        intros len Hlen Hlen'. destruct (decide (len = S k)) as [->|]; [done|].
        apply Hmax; [lia | done].
      * right. split; [done|]. intros len Hlen.
        destruct (decide (len = S k)) as [->|]; [done|]. apply Hnone. lia.
Qed.

(** what one round of the outer loop takes from the remaining input *)
Lemma longest_symbol_spec alph c r :
  let rest := String c r in
  let t := longest_symbol alph rest 0 in
  ∃ rest', rest = t +:+ rest' ∧ t ≠ "" ∧
    ((t ∈ alph ∧
      ∀ p q, p ∈ alph → rest = p +:+ q → String.length p ≤ String.length t) ∨
     (t = String c "" ∧ ∀ p q, p ∈ alph → p ≠ "" → rest ≠ p +:+ q)).
Proof.
  intros rest t.
  assert (∀ p q, p ≠ "" → rest = p +:+ q →
            1 ≤ String.length p ≤ String.length rest ∧
            String.substring 0 (String.length p) rest = p) as Hpre.
  { intros p q Hp ->. rewrite str_length_app, substring_0_app.
    destruct p; [done|]. simpl. split; [lia | done]. }
  pose proof (longest_symbol_upto alph rest (String.length rest) ltac:(lia)) as Hinv.
  assert (t = inner alph rest (String.length rest)) as Ht0.
  { subst t. unfold longest_symbol. by rewrite Nat.sub_0_r. }
  rewrite <- Ht0 in Hinv.
  destruct Hinv as [(L & HL & Ht & Hin & Hmax)|[Ht Hnone]].
  - destruct (substring_0_split L rest) as [rest' Hrest'].
    rewrite <- Ht in Hrest'. exists rest'.
    assert (String.length t = L) as Hlen.
    { rewrite Ht. apply substring_0_length. lia. }
    split_and!; [done | |].
    + intros Hnil. rewrite Hnil in Hlen. simpl in Hlen. lia.
    + left. split; [done|]. intros p q Hp Hpq.
      destruct (decide (p = "")) as [->|Hne]; [simpl; lia|].
      destruct (Hpre p q Hne Hpq) as [Hlp Hsub].
      rewrite Hlen. apply Hmax; [done|]. by rewrite Hsub.
  - assert (String.substring 0 1 rest = String c "") as Hc.
    { subst rest. simpl. by destruct r. }
    rewrite Hc in Ht. exists r. split_and!.
    + rewrite Ht. reflexivity.
    + rewrite Ht. discriminate.
    + right. split; [done|]. intros p q Hp Hne Hpq.
      destruct (Hpre p q Hne Hpq) as [Hlp Hsub].
      apply (Hnone (String.length p)); [done|]. by rewrite Hsub.
Qed.

Lemma tokenize_loop_spec alph fuel pre rest tokens :
  String.length rest ≤ fuel →
  ∃ ts, tokenize_loop fuel alph (pre +:+ rest) (String.length pre) tokens = tokens ++ ts ∧
        longest_match_tokens alph rest ts.
Proof.
  revert pre rest tokens. induction fuel as [|fuel IH]; intros pre rest tokens Hf.
  - exists []. rewrite app_nil_r. split; [done|].
    rewrite (str_length_0 rest) by lia. constructor.
  - simpl. rewrite str_length_app.
    destruct rest as [|c r].
    + exists []. rewrite app_nil_r. simpl. rewrite Nat.add_0_r.
      rewrite Nat.ltb_irrefl. split; [done | constructor].
    + destruct (Nat.ltb_spec (String.length pre)
                  (String.length pre + String.length (String c r))) as [_|Hge];
        [|simpl in Hge; lia].
      rewrite longest_symbol_skip.
      destruct (longest_symbol_spec alph c r) as (rest' & Hrest & Hne & Hcases).
      simpl in Hrest, Hne, Hcases.
      set (t := longest_symbol alph (String c r) 0) in *.
      assert (String.length rest' ≤ fuel) as Hf'.
      { apply (f_equal String.length) in Hrest. rewrite str_length_app in Hrest.
        simpl in Hrest, Hf. destruct t; [done|]. simpl in Hrest. lia. }
      destruct (IH (pre +:+ t) rest' (tokens ++ [t]) Hf') as (ts & Heq & Hts).
      rewrite str_length_app, str_app_assoc, <- Hrest in Heq.
      exists (t :: ts). split.
      * rewrite Heq. by rewrite <- app_assoc.
      * rewrite Hrest. destruct Hcases as [[Hin Hmax]|[Ht Hnone]].
        -- apply lmt_symbol; [done | done | | done].
           intros p q Hp Hpq. apply (Hmax p q Hp). by rewrite Hrest.
        -- rewrite Ht in Hrest |- *. simpl in Hrest. simplify_eq.
           simpl. apply lmt_char; [|done]. intros p q Hp Hpne. by apply Hnone.
Qed.

Lemma tokenize_against_alphabet_spec (F : FST) (word : string) :
  longest_match_tokens (alphabet F) word (tokenize_against_alphabet F word).
Proof.
  unfold tokenize_against_alphabet.
  destruct (tokenize_loop_spec (alphabet F) (String.length word) "" word [])
    as (ts & Heq & Hts); [done|].
  simpl in Heq. by rewrite Heq.
Qed.

Lemma lmt_nil_inv alph word : longest_match_tokens alph word [] → word = "".
Proof.
  intros H. remember [] as ts eqn:Hts.
  by destruct H as [|t rest ts' Hne Hin Hmax Hrest|c rest ts' Hnone Hrest].
Qed.

Lemma lmt_singleton_inv alph word t : longest_match_tokens alph word [t] → word = t.
Proof.
  intros H. remember [t] as ts eqn:Hts.
  destruct H as [|t' rest ts' Hne Hin Hmax Hrest|c rest ts' Hnone Hrest];
    [done| |]; simplify_eq.
  - apply lmt_nil_inv in Hrest as ->. apply str_app_nil_r.
  - by apply lmt_nil_inv in Hrest as ->.
Qed.

Lemma lmt_empty_inv alph ts : longest_match_tokens alph "" ts → ts = [].
Proof.
  intros H. remember "" as word eqn:Hw.
  destruct H as [|t rest ts' Hne Hin Hmax Hrest|c rest ts' Hnone Hrest];
    [done| |done].
  apply str_app_eq_nil in Hw as [? _]. done.
Qed.

(** against the alphabet [{x}] the word [x] is one token *)
Lemma lmt_single_symbol x ts :
  x ≠ "" → longest_match_tokens [x] x ts → ts = [x].
Proof.
  intros Hx H. remember [x] as alph eqn:Ha. remember x as word eqn:Hw in H at 1.
  destruct H as [|t rest ts' Hne Hin Hmax Hrest|c rest ts' Hnone Hrest]; subst alph.
  - congruence.
  - apply list_elem_of_singleton in Hin as ->.
    assert (rest = "") as ->.
    { apply (str_app_inv_head x). by rewrite str_app_nil_r. }
    by apply lmt_empty_inv in Hrest as ->.
  - exfalso. apply (Hnone x ""); [left | done |]. by rewrite str_app_nil_r.
Qed.

Lemma str_app_inj_length p1 q1 p2 q2 :
  p1 +:+ q1 = p2 +:+ q2 → String.length p1 = String.length p2 →
  p1 = p2 ∧ q1 = q2.
Proof.
  revert p2. induction p1 as [|c p1 IH]; intros [|c2 p2]; simpl; try done.
  intros Heq Hlen. simplify_eq. destruct (IH p2) as [-> ->]; [done | lia | done].
Qed.

(** the description determines the tokens *)
Lemma longest_match_tokens_unique alph word ts1 ts2 :
  longest_match_tokens alph word ts1 → longest_match_tokens alph word ts2 →
  ts1 = ts2.
Proof.
  intros H1. revert ts2.
  induction H1 as [|t rest ts Hne Hin Hmax Hrest IH|c rest ts Hnone Hrest IH];
    intros ts2 H2.
  - by apply lmt_empty_inv in H2.
  - remember (t +:+ rest) as word eqn:Hw.
    destruct H2 as [|t' rest' ts' Hne' Hin' Hmax' Hrest'|c' rest' ts' Hnone' Hrest'].
    + symmetry in Hw. apply str_app_eq_nil in Hw as [? _]. done.
    + destruct (str_app_inj_length t' rest' t rest Hw) as [-> ->].
      { apply Nat.le_antisymm.
        - by apply (Hmax t' rest').
        - apply (Hmax' t rest); [done | by rewrite Hw]. }
      f_equal. by apply IH.
    + exfalso. by apply (Hnone' t rest).
  - remember (String c rest) as word eqn:Hw.
    destruct H2 as [|t' rest' ts' Hne' Hin' Hmax' Hrest'|c' rest' ts' Hnone' Hrest'].
    + done.
    + exfalso. apply (Hnone t' rest'); [done | done | by rewrite Hw].
    + simplify_eq. f_equal. by apply IH.
Qed.

(** C5 — [tokenize_against_alphabet] cuts the input left to right into
    tokens, each being the longest (non-empty) alphabet symbol matching at
    its position, or the single next character when no alphabet symbol
    matches there, and no other token sequence fits this description;
    with the alphabet [{"ab", "a", "b"}] the input ["ab"] becomes
    [["ab"]]. *)
Theorem tokenize_longest_match :
  (∀ (F : FST) (word : string) (ts : list string),
     longest_match_tokens (alphabet F) word ts ↔
     ts = tokenize_against_alphabet F word) ∧
  (∀ init sts fin,
     tokenize_against_alphabet (mkFST ["ab"; "a"; "b"] init sts fin) "ab" = ["ab"]).
Proof.
  split.
  - intros F word ts. split.
    + intros Hts. eapply longest_match_tokens_unique; [exact Hts|].
      apply tokenize_against_alphabet_spec.
    + intros ->. apply tokenize_against_alphabet_spec.
  - intros. reflexivity.
Qed.

End tokenize.

(** ** The best-first traversal *)

Section heap_order.
Context {W : Type} `{!Weight W} `{!WeightLaws W}.
Implicit Types (a b c x y m : Item W) (Q R : list (Item W)).

Lemma wlt_asym (u v : W) : wlt u v = true → wlt v u = false.
Proof.
  intros Huv. destruct (wlt v u) eqn:E; [|done].
  pose proof (wlt_trans _ _ _ Huv E) as Hc. by rewrite wlt_irrefl in Hc.
Qed.

Lemma wlt_neq (u v : W) : wlt u v = true → u ≠ v.
Proof. intros Huv ->. by rewrite wlt_irrefl in Huv. Qed.

Lemma wle_refl (u : W) : wle u u = true.
Proof. unfold wle. by rewrite wlt_irrefl. Qed.

Lemma wle_trans (u v t : W) : wle u v = true → wle v t = true → wle u t = true.
Proof.
  unfold wle. rewrite !negb_true_iff. intros Hvu Htv.
  destruct (wlt t u) eqn:E; [|done].
  destruct (wlt_total v t) as [Hvt| [-> | Htv']]; [| congruence | congruence].
  pose proof (wlt_trans _ _ _ Hvt E). congruence.
Qed.

Lemma wle_add_nonneg (u v : W) : wlt v w0 = false → wle u (wadd u v) = true.
Proof. intros Hv. unfold wle. by rewrite wadd_nonneg. Qed.

Lemma wlt_wle_trans (u v t : W) : wlt u v = true → wle v t = true → wlt u t = true.
Proof.
  unfold wle. rewrite negb_true_iff. intros Huv Htv.
  destruct (wlt_total u t) as [?| [-> | Htu]]; [done | congruence |].
  pose proof (wlt_trans _ _ _ Htu Huv). congruence.
Qed.

(** the order of the heap is lexicographic on cost, negated position and
    insertion number *)
Lemma item_lt_spec a b :
  item_lt a b = true ↔
  wlt (cost a) (cost b) = true ∨
  (cost a = cost b ∧
   ((negpos a < negpos b)%Z ∨ (negpos a = negpos b ∧ seqno a < seqno b))).
Proof.
  unfold item_lt. destruct (decide (cost a = cost b)) as [Hc|Hc].
  - destruct (decide (negpos a = negpos b)) as [Hn|Hn].
    + rewrite Nat.ltb_lt. split.
      * intros ?. right. split; [done|]. by right.
      * intros [Hlt|[_ [Hlt|[_ ?]]]]; [|lia|done].
        apply wlt_neq in Hlt. done.
    + rewrite Z.ltb_lt. split.
      * intros ?. right. split; [done|]. by left.
      * intros [Hlt|[_ [Hlt|[? _]]]]; [|done|done].
        apply wlt_neq in Hlt. done.
  - split; [by left|]. intros [?|[? _]]; done.
Qed.

Lemma item_lt_irrefl a : item_lt a a = false.
Proof.
  destruct (item_lt a a) eqn:E; [|done].
  apply item_lt_spec in E as [E|[_ [?|[_ ?]]]]; [|lia|lia].
  by rewrite wlt_irrefl in E.
Qed.

Lemma item_lt_trans a b c :
  item_lt a b = true → item_lt b c = true → item_lt a c = true.
Proof.
  rewrite !item_lt_spec.
  intros [Hab|[Hab Hab']] [Hbc|[Hbc Hbc']].
  - left. by eapply wlt_trans.
  - left. by rewrite <- Hbc.
  - left. by rewrite Hab.
  - right. split; [congruence|]. lia.
Qed.

Lemma item_lt_total a b :
  item_lt a b = true ∨ item_lt b a = true ∨ same_key a b.
Proof.
  rewrite !item_lt_spec. unfold same_key.
  destruct (wlt_total (cost a) (cost b)) as [?|[Hc|?]].
  { left. by left. }
  2:{ right. left. by left. }
  destruct (Z.lt_trichotomy (negpos a) (negpos b)) as [?|[Hn|?]].
  - left. right. split; [done|]. by left.
  - destruct (Nat.lt_trichotomy (seqno a) (seqno b)) as [?|[Hs|?]].
    + left. right. split; [done|]. by right.
    + right. by right.
    + right. left. right. split; [done|]. by right.
  - right. left. right. split; [done|]. by left.
Qed.

Lemma item_lt_same_key_l a b c : same_key a b → item_lt a c = item_lt b c.
Proof. intros (Hc & Hn & Hs). unfold item_lt. by rewrite Hc, Hn, Hs. Qed.

Lemma item_lt_same_key_r a b c : same_key a b → item_lt c a = item_lt c b.
Proof. intros (Hc & Hn & Hs). unfold item_lt. by rewrite Hc, Hn, Hs. Qed.

Lemma item_lt_negtrans y m x :
  item_lt y m = false → item_lt m x = false → item_lt y x = false.
Proof.
  intros Hym Hmx. destruct (item_lt y x) eqn:Hyx; [|done].
  destruct (item_lt_total y m) as [?|[Hmy|Hk]]; [congruence| |].
  - destruct (item_lt_total m x) as [?|[Hxm|Hk]]; [congruence| |].
    + pose proof (item_lt_trans _ _ _ (item_lt_trans _ _ _ Hxm Hmy) Hyx) as Hxx.
      by rewrite item_lt_irrefl in Hxx.
    + rewrite <- (item_lt_same_key_r _ _ y Hk) in Hyx.
      pose proof (item_lt_trans _ _ _ Hmy Hyx) as Hmm.
      by rewrite item_lt_irrefl in Hmm.
  - rewrite (item_lt_same_key_l _ _ x Hk) in Hyx. congruence.
Qed.

Lemma item_lt_false_cost x m : item_lt x m = false → wlt (cost x) (cost m) = false.
Proof.
  intros Hxm. destruct (wlt (cost x) (cost m)) eqn:E; [|done].
  assert (item_lt x m = true) by (apply item_lt_spec; by left). congruence.
Qed.

Lemma heappop_None Q : heappop Q = None → Q = [].
Proof.
  destruct Q as [|x Q]; [done|]. simpl.
  destruct (heappop Q) as [[m R]|]; [|done]. by destruct (item_lt m x).
Qed.

(** [heappop] removes one entry, and no remaining entry is smaller *)
Lemma heappop_spec Q m R :
  heappop Q = Some (m, R) →
  Q ≡ₚ m :: R ∧ ∀ x, x ∈ R → item_lt x m = false.
Proof.
  revert m R. induction Q as [|x Q IH]; intros m R; simpl; [done|].
  destruct (heappop Q) as [[m' R']|] eqn:E.
  - destruct (IH m' R' eq_refl) as [Hperm Hmin].
    destruct (item_lt m' x) eqn:Hlt; intros ?; simplify_eq.
    + split.
      * rewrite Hperm. apply Permutation_swap.
      * intros y Hy. apply elem_of_cons in Hy as [->|Hy]; [|by apply Hmin].
        destruct (item_lt x m) eqn:Hx; [|done].
        pose proof (item_lt_trans _ _ _ Hlt Hx) as Hmm.
        by rewrite item_lt_irrefl in Hmm.
    + split; [done|]. intros y Hy. rewrite Hperm in Hy.
      apply elem_of_cons in Hy as [->|Hy]; [done|].
      eapply item_lt_negtrans; [by apply Hmin | done].
  - intros ?. simplify_eq. apply heappop_None in E as ->.
    split; [done|]. intros y Hy. by apply elem_of_nil in Hy.
Qed.

End heap_order.

Section expansion.
Context {W : Type} `{!Weight W} {FL : Flags}.
Variable h : Heap W.
Variable F : FST.
Variable inverse : bool.
Variable w : list string.
Implicit Types (it x y p : Item W) (c : Config W)
  (d : W * Z * list string * option nat).

Lemma push_transition_data it c lt :
  push_transition F inverse w it c lt =
    match transition_data F inverse w it lt with
    | Some d => push_data c d
    | None => c
    end.
Proof.
  unfold push_transition, transition_data, push_data. destruct lt as [lbl t].
  cbn [fst snd].
  destruct (bool_decide (IN inverse lbl = "") || is_flag (IN inverse lbl)); [done|].
  destruct (- negpos it <? Z.of_nat (length w))%Z; [|done].
  cbv zeta. by case_match.
Qed.

Lemma foldl_push_transition_data it c l :
  foldl (push_transition F inverse w it) c l =
    foldl push_data c (omap (transition_data F inverse w it) l).
Proof.
  revert c. induction l as [|lt l IH]; intros c; [done|].
  cbn [foldl]. rewrite IH, push_transition_data.
  change (omap (transition_data F inverse w it) (lt :: l))
    with (match transition_data F inverse w it lt with
          | Some y => y :: omap (transition_data F inverse w it) l
          | None => omap (transition_data F inverse w it) l
          end).
  by destruct (transition_data F inverse w it lt).
Qed.

(** an expansion is a sequence of pushes that depends on the expanded
    entry only *)
Lemma expand_eq it sid c :
  expand h F inverse w it sid c = foldl push_data c (expand_data h F inverse w it sid).
Proof.
  unfold expand, expand_data. destruct (hstates h !! sid) as [st|]; [|done].
  rewrite foldl_push_transition_data, foldl_app. f_equal.
  unfold push_final. by case_bool_decide.
Qed.

Lemma foldl_push_data_counter c ds :
  (foldl push_data c ds).2 = c.2 + length ds.
Proof.
  revert c. induction ds as [|d ds IH]; intros c; simpl; [lia|].
  rewrite IH. simpl. lia.
Qed.

Lemma elem_of_foldl_push_data c ds x :
  x ∈ (foldl push_data c ds).1 ↔
  x ∈ c.1 ∨ ∃ k d, ds !! k = Some d ∧ item_data x = d ∧ seqno x = c.2 + k.
Proof.
  revert c. induction ds as [|d ds IH]; intros c.
  - simpl. split; [by left|]. intros [?|(k & d & Hk & _)]; done.
  - cbn [foldl]. rewrite IH.
    assert ((push_data c d).1 = mkItem d.1.1.1 d.1.1.2 c.2 d.1.2 d.2 :: c.1) as ->
      by reflexivity.
    assert ((push_data c d).2 = S c.2) as -> by reflexivity.
    rewrite elem_of_cons. split.
    + intros [[->|?]|(k & d' & Hk & Hd & Hs)].
      * right. exists 0, d. split_and!; [done | by destruct d as [[[??]?]?] | simpl; lia].
      * by left.
      * right. exists (S k), d'. split_and!; [done | done | lia].
    + intros [?|(k & d' & Hk & Hd & Hs)]; [left; by right|].
      destruct k as [|k].
      * left. left. simpl in Hk. simplify_eq.
        destruct x as [xc xn xs xo xst]. unfold item_data in *. simpl in *.
        f_equal. lia.
      * right. exists k, d'. split_and!; [done | done | lia].
Qed.

Lemma push_data_counter_inv c d : counter_inv c → counter_inv (push_data c d).
Proof.
  intros [Hnd Hlt]. split; simpl.
  - apply NoDup_cons. split; [|done]. intros Hin.
    apply list_elem_of_fmap in Hin as [y [Hy Hin]]. apply Hlt in Hin. lia.
  - intros x Hx. apply elem_of_cons in Hx as [->|Hx]; [simpl; lia|].
    apply Hlt in Hx. lia.
Qed.

Lemma foldl_push_data_counter_inv c ds :
  counter_inv c → counter_inv (foldl push_data c ds).
Proof.
  revert c. induction ds as [|d ds IH]; intros c Hc; [done|].
  simpl. by apply IH, push_data_counter_inv.
Qed.

Lemma child_alt p x :
  child h F inverse w p x ↔
  ∃ sid, state p = Some sid ∧ item_data x ∈ expand_data h F inverse w p sid.
Proof.
  unfold child. split.
  - intros (sid & x' & Hst & Hin & Hsame). exists sid. split; [done|].
    rewrite expand_eq in Hin. apply elem_of_foldl_push_data in Hin as [Hin|Hin].
    + by apply elem_of_nil in Hin.
    + destruct Hin as (k & d & Hk & Hd & _). apply list_elem_of_lookup. exists k.
      rewrite Hk. f_equal. rewrite <- Hd. unfold item_data.
      destruct Hsame as (-> & -> & -> & ->). done.
  - intros (sid & Hst & Hin). apply list_elem_of_lookup in Hin as [k Hk].
    exists sid, (mkItem (cost x) (negpos x) k (output x) (state x)).
    split_and!; [done | | done].
    rewrite expand_eq. apply elem_of_foldl_push_data. right.
    exists k, (item_data x). split_and!; done.
Qed.

Lemma same_path_data x y : same_path x y ↔ item_data x = item_data y.
Proof.
  unfold same_path, item_data. split.
  - intros (-> & -> & -> & ->). done.
  - intros ?. by simplify_eq.
Qed.

Lemma transition_data_same_path p p' lt :
  same_path p p' →
  transition_data F inverse w p lt = transition_data F inverse w p' lt.
Proof.
  intros (Hc & Hn & Ho & _). unfold transition_data. by rewrite Hc, Hn, Ho.
Qed.

Lemma expand_data_same_path p p' sid :
  same_path p p' →
  expand_data h F inverse w p sid = expand_data h F inverse w p' sid.
Proof.
  intros Hs. unfold expand_data. destruct (hstates h !! sid) as [st|]; [|done].
  f_equal.
  - destruct Hs as (Hc & Hn & Ho & _). by rewrite Hc, Hn, Ho.
  - apply list_omap_ext. apply Forall2_same_length_lookup_2; [done|].
    intros i lt lt' H1 H2. simplify_eq. by apply transition_data_same_path.
Qed.

Lemma child_same_path p p' x :
  same_path p p' → child h F inverse w p x → child h F inverse w p' x.
Proof.
  intros Hs. rewrite !child_alt. intros (sid & Hst & Hin). exists sid.
  split; [destruct Hs as (_ & _ & _ & <-); done|].
  by rewrite <- (expand_data_same_path p p' sid Hs).
Qed.

Lemma leads_to_same_path target p p' :
  same_path p p' →
  leads_to h F inverse w target p → leads_to h F inverse w target p'.
Proof.
  intros Hs Hl. destruct Hl as [p Hp|p x Hc Hl].
  - apply leads_here. apply same_path_data. apply same_path_data in Hs, Hp. congruence.
  - eapply leads_step; [|done]. by eapply child_same_path.
Qed.

End expansion.

Section traversal.
Context {W : Type} `{!Weight W} `{!WeightLaws W} {FL : Flags}.
Variable h : Heap W.
Variable F : FST.
Variable inverse : bool.
Variable opts : Options.
Variable w : list string.
Implicit Types (it x y p q target : Item W) (c : Config W) (Q : list (Item W)).

Local Abbreviation step' := (step h F inverse opts w).
Local Abbreviation run' := (run h F inverse opts w).
Local Abbreviation expand' := (expand h F inverse w).
Local Abbreviation accepts' := (accepts F opts w).
Local Abbreviation leads_to' := (leads_to h F inverse w).

(** the three ways one round of the loop can go *)
Lemma step_cases c it yld c' :
  step' c = Some (it, yld, c') →
  ∃ Q', heappop c.1 = Some (it, Q') ∧
    ((yld = true ∧ accepts' it = true ∧ c' = (Q', c.2)) ∨
     (yld = false ∧ accepts' it = false ∧
      ∃ sid, state it = Some sid ∧ c' = expand' it sid (Q', c.2)) ∨
     (yld = false ∧ accepts' it = false ∧ state it = None ∧ c' = (Q', c.2))).
Proof.
  unfold step. destruct (heappop c.1) as [[it0 Q']|]; [|done].
  destruct (accepts' it0) eqn:Hacc.
  - intros ?. simplify_eq. exists Q'. split; [done|]. by left.
  - destruct (state it0) as [sid|] eqn:Hst; intros ?; simplify_eq; exists Q';
      (split; [done|]); right; [left | right]; eauto.
Qed.

Lemma run_S n c :
  run' (S n) c =
    match step' c with
    | None => ([], c)
    | Some (it, yld, c') =>
        ((if yld then [it] else []) ++ (run' n c').1, (run' n c').2)
    end.
Proof.
  simpl. destruct (step' c) as [[[it yld] c']|]; [|done].
  by destruct (run' n c').
Qed.

Lemma accepts_state it : accepts' it = true → state it = None.
Proof.
  unfold accepts. rewrite !andb_true_iff, !bool_decide_eq_true. by intros [[? _] _].
Qed.

Lemma accepts_negpos it :
  accepts' it = true → negpos it = (- Z.of_nat (length w))%Z.
Proof.
  unfold accepts. rewrite !andb_true_iff, !bool_decide_eq_true. intros [[_ ?] _]. lia.
Qed.

Lemma accepts_same_path x y : same_path x y → accepts' x = accepts' y.
Proof. intros (_ & Hn & Ho & Hs). unfold accepts. by rewrite Hn, Ho, Hs. Qed.

(** *** Costs never decrease when weights are non-negative *)

Lemma expand_data_cost it sid d :
  nonneg_weights h F →
  d ∈ expand_data h F inverse w it sid →
  wle (cost it) d.1.1.1 = true.
Proof.
  intros [Htr Hfin]. unfold expand_data.
  destruct (hstates h !! sid) as [st|] eqn:Hst; [|by intros ?%elem_of_nil].
  rewrite elem_of_app. intros [Hd|Hd].
  - case_bool_decide as Hf; [|by apply elem_of_nil in Hd].
    apply list_elem_of_singleton in Hd as ->. simpl.
    apply wle_add_nonneg. rewrite Forall_forall in Hfin.
    specialize (Hfin _ Hf). by rewrite Hst in Hfin.
  - apply list_elem_of_omap in Hd as [[lbl t] [Hin Hd]].
    apply elem_of_all_transitions in Hin as (b & r & _ & _ & Hlk).
    assert (wlt (weight t) w0 = false) as Hnn.
    { rewrite Forall_forall in Htr. apply Htr. by eapply list_elem_of_lookup_2. }
    unfold transition_data in Hd. cbn [fst snd] in Hd.
    repeat case_match; simplify_eq; simpl; by apply wle_add_nonneg.
Qed.

Lemma child_cost p x :
  nonneg_weights h F → child h F inverse w p x → wle (cost p) (cost x) = true.
Proof.
  intros Hnn (sid & _ & Hin)%child_alt.
  by apply (expand_data_cost _ _ _ Hnn) in Hin.
Qed.

Lemma leads_to_cost target p :
  nonneg_weights h F → leads_to' target p → wle (cost p) (cost target) = true.
Proof.
  intros Hnn. induction 1 as [p (-> & _)|p x Hc _ IH]; [apply wle_refl|].
  eapply wle_trans; [by apply child_cost | done].
Qed.

Lemma step_lower_bound c it yld c' :
  nonneg_weights h F →
  step' c = Some (it, yld, c') →
  it ∈ c.1 ∧ ∀ x, x ∈ c'.1 → wle (cost it) (cost x) = true.
Proof.
  intros Hnn (Q' & Hpop & Hcases)%step_cases.
  apply heappop_spec in Hpop as [Hperm Hmin].
  split; [rewrite Hperm; left|].
  assert (∀ x, x ∈ Q' → wle (cost it) (cost x) = true) as HQ'.
  { intros x Hx. unfold wle. by rewrite item_lt_false_cost by by apply Hmin. }
  destruct Hcases as [(_ & _ & ->)|[(_ & _ & sid & Hst & ->)|(_ & _ & _ & ->)]];
    [done| |done].
  intros x Hx. rewrite expand_eq in Hx.
  apply elem_of_foldl_push_data in Hx as [Hx|(k & d & Hk & Hd & _)]; [by apply HQ'|].
  apply list_elem_of_lookup_2 in Hk. apply (expand_data_cost _ _ _ Hnn) in Hk.
  by rewrite <- Hd in Hk.
Qed.

Lemma run_sorted n c (b : W) :
  nonneg_weights h F →
  (∀ x, x ∈ c.1 → wle b (cost x) = true) →
  Forall (λ y, wle b (cost y) = true) (run' n c).1 ∧
  StronglySorted cost_le (run' n c).1.
Proof.
  intros Hnn. revert c b. induction n as [|n IH]; intros c b Hb.
  - simpl. split; constructor.
  - rewrite run_S. destruct (step' c) as [[[it yld] c']|] eqn:Hstep;
      [|split; constructor].
    destruct (step_lower_bound _ _ _ _ Hnn Hstep) as [Hit Hc'].
    destruct (IH c' (cost it) Hc') as [Hall Hsorted]. cbn [fst].
    assert (Forall (λ y, wle b (cost y) = true) (run' n c').1) as Hall'.
    { eapply Forall_impl; [exact Hall|]. intros y Hy. simpl in Hy.
      eapply wle_trans; [|exact Hy]. by apply Hb. }
    destruct yld; simpl; [|done]. split.
    + constructor; [by apply Hb | done].
    + constructor; [done | done].
Qed.

(** *** Every cheaper accepting path has already been yielded *)

Lemma run_complete n c target :
  nonneg_weights h F →
  accepts' target = true →
  (∃ q, q ∈ c.1 ∧ leads_to' target q) →
  ∀ j y2, (run' n c).1 !! j = Some y2 →
          wlt (cost target) (cost y2) = true →
          ∃ i y1, i < j ∧ (run' n c).1 !! i = Some y1 ∧ same_path y1 target.
Proof.
  intros Hnn Hacc. revert c. induction n as [|n IH]; intros c (q & Hq & Hlead) j y2.
  - simpl. by intros ?.
  - rewrite run_S. destruct (step' c) as [[[it yld] c']|] eqn:Hstep; [|by intros ?].
    cbn [fst].
    destruct (step_lower_bound _ _ _ _ Hnn Hstep) as [_ Hc'].
    destruct (step_cases _ _ _ _ Hstep) as (Q' & Hpop & Hcases).
    apply heappop_spec in Hpop as [Hperm Hmin].
    rewrite Hperm in Hq. apply elem_of_cons in Hq as [->|Hq].
    + (* the entry popped lies on the path *)
      destruct Hlead as [p Hsame|p x Hchild Hlead].
      * rewrite <- (accepts_same_path _ _ Hsame) in Hacc.
        destruct Hcases as [(-> & _ & ->)|[(_ & Hn & _)|(_ & Hn & _)]];
          [|congruence|congruence].
        simpl. intros Hj Hlt. destruct j as [|j].
        -- simpl in Hj. simplify_eq. destruct Hsame as (Hc & _).
           rewrite Hc, wlt_irrefl in Hlt. done.
        -- exists 0, p. split_and!; [lia | done | done].
      * pose proof Hchild as (sid & Hst & Hin)%child_alt.
        destruct Hcases as [(_ & Ha & _)|[(-> & _ & sid' & Hst' & ->)|(_ & _ & Hn & _)]];
          [apply accepts_state in Ha; congruence | | congruence].
        simplify_eq. simpl. apply IH.
        apply list_elem_of_lookup in Hin as [k Hk].
        exists (mkItem (cost x) (negpos x) (c.2 + k) (output x) (state x)). split.
        -- rewrite expand_eq. apply elem_of_foldl_push_data. right.
           by exists k, (item_data x).
        -- eapply leads_to_same_path; [|exact Hlead]. done.
    + (* the path continues from an entry that stays in the heap *)
      assert (q ∈ c'.1) as Hq'.
      { destruct Hcases as [(_ & _ & ->)|[(_ & _ & sid & _ & ->)|(_ & _ & _ & ->)]];
          [done| |done].
        rewrite expand_eq. apply elem_of_foldl_push_data. by left. }
      assert (∃ q, q ∈ c'.1 ∧ leads_to' target q) as Hex by eauto.
      destruct yld; simpl.
      * intros Hj Hlt. destruct j as [|j].
        -- simpl in Hj. simplify_eq. exfalso.
           assert (wle (cost y2) (cost q) = true) as H1.
           { unfold wle. by rewrite item_lt_false_cost by by apply Hmin. }
           pose proof (leads_to_cost _ _ Hnn Hlead) as H2.
           pose proof (wlt_wle_trans _ _ _ Hlt (wle_trans _ _ _ H1 H2)) as H3.
           by rewrite wlt_irrefl in H3.
        -- simpl in Hj. destruct (IH c' Hex j y2 Hj Hlt) as (i & y1 & Hi & Hy1 & Hs).
           exists (S i), y1. split; [lia|]. done.
      * by apply IH.
Qed.

(** *** Insertion numbers *)

Lemma step_counter_inv c it yld c' :
  counter_inv c →
  step' c = Some (it, yld, c') →
  counter_inv c' ∧ seqno it < c.2 ∧
  (∀ x, x ∈ c'.1 →
     (x ∈ c.1 ∧ seqno x ≠ seqno it ∧ item_lt x it = false) ∨ c.2 ≤ seqno x).
Proof.
  intros [Hnd Hlt] (Q' & Hpop & Hcases)%step_cases.
  apply heappop_spec in Hpop as [Hperm Hmin].
  assert (seqno it < c.2) as Hit by (apply Hlt; rewrite Hperm; left).
  assert (NoDup (seqno <$> it :: Q')) as Hnd' by by rewrite <- Hperm.
  rewrite fmap_cons in Hnd'. apply NoDup_cons in Hnd' as [Hfresh HndQ].
  assert (counter_inv (Q', c.2)) as HinvQ.
  { split; [done|]. intros x Hx. apply Hlt. rewrite Hperm. by right. }
  assert (∀ x, x ∈ Q' → x ∈ c.1 ∧ seqno x ≠ seqno it ∧ item_lt x it = false) as HQ'.
  { intros x Hx. split_and!; [rewrite Hperm; by right | | by apply Hmin].
    intros Heq. apply Hfresh. rewrite <- Heq. by apply list_elem_of_fmap_2. }
  destruct Hcases as [(_ & _ & ->)|[(_ & _ & sid & Hst & ->)|(_ & _ & _ & ->)]].
  - split_and!; [done | done |]. intros x Hx. left. by apply HQ'.
  - rewrite expand_eq. split_and!; [by apply foldl_push_data_counter_inv | done |].
    intros x Hx. apply elem_of_foldl_push_data in Hx as [Hx|(k & d & _ & _ & Hs)].
    + left. by apply HQ'.
    + right. simpl in Hs. lia.
  - split_and!; [done | done |]. intros x Hx. left. by apply HQ'.
Qed.

Lemma step_counter_mono c it yld c' : step' c = Some (it, yld, c') → c.2 ≤ c'.2.
Proof.
  intros (Q' & _ & Hcases)%step_cases.
  destruct Hcases as [(_ & _ & ->)|[(_ & _ & sid & Hst & ->)|(_ & _ & _ & ->)]];
    [done| |done].
  rewrite expand_eq, foldl_push_data_counter. simpl. lia.
Qed.

(** a yielded entry was in the heap already or is pushed later *)
Lemma run_yield_origin n c y :
  counter_inv c →
  y ∈ (run' n c).1 →
  accepts' y = true ∧ (y ∈ c.1 ∨ c.2 ≤ seqno y).
Proof.
  revert c. induction n as [|n IH]; intros c Hinv; [by intros ?%elem_of_nil|].
  rewrite run_S. destruct (step' c) as [[[it yld] c']|] eqn:Hstep;
    [|by intros ?%elem_of_nil].
  cbn [fst]. destruct (step_counter_inv _ _ _ _ Hinv Hstep) as (Hinv' & Hit & Horigin).
  pose proof (step_counter_mono _ _ _ _ Hstep) as Hmono.
  assert (y ∈ (run' n c').1 → accepts' y = true ∧ (y ∈ c.1 ∨ c.2 ≤ seqno y)) as Hrest.
  { intros Hy. destruct (IH c' Hinv' Hy) as [Hacc [Hin|Hge]].
    - split; [done|]. destruct (Horigin _ Hin) as [(? & _)|?]; [by left | by right].
    - split; [done|]. right. lia. }
  destruct yld; simpl; [|done].
  rewrite elem_of_cons. intros [->|Hy]; [|by apply Hrest].
  destruct (step_cases _ _ _ _ Hstep) as (Q' & Hpop & Hcases).
  apply heappop_spec in Hpop as [Hperm _].
  destruct Hcases as [(_ & Ha & _)|[(? & _)|(? & _)]]; [|done|done].
  split; [done|]. left. rewrite Hperm. left.
Qed.

Lemma run_fifo n c i j a b :
  counter_inv c →
  (run' n c).1 !! i = Some a → (run' n c).1 !! j = Some b → i < j →
  cost a = cost b → seqno a < seqno b.
Proof.
  revert c i j. induction n as [|n IH]; intros c i j Hinv; [done|].
  rewrite run_S. destruct (step' c) as [[[it yld] c']|] eqn:Hstep; [|done].
  cbn [fst]. destruct (step_counter_inv _ _ _ _ Hinv Hstep) as (Hinv' & Hit & Horigin).
  destruct yld; simpl; [|by apply IH].
  intros Hi Hj Hij Hcost. destruct j as [|j]; [lia|]. simpl in Hj.
  destruct i as [|i].
  - simpl in Hi. simplify_eq.
    apply list_elem_of_lookup_2 in Hj.
    destruct (run_yield_origin _ _ _ Hinv' Hj) as [Hb [Hin|Hge]].
    + destruct (Horigin _ Hin) as [(_ & Hne & Hmin)|Hge]; [|lia].
      destruct (step_cases _ _ _ _ Hstep) as (Q' & _ & Hcases).
      destruct Hcases as [(_ & Ha & _)|[(? & _)|(? & _)]]; [|done|done].
      destruct (Nat.lt_trichotomy (seqno a) (seqno b)) as [?|[?|Hlt]]; [done|done|].
      assert (item_lt b a = true); [|congruence].
      apply item_lt_spec. right. split; [done|]. right.
      by rewrite (accepts_negpos _ Ha), (accepts_negpos _ Hb).
    + destruct (step_cases _ _ _ _ Hstep) as (Q' & _ & Hcases).
      destruct Hcases as [(_ & _ & ->)|[(? & _)|(? & _)]]; [|done|done].
      simpl in Hge. lia.
  - simpl in Hi. eapply (IH c' i j); [done | done | done | lia | done].
Qed.

Lemma start_counter_inv : counter_inv (start F).
Proof.
  split; simpl.
  - apply NoDup_singleton.
  - intros x ->%list_elem_of_singleton. simpl. lia.
Qed.

End traversal.

Section traversal_theorems.
Context {W : Type} `{!Weight W}.

Lemma StronglySorted_lookup {A} (R : A → A → Prop) (l : list A) i j a b :
  StronglySorted R l → l !! i = Some a → l !! j = Some b → i < j → R a b.
Proof.
  intros Hs. revert i j. induction Hs as [|x l Hs IH Hall]; intros i j Hi Hj Hij.
  - done.
  - destruct j as [|j]; [lia|]. destruct i as [|i]; simpl in *.
    + simplify_eq. rewrite Forall_forall in Hall. apply Hall.
      by eapply list_elem_of_lookup_2.
    + eapply IH; [done | done | lia].
Qed.


(** C4 (as amended) — the heap is keyed by accumulated cost, then by the
    negated input position (among entries of equal cost, those that have
    consumed more input come first), and only then by the strictly
    increasing insertion number; [heappop] returns the least entry for this
    order.  Results of equal cost are yielded in the order in which their
    finished entries were pushed. *)
Theorem heap_key_order `{!WeightLaws W} {FL : Flags} :
  (∀ a b : Item W,
     item_lt a b = true ↔
     wlt (cost a) (cost b) = true ∨
     (cost a = cost b ∧
      ((negpos a < negpos b)%Z ∨ (negpos a = negpos b ∧ seqno a < seqno b)))) ∧
  (∀ (Q : list (Item W)) m R,
     heappop Q = Some (m, R) → Q ≡ₚ m :: R ∧ ∀ x, x ∈ R → item_lt x m = false) ∧
  (∀ (h : Heap W) (F : FST) inverse opts w n i j a b,
     let ys := yielded h F inverse opts w n in
     ys !! i = Some a → ys !! j = Some b → i < j →
     cost a = cost b → seqno a < seqno b).
Proof.
  split_and!.
  - apply item_lt_spec.
  - apply heappop_spec.
  - intros h F inverse opts w n i j a b ys Hi Hj Hij Hc.
    eapply (run_fifo h F inverse opts w n (start F)); [|done..].
    apply start_counter_inv.
Qed.

End traversal_theorems.



Lemma heap_key_order_witness :
  let first := mkItem 0%Z 0%Z 1 [""] (Some 1) in
  let second := mkItem 0%Z (-1)%Z 2 ["a"] (Some 2) in
  [second; first] ≡ₚ second :: [first] ∧
  ∀ x, x ∈ [first] → item_lt x second = false.
Proof.
  cbv zeta.
  destruct (heap_key_order (W := Z) (FL := no_flags)) as (_ & Hpop & _).
  apply Hpop. reflexivity.
Defined.

(** C4, counterexample: after the first round the heap holds two entries of
    cost 0, pushed in the order 1, 2; the next round pops the entry pushed
    last, because it has consumed more input. *)
Lemma equal_cost_pop_not_fifo :
  let c1 := (run (FL := no_flags) tie_heap tie_fst false default_options ["a"] 1
               (start tie_fst)).2 in
  c1.1 = [mkItem 0%Z (-1)%Z 2 ["a"] (Some 2); mkItem 0%Z 0%Z 1 [""] (Some 1)] ∧
  (fst <$> heappop c1.1) = Some (mkItem 0%Z (-1)%Z 2 ["a"] (Some 2)).
Proof. split; reflexivity. Qed.

(** ** The single-label acceptor *)

Section acceptor_shape.
Context {W : Type} `{!Weight W}.

Lemma alter_snoc {A} (f : A → A) (l : list A) (b : A) :
  alter f (length l) (l ++ [b]) = l ++ [f b].
Proof. by rewrite alter_app_r_alt, Nat.sub_diag by done. Qed.

Lemma insert_middle {A} (l k : list A) (a b : A) :
  <[length l := b]> (l ++ a :: k) = l ++ b :: k.
Proof. by rewrite insert_app_r_alt, Nat.sub_diag by done. Qed.

(** the store and the automaton built by [FST(label = (x,), weight = wt)]
    for a symbol other than epsilon *)
Lemma FST_init_symbol (h : Heap W) (x : string) (wt : W) (alph : list string) :
  x ≠ "" →
  FST_init h (Some (L1 x)) wt alph =
    (mkHeap (hstates h ++
               [mkState [(L1 x, [length (htrans h)])] None None winf None;
                mkState [] None None wt None])
            (htrans h ++ [mkTransition (S (length (hstates h))) (L1 x) w0]),
     mkFST [x] (length (hstates h))
           [length (hstates h); S (length (hstates h))]
           [S (length (hstates h))]).
Proof.
  intros Hx. unfold FST_init, new_State. cbn [hstates htrans].
  rewrite decide_False by (intros ?; simplify_eq).
  unfold heap_set_finalweight, heap_add_transition. cbn [hstates htrans].
  rewrite alter_snoc, <- app_assoc. cbn [app].
  rewrite list_lookup_middle by done.
  unfold add_transition. cbn [State_init transitions dict_set dict_get_or dict_get
    default list_union list_difference app set_transitions _transitionsin
    _transitionsout finalweight name set_finalweight].
  rewrite insert_middle, length_app. cbn [length]. rewrite Nat.add_1_r.
  destruct (decide_rel elem_of (length (hstates h)) [S (length (hstates h))])
    as [Hin%list_elem_of_singleton|_]; [lia|].
  reflexivity.
Qed.

(** the automaton built by [FST(label = ('',), weight = wt)] *)
Lemma FST_init_epsilon (h : Heap W) (wt : W) (alph : list string) :
  FST_init h (Some (L1 "")) wt alph =
    (mkHeap (hstates h ++ [mkState [] None None wt None]) (htrans h),
     mkFST alph (length (hstates h)) [length (hstates h)] [length (hstates h)]).
Proof.
  unfold FST_init, new_State. cbn [hstates htrans].
  rewrite decide_True by done.
  unfold heap_set_finalweight. cbn [hstates htrans]. by rewrite alter_snoc.
Qed.

End acceptor_shape.

Section run_to_completion.
Context {W : Type} `{!Weight W} {FL : Flags}.
Variable h : Heap W.
Variable F : FST.
Variable inverse : bool.
Variable opts : Options.
Variable w : list string.

Lemma step_empty n : step h F inverse opts w ([], n) = None.
Proof. reflexivity. Qed.

Lemma step_singleton (it : Item W) n :
  step h F inverse opts w ([it], n) =
    if accepts F opts w it then Some (it, true, ([], n))
    else match state it with
         | Some sid => Some (it, false, expand h F inverse w it sid ([], n))
         | None => Some (it, false, ([], n))
         end.
Proof. reflexivity. Qed.

Lemma accepts_unfinished (it : Item W) sid :
  state it = Some sid → accepts F opts w it = false.
Proof. intros Hst. unfold accepts. by rewrite Hst. Qed.

(** once the heap is empty the generator has stopped *)
Lemma run_done n (c : Config W) :
  (run h F inverse opts w n c).2.1 = [] →
  ∀ m, n ≤ m → run h F inverse opts w m c = run h F inverse opts w n c.
Proof.
  revert c. induction n as [|n IH]; intros c Hdone m Hm.
  - simpl in Hdone. destruct c as [Q k]. simpl in Hdone. subst Q.
    by destruct m.
  - destruct m as [|m]; [lia|]. rewrite !run_S. rewrite run_S in Hdone.
    destruct (step h F inverse opts w c) as [[[it yld] c']|]; [|done].
    cbn [fst snd] in Hdone. by rewrite (IH c' Hdone m) by lia.
Qed.

End run_to_completion.

Section acceptor_run.
Context {W : Type} `{!Weight W} {FL : Flags}.
Variable h : Heap W.
Variable F : FST.
Variable x : string.
Variables init target r : nat.
Variables s0 s1 : State W.
Variable inverse : bool.
Variable opts : Options.

Hypothesis Hinit : initialstate F = init.
Hypothesis Hfin : finalstates F = [target].
Hypothesis Halph : alphabet F = [x].
Hypothesis Hs0 : hstates h !! init = Some s0.
Hypothesis Htr0 : transitions s0 = [(L1 x, [r])].
Hypothesis Hs1 : hstates h !! target = Some s1.
Hypothesis Htr1 : transitions s1 = [].
Hypothesis Ht : htrans h !! r = Some (mkTransition target (L1 x) w0).
Hypothesis Hne : init ≠ target.
Hypothesis Hx : x ≠ "".
Hypothesis Hdot : x ≠ ".".
Hypothesis Hflag : is_flag x = false.

Lemma IN_L1 : IN inverse (L1 x) = x.
Proof. by destruct inverse. Qed.

Lemma OUT_L1 : OUT inverse (L1 x) = x.
Proof. by destruct inverse. Qed.

Lemma acceptor_all_transitions :
  all_transitions (htrans h) s0 = [(L1 x, mkTransition target (L1 x) w0)].
Proof. unfold all_transitions. rewrite Htr0. simpl. by rewrite Ht. Qed.

(** from the initial state only the token [x] can be consumed *)
Lemma acceptor_first_data (w : list string) (it : Item W) :
  negpos it = 0%Z →
  expand_data h F inverse w it init =
    match w with
    | tok :: _ =>
        if decide (tok = x)
        then [(wadd (cost it) w0, (-1)%Z, output it ++ [x], Some target)]
        else []
    | [] => []
    end.
Proof.
  intros Hnp. unfold expand_data. rewrite Hs0, Hfin, acceptor_all_transitions.
  rewrite bool_decide_eq_false_2 by (intros ?%list_elem_of_singleton; done).
  cbn [app omap list_omap]. unfold transition_data. cbn [fst snd weight targetstate].
  rewrite IN_L1, OUT_L1, Hflag, Hnp, Halph.
  rewrite bool_decide_eq_false_2 by done. cbn [orb].
  destruct w as [|tok rest]; [done|].
  cbn [length]. replace (- 0 <? Z.of_nat (S (length rest)))%Z with true
    by (symmetry; apply Z.ltb_lt; lia).
  change (default "" ((tok :: rest) !! Z.to_nat (- 0))) with tok.
  destruct (decide (tok = x)) as [->|Htok].
  - rewrite (bool_decide_eq_true_2 (x ∈ [x])) by left.
    rewrite (bool_decide_eq_false_2 (x = ".")) by done.
    rewrite (bool_decide_eq_true_2 (x = x)) by done. done.
  - rewrite (bool_decide_eq_false_2 (tok ∈ [x]))
      by (intros ?%list_elem_of_singleton; done).
    rewrite (bool_decide_eq_false_2 ("." = x)) by done. done.
Qed.

(** in the final state the path can only stop *)
Lemma acceptor_final_data (w : list string) (it : Item W) :
  expand_data h F inverse w it target =
    [(wadd (cost it) (finalweight s1), negpos it, output it, None)].
Proof.
  unfold expand_data. rewrite Hs1, Hfin. unfold all_transitions. rewrite Htr1.
  rewrite bool_decide_eq_true_2 by left. done.
Qed.

(** the three rounds of the loop on the two-state acceptor *)
Lemma acceptor_run (w : list string) :
  let finished := mkItem (wadd (wadd w0 w0) (finalweight s1)) (-1)%Z 2 [x] None in
  (run h F inverse opts w 3 (start F)).2.1 = [] ∧
  (run h F inverse opts w 3 (start F)).1 =
    if bool_decide (w = [x]) && accepts F opts w finished then [finished] else [].
Proof.
  intros finished. unfold start, push, heappush. cbn [fst snd]. rewrite Hinit.
  rewrite run_S, step_singleton. cbn [state].
  rewrite (accepts_unfinished _ _ _ _ init) by done.
  rewrite expand_eq, acceptor_first_data by done. cbn [cost output app].
  destruct w as [|tok rest].
  { cbn [foldl]. rewrite run_S, step_empty. done. }
  destruct (decide (tok = x)) as [->|Htok].
  2:{ cbn [foldl]. rewrite run_S, step_empty. cbn [fst snd app].
      rewrite bool_decide_eq_false_2 by (intros ?; simplify_eq). done. }
  cbn [foldl]. unfold push_data, push, heappush. cbn [fst snd].
  rewrite run_S, step_singleton. cbn [state].
  rewrite (accepts_unfinished _ _ _ _ target) by done.
  rewrite expand_eq, acceptor_final_data. cbn [cost output negpos foldl].
  unfold push_data, push, heappush. cbn [fst snd].
  rewrite run_S, step_singleton. fold finished.
  destruct (accepts F opts (x :: rest) finished) eqn:Hacc.
  - cbn [run fst snd app]. split; [done|].
    rewrite bool_decide_eq_true_2; [done|].
    pose proof (accepts_negpos _ _ _ _ Hacc) as Hn. cbn in Hn.
    destruct rest; [done | cbn in Hn; lia].
  - cbn [state run fst snd app]. split; [done|]. by rewrite andb_false_r.
Qed.

End acceptor_run.

Section epsilon_run.
Context {W : Type} `{!Weight W} {FL : Flags}.
Variable h : Heap W.
Variable F : FST.
Variable init : nat.
Variable s0 : State W.
Variable inverse : bool.
Variable opts : Options.

Hypothesis Hinit : initialstate F = init.
Hypothesis Hfin : finalstates F = [init].
Hypothesis Hs0 : hstates h !! init = Some s0.
Hypothesis Htr0 : transitions s0 = [].

(** the two rounds of the loop on the one-state epsilon acceptor *)
Lemma epsilon_run (w : list string) :
  let finished := mkItem (wadd w0 (finalweight s0)) 0%Z 1 [] None in
  (run h F inverse opts w 2 (start F)).2.1 = [] ∧
  (run h F inverse opts w 2 (start F)).1 =
    if accepts F opts w finished then [finished] else [].
Proof.
  intros finished. unfold start, push, heappush. cbn [fst snd]. rewrite Hinit.
  rewrite run_S, step_singleton. cbn [state].
  rewrite (accepts_unfinished _ _ _ _ init) by done.
  rewrite expand_eq. unfold expand_data. rewrite Hs0, Hfin.
  unfold all_transitions. rewrite Htr0.
  rewrite bool_decide_eq_true_2 by left.
  cbn [flat_map omap list_omap app foldl cost negpos output].
  unfold push_data, push, heappush. cbn [fst snd].
  rewrite run_S, step_singleton. fold finished.
  destruct (accepts F opts w finished); cbn [state run fst snd app]; by rewrite ?app_nil_r.
Qed.

End epsilon_run.

Section acceptor_theorem.
Context {W : Type} `{!Weight W} `{!WeightLaws W} {FL : Flags}.

Lemma apply_all_done (h : Heap W) (F : FST) word inverse opts n0 n :
  (run h F inverse opts (tokenize_against_alphabet F word) n0 (start F)).2.1 = [] →
  n0 ≤ n →
  apply_all h F word inverse opts n =
    Some (yield_value opts <$>
            (run h F inverse opts (tokenize_against_alphabet F word) n0 (start F)).1).
Proof.
  intros Hdone Hn. unfold apply_all, exhausted, apply, yielded.
  rewrite (run_done _ _ _ _ _ n0 _ Hdone n Hn).
  by rewrite bool_decide_eq_true_2.
Qed.

(** C8 (as amended) — for every symbol [x] that is neither the wildcard
    ["."] nor a flag diacritic (epsilon included), the acceptor built by
    [FST(label = (x,))] accepts exactly the string [x]: [generate(x)] runs
    to completion with exactly one result, of cost 0, and [generate(word)]
    runs to completion without a result for every other word. *)
Theorem single_symbol_acceptor (h : Heap W) (x : string) (alph : list string)
    (opts : Options) :
  x ≠ "." →
  is_flag x = false →
  (∀ a out, Forall (λ s, is_flag s = false) out → flag_filter a out = true) →
  let hF := FST_init h (Some (L1 x)) w0 alph in
  let out := if decide (x = "") then [] else [x] in
  let yield_output := if tokenize_outputs opts then Tokens out else Joined x in
  let result :=
    if weights opts then Weighted yield_output w0 else Plain yield_output in
  ∀ n, 3 ≤ n →
    apply_all hF.1 hF.2 x false opts n = Some [result] ∧
    ∀ word, word ≠ x → apply_all hF.1 hF.2 word false opts n = Some [].
Proof.
  intros Hdot Hflag Hff hF out yield_output result n Hn.
  destruct (decide (x = "")) as [->|Hx].
  - (* the epsilon acceptor *)
    subst hF. rewrite FST_init_epsilon. cbn [fst snd].
    set (h' := mkHeap _ _). set (F := mkFST _ _ _ _).
    assert (∀ word,
      apply_all h' F word false opts n =
        Some (if bool_decide (tokenize_against_alphabet F word = [])
              then [result] else [])) as Hrun.
    { intros word.
      destruct (epsilon_run h' F (length (hstates h)) (mkState [] None None w0 None)
                  false opts eq_refl eq_refl
                  (list_lookup_middle _ _ _ _ eq_refl) eq_refl
                  (tokenize_against_alphabet F word)) as [Hdone Hys].
      rewrite (apply_all_done _ _ _ _ _ 2 n Hdone) by lia. rewrite Hys. f_equal.
      unfold accepts. cbn [state negpos output finalweight cost].
      rewrite (Hff _ []) by constructor. rewrite orb_true_r, andb_true_r.
      rewrite bool_decide_eq_true_2 by done. cbn [andb].
      destruct (tokenize_against_alphabet F word) as [|tok rest] eqn:Htok.
      - rewrite !bool_decide_eq_true_2 by done. cbn [fmap list_fmap].
        unfold yield_value. cbn [output cost]. rewrite wadd_0_0.
        subst result yield_output out. unfold filter_flags. cbn [List.filter].
        by destruct (print_flags opts).
      - rewrite !bool_decide_eq_false_2 by (cbn [length]; first [lia | done]).
        done. }
    split.
    + rewrite Hrun. by rewrite bool_decide_eq_true_2 by done.
    + intros word Hword. rewrite Hrun. rewrite bool_decide_eq_false_2; [done|].
      intros Htok. apply Hword.
      pose proof (tokenize_against_alphabet_spec F word) as Hspec.
      rewrite Htok in Hspec. by apply lmt_nil_inv in Hspec.
  - (* the two-state acceptor *)
    subst hF. rewrite FST_init_symbol by done. cbn [fst snd].
    set (h' := mkHeap _ _). set (F := mkFST _ _ _ _).
    set (s1 := mkState [] None None w0 None).
    set (s0 := mkState [(L1 x, [length (htrans h)])] None None winf None).
    assert (hstates h' !! S (length (hstates h)) = Some s1) as Hs1.
    { subst h'. cbn [hstates]. rewrite lookup_app_r by lia.
      by replace (S (length (hstates h)) - length (hstates h)) with 1 by lia. }
    assert (∀ word,
      apply_all h' F word false opts n =
        Some (if bool_decide (tokenize_against_alphabet F word = [x])
              then [result] else [])) as Hrun.
    { intros word.
      destruct (acceptor_run h' F x (length (hstates h)) (S (length (hstates h)))
                  (length (htrans h)) s0 s1 false opts eq_refl eq_refl eq_refl
                  (list_lookup_middle _ _ _ _ eq_refl) eq_refl Hs1 eq_refl
                  (list_lookup_middle _ _ _ _ eq_refl) ltac:(lia) Hx Hdot Hflag
                  (tokenize_against_alphabet F word)) as [Hdone Hys].
      rewrite (apply_all_done _ _ _ _ _ 3 n Hdone) by lia. rewrite Hys. f_equal.
      destruct (bool_decide (tokenize_against_alphabet F word = [x])) eqn:Htok;
        [|done].
      apply bool_decide_eq_true in Htok. rewrite Htok. cbn [andb].
      unfold accepts. cbn [state negpos output finalweight cost length].
      rewrite (Hff _ [x]) by (by repeat constructor).
      rewrite orb_true_r, andb_true_r, !bool_decide_eq_true_2 by done.
      cbn [andb fmap list_fmap]. unfold yield_value. cbn [output cost finalweight s1].
      rewrite !wadd_0_0.
      subst result yield_output out. unfold filter_flags. cbn [List.filter].
      rewrite Hflag. cbn [negb]. by destruct (print_flags opts). }
    split.
    + rewrite Hrun. rewrite bool_decide_eq_true_2; [done|].
      apply lmt_single_symbol; [done|].
      apply (tokenize_against_alphabet_spec F x).
    + intros word Hword. rewrite Hrun. rewrite bool_decide_eq_false_2; [done|].
      intros Htok. apply Hword.
      pose proof (tokenize_against_alphabet_spec F word) as Hspec.
      rewrite Htok in Hspec. by apply lmt_singleton_inv in Hspec.
Qed.

End acceptor_theorem.

Lemma single_symbol_acceptor_witness :
  "a" ≠ "." ∧
  apply_all (FL := no_flags) (acceptor "a").1 (acceptor "a").2 "a" false
    default_options 3 = Some [Plain (Joined "a")].
Proof.
  assert ("a" ≠ ".") as Hdot by discriminate.
  split; [exact Hdot|].
  refine (proj1 (single_symbol_acceptor (W := Z) (FL := no_flags) empty_heap "a" []
                   default_options Hdot _ _ 3 _)).
  - reflexivity.
  - intros a out _. reflexivity.
  - lia.
Defined.

(** C8, counterexample: the acceptor of the wildcard ["."] accepts the word
    ["z"], and the acceptor of a flag diacritic rejects the diacritic itself
    and accepts the empty word. *)
Lemma wildcard_and_flag_acceptors :
  "z" ≠ "." ∧
  apply_all (FL := no_flags) (acceptor ".").1 (acceptor ".").2 "z" false
    default_options 3 = Some [Plain (Joined "z")] ∧
  apply_all (FL := one_flag) (acceptor "@U.X.Y@").1 (acceptor "@U.X.Y@").2
    "@U.X.Y@" false default_options 3 = Some [] ∧
  apply_all (FL := one_flag) (acceptor "@U.X.Y@").1 (acceptor "@U.X.Y@").2
    "" false default_options 3 = Some [Plain (Joined "")].
Proof. split_and!; [discriminate | reflexivity..]. Qed.

(** ** The right-linear grammar compiler *)

Section rlg_errors.
Context {W : Type} `{!Weight W}.
Variable scan : string → list string.
Implicit Types (h : Heap W) (F : FST) (sd : list (string * nat))
  (grammar : Grammar W) (rule : Rule W).

Lemma elem_of_dict_keys_set {V} (d : list (string * V)) k v k' :
  k' ∈ dict_keys (dict_set d k v) ↔ k' = k ∨ k' ∈ dict_keys d.
Proof.
  rewrite dict_keys_set. case_decide as Hk.
  - split; [by right|]. intros [->|?]; done.
  - rewrite elem_of_app, list_elem_of_singleton. tauto.
Qed.

Lemma make_statedict_keys_acc names h sd k :
  k ∈ dict_keys (foldl (λ '(h, sd) nm,
                          let '(s, h') := new_State h None (Some nm) in
                          (h', dict_set sd nm s)) (h, sd) names).2
  ↔ k ∈ dict_keys sd ∨ k ∈ names.
Proof.
  revert h sd. induction names as [|nm names IH]; intros h sd.
  - simpl. split; [by left|]. intros [?|?%elem_of_nil]; done.
  - cbn [foldl new_State]. rewrite IH, elem_of_dict_keys_set, elem_of_cons. tauto.
Qed.

(** the state dictionary has one entry per rule-set name and one for [#] *)
Lemma make_statedict_keys h grammar k :
  k ∈ dict_keys (make_statedict h (list_union (dict_keys grammar) ["#"])).2
  ↔ k ∈ dict_keys grammar ∨ k = "#".
Proof.
  unfold make_statedict. rewrite make_statedict_keys_acc, list_elem_of_union.
  rewrite list_elem_of_singleton. split.
  - intros [?%elem_of_nil|?]; done.
  - intros ?. by right.
Qed.

Lemma foldl_position_step_error sd rule n e l :
  foldl (position_step sd rule n) (inl e) l = inl e.
Proof. induction l as [|x l IH]; [done|]. simpl. apply IH. Qed.

Lemma foldl_compile_rule_error sd lexstate e (rules : list (Rule W)) :
  foldl (compile_rule scan sd lexstate) (inl e) rules = inl e.
Proof. induction rules as [|x l IH]; [done|]. simpl. apply IH. Qed.

Lemma foldl_compile_ruleset_error grammar sd e (names : list string) :
  foldl (compile_ruleset scan grammar sd) (inl e) names = inl e.
Proof. induction names as [|x l IH]; [done|]. simpl. apply IH. Qed.

(** the last position looks the rule's target up *)
Lemma positions_fail sd rule n (i o : list string) (acc : Exc (Heap W * FST * nat)) :
  0 < n →
  dict_get sd (rule_target rule) = None →
  ∃ e, foldl (position_step sd rule n) acc (zip_longest i o n) = inl e.
Proof.
  intros Hn Hget. destruct n as [|m]; [lia|].
  unfold zip_longest. rewrite seq_S, fmap_app, foldl_app. cbn [fmap list_fmap foldl].
  destruct (foldl _ acc _) as [e|[[h F] cur]]; [by exists e|].
  exists (KeyError (rule_target rule)).
  unfold position_step. cbn [mbind Exc_bind]. unfold position_target.
  rewrite decide_True by (simpl; lia).
  unfold dict_lookup. rewrite Hget. done.
Qed.

Lemma compile_rule_fails sd lexstate rule (acc : Exc (Heap W * FST)) :
  0 < max (length (rule_i scan rule)) (length (rule_o scan rule)) →
  dict_get sd (rule_target rule) = None →
  ∃ e, compile_rule scan sd lexstate acc rule = inl e.
Proof.
  intros Hn Hget. unfold compile_rule.
  destruct acc as [e|[h F]]; [by exists e|]. cbn [mbind Exc_bind].
  destruct (dict_lookup sd lexstate) as [e|cur]; [by exists e|].
  cbn [mbind Exc_bind]. cbv zeta.
  destruct (positions_fail sd rule _ (rule_i scan rule) (rule_o scan rule)
              (inr (h, set_alphabet F (list_union (alphabet F) (rule_symbols scan rule)), cur))
              Hn Hget) as [e He].
  rewrite He. by exists e.
Qed.

Lemma foldl_compile_rule_fails sd lexstate rule (rules : list (Rule W))
    (acc : Exc (Heap W * FST)) :
  rule ∈ rules →
  0 < max (length (rule_i scan rule)) (length (rule_o scan rule)) →
  dict_get sd (rule_target rule) = None →
  ∃ e, foldl (compile_rule scan sd lexstate) acc rules = inl e.
Proof.
  intros Hin Hn Hget. revert acc.
  induction rules as [|r rules IH]; intros acc; [by apply elem_of_nil in Hin|].
  cbn [foldl]. apply elem_of_cons in Hin as [<-|Hin]; [|by apply IH].
  destruct (compile_rule_fails sd lexstate rule acc Hn Hget) as [e He].
  rewrite He, foldl_compile_rule_error. by exists e.
Qed.

Lemma foldl_compile_ruleset_fails grammar sd lexstate rules rule
    (names : list string) (acc : Exc (Heap W * FST)) :
  lexstate ∈ names →
  dict_get grammar lexstate = Some rules →
  rule ∈ rules →
  0 < max (length (rule_i scan rule)) (length (rule_o scan rule)) →
  dict_get sd (rule_target rule) = None →
  ∃ e, foldl (compile_ruleset scan grammar sd) acc names = inl e.
Proof.
  intros Hin Hrules Hrule Hn Hget. revert acc.
  induction names as [|nm names IH]; intros acc; [by apply elem_of_nil in Hin|].
  cbn [foldl]. apply elem_of_cons in Hin as [<-|Hin]; [|by apply IH].
  assert (∃ e, compile_ruleset scan grammar sd acc lexstate = inl e) as [e He].
  { unfold compile_ruleset. destruct acc as [e|a]; [by exists e|].
    cbn [mbind Exc_bind]. unfold dict_lookup. rewrite Hrules.
    by apply (foldl_compile_rule_fails sd lexstate rule). }
  rewrite He, foldl_compile_ruleset_error. by exists e.
Qed.

(** C9 (as amended) — a rule that stands in a rule-set other than [#],
    has at least one token position, and continues to a name that is
    neither a key of the grammar nor [#], makes [rlg] fail with a
    [KeyError] during compilation: no automaton is returned, so nothing
    is left to fail during traversal. *)
Theorem rlg_undeclared_target (h0 : Heap W) grammar (startsymbol lexstate : string)
    (rules : list (Rule W)) rule :
  dict_get grammar lexstate = Some rules →
  rule ∈ rules →
  lexstate ≠ "#" →
  0 < max (length (rule_i scan rule)) (length (rule_o scan rule)) →
  rule_target rule ∉ dict_keys grammar →
  rule_target rule ≠ "#" →
  ∃ k, rlg scan h0 grammar startsymbol = inl (KeyError k).
Proof.
  intros Hrules Hrule Hlex Hn Htarget Hhash.
  assert (∃ e, rlg scan h0 grammar startsymbol = inl e) as [[k] He];
    [|by exists k].
  unfold rlg. destruct (FST_init h0 None w0 []) as [h1 newfst].
  destruct (make_statedict h1 (list_union (dict_keys grammar) ["#"]))
    as [h2 sd] eqn:Hsd.
  assert (∀ k, k ∈ dict_keys sd ↔ k ∈ dict_keys grammar ∨ k = "#") as Hkeys.
  { intros k. rewrite <- (make_statedict_keys h1 grammar k). by rewrite Hsd. }
  destruct (dict_lookup sd startsymbol) as [e|init]; [by exists e|].
  cbn [mbind Exc_bind].
  destruct (dict_lookup sd "#") as [e|final]; [by exists e|].
  cbn [mbind Exc_bind].
  apply (foldl_compile_ruleset_fails grammar sd lexstate rules rule);
    [|done|done|done|].
  - apply list_elem_of_difference. split.
    + apply Hkeys. left. apply dict_get_Some_elem in Hrules.
      apply list_elem_of_fmap. by exists (lexstate, rules).
    + by intros ?%list_elem_of_singleton.
  - apply dict_get_None. rewrite Hkeys. tauto.
Qed.

End rlg_errors.

Lemma rlg_undeclared_target_witness :
  dict_get undeclared_grammar "Start" = Some [mkRule (Bare "a") "Nowhere" None] ∧
  ∃ k, rlg plain_tokens empty_heap undeclared_grammar "Start" = inl (KeyError k).
Proof.
  assert (dict_get undeclared_grammar "Start"
          = Some [mkRule (Bare "a") "Nowhere" None]) as Hget by reflexivity.
  split; [exact Hget|].
  apply (rlg_undeclared_target plain_tokens empty_heap undeclared_grammar "Start"
           "Start" _ (mkRule (Bare "a") "Nowhere" None) Hget).
  - left.
  - discriminate.
  - vm_compute. lia.
  - intros Hin%list_elem_of_singleton. discriminate.
  - discriminate.
Defined.

(** C9, counterexample: the rule kept under [#] continues to the undeclared
    name [Nowhere], yet the grammar compiles; the compiler never visits the
    rules of [#]. *)
Lemma rlg_ignores_rules_of_terminal :
  dict_get hash_grammar "#" = Some [mkRule (Bare "b") "Nowhere" None] ∧
  ("Nowhere" ∉ dict_keys hash_grammar) ∧
  "Nowhere" ≠ "#" ∧
  ∃ hF, rlg plain_tokens empty_heap hash_grammar "Start" = inr hF.
Proof.
  split_and!; [reflexivity | | discriminate | eexists; reflexivity].
  intros Hin. repeat (apply elem_of_cons in Hin as [?|Hin]; [discriminate|]).
  by apply elem_of_nil in Hin.
Qed.

Section rlg_rule.
Context {W : Type} `{!Weight W}.
Variable scan : string → list string.
Implicit Types (h : Heap W) (F : FST) (sd : list (string * nat)) (rule : Rule W).

Lemma heap_extends_refl h : heap_extends h h.
Proof. intros j s Hj. by exists s. Qed.

Lemma heap_extends_trans h1 h2 h3 :
  heap_extends h1 h2 → heap_extends h2 h3 → heap_extends h1 h3.
Proof.
  intros H12 H23 j s Hj.
  destruct (H12 j s Hj) as (s2 & Hj2 & Hn2 & Hb2).
  destruct (H23 j s2 Hj2) as (s3 & Hj3 & Hn3 & Hb3).
  exists s3. split_and!; [done | congruence | eauto].
Qed.

Lemma new_State_extends h fw nm : heap_extends h (new_State h fw nm).2.
Proof.
  intros j s Hj. exists s. split_and!; [|done|done].
  simpl. by apply lookup_app_l_Some.
Qed.

Lemma add_transition_bucket_mono (th : TStore W) (s : State W) other lbl wt L r :
  r ∈ dict_get_or (transitions s) L [] →
  r ∈ dict_get_or (transitions (add_transition th s other lbl wt).2) L [].
Proof.
  intros Hr. simpl. unfold dict_get_or at 1.
  destruct (decide (lbl = L)) as [->|Hne].
  - rewrite dict_get_set_eq. simpl. apply list_elem_of_union. by left.
  - by rewrite dict_get_set_ne.
Qed.

Lemma add_transition_bucket_new (th : TStore W) (s : State W) other lbl wt :
  length th ∈ dict_get_or (transitions (add_transition th s other lbl wt).2) lbl [].
Proof.
  simpl. unfold dict_get_or at 1. rewrite dict_get_set_eq. simpl.
  apply list_elem_of_union. right. left.
Qed.

(** [src.add_transition(other, lbl, wt)] on the store *)
Lemma heap_add_transition_spec h src other lbl wt s :
  hstates h !! src = Some s →
  let h' := heap_add_transition h src other lbl wt in
  htrans h' = htrans h ++ [mkTransition other lbl wt] ∧
  length (hstates h') = length (hstates h) ∧
  heap_extends h h' ∧
  ∃ s', hstates h' !! src = Some s' ∧
        length (htrans h) ∈ dict_get_or (transitions s') lbl [].
Proof.
  intros Hsrc h'. subst h'. unfold heap_add_transition. rewrite Hsrc.
  destruct (add_transition (htrans h) s other lbl wt) as [th' s'] eqn:Hadd.
  assert (th' = (add_transition (htrans h) s other lbl wt).1) as Hth by by rewrite Hadd.
  assert (s' = (add_transition (htrans h) s other lbl wt).2) as Hs' by by rewrite Hadd.
  cbn [hstates htrans]. split_and!.
  - by rewrite Hth.
  - by rewrite length_insert.
  - intros j sj Hj. cbn [hstates]. destruct (decide (j = src)) as [->|Hne].
    + exists s'. rewrite list_lookup_insert_eq by by eapply lookup_lt_Some.
      simplify_eq. split_and!; [done | done |].
      intros L r. apply add_transition_bucket_mono.
    + exists sj. by rewrite list_lookup_insert_ne.
  - exists s'. cbn [hstates].
    rewrite list_lookup_insert_eq by by eapply lookup_lt_Some.
    split; [done|]. rewrite Hs'. apply add_transition_bucket_new.
Qed.

End rlg_rule.

Section rlg_positions.
Context {W : Type} `{!Weight W}.
Variable sd : list (string * nat).
Variable rule : Rule W.
Variables i o : list string.
Variable h : Heap W.
Variable F1 : FST.
Variables src ts : nat.
Variable s_src : State W.
Hypothesis Hsrc : hstates h !! src = Some s_src.
Hypothesis Hts : dict_get sd (rule_target rule) = Some ts.

Local Abbreviation n := (max (length i) (length o)).
Local Abbreviation fresh := (length (hstates h)).
Local Abbreviation wt := (default w0 (rule_weight rule)).
Local Abbreviation lbl_at k :=
  (newtuple (default "" (i !! k)) (default "" (o !! k))).
Local Abbreviation spec_t :=
  (λ k, if decide (k = n - 1)
        then mkTransition ts (lbl_at k) wt
        else mkTransition (fresh + k) (lbl_at k) w0).
Local Abbreviation g :=
  (λ idx, (default "" (i !! idx), default "" (o !! idx), idx)).

(** the loop invariant of [for ii, oo, idx in zip_longest(...)], after [m]
    positions *)
Lemma positions_inv m :
  m ≤ n →
  ∃ h_m F_m,
    foldl (position_step sd rule n) (inr (h, F1, src)) (g <$> seq 0 m)
      = inr (h_m, F_m,
             if decide (0 < m ∧ m = n) then ts else position_source src fresh m) ∧
    htrans h_m = htrans h ++ (spec_t <$> seq 0 m) ∧
    length (hstates h_m) = fresh + min m (n - 1) ∧
    heap_extends h h_m ∧
    alphabet F_m = alphabet F1 ∧
    initialstate F_m = initialstate F1 ∧
    finalstates F_m = finalstates F1 ∧
    (∀ x, x ∈ states F_m ↔ x ∈ states F1 ∨ ∃ k, k < min m (n - 1) ∧ x = fresh + k) ∧
    (∀ k, k < min m (n - 1) →
       ∃ s, hstates h_m !! (fresh + k) = Some s ∧ name s = None) ∧
    (∀ k, k < m →
       ∃ s, hstates h_m !! position_source src fresh k = Some s ∧
            length (htrans h) + k ∈ dict_get_or (transitions s) (label (spec_t k)) []).
Proof.
  induction m as [|m IH]; intros Hm.
  - exists h, F1. rewrite decide_False by lia.
    split_and!.
    + done.
    + by rewrite app_nil_r.
    + simpl. lia.
    + apply heap_extends_refl.
    + done.
    + done.
    + done.
    + intros x. split; [by left|]. intros [?|(k & Hk & _)]; [done|simpl in Hk; lia].
    + intros k Hk. simpl in Hk. lia.
    + intros k Hk. lia.
  - destruct (IH ltac:(lia)) as
      (h_m & F_m & Hfold & Htr & Hlen & Hext & Ha & Hi & Hf & Hst & Hfresh & Hchain).
    rewrite decide_False in Hfold by lia.
    (* the current state exists *)
    assert (∃ s_cur, hstates h_m !! position_source src fresh m = Some s_cur)
      as [s_cur Hcur].
    { destruct m as [|m'].
      - destruct (Hext _ _ Hsrc) as (s' & Hs' & _). by exists s'.
      - destruct (Hfresh m' ltac:(lia)) as (s' & Hs' & _). by exists s'. }
    rewrite seq_S, fmap_app, foldl_app, Hfold. cbn [fmap list_fmap foldl Nat.add].
    unfold position_step. cbn [mbind Exc_bind]. unfold position_target.
    destruct (decide (m = n - 1)) as [Hlast|Hnotlast].
    + (* the last position *)
      unfold dict_lookup. rewrite Hts. cbn [mbind Exc_bind].
      destruct (heap_add_transition_spec h_m _ ts (lbl_at m) wt s_cur Hcur)
        as (Htr' & Hlen' & Hext' & s' & Hs' & Hnew).
      exists (heap_add_transition h_m (position_source src fresh m) ts (lbl_at m) wt),
             F_m.
      rewrite decide_True by lia.
      split_and!.
      * done.
      * rewrite Htr', Htr, <- app_assoc, fmap_app. do 2 f_equal.
        cbn [fmap list_fmap]. by rewrite decide_True.
      * rewrite Hlen', Hlen. lia.
      * by eapply heap_extends_trans.
      * done.
      * done.
      * done.
      * intros x. rewrite Hst. replace (min (S m) (n - 1)) with (min m (n - 1)) by lia.
        done.
      * intros k Hk. destruct (Hfresh k ltac:(lia)) as (s & Hs & Hname).
        destruct (Hext' _ _ Hs) as (s2 & Hs2 & Hname2 & _).
        exists s2. split; [done | congruence].
      * intros k Hk. destruct (decide (k = m)) as [->|Hne].
        -- exists s'. split; [done|]. rewrite decide_True by done. cbn [label].
           by rewrite Htr, length_app, length_fmap, length_seq in Hnew.
        -- destruct (Hchain k ltac:(lia)) as (s & Hs & Hin).
           destruct (Hext' _ _ Hs) as (s2 & Hs2 & _ & Hmono).
           exists s2. split; [done | by apply Hmono].
    + (* an intermediate position: a new state *)
      cbn [new_State mbind Exc_bind fst snd].
      set (h1 := mkHeap (hstates h_m ++ [State_init None None]) (htrans h_m)).
      assert (heap_extends h_m h1) as Hext1.
      { apply (new_State_extends h_m None None). }
      destruct (Hext1 _ _ Hcur) as (s_cur1 & Hcur1 & _).
      destruct (heap_add_transition_spec h1 _ (length (hstates h_m)) (lbl_at m) w0
                  s_cur1 Hcur1) as (Htr' & Hlen' & Hext' & s' & Hs' & Hnew).
      exists (heap_add_transition h1 (position_source src fresh m)
                (length (hstates h_m)) (lbl_at m) w0),
             (set_states F_m (list_union (states F_m) [length (hstates h_m)])).
      rewrite decide_False by lia.
      assert (length (hstates h_m) = fresh + m) as Hlen_m by lia.
      split_and!.
      * cbn [position_source]. by rewrite Hlen_m.
      * rewrite Htr'. subst h1. cbn [htrans].
        rewrite Htr, <- app_assoc, fmap_app. do 2 f_equal.
        cbn [fmap list_fmap]. rewrite decide_False by done. by rewrite Hlen_m.
      * rewrite Hlen'. subst h1. cbn [hstates]. rewrite length_app. cbn [length]. lia.
      * eapply heap_extends_trans; [exact Hext|].
        eapply heap_extends_trans; [exact Hext1 | exact Hext'].
      * done.
      * done.
      * done.
      * intros x. cbn [set_states states]. rewrite list_elem_of_union, Hst.
        rewrite list_elem_of_singleton, Hlen_m. split.
        -- intros [[?|(k & Hk & ->)]| ->]; [by left | |].
           ++ right. exists k. split; [lia | done].
           ++ right. exists m. split; [lia | done].
        -- intros [?|(k & Hk & ->)]; [left; by left|].
           destruct (decide (k = m)) as [->|Hne]; [by right|].
           left. right. exists k. split; [lia | done].
      * intros k Hk. destruct (decide (k = m)) as [->|Hne].
        -- assert (hstates h1 !! (fresh + m) = Some (State_init None None)) as Hnew1.
           { subst h1. cbn [hstates]. rewrite <- Hlen_m. by apply list_lookup_middle. }
           destruct (Hext' _ _ Hnew1) as (s2 & Hs2 & Hname2 & _).
           exists s2. split; [done|]. by rewrite Hname2.
        -- destruct (Hfresh k ltac:(lia)) as (s & Hs & Hname).
           destruct (Hext1 _ _ Hs) as (s2 & Hs2 & Hname2 & _).
           destruct (Hext' _ _ Hs2) as (s3 & Hs3 & Hname3 & _).
           exists s3. split; [done | congruence].
      * intros k Hk. destruct (decide (k = m)) as [->|Hne].
        -- exists s'. split; [done|]. rewrite decide_False by done. cbn [label].
           subst h1. cbn [htrans] in Hnew.
           by rewrite Htr, length_app, length_fmap, length_seq in Hnew.
        -- destruct (Hchain k ltac:(lia)) as (s & Hs & Hin).
           destruct (Hext1 _ _ Hs) as (s2 & Hs2 & _ & Hmono2).
           destruct (Hext' _ _ Hs2) as (s3 & Hs3 & _ & Hmono3).
           exists s3. split; [done|]. by apply Hmono3, Hmono2.
Qed.

End rlg_positions.

Section rlg_rule_theorem.
Context {W : Type} `{!Weight W}.
Variable scan : string → list string.

Lemma pad_length n (l : list string) : length l ≤ n → length (pad n l) = n.
Proof. intros Hl. unfold pad. rewrite length_app, length_replicate. lia. Qed.

Lemma pad_lookup n (l : list string) k :
  length l ≤ n →
  pad n l !! k = if decide (k < n) then Some (default "" (l !! k)) else None.
Proof.
  intros Hl. unfold pad. case_decide as Hk.
  - destruct (decide (k < length l)) as [Hkl|Hkl].
    + rewrite lookup_app_l by done.
      destruct (lookup_lt_is_Some_2 l k Hkl) as [x Hx]. by rewrite Hx.
    + rewrite lookup_app_r by lia. rewrite lookup_replicate_2 by lia.
      by rewrite (lookup_ge_None_2 l k) by lia.
  - apply lookup_ge_None_2. rewrite length_app, length_replicate. lia.
Qed.

(** the transitions of the specification, position by position *)
Lemma rule_transitions_lookup (i o : list string) (ts : nat) (wt : W) fresh k :
  let n := max (length i) (length o) in
  rule_transitions i o ts wt fresh !! k =
    if decide (k < n)
    then Some (if decide (k = n - 1)
               then mkTransition ts
                      (newtuple (default "" (i !! k)) (default "" (o !! k))) wt
               else mkTransition (fresh + k)
                      (newtuple (default "" (i !! k)) (default "" (o !! k))) w0)
    else None.
Proof.
  intros n. unfold rule_transitions. fold n.
  rewrite list_lookup_imap.
  rewrite lookup_zip_with.
  rewrite !pad_lookup by lia.
  destruct (decide (k < n)); [|done]. simpl.
  by destruct (decide (k = n - 1)).
Qed.

Lemma rule_transitions_seq (i o : list string) (ts : nat) (wt : W) fresh :
  let n := max (length i) (length o) in
  rule_transitions i o ts wt fresh =
    (λ k, if decide (k = n - 1)
          then mkTransition ts
                 (newtuple (default "" (i !! k)) (default "" (o !! k))) wt
          else mkTransition (fresh + k)
                 (newtuple (default "" (i !! k)) (default "" (o !! k))) w0)
      <$> seq 0 n.
Proof.
  intros n. apply list_eq. intros k.
  rewrite rule_transitions_lookup, list_lookup_fmap. fold n.
  case_decide as Hk.
  - by rewrite lookup_seq_lt by done.
  - by rewrite lookup_seq_ge by lia.
Qed.

(** one rule: the transitions, states and labels the loop over the
    positions leaves behind *)
Lemma compile_rule_spec (sd : list (string * nat)) (lexstate : string)
    (rule : Rule W) (h : Heap W) (F : FST) (src ts : nat) (s_src : State W) :
  dict_get sd lexstate = Some src →
  hstates h !! src = Some s_src →
  dict_get sd (rule_target rule) = Some ts →
  let i := rule_i scan rule in
  let o := rule_o scan rule in
  let n := max (length i) (length o) in
  let fresh := length (hstates h) in
  let wt := default w0 (rule_weight rule) in
  let new := rule_transitions i o ts wt fresh in
  ∃ h' F',
    compile_rule scan sd lexstate (inr (h, F)) rule = inr (h', F') ∧
    (length (pad n i) = n ∧ length (pad n o) = n) ∧
    htrans h' = htrans h ++ new ∧
    length new = n ∧
    (∀ k t, new !! k = Some t →
       label t = newtuple (default "" (i !! k)) (default "" (o !! k)) ∧
       (k ≠ n - 1 → targetstate t = fresh + k ∧ weight t = w0) ∧
       (k = n - 1 → targetstate t = ts ∧ weight t = wt) ∧
       ∃ s, hstates h' !! position_source src fresh k = Some s ∧
            length (htrans h) + k ∈ dict_get_or (transitions s) (label t) []) ∧
    length (hstates h') = fresh + (n - 1) ∧
    (∀ k, k < n - 1 →
       fresh + k ∈ states F' ∧
       ∃ s, hstates h' !! (fresh + k) = Some s ∧ name s = None) ∧
    heap_extends h h' ∧
    alphabet F' = list_union (alphabet F) (rule_symbols scan rule) ∧
    (∀ x, x ∈ states F → x ∈ states F').
Proof.
  intros Hlex Hsrc Hts i o n fresh wt new. subst new wt fresh n.
  destruct (positions_inv sd rule i o h
              (set_alphabet F (list_union (alphabet F) (rule_symbols scan rule)))
              src ts s_src Hsrc Hts (max (length i) (length o)) ltac:(done))
    as (h' & F' & Hfold & Htr & Hlen & Hext & Ha & _ & _ & Hst & Hfresh & Hchain).
  exists h', F'. rewrite rule_transitions_seq.
  set (n := max (length i) (length o)) in *.
  split_and!.
  - unfold compile_rule. cbn [mbind Exc_bind]. unfold dict_lookup. rewrite Hlex.
    cbn [mbind Exc_bind]. cbv zeta. fold i o n. unfold zip_longest.
    by rewrite Hfold.
  - apply pad_length. lia.
  - apply pad_length. lia.
  - done.
  - by rewrite length_fmap, length_seq.
  - intros k t Hk.
    assert (k < n) as Hkn.
    { apply lookup_lt_Some in Hk. by rewrite length_fmap, length_seq in Hk. }
    destruct (Hchain k Hkn) as (s & Hs & Hin).
    rewrite list_lookup_fmap, lookup_seq_lt in Hk by done.
    cbn [fmap option_fmap option_map Nat.add] in Hk.
    injection Hk as <-.
    split_and!.
    + by destruct (decide (k = n - 1)).
    + intros Hne. by rewrite decide_False by done.
    + intros Heq. by rewrite decide_True by done.
    + by exists s.
  - rewrite Hlen. lia.
  - intros k Hk. split.
    + apply Hst. right. exists k. split; [lia | done].
    + apply Hfresh. lia.
  - done.
  - done.
  - intros x Hx. apply Hst. by left.
Qed.

End rlg_rule_theorem.


Section rlg_whole.
Context {W : Type} `{!Weight W}.
Variable scan : string → list string.
Implicit Types (h : Heap W) (F : FST) (sd : list (string * nat)) (rule : Rule W).

Lemma state_named_extends h h' id nm :
  heap_extends h h' → state_named h id nm → state_named h' id nm.
Proof.
  intros Hext (s & Hs & Hn). destruct (Hext _ _ Hs) as (s' & Hs' & Hn' & _).
  exists s'. split; [done | congruence].
Qed.

Lemma statedict_valid_extends sd h h' :
  heap_extends h h' → statedict_valid sd h → statedict_valid sd h'.
Proof. intros Hext Hv nm id Hget. eapply state_named_extends; [done | by apply Hv]. Qed.

Lemma grows_refl (a : Heap W * FST) : grows a a.
Proof. split_and!; [apply heap_extends_refl | done | done]. Qed.

Lemma grows_trans (a b c : Heap W * FST) : grows a b → grows b c → grows a c.
Proof.
  intros (He1 & Hp1 & Hs1) (He2 & Hp2 & Hs2). split_and!.
  - by eapply heap_extends_trans.
  - by etrans.
  - by etrans.
Qed.

Lemma make_statedict_valid_acc names h sd :
  statedict_valid sd h →
  statedict_valid
    (foldl (λ '(h, sd) nm,
              let '(s, h') := new_State h None (Some nm) in
              (h', dict_set sd nm s)) (h, sd) names).2
    (foldl (λ '(h, sd) nm,
              let '(s, h') := new_State h None (Some nm) in
              (h', dict_set sd nm s)) (h, sd) names).1.
Proof.
  revert h sd. induction names as [|nm names IH]; intros h sd Hv; [done|].
  cbn [foldl new_State]. apply IH. intros nm' id Hget.
  destruct (decide (nm = nm')) as [->|Hne].
  - rewrite dict_get_set_eq in Hget. simplify_eq.
    exists (State_init None (Some nm')). split; [|done].
    cbn [hstates]. by apply list_lookup_middle.
  - rewrite dict_get_set_ne in Hget by done.
    eapply state_named_extends; [|by apply Hv].
    apply (new_State_extends h None (Some nm)).
Qed.

(** every name of the state dictionary denotes the state created for it *)
Lemma make_statedict_valid h names :
  statedict_valid (make_statedict h names).2 (make_statedict h names).1.
Proof. apply make_statedict_valid_acc. by intros nm id Hget. Qed.

Lemma heap_set_finalweight_extends h s fw :
  heap_extends h (heap_set_finalweight h s fw).
Proof.
  intros j sj Hj. cbn [heap_set_finalweight hstates].
  rewrite list_lookup_alter. case_decide as Heq.
  - subst. rewrite Hj. eexists. split_and!; [done | done | done].
  - by exists sj.
Qed.

(** a rule that compiles found its own state and, unless it has no
    position, its target state in the dictionary *)
Lemma compile_rule_inr sd lexstate h F rule h' F' :
  compile_rule scan sd lexstate (inr (h, F)) rule = inr (h', F') →
  ∃ src, dict_get sd lexstate = Some src ∧
    (0 < max (length (rule_i scan rule)) (length (rule_o scan rule)) →
     ∃ ts, dict_get sd (rule_target rule) = Some ts).
Proof.
  intros Hc.
  assert (∃ src, dict_get sd lexstate = Some src) as [src Hsrc].
  { unfold compile_rule in Hc. cbn [mbind Exc_bind] in Hc. unfold dict_lookup in Hc.
    destruct (dict_get sd lexstate) as [src|]; [by exists src | done]. }
  exists src. split; [done|]. intros Hn.
  destruct (dict_get sd (rule_target rule)) as [ts|] eqn:Hts; [by exists ts|].
  destruct (compile_rule_fails scan sd lexstate rule (inr (h, F)) Hn Hts) as [e He].
  congruence.
Qed.

Lemma compile_rule_grows sd lexstate h F rule h' F' :
  statedict_valid sd h →
  compile_rule scan sd lexstate (inr (h, F)) rule = inr (h', F') →
  grows (h, F) (h', F').
Proof.
  intros Hv Hc. destruct (compile_rule_inr _ _ _ _ _ _ _ Hc) as (src & Hsrc & Hts).
  destruct (Hv _ _ Hsrc) as (s_src & Hs & _).
  destruct (decide (0 < max (length (rule_i scan rule)) (length (rule_o scan rule))))
    as [Hn|Hn].
  - destruct (Hts Hn) as [ts Hts'].
    destruct (compile_rule_spec scan sd lexstate rule h F src ts s_src Hsrc Hs Hts')
      as (h2 & F2 & Hc2 & _ & Htr & _ & _ & _ & _ & Hext & _ & Hst).
    rewrite Hc in Hc2. simplify_eq. split_and!; [done | | done].
    cbn [fst]. rewrite Htr. by apply prefix_app_r.
  - unfold compile_rule in Hc. cbn [mbind Exc_bind] in Hc. unfold dict_lookup in Hc.
    rewrite Hsrc in Hc. cbn [mbind Exc_bind] in Hc. cbv zeta in Hc.
    replace (max (length (rule_i scan rule)) (length (rule_o scan rule))) with 0
      in Hc by lia.
    cbn in Hc. simplify_eq.
    split_and!; [apply heap_extends_refl | done | done].
Qed.

Lemma foldl_compile_rule_inr sd lexstate (rules : list (Rule W))
    (acc : Exc (Heap W * FST)) hF :
  foldl (compile_rule scan sd lexstate) acc rules = inr hF → ∃ a, acc = inr a.
Proof.
  destruct acc as [e|a]; [|by exists a].
  by rewrite foldl_compile_rule_error.
Qed.

Lemma foldl_compile_rule_grows sd lexstate (rules : list (Rule W)) h F hF :
  statedict_valid sd h →
  foldl (compile_rule scan sd lexstate) (inr (h, F)) rules = inr hF →
  grows (h, F) hF.
Proof.
  revert h F. induction rules as [|r rules IH]; intros h F Hv Hfold.
  - simpl in Hfold. simplify_eq. apply grows_refl.
  - cbn [foldl] in Hfold.
    destruct (foldl_compile_rule_inr _ _ _ _ _ Hfold) as [[h1 F1] Hstep].
    rewrite Hstep in Hfold.
    pose proof (compile_rule_grows _ _ _ _ _ _ _ Hv Hstep) as Hg.
    eapply grows_trans; [exact Hg|]. eapply IH; [|done].
    eapply statedict_valid_extends; [|done]. apply Hg.
Qed.

(** every rule of a rule-set is compiled from some store reached on the
    way *)
Lemma foldl_compile_rule_reaches sd lexstate (rules : list (Rule W)) rule h F hF :
  statedict_valid sd h →
  foldl (compile_rule scan sd lexstate) (inr (h, F)) rules = inr hF →
  rule ∈ rules →
  ∃ b a, grows (h, F) b ∧
         compile_rule scan sd lexstate (inr b) rule = inr a ∧ grows a hF.
Proof.
  revert h F. induction rules as [|r rules IH]; intros h F Hv Hfold Hin;
    [by apply elem_of_nil in Hin|].
  cbn [foldl] in Hfold.
  destruct (foldl_compile_rule_inr _ _ _ _ _ Hfold) as [[h1 F1] Hstep].
  rewrite Hstep in Hfold.
  pose proof (compile_rule_grows _ _ _ _ _ _ _ Hv Hstep) as Hg.
  assert (statedict_valid sd h1) as Hv1.
  { eapply statedict_valid_extends; [|done]. apply Hg. }
  apply elem_of_cons in Hin as [->|Hin].
  - exists (h, F), (h1, F1). split_and!; [apply grows_refl | done |].
    by eapply foldl_compile_rule_grows.
  - destruct (IH h1 F1 Hv1 Hfold Hin) as (b & a & Hgb & Hc & Hga).
    exists b, a. split_and!; [by eapply grows_trans | done | done].
Qed.

Lemma foldl_compile_ruleset_inr (grammar : Grammar W) sd (names : list string)
    (acc : Exc (Heap W * FST)) hF :
  foldl (compile_ruleset scan grammar sd) acc names = inr hF → ∃ a, acc = inr a.
Proof.
  destruct acc as [e|a]; [|by exists a].
  by rewrite foldl_compile_ruleset_error.
Qed.

Lemma compile_ruleset_inr (grammar : Grammar W) sd lexstate h F hF :
  compile_ruleset scan grammar sd (inr (h, F)) lexstate = inr hF →
  ∃ rules, dict_get grammar lexstate = Some rules ∧
           foldl (compile_rule scan sd lexstate) (inr (h, F)) rules = inr hF.
Proof.
  unfold compile_ruleset. cbn [mbind Exc_bind]. unfold dict_lookup.
  destruct (dict_get grammar lexstate) as [rules|]; [|done].
  cbn [mbind Exc_bind]. intros Hfold. by exists rules.
Qed.

Lemma foldl_compile_ruleset_grows (grammar : Grammar W) sd (names : list string)
    h F hF :
  statedict_valid sd h →
  foldl (compile_ruleset scan grammar sd) (inr (h, F)) names = inr hF →
  grows (h, F) hF.
Proof.
  revert h F. induction names as [|nm names IH]; intros h F Hv Hfold.
  - simpl in Hfold. simplify_eq. apply grows_refl.
  - cbn [foldl] in Hfold.
    destruct (foldl_compile_ruleset_inr _ _ _ _ _ Hfold) as [[h1 F1] Hstep].
    rewrite Hstep in Hfold.
    destruct (compile_ruleset_inr _ _ _ _ _ _ Hstep) as (rules & _ & Hrules).
    pose proof (foldl_compile_rule_grows _ _ _ _ _ _ Hv Hrules) as Hg.
    eapply grows_trans; [exact Hg|]. eapply IH; [|done].
    eapply statedict_valid_extends; [|done]. apply Hg.
Qed.

Lemma foldl_compile_ruleset_reaches (grammar : Grammar W) sd (names : list string)
    lexstate rules rule h F hF :
  statedict_valid sd h →
  foldl (compile_ruleset scan grammar sd) (inr (h, F)) names = inr hF →
  lexstate ∈ names →
  dict_get grammar lexstate = Some rules →
  rule ∈ rules →
  ∃ b a, grows (h, F) b ∧
         compile_rule scan sd lexstate (inr b) rule = inr a ∧ grows a hF.
Proof.
  revert h F. induction names as [|nm names IH]; intros h F Hv Hfold Hin Hget Hrule;
    [by apply elem_of_nil in Hin|].
  cbn [foldl] in Hfold.
  destruct (foldl_compile_ruleset_inr _ _ _ _ _ Hfold) as [[h1 F1] Hstep].
  rewrite Hstep in Hfold.
  destruct (compile_ruleset_inr _ _ _ _ _ _ Hstep) as (rules' & Hget' & Hrules).
  pose proof (foldl_compile_rule_grows _ _ _ _ _ _ Hv Hrules) as Hg.
  assert (statedict_valid sd h1) as Hv1.
  { eapply statedict_valid_extends; [|done]. apply Hg. }
  apply elem_of_cons in Hin as [->|Hin].
  - rewrite Hget in Hget'. simplify_eq.
    destruct (foldl_compile_rule_reaches _ _ _ _ _ _ _ Hv Hrules Hrule)
      as (b & a & Hgb & Hc & Hga).
    exists b, a. split_and!; [done | done |].
    eapply grows_trans; [exact Hga|]. by eapply foldl_compile_ruleset_grows.
  - destruct (IH h1 F1 Hv1 Hfold Hin Hget Hrule) as (b & a & Hgb & Hc & Hga).
    exists b, a. split_and!; [by eapply grows_trans | done | done].
Qed.

End rlg_whole.

(** ** Where a rule's transitions and states are in the compiled automaton *)

Section rlg_frame.
Context {W : Type} `{!Weight W}.
Variable sd : list (string * nat).
Variable rule : Rule W.
Variables i o : list string.
Variable h : Heap W.
Variable F1 : FST.
Variables src ts : nat.
Variable s_src : State W.
Hypothesis Hsrc : hstates h !! src = Some s_src.
Hypothesis Hts : dict_get sd (rule_target rule) = Some ts.

Local Abbreviation n := (max (length i) (length o)).
Local Abbreviation fresh := (length (hstates h)).
Local Abbreviation lbl_at k :=
  (newtuple (default "" (i !! k)) (default "" (o !! k))).
Local Abbreviation g :=
  (λ idx, (default "" (i !! idx), default "" (o !! idx), idx)).
Local Abbreviation full k :=
  (mkState [(lbl_at (S k), [length (htrans h) + S k])] None None winf None).

Lemma add_transition_new_state (th : TStore W) other lbl wt :
  (add_transition th (State_init None None) other lbl wt).2
  = mkState [(lbl, [length th])] None None winf None.
Proof. reflexivity. Qed.

Lemma heap_add_transition_lookup (h1 : Heap W) cur other lbl wt s_cur :
  hstates h1 !! cur = Some s_cur →
  hstates (heap_add_transition h1 cur other lbl wt) !! cur
    = Some (add_transition (htrans h1) s_cur other lbl wt).2 ∧
  ∀ j, j ≠ cur →
    hstates (heap_add_transition h1 cur other lbl wt) !! j = hstates h1 !! j.
Proof.
  intros Hcur. unfold heap_add_transition. rewrite Hcur.
  destruct (add_transition (htrans h1) s_cur other lbl wt) as [th' s'] eqn:Hadd.
  cbn [hstates snd]. split.
  - apply list_lookup_insert_eq. by eapply lookup_lt_Some.
  - intros j Hne. by apply list_lookup_insert_ne.
Qed.

(** the loop over the positions touches the state of the rule-set and the
    states it allocates, and no other; after [m] positions the first
    [m - 1] new states have their one transition *)
Lemma positions_frame m :
  m ≤ n →
  ∀ h_m F_m c,
    foldl (position_step sd rule n) (inr (h, F1, src)) (g <$> seq 0 m)
      = inr (h_m, F_m, c) →
    finalstates F_m = finalstates F1 ∧
    (∀ j, j < fresh → j ≠ src → hstates h_m !! j = hstates h !! j) ∧
    (∀ k, k < min m (n - 1) →
       hstates h_m !! (fresh + k)
         = Some (if decide (S k < m) then full k else State_init None None)).
Proof.
  induction m as [|m IH]; intros Hm h_m F_m c Hfold.
  - cbn in Hfold. injection Hfold as <- <- <-. split_and!; [done | done |].
    intros k Hk. cbn in Hk. lia.
  - destruct (positions_inv sd rule i o h F1 src ts s_src Hsrc Hts m ltac:(lia))
      as (h0 & F0 & Hfold0 & Htr0 & Hlen0 & Hext0 & _ & _ & Hfin0 & _ & Hfresh0 & _).
    destruct (IH ltac:(lia) _ _ _ Hfold0) as (_ & Hold & Hnew).
    rewrite decide_False in Hfold0 by lia.
    assert (∃ s_cur, hstates h0 !! position_source src fresh m = Some s_cur)
      as [s_cur Hcur].
    { destruct m as [|m'].
      - destruct (Hext0 _ _ Hsrc) as (s' & Hs' & _). by exists s'.
      - destruct (Hfresh0 m' ltac:(lia)) as (s' & Hs' & _). by exists s'. }
    rewrite seq_S, fmap_app, foldl_app, Hfold0 in Hfold.
    cbn [fmap list_fmap foldl Nat.add] in Hfold.
    unfold position_step in Hfold. cbn [mbind Exc_bind] in Hfold.
    unfold position_target in Hfold.
    assert (length (htrans h0) = length (htrans h) + m) as Htrlen.
    { by rewrite Htr0, length_app, length_fmap, length_seq. }
    assert (src < fresh) as Hsrc_lt by (by eapply lookup_lt_Some).
    destruct (decide (m = n - 1)) as [Hlast|Hnotlast].
    + unfold dict_lookup in Hfold. rewrite Hts in Hfold.
      cbn [mbind Exc_bind] in Hfold. injection Hfold as <- <- <-.
      destruct (heap_add_transition_lookup h0 _ ts (lbl_at m)
                  (default w0 (rule_weight rule)) s_cur Hcur) as [Hat Hne].
      split_and!; [done | |].
      * intros j Hj Hjs. rewrite Hne; [by apply Hold|].
        destruct m; cbn [position_source]; lia.
      * intros k Hk.
        destruct (decide (S k = m)) as [Hkm|Hkm].
        -- destruct m as [|m']; [lia|]. assert (k = m') as -> by lia.
           cbn [position_source] in Hat, Hcur |- *.
           rewrite Hnew in Hcur by lia. rewrite decide_False in Hcur by lia.
           injection Hcur as <-. rewrite Hat, add_transition_new_state.
           rewrite decide_True by lia. by rewrite Htrlen.
        -- rewrite Hne by (destruct m; cbn [position_source]; lia).
           rewrite Hnew by lia.
           destruct (decide (S k < m)), (decide (S k < S m)); (done || lia).
    + cbn [new_State mbind Exc_bind fst snd] in Hfold.
      injection Hfold as <- <- <-.
      set (h1 := mkHeap (hstates h0 ++ [State_init None None]) (htrans h0)).
      assert (hstates h1 !! position_source src fresh m = Some s_cur) as Hcur1.
      { subst h1. cbn [hstates]. by apply lookup_app_l_Some. }
      destruct (heap_add_transition_lookup h1 _ (length (hstates h0)) (lbl_at m)
                  w0 s_cur Hcur1) as [Hat Hne].
      assert (length (hstates h0) = fresh + m) as Hlen_m by lia.
      split_and!; [done | |].
      * intros j Hj Hjs. rewrite Hne by (destruct m; cbn [position_source]; lia).
        subst h1. cbn [hstates]. rewrite lookup_app_l by lia. by apply Hold.
      * intros k Hk.
        destruct (decide (k = m)) as [->|Hkm'].
        { rewrite Hne by (destruct m; cbn [position_source]; lia).
          subst h1. cbn [hstates]. rewrite <- Hlen_m.
          rewrite list_lookup_middle by done. by rewrite decide_False by lia. }
        destruct (decide (S k = m)) as [Hkm|Hkm].
        -- destruct m as [|m']; [lia|]. assert (k = m') as -> by lia.
           cbn [position_source] in Hat, Hcur |- *.
           rewrite Hnew in Hcur by lia. rewrite decide_False in Hcur by lia.
           injection Hcur as <-. rewrite Hat, add_transition_new_state.
           rewrite decide_True by lia. subst h1. cbn [htrans]. by rewrite Htrlen.
        -- rewrite Hne by (destruct m; cbn [position_source]; lia).
           subst h1. cbn [hstates]. rewrite lookup_app_l by lia.
           rewrite Hnew by lia.
           destruct (decide (S k < m)), (decide (S k < S m)); (done || lia).
Qed.

End rlg_frame.

Section rlg_runs.
Context {W : Type} `{!Weight W}.
Variable scan : string → list string.
Implicit Types (h : Heap W) (F : FST) (sd : list (string * nat)) (rule : Rule W).

(** one rule whose target is declared: the store after it, object by
    object *)
Lemma compile_rule_layout sd lexstate rule h F src ts (s_src : State W) h' F' :
  dict_get sd lexstate = Some src →
  hstates h !! src = Some s_src →
  dict_get sd (rule_target rule) = Some ts →
  compile_rule scan sd lexstate (inr (h, F)) rule = inr (h', F') →
  let i := rule_i scan rule in
  let o := rule_o scan rule in
  let n := max (length i) (length o) in
  let fresh := length (hstates h) in
  let first := length (htrans h) in
  let wt := default w0 (rule_weight rule) in
  let lbl := λ k, newtuple (default "" (i !! k)) (default "" (o !! k)) in
  htrans h' = htrans h ++
    ((λ k, if decide (k = n - 1) then mkTransition ts (lbl k) wt
           else mkTransition (fresh + k) (lbl k) w0) <$> seq 0 n) ∧
  length (hstates h') = fresh + (n - 1) ∧
  finalstates F' = finalstates F ∧
  (∀ j, j < fresh → j ≠ src → hstates h' !! j = hstates h !! j) ∧
  (∀ k, k < n - 1 →
     hstates h' !! (fresh + k)
       = Some (mkState [(lbl (S k), [first + S k])] None None winf None) ∧
     fresh + k ∈ states F') ∧
  (∀ k, k < n →
     ∃ s, hstates h' !! position_source src fresh k = Some s ∧
          first + k ∈ dict_get_or (transitions s) (lbl k) []).
Proof.
  intros Hlex Hsrc Hts Hc i o n fresh first wt lbl. subst lbl wt first fresh n.
  set (F1 := set_alphabet F (list_union (alphabet F) (rule_symbols scan rule))).
  destruct (positions_inv sd rule i o h F1 src ts s_src Hsrc Hts
              (max (length i) (length o)) ltac:(done))
    as (h_n & F_n & Hfold & Htr & Hlen & _ & _ & _ & _ & Hst & _ & Hchain).
  destruct (positions_frame sd rule i o h F1 src ts s_src Hsrc Hts
              (max (length i) (length o)) ltac:(done) _ _ _ Hfold)
    as (Hfin & Hold & Hnew).
  set (n := max (length i) (length o)) in *.
  unfold compile_rule in Hc. cbn [mbind Exc_bind] in Hc. unfold dict_lookup in Hc.
  rewrite Hlex in Hc. cbn [mbind Exc_bind] in Hc. cbv zeta in Hc.
  fold i o in Hc. fold n F1 in Hc. unfold zip_longest in Hc. rewrite Hfold in Hc.
  injection Hc as <- <-.
  split_and!.
  - done.
  - rewrite Hlen. lia.
  - done.
  - done.
  - intros k Hk. split.
    + rewrite Hnew by lia. rewrite decide_True by lia. done.
    + apply Hst. right. exists k. split; [lia | done].
  - intros k Hk. destruct (Hchain k Hk) as (s & Hs & Hin). exists s. split; [done|].
    by destruct (decide (k = n - 1)).
Qed.

Lemma compiled_run_refl nb (a : Heap W * FST) : compiled_run scan nb [] a a.
Proof.
  unfold compiled_run, positions_of, intermediates_of. cbn.
  split_and!; [lia | lia | apply grows_refl | done | done |].
  intros r t Hr Hge. apply lookup_lt_Some in Hr. lia.
Qed.

Lemma compiled_run_trans nb (rs1 rs2 : list (Rule W)) (a b c : Heap W * FST) :
  compiled_run scan nb rs1 a b → compiled_run scan nb rs2 b c →
  compiled_run scan nb (rs1 ++ rs2) a c.
Proof.
  intros (Ht1 & Hs1 & Hg1 & Hf1 & Hfr1 & Htg1) (Ht2 & Hs2 & Hg2 & Hf2 & Hfr2 & Htg2).
  unfold compiled_run, positions_of, intermediates_of in *.
  rewrite !fmap_app, !sum_list_with_app. split_and!.
  - lia.
  - lia.
  - by eapply grows_trans.
  - congruence.
  - intros j Hnb Hj. rewrite Hfr2 by lia. by apply Hfr1.
  - intros r t Hr Hge.
    destruct (decide (r < length (htrans b.1))) as [Hlt|Hge2].
    + destruct Hg2 as (_ & Hpre & _).
      destruct (lookup_lt_is_Some_2 _ _ Hlt) as [t' Ht'].
      pose proof (prefix_lookup_Some _ _ _ _ Ht' Hpre) as Hr'.
      assert (t' = t) as -> by congruence.
      destruct (Htg1 r t Ht' Hge) as [Hor Hlt']. split; [done | lia].
    + destruct (Htg2 r t Hr ltac:(lia)) as [Hor Hlt']. split; [|done].
      destruct Hor as [?|?]; [by left | right; lia].
Qed.

Lemma compile_rule_run sd lexstate h F rule h' F' nb :
  statedict_valid sd h →
  (∀ nm id, dict_get sd nm = Some id → id < nb) →
  nb ≤ length (hstates h) →
  compile_rule scan sd lexstate (inr (h, F)) rule = inr (h', F') →
  compiled_run scan nb [rule] (h, F) (h', F').
Proof.
  intros Hv Hb Hnb Hc.
  pose proof (compile_rule_grows scan _ _ _ _ _ _ _ Hv Hc) as Hg.
  destruct (compile_rule_inr scan _ _ _ _ _ _ _ Hc) as (src & Hsrc & Hts).
  destruct (Hv _ _ Hsrc) as (s_src & Hs & _).
  unfold compiled_run, positions_of, intermediates_of, rule_positions.
  cbn [fmap list_fmap sum_list sum_list_with fst snd].
  destruct (decide (0 < max (length (rule_i scan rule)) (length (rule_o scan rule))))
    as [Hn|Hn].
  - destruct (Hts Hn) as [ts Hts'].
    destruct (compile_rule_layout sd lexstate rule h F src ts s_src h' F'
                Hsrc Hs Hts' Hc) as (Htr & Hlen & Hfin & Hold & Hnew & _).
    set (n := max (length (rule_i scan rule)) (length (rule_o scan rule))) in *.
    split_and!.
    + rewrite Htr, length_app, length_fmap, length_seq. unfold id. lia.
    + rewrite Hlen. unfold id. lia.
    + done.
    + done.
    + intros j Hj1 Hj2. apply Hold; [done|]. pose proof (Hb _ _ Hsrc). lia.
    + intros r t Hr Hge. rewrite Htr in Hr. rewrite lookup_app_r in Hr by done.
      rewrite list_lookup_fmap in Hr.
      destruct (seq 0 n !! (r - length (htrans h))) as [k|] eqn:Hk; [|done].
      apply lookup_seq in Hk as [-> Hk]. cbn in Hr. injection Hr as <-.
      pose proof (Hb _ _ Hts'). rewrite Hlen.
      case_decide; cbn [targetstate]; split; (lia || (left; lia) || (right; lia)).
  - unfold compile_rule in Hc. cbn [mbind Exc_bind] in Hc. unfold dict_lookup in Hc.
    rewrite Hsrc in Hc. cbn [mbind Exc_bind] in Hc. cbv zeta in Hc.
    replace (max (length (rule_i scan rule)) (length (rule_o scan rule))) with 0
      in Hc |- * by lia.
    cbn in Hc. injection Hc as <- <-. cbn.
    split_and!; [lia | lia | done | done | done |].
    intros r t Hr Hge. apply lookup_lt_Some in Hr. lia.
Qed.

Lemma compiled_run_valid sd nb (rs : list (Rule W)) (a b : Heap W * FST) :
  compiled_run scan nb rs a b →
  statedict_valid sd a.1 → nb ≤ length (hstates a.1) →
  statedict_valid sd b.1 ∧ nb ≤ length (hstates b.1).
Proof.
  intros (_ & Hs & Hg & _) Hv Hnb. split; [|lia].
  eapply statedict_valid_extends; [apply Hg | done].
Qed.

Lemma foldl_compile_rule_run sd lexstate (rules : list (Rule W)) h F hF nb :
  statedict_valid sd h →
  (∀ nm id, dict_get sd nm = Some id → id < nb) →
  nb ≤ length (hstates h) →
  foldl (compile_rule scan sd lexstate) (inr (h, F)) rules = inr hF →
  compiled_run scan nb rules (h, F) hF.
Proof.
  revert h F. induction rules as [|r rules IH]; intros h F Hv Hb Hnb Hfold.
  - cbn in Hfold. injection Hfold as <-. apply compiled_run_refl.
  - cbn [foldl] in Hfold.
    destruct (foldl_compile_rule_inr scan _ _ _ _ _ Hfold) as [[h1 F1] Hstep].
    rewrite Hstep in Hfold.
    pose proof (compile_rule_run _ _ _ _ _ _ _ _ Hv Hb Hnb Hstep) as Hrun.
    destruct (compiled_run_valid sd _ _ _ _ Hrun Hv Hnb) as [Hv1 Hnb1].
    apply (compiled_run_trans nb [r] rules _ (h1, F1)); [done|].
    by apply IH.
Qed.

(** the rule-sets of a part [g] of the grammar *)
Lemma foldl_compile_ruleset_run (grammar g : Grammar W) sd h F hF nb :
  (∀ k rs, (k, rs) ∈ g → dict_get grammar k = Some rs) →
  statedict_valid sd h →
  (∀ nm id, dict_get sd nm = Some id → id < nb) →
  nb ≤ length (hstates h) →
  foldl (compile_ruleset scan grammar sd) (inr (h, F))
        (list_difference (dict_keys g) ["#"]) = inr hF →
  compiled_run scan nb (ruleset_rules g) (h, F) hF.
Proof.
  revert h F. induction g as [|[k rs] g IH]; intros h F Hg Hv Hb Hnb Hfold.
  - cbn in Hfold. injection Hfold as <-. apply compiled_run_refl.
  - unfold ruleset_rules. cbn [dict_keys fmap list_fmap fst list_difference List.filter] in Hfold |- *.
    destruct (decide_rel elem_of k ["#"]) as [Hk|Hk].
    + apply list_elem_of_singleton in Hk as ->.
      rewrite bool_decide_eq_true_2 by done. cbn [negb].
      apply IH; [|done..]. intros k' rs' Hin. apply Hg. by right.
    + rewrite list_elem_of_singleton in Hk.
      rewrite bool_decide_eq_false_2 by done. cbn [negb fmap list_fmap snd concat].
      cbn [foldl] in Hfold.
      destruct (foldl_compile_ruleset_inr scan _ _ _ _ _ Hfold) as [[h1 F1] Hstep].
      rewrite Hstep in Hfold.
      destruct (compile_ruleset_inr scan _ _ _ _ _ _ Hstep) as (rs' & Hget & Hrules).
      rewrite (Hg k rs) in Hget by left. injection Hget as <-.
      pose proof (foldl_compile_rule_run _ _ _ _ _ _ _ Hv Hb Hnb Hrules) as Hrun.
      destruct (compiled_run_valid sd _ _ _ _ Hrun Hv Hnb) as [Hv1 Hnb1].
      apply (compiled_run_trans nb rs _ _ (h1, F1)); [done|].
      apply IH; [|done..]. intros k' rs' Hin. apply Hg. by right.
Qed.

End rlg_runs.

Section rlg_statedict.
Context {W : Type} `{!Weight W}.
Variable scan : string → list string.
Implicit Types (h : Heap W) (F : FST) (sd : list (string * nat)) (rule : Rule W).

Lemma list_difference_app_l (l k x : list string) :
  list_difference (l ++ k) x = list_difference l x ++ list_difference k x.
Proof.
  induction l as [|a l IH]; [done|]. cbn [app list_difference].
  destruct (decide_rel elem_of a x); [done|]. by rewrite IH.
Qed.

Lemma list_difference_all (l x : list string) :
  (∀ a, a ∈ l → a ∈ x) → list_difference l x = [].
Proof.
  induction l as [|a l IH]; intros Hall; [done|]. cbn [list_difference].
  destruct (decide_rel elem_of a x) as [_|Hn].
  - apply IH. intros b Hb. apply Hall. by right.
  - exfalso. apply Hn, Hall. left.
Qed.

Lemma list_difference_none (l x : list string) :
  (∀ a, a ∈ l → a ∉ x) → list_difference l x = l.
Proof.
  induction l as [|a l IH]; intros Hall; [done|]. cbn [list_difference].
  destruct (decide_rel elem_of a x) as [Hin|_].
  - exfalso. by apply (Hall a); [left|].
  - rewrite IH; [done|]. intros b Hb. apply Hall. by right.
Qed.

(** the rule-sets are compiled in the order of the grammar *)
Lemma statedict_order (keys : list string) :
  list_difference (list_union keys ["#"]) ["#"] = list_difference keys ["#"].
Proof.
  unfold list_union. rewrite list_difference_app_l.
  rewrite (list_difference_all ["#"]) by done. rewrite app_nil_r.
  apply list_difference_none. by intros a [_ ?]%list_elem_of_difference.
Qed.

Lemma make_statedict_acc (names : list string) h sd :
  NoDup names → (∀ k, k ∈ names → k ∉ dict_keys sd) →
  foldl (λ '(h, sd) nm,
           let '(s, h') := new_State h None (Some nm) in (h', dict_set sd nm s))
        (h, sd) names
  = (mkHeap (hstates h ++ ((λ nm, State_init None (Some nm)) <$> names)) (htrans h),
     sd ++ zip names (seq (length (hstates h)) (length names))).
Proof.
  revert h sd. induction names as [|k names IH]; intros h sd Hnd Hfresh.
  - cbn. rewrite !app_nil_r. by destruct h.
  - apply NoDup_cons in Hnd as [Hk Hnd]. cbn [foldl new_State].
    rewrite IH; [|done|].
    + cbn [hstates htrans length fmap list_fmap seq zip zip_with].
      rewrite dict_set_fresh by (apply Hfresh; left).
      rewrite length_app. cbn [length]. rewrite Nat.add_1_r.
      by rewrite <- !app_assoc.
    + intros k' Hk'. rewrite (elem_of_dict_keys_set scan). intros [->|Hin]; [done|].
      by apply (Hfresh k'); [right|].
Qed.

(** the states of the rule-sets are allocated one after the other, in the
    order of the names *)
Lemma make_statedict_spec h (names : list string) :
  NoDup names →
  make_statedict h names
  = (mkHeap (hstates h ++ ((λ nm, State_init None (Some nm)) <$> names)) (htrans h),
     zip names (seq (length (hstates h)) (length names))).
Proof.
  intros Hnd. unfold make_statedict. rewrite make_statedict_acc; [done | done |].
  by intros k _ ?%elem_of_nil.
Qed.

Lemma statedict_get (names : list string) base nm id :
  NoDup names →
  dict_get (zip names (seq base (length names))) nm = Some id ↔
  ∃ q, names !! q = Some nm ∧ id = base + q.
Proof.
  intros Hnd. split.
  - intros Hget%dict_get_Some_elem.
    apply elem_of_lookup_zip_with in Hget as (q & a & b & Heq & Ha & Hb).
    injection Heq as -> ->. apply lookup_seq in Hb as [-> _]. by exists q.
  - intros (q & Hq & ->). apply dict_get_elem.
    + unfold dict_keys. by rewrite fst_zip by (by rewrite length_seq).
    + apply elem_of_lookup_zip_with. exists q, nm, (base + q).
      split_and!; [done | done |].
      apply lookup_seq. split; [done|]. by eapply lookup_lt_Some.
Qed.

Lemma foldl_compile_rule_split sd lexstate (rs1 rs2 : list (Rule W)) rule
    (a hF : Heap W * FST) :
  foldl (compile_rule scan sd lexstate) (inr a) (rs1 ++ rule :: rs2) = inr hF →
  ∃ b c, foldl (compile_rule scan sd lexstate) (inr a) rs1 = inr b ∧
         compile_rule scan sd lexstate (inr b) rule = inr c ∧
         foldl (compile_rule scan sd lexstate) (inr c) rs2 = inr hF.
Proof.
  rewrite foldl_app. cbn [foldl]. intros Hfold.
  destruct (foldl_compile_rule_inr scan _ _ _ _ _ Hfold) as [c Hc].
  destruct (foldl (compile_rule scan sd lexstate) (inr a) rs1) as [e|b] eqn:Hb;
    [done|].
  exists b, c. split_and!; [done | done |]. by rewrite Hc in Hfold.
Qed.

Lemma foldl_compile_ruleset_split (grammar : Grammar W) sd (o1 o2 : list string)
    lexstate (a hF : Heap W * FST) :
  foldl (compile_ruleset scan grammar sd) (inr a) (o1 ++ lexstate :: o2) = inr hF →
  ∃ b c, foldl (compile_ruleset scan grammar sd) (inr a) o1 = inr b ∧
         compile_ruleset scan grammar sd (inr b) lexstate = inr c ∧
         foldl (compile_ruleset scan grammar sd) (inr c) o2 = inr hF.
Proof.
  rewrite foldl_app. cbn [foldl]. intros Hfold.
  destruct (foldl_compile_ruleset_inr scan _ _ _ _ _ Hfold) as [c Hc].
  destruct (foldl (compile_ruleset scan grammar sd) (inr a) o1) as [e|b] eqn:Hb;
    [done|].
  exists b, c. split_and!; [done | done |]. by rewrite Hc in Hfold.
Qed.

End rlg_statedict.

Section rlg_theorem.
Context {W : Type} `{!Weight W}.
Variable scan : string → list string.

(** C6 — the transitions and states of a rule in the automaton that [rlg]
    returns.  Take any rule of a rule-set other than [#]: the grammar, a
    dictionary and so with distinct keys, is [g1], then the rule-set
    [lexstate] with the rules [rs1], the rule and [rs2], then [g2].  The
    two token sequences of the rule, the shorter one
    padded with epsilon fillers at the end, have the same length [n] and
    are paired position by position: position [k] has the label [(a,)] if
    its two tokens are the same token [a], and [(a, b)] otherwise.  The
    rule has one transition per position, allocated one after the other
    behind those of the rules compiled before; the first leaves the state
    of the rule-set, each later one the state the previous one entered.
    Every position but the last enters, with weight 0.0, a state allocated
    for it alone: a new object behind the states of the rule-sets, without
    a name and not final, a state of the automaton, whose only transition
    is the one of the next position, and which no other transition that
    [rlg] creates enters.  The last position enters the state of the
    rule's target rule-set, which is older than every intermediate state,
    and carries the rule's weight, 0.0 when the rule gives none. *)
Theorem rlg_rule_transitions (h0 : Heap W) (g1 g2 : Grammar W)
    (lexstate : string) (rs1 rs2 : list (Rule W)) (rule : Rule W)
    (startsymbol : string) (hf : Heap W) (Ff : FST) :
  let grammar := g1 ++ (lexstate, rs1 ++ rule :: rs2) :: g2 in
  NoDup (dict_keys grammar) →
  lexstate ≠ "#" →
  rlg scan h0 grammar startsymbol = inr (hf, Ff) →
  let n := max (length (rule_i scan rule)) (length (rule_o scan rule)) in
  let i := pad n (rule_i scan rule) in
  let o := pad n (rule_o scan rule) in
  let wt := default w0 (rule_weight rule) in
  let names := list_difference (dict_keys grammar) ["#"] ++ ["#"] in
  let named := S (length (hstates h0)) in
  let src := named + length (list_difference (dict_keys g1) ["#"]) in
  let before := compiled_before g1 rs1 in
  let fresh := named + length names + intermediates_of scan before in
  let first := length (htrans h0) + positions_of scan before in
  (length i = n ∧ length o = n) ∧
  state_named hf src (Some lexstate) ∧
  (0 < n →
   ∃ q, names !! q = Some (rule_target rule) ∧
     let ts := named + q in
     ts < fresh ∧
     state_named hf ts (Some (rule_target rule)) ∧
     (∀ k a b, i !! k = Some a → o !! k = Some b →
        let lbl := if decide (a = b) then L1 a else L2 a b in
        htrans hf !! (first + k)
          = Some (if decide (k = n - 1) then mkTransition ts lbl wt
                  else mkTransition (fresh + k) lbl w0) ∧
        (∃ s, hstates hf !! position_source src fresh k = Some s ∧
              first + k ∈ dict_get_or (transitions s) lbl []) ∧
        (k ≠ 0 →
         hstates hf !! (fresh + (k - 1))
           = Some (mkState [(lbl, [first + k])] None None winf None))) ∧
     (∀ k, k < n - 1 →
        fresh + k ∈ states Ff ∧ (fresh + k ∉ finalstates Ff) ∧
        ∀ r t, length (htrans h0) ≤ r → htrans hf !! r = Some t →
               targetstate t = fresh + k → r = first + k)).
Proof.
  intros grammar Hnd Hlex Hrlg n i o wt names named src before fresh first.
  split; [split; apply pad_length; lia|].
  set (rules := rs1 ++ rule :: rs2) in *.
  assert (dict_keys grammar
          = dict_keys g1 ++ lexstate :: dict_keys g2) as Hkeys.
  { subst grammar. unfold dict_keys. by rewrite fmap_app. }
  assert (NoDup names) as Hnames.
  { apply (NoDup_list_union (dict_keys grammar) ["#"]); [done|].
    apply NoDup_singleton. }
  assert (list_difference (dict_keys grammar) ["#"]
          = list_difference (dict_keys g1) ["#"]
            ++ lexstate :: list_difference (dict_keys g2) ["#"]) as Horder.
  { rewrite Hkeys, list_difference_app_l. f_equal. cbn [list_difference].
    destruct (decide_rel elem_of lexstate ["#"]) as [Hin|_]; [|done].
    by apply list_elem_of_singleton in Hin. }
  assert (∀ k rs, (k, rs) ∈ grammar → dict_get grammar k = Some rs) as Hget.
  { intros k rs Hin. by apply dict_get_elem. }
  (* the store and the dictionary before the rule-sets are compiled *)
  unfold rlg in Hrlg. cbn [FST_init new_State] in Hrlg.
  change (list_union (dict_keys grammar) ["#"]) with names in Hrlg.
  rewrite make_statedict_spec in Hrlg by done. cbn [hstates htrans] in Hrlg.
  set (h1s := hstates h0 ++ [State_init None None]) in *.
  assert (length h1s = named) as Hnamed.
  { subst h1s named. rewrite length_app. cbn. lia. }
  rewrite Hnamed in Hrlg.
  set (sd := zip names (seq named (length names))) in *.
  set (h2 := mkHeap (h1s ++ ((λ nm, State_init None (Some nm)) <$> names))
                    (htrans h0)) in *.
  assert (dict_keys sd = names) as Hsdkeys.
  { subst sd. unfold dict_keys. by rewrite fst_zip by (by rewrite length_seq). }
  set (nb := named + length names).
  assert (length (hstates h2) = nb) as Hlen2.
  { subst h2 nb. cbn [hstates]. rewrite length_app, length_fmap. lia. }
  assert (∀ nm id, dict_get sd nm = Some id → id < nb) as Hbound.
  { intros nm id (q & Hq & ->)%statedict_get; [|done].
    apply lookup_lt_Some in Hq. subst nb. lia. }
  assert (statedict_valid sd h2) as Hv2.
  { intros nm id (q & Hq & ->)%statedict_get; [|done].
    exists (State_init None (Some nm)). split; [|done]. subst h2. cbn [hstates].
    rewrite lookup_app_r by lia. rewrite <- Hnamed.
    replace (length h1s + q - length h1s) with q by lia.
    by rewrite list_lookup_fmap, Hq. }
  destruct (dict_lookup sd startsymbol) as [e|init]; [done|].
  cbn [mbind Exc_bind] in Hrlg.
  destruct (dict_lookup sd "#") as [e|final] eqn:Hfinal; [done|].
  cbn [mbind Exc_bind] in Hrlg.
  set (h3 := heap_set_finalweight h2 final w0) in *.
  set (F3 := mkFST _ _ _ _) in Hrlg.
  assert (statedict_valid sd h3) as Hv3.
  { eapply statedict_valid_extends; [|exact Hv2]. apply heap_set_finalweight_extends. }
  assert (length (hstates h3) = nb) as Hlen3.
  { subst h3. cbn [heap_set_finalweight hstates]. by rewrite length_alter. }
  assert (htrans h3 = htrans h0) as Htr3 by done.
  assert (final < nb) as Hfinal_lt.
  { unfold dict_lookup in Hfinal.
    destruct (dict_get sd "#") as [f|] eqn:Hf; [|done].
    injection Hfinal as <-. by eapply Hbound. }
  (* the compilation, cut at the rule *)
  rewrite Hsdkeys in Hrlg.
  change names with (list_union (dict_keys grammar) ["#"]) in Hrlg.
  rewrite (statedict_order (dict_keys grammar)), Horder in Hrlg.
  destruct (foldl_compile_ruleset_split scan _ _ _ _ _ _ _ Hrlg)
    as ([hb1 Fb1] & [hc Fc] & Hfold1 & Hset & Hfold2).
  destruct (compile_ruleset_inr scan _ _ _ _ _ _ Hset) as (rules' & Hrules' & Hrules).
  rewrite (Hget lexstate rules) in Hrules'
    by (subst grammar; apply elem_of_app; right; left).
  injection Hrules' as <-. subst rules.
  destruct (foldl_compile_rule_split scan _ _ _ _ _ _ _ Hrules)
    as ([hb Fb] & [ha Fa] & Hfold_rs1 & Hrule & Hfold_rs2).
  (* what the four parts of the compilation do *)
  assert (nb ≤ length (hstates h3)) as Hnb3 by lia.
  assert (compiled_run scan nb (ruleset_rules g1) (h3, F3) (hb1, Fb1)) as Hrun1.
  { apply (foldl_compile_ruleset_run scan grammar g1 sd); [|done|done|lia|done].
    intros k rs Hin. apply Hget. subst grammar. apply elem_of_app. by left. }
  destruct (compiled_run_valid scan sd _ _ _ _ Hrun1 Hv3 Hnb3)
    as [Hvb1 Hnbb1]. cbn [fst] in Hvb1, Hnbb1.
  pose proof (foldl_compile_rule_run scan _ _ _ _ _ _ _ Hvb1 Hbound Hnbb1 Hfold_rs1)
    as Hrun2.
  pose proof (compiled_run_trans scan nb _ _ _ _ _ Hrun1 Hrun2) as Hbefore.
  fold (compiled_before g1 rs1) in Hbefore. fold before in Hbefore.
  destruct (compiled_run_valid scan sd _ _ _ _ Hbefore Hv3 Hnb3)
    as [Hvb Hnbb]. cbn [fst] in Hvb, Hnbb.
  pose proof (compile_rule_run scan _ _ _ _ _ _ _ _ Hvb Hbound Hnbb Hrule) as Hrun3.
  destruct (compiled_run_valid scan sd _ _ _ _ Hrun3 Hvb Hnbb) as [Hva Hnba].
  cbn [fst] in Hva, Hnba.
  pose proof (foldl_compile_rule_run scan _ _ _ _ _ _ _ Hva Hbound Hnba Hfold_rs2)
    as Hrun4.
  destruct (compiled_run_valid scan sd _ _ _ _ Hrun4 Hva Hnba) as [Hvc Hnbc].
  cbn [fst] in Hvc, Hnbc.
  assert (compiled_run scan nb (ruleset_rules g2) (hc, Fc) (hf, Ff)) as Hrun5.
  { apply (foldl_compile_ruleset_run scan grammar g2 sd); [|done|done|lia|done].
    intros k rs Hin. apply Hget. subst grammar. apply elem_of_app. right. by right. }
  pose proof (compiled_run_trans scan nb _ _ _ _ _ Hrun4 Hrun5) as Hafter.
  destruct (compiled_run_valid scan sd _ _ _ _ Hafter Hva Hnba) as [Hvf _].
  cbn [fst] in Hvf.
  destruct Hbefore as (Htb & Hsb & _ & Hfb & _ & Htgb).
  destruct Hrun3 as (_ & _ & Hg3 & Hf3 & _ & _).
  destruct Hafter as (_ & _ & Hga & Hfa & Hfra & Htga).
  cbn [fst snd] in Htb, Hsb, Hfb, Htgb, Hg3, Hf3, Hga, Hfa, Hfra, Htga.
  destruct Hg3 as (_ & Hpre3 & _). destruct Hga as (Hexta & Hprea & Hsta).
  cbn [fst snd] in Hpre3, Hexta, Hprea, Hsta.
  assert (length (htrans hb) = first) as Hfirst.
  { rewrite Htb, Htr3. done. }
  assert (length (hstates hb) = fresh) as Hfresh.
  { rewrite Hsb, Hlen3. done. }
  assert (finalstates Ff = [final]) as Hfinals.
  { rewrite Hfa, Hf3, Hfb. done. }
  assert (dict_get sd lexstate = Some src) as Hsrc.
  { apply statedict_get; [done|].
    exists (length (list_difference (dict_keys g1) ["#"])). split; [|done].
    unfold names. rewrite Horder, <- app_assoc. by apply list_lookup_middle. }
  split; [by apply Hvf|].
  intros Hn.
  destruct (compile_rule_inr scan _ _ _ _ _ _ _ Hrule) as (src' & Hsrc' & Hts).
  destruct (Hts Hn) as [ts Hts'].
  pose proof Hts' as Hq. apply statedict_get in Hq as (q & Hq & Hts_eq); [|done].
  exists q. split; [done|]. cbv zeta. rewrite <- Hts_eq.
  assert (ts < nb) as Hts_lt by (by eapply Hbound).
  assert (nb ≤ fresh) as Hnb_fresh by (subst fresh nb; lia).
  destruct (Hvb _ _ Hsrc) as (s_src & Hs & _).
  pose proof (compile_rule_layout scan sd lexstate rule hb Fb src ts s_src ha Fa
                Hsrc Hs Hts' Hrule) as Hlayout.
  cbv zeta in Hlayout. fold n in Hlayout. rewrite Hfirst, Hfresh in Hlayout.
  destruct Hlayout as (Htr & Hlen & _ & _ & Hnew & Hchain).
  assert (∀ k a, pad n (rule_i scan rule) !! k = Some a →
            k < n ∧ a = default "" (rule_i scan rule !! k)) as Hpad_i.
  { intros k a Hk. rewrite pad_lookup in Hk by (subst n; lia).
    case_decide; [|done]. by injection Hk as <-. }
  assert (∀ k b, pad n (rule_o scan rule) !! k = Some b →
            k < n ∧ b = default "" (rule_o scan rule !! k)) as Hpad_o.
  { intros k b Hk. rewrite pad_lookup in Hk by (subst n; lia).
    case_decide; [|done]. by injection Hk as <-. }
  assert (∀ r, r < length (htrans ha) → htrans hf !! r = htrans ha !! r) as Hkeep.
  { intros r Hr. destruct (lookup_lt_is_Some_2 _ _ Hr) as [t Ht].
    rewrite Ht. by eapply prefix_lookup_Some. }
  assert (∀ k, k < n →
            htrans ha !! (first + k)
            = Some (if decide (k = n - 1)
                    then mkTransition ts
                           (newtuple (default "" (rule_i scan rule !! k))
                                     (default "" (rule_o scan rule !! k))) wt
                    else mkTransition (fresh + k)
                           (newtuple (default "" (rule_i scan rule !! k))
                                     (default "" (rule_o scan rule !! k))) w0))
    as Hchain_t.
  { intros k Hk. rewrite Htr, lookup_app_r by lia.
    replace (first + k - length (htrans hb)) with k by lia.
    rewrite list_lookup_fmap, lookup_seq_lt by done. done. }
  assert (length (htrans ha) = first + n) as Htr_len.
  { by rewrite Htr, length_app, length_fmap, length_seq, Hfirst. }
  split_and!.
  - lia.
  - by apply Hvf.
  - intros k a b Ha Hb.
    apply Hpad_i in Ha as [Hk ->]. apply Hpad_o in Hb as [_ ->].
    split_and!.
    + rewrite Hkeep by lia. by apply Hchain_t.
    + destruct (Hchain k Hk) as (s & Hs' & Hin).
      destruct (Hexta _ _ Hs') as (s' & Hs'' & _ & Hmono).
      exists s'. split; [done|]. by apply Hmono.
    + intros Hk0. rewrite Hfra by lia.
      destruct (Hnew (k - 1) ltac:(lia)) as [Hstate _].
      replace (S (k - 1)) with k in Hstate by lia. exact Hstate.
  - intros k Hk. destruct (Hnew k Hk) as [_ Hin]. split_and!.
    + by apply Hsta.
    + rewrite Hfinals. intros Heq%list_elem_of_singleton. lia.
    + intros r t Hr Hlook Htarget.
      destruct (decide (r < first)) as [Hr1|Hr1].
      { exfalso. rewrite Hkeep in Hlook by lia.
        assert (htrans hb !! r = Some t) as Hlook_b.
        { destruct (lookup_lt_is_Some_2 (htrans hb) r ltac:(lia)) as [t' Ht'].
          rewrite (prefix_lookup_Some _ _ _ _ Ht' Hpre3) in Hlook. congruence. }
        destruct (Htgb r t Hlook_b ltac:(rewrite Htr3; lia)) as [_ Hlt]. lia. }
      destruct (decide (r < first + n)) as [Hr2|Hr2].
      { rewrite Hkeep in Hlook by lia.
        replace r with (first + (r - first)) in Hlook by lia.
        rewrite Hchain_t in Hlook by lia. injection Hlook as <-.
        case_decide; cbn [targetstate] in Htarget; lia. }
      exfalso. destruct (Htga r t Hlook ltac:(lia)) as [[Hlt|Hge] _]; lia.
Qed.

End rlg_theorem.

Lemma rlg_rule_transitions_witness :
  NoDup (dict_keys ab_grammar) ∧ "Start" ≠ "#" ∧
  rlg plain_tokens empty_heap ab_grammar "Start" = inr ab_fst ∧
  (length (pad 2 ["a"; "b"]) = 2 ∧ length (pad 2 ["x"]) = 2) ∧
  state_named ab_fst.1 1 (Some "Start") ∧
  state_named ab_fst.1 2 (Some "#") ∧
  htrans ab_fst.1 !! 0 = Some (mkTransition 3 (L2 "a" "x") 0%Z) ∧
  htrans ab_fst.1 !! 1 = Some (mkTransition 2 (L2 "b" "") 3%Z) ∧
  (∃ s, hstates ab_fst.1 !! 1 = Some s ∧
        0 ∈ dict_get_or (transitions s) (L2 "a" "x") []) ∧
  hstates ab_fst.1 !! 3 = Some (mkState [(L2 "b" "", [1])] None None winf None) ∧
  3 ∈ states ab_fst.2 ∧ (3 ∉ finalstates ab_fst.2) ∧
  ∀ r t, htrans ab_fst.1 !! r = Some t → targetstate t = 3 → r = 0.
Proof.
  assert (NoDup (dict_keys ab_grammar)) as Hnd.
  { apply (bool_decide_unpack _). vm_compute. exact I. }
  assert ("Start" ≠ "#") as Hlex by discriminate.
  assert (rlg plain_tokens empty_heap ([] ++ ("Start", [] ++ rule_ab_x :: []) :: [])
              "Start" = inr (ab_fst.1, ab_fst.2)) as Hrlg by reflexivity.
  pose proof (rlg_rule_transitions plain_tokens empty_heap [] [] "Start" [] []
                rule_ab_x "Start" ab_fst.1 ab_fst.2 Hnd Hlex Hrlg) as Hthm.
  cbv zeta in Hthm. destruct Hthm as (Hpad & Hsrc & Hrest).
  destruct Hrest as (q & Hq & _ & Hts & Hpos & Hmid); [vm_compute; lia|].
  assert (q = 1) as ->.
  { destruct q as [|[|q]]; [discriminate Hq | reflexivity | discriminate Hq]. }
  destruct (Hpos 0 "a" "x" eq_refl eq_refl) as (Ht0 & Hs0 & _).
  destruct (Hpos 1 "b" "" eq_refl eq_refl) as (Ht1 & _ & Hs1).
  destruct (Hmid 0) as (Hin & Hnotfin & Honly); [vm_compute; lia|].
  refine (conj Hnd (conj Hlex (conj Hrlg (conj Hpad (conj Hsrc (conj Hts
            (conj Ht0 (conj Ht1 (conj Hs0 (conj (Hs1 _) (conj Hin
            (conj Hnotfin _)))))))))))).
  - discriminate.
  - intros r t Hr Ht. apply (Honly r t); [apply Nat.le_0_l | exact Hr | exact Ht].
Defined.

(** ** Further properties of the tokenizer and of [State] *)

Section tokenizer_round_trip.

Lemma concat_empty_cons (t : string) (ts : list string) :
  String.concat "" (t :: ts) = t +:+ String.concat "" ts.
Proof. destruct ts as [|u ts]; simpl; [by rewrite str_app_nil_r | done]. Qed.

Lemma lmt_concat alph word ts :
  longest_match_tokens alph word ts →
  String.concat "" ts = word ∧ Forall (λ t, t ≠ "") ts.
Proof.
  induction 1 as [|t rest ts Hne Hin Hlong Hrest [IH1 IH2]
                  |c rest ts Hno Hrest [IH1 IH2]].
  - done.
  - rewrite concat_empty_cons, IH1. split; [done | by constructor].
  - rewrite concat_empty_cons, IH1. split; [done | by constructor].
Qed.

(** X1 — joining the tokens of [tokenize_against_alphabet] gives the word
    back, whatever the alphabet; no token is the empty string, so a word
    never has more tokens than characters. *)
Theorem tokenize_join_round_trip (F : FST) (word : string) :
  String.concat "" (tokenize_against_alphabet F word) = word ∧
  Forall (λ t, t ≠ "") (tokenize_against_alphabet F word) ∧
  length (tokenize_against_alphabet F word) ≤ String.length word.
Proof.
  pose proof (tokenize_against_alphabet_spec F word) as Hspec.
  destruct (lmt_concat _ _ _ Hspec) as [Hcat Hne]. split_and!; [done | done |].
  clear Hcat Hne. induction Hspec as [|t rest ts Hne Hin Hlong Hrest IH
                                     |c rest ts Hno Hrest IH].
  - done.
  - rewrite str_length_app. destruct t as [|c t]; [done|]. simpl. lia.
  - simpl. lia.
Qed.

End tokenizer_round_trip.

Section dict_extras.
Context {K V : Type} `{EqDecision K}.
Implicit Types (d : list (K * V)).

Lemma dict_get_pop_ne d k k' : k ≠ k' → dict_get (dict_pop d k) k' = dict_get d k'.
Proof.
  intros Hne. induction d as [|[k0 v0] d IH]; [done|]. simpl.
  destruct (decide (k0 = k)) as [->|Hk0].
  - by rewrite decide_False by done.
  - simpl. by rewrite IH.
Qed.

Lemma dict_get_pop_eq d k : NoDup (dict_keys d) → dict_get (dict_pop d k) k = None.
Proof.
  intros Hnd. apply dict_get_None. by apply dict_pop_key_gone.
Qed.

Lemma dict_keys_set_elem d k v k' :
  k' ∈ dict_keys (dict_set d k v) ↔ k' = k ∨ k' ∈ dict_keys d.
Proof.
  rewrite dict_keys_set. case_decide as Hk.
  - split; [by right|]. intros [->|?]; done.
  - rewrite elem_of_app, list_elem_of_singleton. tauto.
Qed.

End dict_extras.

Section state_extras.
Context {W : Type} `{!Weight W}.
Implicit Types (th : TStore W) (s self : State W) (lbl L : Label).

(** X2 — renaming a label to itself does not leave the state unchanged:
    the bucket is merged with itself and then popped, so the state loses
    every transition it had under that label, while the other labels keep
    theirs. *)
Theorem rename_label_to_itself th s lbl :
  NoDup (dict_keys (transitions s)) →
  lbl ∈ dict_keys (transitions s) →
  ∃ th' s',
    rename_label th s lbl lbl = Some (th', s') ∧
    dict_get (transitions s') lbl = None ∧
    (∀ t, (lbl, t) ∉ all_transitions th' s') ∧
    (∀ L, L ≠ lbl → dict_get (transitions s') L = dict_get (transitions s) L).
Proof.
  intros Hnd Hin. unfold rename_label.
  destruct (dict_get (transitions s) lbl) as [moved|] eqn:Hget.
  2: { apply dict_get_None in Hget. done. }
  eexists _, _. split; [reflexivity|]. cbn [set_transitions transitions].
  assert (dict_get
            (dict_pop (dict_set (transitions s) lbl
                         (list_union (dict_get_or (transitions s) lbl []) moved)) lbl)
            lbl = None) as Hgone.
  { apply dict_get_pop_eq. by apply dict_set_NoDup. }
  split_and!.
  - done.
  - intros t Ht. apply elem_of_all_transitions in Ht as (b & r & Hb & _).
    cbn [set_transitions transitions] in Hb.
    apply dict_get_None in Hgone. apply Hgone.
    apply list_elem_of_fmap. by exists (lbl, b).
  - intros L HL. rewrite dict_get_pop_ne by done. by rewrite dict_get_set_ne by done.
Qed.

(** X3 — [rename_label] raises [KeyError] exactly when the state has no
    transition under the original label; otherwise, for two different
    labels, the original label disappears, the new label's bucket is the
    union of its former bucket and the moved one, every other label keeps
    its bucket, and exactly the moved [Transition] objects get the new
    label, their targets and weights unchanged. *)
Theorem rename_label_moves th s original new :
  NoDup (dict_keys (transitions s)) →
  original ≠ new →
  let moved := dict_get_or (transitions s) original [] in
  (rename_label th s original new = None ↔ original ∉ dict_keys (transitions s)) ∧
  ∀ th' s',
    rename_label th s original new = Some (th', s') →
    dict_get (transitions s') original = None ∧
    (∀ r, r ∈ dict_get_or (transitions s') new [] ↔
          r ∈ dict_get_or (transitions s) new [] ∨ r ∈ moved) ∧
    (∀ L, L ≠ original → L ≠ new →
          dict_get (transitions s') L = dict_get (transitions s) L) ∧
    (∀ r, th' !! r =
          (if decide (r ∈ moved)
           then (λ t, mkTransition (targetstate t) new (weight t)) else id)
            <$> th !! r).
Proof.
  intros Hnd Hne moved. unfold rename_label.
  destruct (dict_get (transitions s) original) as [mv|] eqn:Hget.
  - assert (moved = mv) as Hmv.
    { subst moved. unfold dict_get_or. by rewrite Hget. }
    clearbody moved. subst mv. split.
    { split; [done|]. intros Hnin. apply dict_get_None in Hnin. congruence. }
    intros th' s' [= <- <-]. cbn [set_transitions transitions].
    split_and!.
    + apply dict_get_pop_eq. by apply dict_set_NoDup.
    + intros r. unfold dict_get_or at 1.
      rewrite dict_get_pop_ne by done. rewrite dict_get_set_eq. simpl.
      by rewrite list_elem_of_union.
    + intros L HL1 HL2. rewrite dict_get_pop_ne by done.
      by rewrite dict_get_set_ne by done.
    + intros r. apply foldl_set_label_lookup.
  - split; [|done]. split; [|done]. intros _. by apply dict_get_None.
Qed.

Lemma filter_filter_andb {A} (P1 P2 : A → bool) (l : list A) :
  List.filter P2 (List.filter P1 l) = List.filter (λ x, P1 x && P2 x) l.
Proof.
  induction l as [|a l IH]; [done|]. simpl.
  destruct (P1 a) eqn:E1; simpl; [destruct (P2 a) eqn:E2|]; by rewrite IH.
Qed.

Lemma not_to_targets_app th T1 T2 r :
  not_to_targets th (T1 ++ T2) r = not_to_targets th T1 r && not_to_targets th T2 r.
Proof.
  unfold not_to_targets. destruct (th !! r) as [t|]; [|done].
  apply eq_true_iff_eq. rewrite andb_true_iff, !bool_decide_eq_true.
  rewrite elem_of_app. tauto.
Qed.

Lemma kept_kept th T1 T2 (tr : list (Label * list nat)) :
  omap (kept_entry th T2) (omap (kept_entry th T1) tr)
    = omap (kept_entry th (T1 ++ T2)) tr.
Proof.
  induction tr as [|[L b] tr IH]; [done|].
  rewrite (omap_kept_cons th T1), (omap_kept_cons th (T1 ++ T2)).
  assert (List.filter (not_to_targets th (T1 ++ T2)) b
          = List.filter (not_to_targets th T2) (List.filter (not_to_targets th T1) b))
    as Hff.
  { rewrite filter_filter_andb. apply filter_ext. intros r. apply not_to_targets_app. }
  rewrite Hff.
  destruct (length (List.filter (not_to_targets th T1) b) =? 0) eqn:E1.
  - apply Nat.eqb_eq, nil_length_inv in E1. rewrite E1. simpl. exact IH.
  - rewrite omap_kept_cons, IH. done.
Qed.

Lemma remove_transitions_set th s targets :
  NoDup (dict_keys (transitions s)) →
  remove_transitions_to_targets th s targets
    = set_transitions s (omap (kept_entry th targets) (transitions s)).
Proof.
  intros Hnd. pose proof (remove_transitions_eq th s targets Hnd) as Heq.
  unfold remove_transitions_to_targets in *. cbn [set_transitions transitions] in Heq.
  by rewrite Heq.
Qed.

(** X4 — removing the transitions to the states of one set and then those
    to the states of a second set leaves the state exactly as removing the
    transitions to the union of the two sets in one call; in particular a
    second call with the same set changes nothing. *)
Theorem remove_transitions_to_targets_compose th s T1 T2 :
  NoDup (dict_keys (transitions s)) →
  remove_transitions_to_targets th (remove_transitions_to_targets th s T1) T2
    = remove_transitions_to_targets th s (T1 ++ T2) ∧
  remove_transitions_to_targets th (remove_transitions_to_targets th s T1) T1
    = remove_transitions_to_targets th s T1.
Proof.
  intros Hnd.
  assert (∀ T, remove_transitions_to_targets th
                 (remove_transitions_to_targets th s T1) T
               = remove_transitions_to_targets th s (T1 ++ T)) as Hcomp.
  { intros T. rewrite (remove_transitions_set th s T1) by done.
    rewrite remove_transitions_set.
    2: { cbn [set_transitions transitions]. by apply kept_keys_NoDup. }
    rewrite (remove_transitions_set th s (T1 ++ T)) by done.
    unfold set_transitions. cbn [transitions _transitionsin _transitionsout
                                 finalweight name].
    by rewrite kept_kept. }
  split; [apply Hcomp|]. rewrite Hcomp.
  rewrite !remove_transitions_set by done. f_equal. clear Hnd Hcomp.
  induction (transitions s) as [|[L b] tr IH]; [done|].
  rewrite !omap_kept_cons.
  assert (List.filter (not_to_targets th (T1 ++ T1)) b
          = List.filter (not_to_targets th T1) b) as ->.
  { apply filter_ext. intros r. rewrite not_to_targets_app. apply andb_diag. }
  by rewrite IH.
Qed.

Lemma elem_of_all_targets th s q :
  q ∈ all_targets th s ↔
  ∃ L b r t, (L, b) ∈ transitions s ∧ r ∈ b ∧ th !! r = Some t ∧ targetstate t = q.
Proof.
  unfold all_targets. rewrite elem_of_remove_dups, list_elem_of_In, in_flat_map. split.
  - intros [[L b] [Hin Hx]]. apply list_elem_of_In in Hin, Hx.
    apply list_elem_of_omap in Hx as [r [Hr Hlk]]. cbn [snd] in Hr.
    destruct (th !! r) as [t|] eqn:E; simpl in Hlk; simplify_eq.
    by exists L, b, r, t.
  - intros (L & b & r & t & Hin & Hr & Hlk & Hq). exists (L, b).
    rewrite <- !list_elem_of_In. split; [done|].
    apply list_elem_of_omap. exists r. split; [done|]. rewrite Hlk. simpl. by subst.
Qed.

(** X5 — after [remove_transitions_to_targets(targets)] the set returned
    by [all_targets] is the former one without the states of [targets]:
    no removed state is still a target, and no other target is lost. *)
Theorem all_targets_after_remove th s targets q :
  NoDup (dict_keys (transitions s)) →
  (q ∈ all_targets th (remove_transitions_to_targets th s targets) ↔
   q ∈ all_targets th s ∧ q ∉ targets).
Proof.
  intros Hnd. rewrite !elem_of_all_targets, remove_transitions_eq by done. split.
  - intros (L & b' & r & t & Hin & Hr & Hlk & Hq).
    apply elem_of_kept in Hin as (b & Hin & -> & _).
    apply list_elem_of_In, filter_In in Hr as [Hr Hkeep].
    apply list_elem_of_In in Hr. unfold not_to_targets in Hkeep.
    rewrite Hlk in Hkeep. apply bool_decide_eq_true in Hkeep.
    split; [by exists L, b, r, t | by subst].
  - intros [(L & b & r & t & Hin & Hr & Hlk & Hq) Hnt].
    assert (r ∈ List.filter (not_to_targets th targets) b) as Hr'.
    { apply list_elem_of_In, filter_In. split; [by apply list_elem_of_In|].
      unfold not_to_targets. rewrite Hlk. apply bool_decide_eq_true. by subst. }
    exists L, (List.filter (not_to_targets th targets) b), r, t.
    split_and!; [|done..].
    apply list_elem_of_omap. exists (L, b). split; [done|].
    unfold kept_entry. cbn [fst snd].
    destruct (List.filter (not_to_targets th targets) b) as [|x l] eqn:E; [|done].
    by apply elem_of_nil in Hr'.
Qed.

Lemma index_add_elem (proj : Label → string) l0 (idx : Index) r0 sym lbl r :
  (lbl, r) ∈ dict_get_or (index_add proj l0 idx r0) sym [] ↔
  (lbl, r) ∈ dict_get_or idx sym [] ∨ (lbl = l0 ∧ r = r0 ∧ proj l0 = sym).
Proof.
  unfold index_add. destruct (decide (proj l0 = sym)) as [<-|Hne].
  - unfold dict_get_or at 1. rewrite dict_get_set_eq. simpl.
    rewrite list_elem_of_union, list_elem_of_singleton. split.
    + intros [?|?]; [by left | right; by simplify_eq].
    + intros [?|(-> & -> & _)]; [by left | by right].
  - unfold dict_get_or at 1. rewrite dict_get_set_ne by done. split; [by left|].
    intros [?|(_ & _ & ?)]; done.
Qed.

Lemma foldl_index_add_elem (proj : Label → string) l0 b (idx : Index) sym lbl r :
  (lbl, r) ∈ dict_get_or (foldl (index_add proj l0) idx b) sym [] ↔
  (lbl, r) ∈ dict_get_or idx sym [] ∨ (lbl = l0 ∧ r ∈ b ∧ proj l0 = sym).
Proof.
  revert idx. induction b as [|r0 b IH]; intros idx.
  - simpl. split; [by left|]. by intros [?|(_ & ?%elem_of_nil & _)].
  - cbn [foldl]. rewrite IH, index_add_elem, elem_of_cons. split.
    + intros [[?|(-> & -> & Hp)]|(-> & Hr & Hp)].
      * by left.
      * right. split_and!; [done | by left | done].
      * right. split_and!; [done | by right | done].
    + intros [?|(-> & [->|Hr] & Hp)].
      * left. by left.
      * left. by right.
      * by right.
Qed.

Lemma build_index_elem (proj : Label → string) (tr : list (Label * list nat)) sym lbl r :
  (lbl, r) ∈ dict_get_or (build_index proj tr) sym [] ↔
  proj lbl = sym ∧ ∃ b, (lbl, b) ∈ tr ∧ r ∈ b.
Proof.
  unfold build_index.
  assert (∀ idx : Index,
            (lbl, r) ∈ dict_get_or
              (foldl (λ idx '(lbl, newtrans), foldl (index_add proj lbl) idx newtrans)
                     idx tr) sym [] ↔
            (lbl, r) ∈ dict_get_or idx sym [] ∨
            (proj lbl = sym ∧ ∃ b, (lbl, b) ∈ tr ∧ r ∈ b)) as Hgen.
  { induction tr as [|[l0 b0] tr IH]; intros idx.
    - simpl. split; [by left|]. intros [?|(_ & b & ?%elem_of_nil & _)]; done.
    - cbn [foldl]. rewrite IH, foldl_index_add_elem. split.
      + intros [[?|(-> & Hr & Hp)]|(Hp & b & Hin & Hr)].
        * by left.
        * right. split; [done|]. exists b0. split; [left | done].
        * right. split; [done|]. exists b. split; [by right | done].
      + intros [?|(Hp & b & Hin & Hr)]; [by left; left|].
        apply elem_of_cons in Hin as [Heq|Hin].
        * simplify_eq. left. by right.
        * right. split; [done|]. by exists b. }
  rewrite Hgen. split; [|by right]. by intros [?%elem_of_nil|?].
Qed.

(** X6 — on a state whose index has not been looked up before,
    [transitionsin] returns an index in which the pair [(label, t)] is
    filed under a symbol exactly when [t] is one of the state's transitions
    under [label] and the symbol is the first member of [label];
    [transitionsout] does the same with the last member.  A second lookup
    returns the same index and leaves the state as it is. *)
Theorem transitions_index_spec s :
  (_transitionsin s = None →
   ∀ sym lbl r,
     (lbl, r) ∈ dict_get_or (transitionsin s).1 sym [] ↔
     label_first lbl = sym ∧ ∃ b, (lbl, b) ∈ transitions s ∧ r ∈ b) ∧
  (_transitionsout s = None →
   ∀ sym lbl r,
     (lbl, r) ∈ dict_get_or (transitionsout s).1 sym [] ↔
     label_last lbl = sym ∧ ∃ b, (lbl, b) ∈ transitions s ∧ r ∈ b) ∧
  transitionsin (transitionsin s).2 = transitionsin s ∧
  transitionsout (transitionsout s).2 = transitionsout s.
Proof.
  split_and!.
  - intros Hnone sym lbl r. unfold transitionsin. rewrite Hnone. cbn [fst].
    apply build_index_elem.
  - intros Hnone sym lbl r. unfold transitionsout. rewrite Hnone. cbn [fst].
    apply build_index_elem.
  - unfold transitionsin. destruct (_transitionsin s) as [idx|] eqn:E.
    + cbn [snd]. by rewrite E.
    + done.
  - unfold transitionsout. destruct (_transitionsout s) as [idx|] eqn:E.
    + cbn [snd]. by rewrite E.
    + done.
Qed.

End state_extras.

Section cheapest.
Context {W : Type} `{!Weight W}.
Implicit Types (th : TStore W) (s self : State W) (lbl L : Label).

Lemma cheapest_step_get th d r q :
  dict_get_or (cheapest_step th d r) q winf
    = foldl wmin (dict_get_or d q winf) (weights_to th q [r]).
Proof.
  unfold cheapest_step, weights_to. cbn [omap list_omap].
  destruct (th !! r) as [t|]; [|done].
  destruct (decide (targetstate t = q)) as [<-|Hne].
  - unfold dict_get_or at 1. by rewrite dict_get_set_eq.
  - unfold dict_get_or at 1. by rewrite dict_get_set_ne by done.
Qed.

Lemma weights_to_app th q rs1 rs2 :
  weights_to th q (rs1 ++ rs2) = weights_to th q rs1 ++ weights_to th q rs2.
Proof. unfold weights_to. apply omap_app. Qed.

Lemma foldl_cheapest_get th d rs q :
  dict_get_or (foldl (cheapest_step th) d rs) q winf
    = foldl wmin (dict_get_or d q winf) (weights_to th q rs).
Proof.
  revert d. induction rs as [|r rs IH]; intros d; [done|].
  cbn [foldl]. rewrite IH, cheapest_step_get.
  change (r :: rs) with ([r] ++ rs). by rewrite weights_to_app, foldl_app.
Qed.

Lemma foldl_cheapest_keys th d rs q :
  q ∈ dict_keys (foldl (cheapest_step th) d rs) ↔
  q ∈ dict_keys d ∨ ∃ r t, r ∈ rs ∧ th !! r = Some t ∧ targetstate t = q.
Proof.
  revert d. induction rs as [|r rs IH]; intros d.
  - simpl. split; [by left|]. by intros [?|(r & t & ?%elem_of_nil & _)].
  - cbn [foldl]. rewrite IH. unfold cheapest_step at 1.
    destruct (th !! r) as [t|] eqn:E.
    + rewrite dict_keys_set_elem. split.
      * intros [[->|?]|(r' & t' & Hr & Hlk & Hq)].
        -- right. exists r, t. split; [left | done].
        -- by left.
        -- right. exists r', t'. split; [by right | done].
      * intros [?|(r' & t' & Hr & Hlk & Hq)]; [left; by right|].
        apply elem_of_cons in Hr as [->|Hr].
        -- left. left. congruence.
        -- right. by exists r', t'.
    + split.
      * intros [?|(r' & t' & Hr & Hlk & Hq)]; [by left|].
        right. exists r', t'. split; [by right | done].
      * intros [?|(r' & t' & Hr & Hlk & Hq)]; [by left|].
        apply elem_of_cons in Hr as [->|Hr]; [congruence|].
        right. by exists r', t'.
Qed.

Lemma foldl_cheapest_NoDup th d rs :
  NoDup (dict_keys d) → NoDup (dict_keys (foldl (cheapest_step th) d rs)).
Proof.
  revert d. induction rs as [|r rs IH]; intros d Hnd; [done|].
  cbn [foldl]. apply IH. unfold cheapest_step.
  destruct (th !! r); [by apply dict_set_NoDup | done].
Qed.

Lemma all_targets_cheapest_refs th s :
  all_targets_cheapest th s
    = foldl (cheapest_step th) [] (refs_under (λ _, true) (transitions s)).
Proof.
  unfold all_targets_cheapest, refs_under.
  generalize (@nil (nat * W)). induction (transitions s) as [|[L b] tr IH]; intros d.
  - done.
  - cbn [foldl flat_map fst snd]. by rewrite foldl_app, IH.
Qed.

Lemma all_epsilon_targets_cheapest_refs th s :
  all_epsilon_targets_cheapest th s
    = foldl (cheapest_step th) [] (refs_under is_epsilon_label (transitions s)).
Proof.
  unfold all_epsilon_targets_cheapest, refs_under.
  generalize (@nil (nat * W)). induction (transitions s) as [|[L b] tr IH]; intros d.
  - done.
  - cbn [foldl flat_map fst snd]. rewrite foldl_app, IH.
    by destruct (is_epsilon_label L).
Qed.

Lemma elem_of_refs_under (P : Label → bool) (tr : list (Label * list nat)) r :
  r ∈ refs_under P tr ↔ ∃ L b, (L, b) ∈ tr ∧ P L = true ∧ r ∈ b.
Proof.
  unfold refs_under. rewrite list_elem_of_In, in_flat_map. split.
  - intros [[L b] [Hin Hr]]. apply list_elem_of_In in Hin. cbn [fst snd] in Hr.
    destruct (P L) eqn:E; [|done]. apply list_elem_of_In in Hr. by exists L, b.
  - intros (L & b & Hin & HP & Hr). exists (L, b).
    split; [by apply list_elem_of_In|]. cbn [fst snd]. rewrite HP.
    by apply list_elem_of_In.
Qed.

Lemma elem_of_weights_to th q rs v :
  v ∈ weights_to th q rs ↔
  ∃ r t, r ∈ rs ∧ th !! r = Some t ∧ targetstate t = q ∧ weight t = v.
Proof.
  unfold weights_to. rewrite list_elem_of_omap. split.
  - intros (r & Hr & Hv). destruct (th !! r) as [t|] eqn:E; [|done].
    destruct (decide (targetstate t = q)); simplify_eq. by exists r, t.
  - intros (r & t & Hr & Hlk & Hq & Hv). exists r. split; [done|].
    rewrite Hlk. rewrite decide_True by done. by subst.
Qed.

Lemma is_epsilon_label_spec lbl :
  is_epsilon_label lbl = true ↔ Forall (λ sym, sym = "") (label_symbols lbl).
Proof.
  unfold is_epsilon_label. rewrite forallb_forall, Forall_forall.
  split; intros Hall sym Hin.
  - apply list_elem_of_In, Hall, Nat.eqb_eq in Hin. by destruct sym.
  - apply list_elem_of_In, Hall in Hin. by subst.
Qed.

Context `{!WeightLaws W}.

Lemma wmin_le_l (a b : W) : wle (wmin a b) a = true.
Proof.
  unfold wmin. destruct (wlt b a) eqn:E; [|apply wle_refl].
  unfold wle. by rewrite (wlt_asym _ _ E).
Qed.

Lemma wmin_le_r (a b : W) : wle (wmin a b) b = true.
Proof.
  unfold wmin. destruct (wlt b a) eqn:E; [apply wle_refl|].
  unfold wle. by rewrite E.
Qed.

Lemma foldl_wmin_spec (a : W) (ws : list W) :
  wle (foldl wmin a ws) a = true ∧
  Forall (λ w, wle (foldl wmin a ws) w = true) ws ∧
  (foldl wmin a ws = a ∨ foldl wmin a ws ∈ ws).
Proof.
  revert a. induction ws as [|w ws IH]; intros a.
  - simpl. split_and!; [apply wle_refl | done | by left].
  - cbn [foldl]. destruct (IH (wmin a w)) as (Hle & Hall & Hin). split_and!.
    + eapply wle_trans; [exact Hle | apply wmin_le_l].
    + constructor; [|done]. eapply wle_trans; [exact Hle | apply wmin_le_r].
    + destruct Hin as [Heq|Hin]; [|right; by right].
      rewrite Heq. unfold wmin. destruct (wlt w a); [right; left | by left].
Qed.

Lemma cheapest_spec th rs q v :
  dict_get (foldl (cheapest_step th) [] rs) q = Some v →
  wle v winf = true ∧
  (∀ r t, r ∈ rs → th !! r = Some t → targetstate t = q → wle v (weight t) = true) ∧
  (v = winf ∨ ∃ r t, r ∈ rs ∧ th !! r = Some t ∧ targetstate t = q ∧ weight t = v).
Proof.
  intros Hget. pose proof (foldl_cheapest_get th [] rs q) as Hv.
  unfold dict_get_or at 1 in Hv. rewrite Hget in Hv. cbn in Hv.
  destruct (foldl_wmin_spec winf (weights_to th q rs)) as (Hle & Hall & Hin).
  rewrite <- Hv in Hle, Hall, Hin. split_and!.
  - done.
  - intros r t Hr Hlk Hq. rewrite Forall_forall in Hall. apply Hall.
    apply elem_of_weights_to. by exists r, t.
  - destruct Hin as [?|Hin]; [by left|]. right.
    by apply elem_of_weights_to in Hin.
Qed.

(** X7 — [all_targets_cheapest] has one entry per state the state has a
    transition to, and the value kept for a target is the least of the
    weights of the transitions leading to it (and of [float("inf")], the
    default the minimum starts from): no transition to that target is
    cheaper, and the value is the weight of one of them unless it is
    [float("inf")]. *)
Theorem all_targets_cheapest_spec th s q :
  (q ∈ dict_keys (all_targets_cheapest th s) ↔ q ∈ all_targets th s) ∧
  NoDup (dict_keys (all_targets_cheapest th s)) ∧
  ∀ v, dict_get (all_targets_cheapest th s) q = Some v →
    wle v winf = true ∧
    (∀ L b r t, (L, b) ∈ transitions s → r ∈ b → th !! r = Some t →
                targetstate t = q → wle v (weight t) = true) ∧
    (v = winf ∨
     ∃ L b r t, (L, b) ∈ transitions s ∧ r ∈ b ∧ th !! r = Some t ∧
                targetstate t = q ∧ weight t = v).
Proof.
  rewrite all_targets_cheapest_refs. split_and!.
  - rewrite foldl_cheapest_keys, elem_of_all_targets. split.
    + intros [?%elem_of_nil|(r & t & Hr & Hlk & Hq)]; [done|].
      apply elem_of_refs_under in Hr as (L & b & Hin & _ & Hr).
      by exists L, b, r, t.
    + intros (L & b & r & t & Hin & Hr & Hlk & Hq). right. exists r, t.
      split; [|done]. apply elem_of_refs_under. by exists L, b.
  - apply foldl_cheapest_NoDup, NoDup_nil_2.
  - intros v Hget. destruct (cheapest_spec _ _ _ _ Hget) as (Hinf & Hle & Hin).
    split_and!; [done | |].
    + intros L b r t Hb Hr Hlk Hq. apply (Hle r t); [|done..].
      apply elem_of_refs_under. by exists L, b.
    + destruct Hin as [?|(r & t & Hr & Hlk & Hq & Hw)]; [by left|]. right.
      apply elem_of_refs_under in Hr as (L & b & Hin & _ & Hr).
      by exists L, b, r, t.
Qed.

(** X8 — [all_epsilon_targets_cheapest] counts exactly the transitions
    whose label consists of empty symbols only, [('',)] as well as
    [('', '')]: it has one entry per state reached by such a transition,
    with the least weight among them; transitions under any other label
    contribute neither an entry nor a weight. *)
Theorem all_epsilon_targets_cheapest_spec th s q :
  (q ∈ dict_keys (all_epsilon_targets_cheapest th s) ↔
   ∃ L b r t, (L, b) ∈ transitions s ∧ Forall (λ sym, sym = "") (label_symbols L) ∧
              r ∈ b ∧ th !! r = Some t ∧ targetstate t = q) ∧
  NoDup (dict_keys (all_epsilon_targets_cheapest th s)) ∧
  ∀ v, dict_get (all_epsilon_targets_cheapest th s) q = Some v →
    wle v winf = true ∧
    (∀ L b r t, (L, b) ∈ transitions s → Forall (λ sym, sym = "") (label_symbols L) →
                r ∈ b → th !! r = Some t → targetstate t = q →
                wle v (weight t) = true) ∧
    (v = winf ∨
     ∃ L b r t, (L, b) ∈ transitions s ∧ Forall (λ sym, sym = "") (label_symbols L) ∧
                r ∈ b ∧ th !! r = Some t ∧ targetstate t = q ∧ weight t = v).
Proof.
  rewrite all_epsilon_targets_cheapest_refs. split_and!.
  - rewrite foldl_cheapest_keys. split.
    + intros [?%elem_of_nil|(r & t & Hr & Hlk & Hq)]; [done|].
      apply elem_of_refs_under in Hr as (L & b & Hin & HP & Hr).
      apply is_epsilon_label_spec in HP. by exists L, b, r, t.
    + intros (L & b & r & t & Hin & HP & Hr & Hlk & Hq). right. exists r, t.
      split; [|done]. apply elem_of_refs_under. exists L, b.
      by rewrite is_epsilon_label_spec.
  - apply foldl_cheapest_NoDup, NoDup_nil_2.
  - intros v Hget. destruct (cheapest_spec _ _ _ _ Hget) as (Hinf & Hle & Hin).
    split_and!; [done | |].
    + intros L b r t Hb HP Hr Hlk Hq. apply (Hle r t); [|done..].
      apply elem_of_refs_under. exists L, b. by rewrite is_epsilon_label_spec.
    + destruct Hin as [?|(r & t & Hr & Hlk & Hq & Hw)]; [by left|]. right.
      apply elem_of_refs_under in Hr as (L & b & Hin & HP & Hr).
      apply is_epsilon_label_spec in HP. by exists L, b, r, t.
Qed.

End cheapest.

Lemma rename_label_to_itself_witness :
  NoDup (dict_keys (transitions s_a)) ∧
  ∃ th' s', rename_label th_a s_a (L1 "a") (L1 "a") = Some (th', s') ∧
            dict_get (transitions s') (L1 "a") = None.
Proof.
  assert (NoDup (dict_keys (transitions s_a))) as Hnd by apply NoDup_singleton.
  split; [exact Hnd|].
  destruct (rename_label_to_itself th_a s_a (L1 "a") Hnd) as (th' & s' & Hr & Hg & _).
  { left. }
  by exists th', s'.
Defined.

Lemma rename_label_moves_witness :
  NoDup (dict_keys (transitions s_a)) ∧ L1 "a" ≠ L1 "b" ∧
  (rename_label th_a s_a (L1 "a") (L1 "b") = None ↔
   L1 "a" ∉ dict_keys (transitions s_a)).
Proof.
  assert (NoDup (dict_keys (transitions s_a))) as Hnd by apply NoDup_singleton.
  assert (L1 "a" ≠ L1 "b") as Hne by discriminate.
  split; [exact Hnd|]. split; [exact Hne|].
  exact (proj1 (rename_label_moves th_a s_a (L1 "a") (L1 "b") Hnd Hne)).
Defined.

Lemma remove_transitions_to_targets_compose_witness :
  NoDup (dict_keys (transitions s_a)) ∧
  remove_transitions_to_targets th_a (remove_transitions_to_targets th_a s_a [2]) [1]
    = remove_transitions_to_targets th_a s_a ([2] ++ [1]).
Proof.
  assert (NoDup (dict_keys (transitions s_a))) as Hnd by apply NoDup_singleton.
  split; [exact Hnd|].
  exact (proj1 (remove_transitions_to_targets_compose th_a s_a [2] [1] Hnd)).
Defined.

Lemma all_targets_after_remove_witness :
  NoDup (dict_keys (transitions s_a)) ∧
  (1 ∈ all_targets th_a (remove_transitions_to_targets th_a s_a [2]) ↔
   1 ∈ all_targets th_a s_a ∧ 1 ∉ [2]).
Proof.
  assert (NoDup (dict_keys (transitions s_a))) as Hnd by apply NoDup_singleton.
  split; [exact Hnd|].
  exact (all_targets_after_remove th_a s_a [2] 1 Hnd).
Defined.

Lemma transitions_index_spec_witness :
  _transitionsin s_a = None ∧
  ((L1 "a", 0) ∈ dict_get_or (transitionsin s_a).1 "a" [] ↔
   label_first (L1 "a") = "a" ∧ ∃ b, (L1 "a", b) ∈ transitions s_a ∧ 0 ∈ b).
Proof.
  split; [reflexivity|].
  exact (proj1 (transitions_index_spec s_a) eq_refl "a" (L1 "a") 0).
Defined.

Lemma all_targets_cheapest_spec_witness :
  all_targets_cheapest th_eps s_eps = [(1, 3%Z); (2, 7%Z)] ∧
  NoDup (dict_keys (all_targets_cheapest th_eps s_eps)).
Proof.
  split; [reflexivity|].
  exact (proj1 (proj2 (all_targets_cheapest_spec th_eps s_eps 1))).
Defined.

Lemma all_epsilon_targets_cheapest_spec_witness :
  all_epsilon_targets_cheapest th_eps s_eps = [(1, 5%Z); (2, 7%Z)] ∧
  NoDup (dict_keys (all_epsilon_targets_cheapest th_eps s_eps)).
Proof.
  split; [reflexivity|].
  exact (proj1 (proj2 (all_epsilon_targets_cheapest_spec th_eps s_eps 1))).
Defined.

Section add_remove.
Context {W : Type} `{!Weight W}.
Implicit Types (th : TStore W) (s self : State W) (lbl L : Label).

Lemma filter_keeps_all {A} (P : A → bool) (l : list A) :
  (∀ x, x ∈ l → P x = true) → List.filter P l = l.
Proof.
  induction l as [|a l IH]; intros Hall; [done|]. cbn [List.filter].
  rewrite Hall by left. rewrite IH; [done|]. intros x Hx. apply Hall. by right.
Qed.

Lemma kept_unchanged th targets (tr : list (Label * list nat)) :
  (∀ L b, (L, b) ∈ tr →
          List.filter (not_to_targets th targets) b = b ∧ b ≠ []) →
  omap (kept_entry th targets) tr = tr.
Proof.
  induction tr as [|[k v] tr IH]; intros Hkeep; [done|].
  destruct (Hkeep k v) as [Hv Hne]; [left|].
  rewrite omap_kept_cons, Hv. destruct v as [|r v]; [done|]. cbn [length Nat.eqb].
  f_equal. apply IH. intros L b Hin. apply (Hkeep L b). by right.
Qed.

Lemma kept_after_set th targets n lbl (tr : list (Label * list nat)) :
  (∀ L b, (L, b) ∈ tr →
          List.filter (not_to_targets th targets) b = b ∧ b ≠ []) →
  List.filter (not_to_targets th targets) [n] = [] →
  omap (kept_entry th targets) (dict_set tr lbl (dict_get_or tr lbl [] ++ [n])) = tr.
Proof.
  intros Hkeep Hdrop. induction tr as [|[k v] tr IH].
  - cbn [dict_get_or dict_get default dict_set app].
    rewrite omap_kept_cons, Hdrop. done.
  - destruct (Hkeep k v) as [Hv Hne]; [left|].
    unfold dict_get_or. cbn [dict_set dict_get].
    destruct (decide (k = lbl)) as [->|Hk].
    + change (default [] (Some v)) with v. rewrite omap_kept_cons.
      rewrite List.filter_app, Hdrop, app_nil_r, Hv.
      destruct v as [|r v]; [done|]. cbn [length Nat.eqb].
      f_equal. apply kept_unchanged. intros L b Hin. apply (Hkeep L b). by right.
    + rewrite omap_kept_cons, Hv.
      destruct v as [|r v]; [done|]. cbn [length Nat.eqb].
      f_equal. apply IH. intros L b Hin. apply (Hkeep L b). by right.
Qed.

Lemma kept_after_add th tnew other lbl (tr : list (Label * list nat)) :
  targetstate tnew = other →
  (∀ L b r, (L, b) ∈ tr → r ∈ b →
            ∃ t, th !! r = Some t ∧ targetstate t ≠ other) →
  (∀ L b, (L, b) ∈ tr → b ≠ []) →
  omap (kept_entry (th ++ [tnew]) [other])
       (dict_set tr lbl (dict_get_or tr lbl [] ++ [length th])) = tr.
Proof.
  intros Hnew Hold Hne. apply kept_after_set.
  - intros L b Hin. split; [|by eapply Hne]. apply filter_keeps_all. intros r Hr.
    destruct (Hold L b r Hin Hr) as (t & Ht & Hto).
    unfold not_to_targets. rewrite lookup_app_l by by eapply lookup_lt_Some.
    rewrite Ht. apply bool_decide_eq_true. by intros ?%list_elem_of_singleton.
  - cbn [List.filter]. unfold not_to_targets. rewrite lookup_app_r by lia.
    rewrite Nat.sub_diag. cbn [lookup list_lookup].
    rewrite bool_decide_eq_false_2; [done|]. intros Hn. apply Hn. subst. left.
Qed.

(** X21 — adding a transition to a state [other] and then removing the
    transitions to [other] gives back the state as it was, provided the
    state had no transition to [other] before: every former transition is
    still filed under its label in the same order, and the label of the
    added transition is dropped again if it was new. *)
Theorem add_then_remove_round_trip th s other lbl wt :
  NoDup (dict_keys (transitions s)) →
  refs_valid th s →
  (∀ L b, (L, b) ∈ transitions s → b ≠ []) →
  other ∉ all_targets th s →
  remove_transitions_to_targets (add_transition th s other lbl wt).1
    (add_transition th s other lbl wt).2 [other] = s.
Proof.
  intros Hnd Hvalid Hne Hnot.
  rewrite remove_transitions_set.
  2: { cbn [add_transition snd set_transitions transitions]. by apply dict_set_NoDup. }
  destruct (add_transition_bucket th s other lbl wt Hvalid) as [Hb _].
  cbn [add_transition fst snd set_transitions transitions] in *.
  unfold dict_get_or at 1 in Hb. rewrite dict_get_set_eq in Hb. cbn [default] in Hb.
  unfold id in Hb. rewrite Hb. rewrite kept_after_add; [by destruct s | done | | done].
  intros L b r Hin Hr. rewrite refs_valid_alt in Hvalid.
  pose proof (Hvalid L b r Hin Hr) as Hlt. apply lookup_lt_is_Some_2 in Hlt as [t Ht].
  exists t. split; [done|]. intros Heq. apply Hnot. apply elem_of_all_targets.
  by exists L, b, r, t.
Qed.

End add_remove.

Lemma add_then_remove_round_trip_witness :
  NoDup (dict_keys (transitions s_a)) ∧
  remove_transitions_to_targets (add_transition th_a s_a 2 (L1 "b") 0%Z).1
    (add_transition th_a s_a 2 (L1 "b") 0%Z).2 [2] = s_a.
Proof.
  assert (NoDup (dict_keys (transitions s_a))) as Hnd by apply NoDup_singleton.
  split; [exact Hnd|].
  apply (add_then_remove_round_trip th_a s_a 2 (L1 "b") 0%Z Hnd).
  - apply (bool_decide_unpack _). vm_compute. exact I.
  - intros L b Hin. apply list_elem_of_singleton in Hin. by simplify_eq.
  - apply (bool_decide_unpack _). vm_compute. exact I.
Defined.

(** ** The utility methods of [FST] *)

Section numbering.
Context {W : Type} `{!Weight W}.
Implicit Types (h : Heap W) (F : FST) (d : list (nat * StateNum)).

(** the counter values among the entries of a numbering *)
Local Abbreviation numbers d :=
  (omap (λ x : nat * StateNum, match x.2 with Num i => Some i | Name _ => None end) d).

Lemma number_fold h force ordered d c :
  NoDup ordered →
  (∀ s, s ∈ ordered → s ∉ dict_keys d) →
  (∀ s, s ∈ ordered → is_Some (hstates h !! s)) →
  ∃ tail,
    (foldl (number_step h force) (d, c) ordered).1 = d ++ tail ∧
    dict_keys tail = ordered ∧
    numbers tail = seq c ((foldl (number_step h force) (d, c) ordered).2 - c) ∧
    c ≤ (foldl (number_step h force) (d, c) ordered).2 ∧
    ∀ s x, (s, x) ∈ tail →
      ∃ st, hstates h !! s = Some st ∧
        match name st with
        | Some nm => if force then ∃ i, x = Num i else x = Name nm
        | None => ∃ i, x = Num i
        end.
Proof.
  revert d c. induction ordered as [|s ordered IH]; intros d c Hnd Hfresh Halloc.
  - exists []. cbn [foldl fst snd]. rewrite app_nil_r, Nat.sub_diag.
    split_and!; [done | done | done | done |]. by intros s x ?%elem_of_nil.
  - apply NoDup_cons in Hnd as [Hs Hnd].
    destruct (Halloc s) as [st Hst]; [left|].
    assert (s ∉ dict_keys d) as Hsd by (apply Hfresh; left).
    cbn [foldl].
    assert (∀ v c',
      c ≤ c' → c' ≤ S c →
      numbers [(s, v)] = seq c (c' - c) →
      (∃ st0, hstates h !! s = Some st0 ∧
         match name st0 with
         | Some nm => if force then ∃ i, v = Num i else v = Name nm
         | None => ∃ i, v = Num i
         end) →
      ∃ tail,
        (foldl (number_step h force) (dict_set d s v, c') ordered).1 = d ++ tail ∧
        dict_keys tail = s :: ordered ∧
        numbers tail
          = seq c ((foldl (number_step h force) (dict_set d s v, c') ordered).2 - c) ∧
        c ≤ (foldl (number_step h force) (dict_set d s v, c') ordered).2 ∧
        ∀ s' x, (s', x) ∈ tail →
          ∃ st, hstates h !! s' = Some st ∧
            match name st with
            | Some nm => if force then ∃ i, x = Num i else x = Name nm
            | None => ∃ i, x = Num i
            end) as Hstep.
    { intros v c' Hc1 Hc2 Hnum Hentry.
      rewrite dict_set_fresh by done.
      destruct (IH (d ++ [(s, v)]) c' Hnd) as (tail & Heq & Hkeys & Hnums & Hle & Hall).
      { intros s' Hs'. unfold dict_keys. rewrite fmap_app, elem_of_app.
        intros [Hin|Hin%list_elem_of_singleton].
        - by apply (Hfresh s'); [right|].
        - cbn in Hin. by subst. }
      { intros s' Hs'. apply Halloc. by right. }
      exists ((s, v) :: tail). split_and!.
      - rewrite Heq. by rewrite <- app_assoc.
      - unfold dict_keys in *. cbn [fmap list_fmap fst]. by rewrite <- Hkeys.
      - change ((s, v) :: tail) with ([(s, v)] ++ tail).
        rewrite omap_app, Hnums, Hnum.
        set (c'' := (foldl (number_step h force) (d ++ [(s, v)], c') ordered).2) in *.
        replace (c'' - c) with ((c' - c) + (c'' - c')) by lia.
        rewrite seq_app. do 2 f_equal. lia.
      - lia.
      - intros s' x [Heq'|Hin]%elem_of_cons; [by simplify_eq | by apply Hall]. }
    destruct (name st) as [nm|] eqn:Hname.
    + destruct force.
      * replace (number_step h true (d, c) s) with (dict_set d s (Num c), S c)
          by (unfold number_step; cbn [fst snd]; by rewrite Hst, Hname).
        apply Hstep; [lia | lia | |].
        -- replace (S c - c) with 1 by lia. done.
        -- exists st. rewrite Hname. split; [done|]. by exists c.
      * replace (number_step h false (d, c) s) with (dict_set d s (Name nm), c)
          by (unfold number_step; cbn [fst snd]; by rewrite Hst, Hname).
        apply Hstep; [lia | lia | |].
        -- by rewrite Nat.sub_diag.
        -- exists st. rewrite Hname. done.
    + replace (number_step h force (d, c) s) with (dict_set d s (Num c), S c)
        by (unfold number_step; cbn [fst snd]; by rewrite Hst, Hname).
      apply Hstep; [lia | lia | |].
      * replace (S c - c) with 1 by lia. done.
      * exists st. rewrite Hname. split; [done|]. by exists c.
Qed.

Lemma NoDup_omap_inj {A B} (f : A → option B) (l : list A) x y i :
  NoDup (omap f l) → x ∈ l → y ∈ l → f x = Some i → f y = Some i → x = y.
Proof.
  induction l as [|a l IH]; intros Hnd Hx Hy Hfx Hfy; [by apply elem_of_nil in Hx|].
  cbn [omap list_omap] in Hnd.
  apply elem_of_cons in Hx as [->|Hx]; apply elem_of_cons in Hy as [->|Hy].
  - done.
  - rewrite Hfx in Hnd. apply NoDup_cons in Hnd as [Hnin _]. exfalso. apply Hnin.
    apply list_elem_of_omap. by exists y.
  - rewrite Hfy in Hnd. apply NoDup_cons in Hnd as [Hnin _]. exfalso. apply Hnin.
    apply list_elem_of_omap. by exists x.
  - destruct (f a); [apply NoDup_cons in Hnd as [_ Hnd]|]; by apply IH.
Qed.

(** X9 — [number_unnamed_states] has one entry per state, the initial
    state first.  A state with a name keeps its name unless [force] is set;
    the other states are numbered, and the numbers given out are
    [0, 1, 2, ...] without gaps in the order of the entries, so that no two
    states share a number and the initial state, when it is numbered, has
    number 0. *)
Theorem number_unnamed_states_spec h F force :
  NoDup (states F) →
  (∀ s, s ∈ initialstate F :: states F → is_Some (hstates h !! s)) →
  let d := number_unnamed_states h F force in
  dict_keys d = initialstate F :: list_difference (states F) [initialstate F] ∧
  (∃ k, omap (λ x : nat * StateNum,
                match x.2 with Num i => Some i | Name _ => None end) d = seq 0 k) ∧
  (∀ s x, (s, x) ∈ d →
     ∃ st, hstates h !! s = Some st ∧
       match name st with
       | Some nm => if force then ∃ i, x = Num i else x = Name nm
       | None => ∃ i, x = Num i
       end) ∧
  (∀ i, dict_get d (initialstate F) = Some (Num i) → i = 0) ∧
  (∀ s1 s2 i, (s1, Num i) ∈ d → (s2, Num i) ∈ d → s1 = s2).
Proof.
  intros Hnd Halloc d. subst d. unfold number_unnamed_states.
  set (ordered := [initialstate F] ++ list_difference (states F) [initialstate F]).
  assert (NoDup ordered) as Hord.
  { subst ordered. apply NoDup_app. split_and!.
    - apply NoDup_singleton.
    - intros x ->%list_elem_of_singleton [_ Hn]%list_elem_of_difference.
      apply Hn. left.
    - by apply NoDup_list_difference. }
  destruct (number_fold h force ordered [] 0 Hord) as (tail & Heq & Hkeys & Hnums & _ & Hall).
  { intros s _ ?%elem_of_nil. done. }
  { intros s Hs. apply Halloc. subst ordered.
    apply elem_of_app in Hs as [->%list_elem_of_singleton|Hs]; [left|].
    right. by apply list_elem_of_difference in Hs as [? _]. }
  rewrite Heq. cbn [app]. split_and!.
  - done.
  - eexists. exact Hnums.
  - done.
  - intros i Hget. apply dict_get_Some_elem in Hget.
    destruct tail as [|[s0 x0] tail]; [done|].
    assert (s0 = initialstate F) as -> by (by injection Hkeys).
    assert (NoDup (dict_keys ((initialstate F, x0) :: tail))) as Hndk.
    { by rewrite Hkeys. }
    assert (x0 = Num i) as ->.
    { pose proof (dict_get_elem _ _ _ Hndk Hget) as Hg. cbn in Hg.
      rewrite decide_True in Hg by done. congruence. }
    cbn [omap list_omap snd] in Hnums.
    match type of Hnums with _ = seq 0 ?k => destruct k as [|k']; [done|] end.
    cbn [seq] in Hnums. congruence.
  - intros s1 s2 i H1 H2.
    assert (NoDup (numbers tail)) as Hndn by (rewrite Hnums; apply NoDup_seq).
    pose proof (NoDup_omap_inj _ _ _ _ i Hndn H1 H2 eq_refl eq_refl). congruence.
Qed.

End numbering.

Lemma number_unnamed_states_spec_witness :
  NoDup (states neg_fst.2) ∧
  dict_keys (number_unnamed_states neg_fst.1 neg_fst.2 true)
    = initialstate neg_fst.2
        :: list_difference (states neg_fst.2) [initialstate neg_fst.2].
Proof.
  assert (NoDup (states neg_fst.2)) as Hnd.
  { apply (bool_decide_unpack _). vm_compute. exact I. }
  split; [exact Hnd|].
  refine (proj1 (number_unnamed_states_spec neg_fst.1 neg_fst.2 true Hnd _)).
  intros s Hs. vm_compute in Hs.
  repeat (apply elem_of_cons in Hs as [->|Hs]; [by eexists|]).
  by apply elem_of_nil in Hs.
Defined.

Section sigma.
Context {W : Type} `{!Weight W}.
Implicit Types (h : Heap W) (F : FST).

Lemma elem_of_FST_all_transitions h sts s L t :
  (s, L, t) ∈ FST_all_transitions h sts ↔
  s ∈ sts ∧ ∃ st, hstates h !! s = Some st ∧ (L, t) ∈ all_transitions (htrans h) st.
Proof.
  unfold FST_all_transitions. rewrite list_elem_of_In, in_flat_map. split.
  - intros (s0 & Hs0 & Hx). apply list_elem_of_In in Hs0, Hx.
    destruct (hstates h !! s0) as [st|] eqn:E; [|by apply elem_of_nil in Hx].
    apply list_elem_of_fmap in Hx as ([L0 t0] & Heq & Hin). simplify_eq.
    split; [done|]. by exists st.
  - intros (Hs & st & Hst & Hin). exists s. split; [by apply list_elem_of_In|].
    rewrite Hst. apply list_elem_of_In, list_elem_of_fmap. by exists (L, t).
Qed.

Lemma elem_of_seen_symbols h F sym :
  sym ∈ seen_symbols h F ↔
  ∃ s st L t, s ∈ states F ∧ hstates h !! s = Some st ∧
              (L, t) ∈ all_transitions (htrans h) st ∧ sym ∈ label_symbols L.
Proof.
  unfold seen_symbols. rewrite elem_of_remove_dups, list_elem_of_In, in_flat_map. split.
  - intros ([[s L] t] & Hin & Hsym). apply list_elem_of_In in Hin, Hsym.
    apply elem_of_FST_all_transitions in Hin as (Hs & st & Hst & Hin).
    by exists s, st, L, t.
  - intros (s & st & L & t & Hs & Hst & Hin & Hsym). exists (s, L, t).
    split; apply list_elem_of_In; [|done].
    apply elem_of_FST_all_transitions. split; [done|]. by exists st.
Qed.

Lemma list_intersection_idemp {A} `{EqDecision A} (l k : list A) :
  list_intersection (list_intersection l k) k = list_intersection l k.
Proof.
  induction l as [|a l IH]; [done|]. cbn [list_intersection].
  destruct (decide_rel elem_of a k) as [Hin|Hnin].
  - cbn [list_intersection].
    destruct (decide_rel elem_of a k) as [_|Hnin]; [by rewrite IH | done].
  - exact IH.
Qed.

(** X10 — [cleanup_sigma] only ever shrinks the alphabet and touches
    nothing else.  When some transition of the automaton's states carries
    the symbol [.] in its label, the alphabet is left as it is; otherwise
    exactly the symbols that occur in the label of some transition are
    kept.  Cleaning up a second time changes nothing. *)
Theorem cleanup_sigma_spec h F :
  let used sym :=
    ∃ s st L t, s ∈ states F ∧ hstates h !! s = Some st ∧
                (L, t) ∈ all_transitions (htrans h) st ∧ sym ∈ label_symbols L in
  let F' := cleanup_sigma h F in
  initialstate F' = initialstate F ∧ states F' = states F ∧
  finalstates F' = finalstates F ∧
  alphabet F' ⊆ alphabet F ∧
  (used "." → F' = F) ∧
  (¬ used "." → ∀ sym, sym ∈ alphabet F' ↔ sym ∈ alphabet F ∧ used sym) ∧
  cleanup_sigma h F' = F'.
Proof.
  intros used F'. subst F'. unfold cleanup_sigma.
  assert (∀ sym, used sym ↔ sym ∈ seen_symbols h F) as Hused.
  { intros sym. symmetry. apply elem_of_seen_symbols. }
  destruct (bool_decide ("." ∉ seen_symbols h F)) eqn:Hdot.
  - apply bool_decide_eq_true in Hdot. cbn [set_alphabet initialstate states
      finalstates alphabet]. split_and!; [done | done | done | | | |].
    + intros sym [? _]%list_elem_of_intersection. done.
    + intros Hu. apply Hused in Hu. done.
    + intros _ sym. by rewrite list_elem_of_intersection, Hused.
    + assert (seen_symbols h
                (set_alphabet F (list_intersection (alphabet F) (seen_symbols h F)))
              = seen_symbols h F) as Hseen by done.
      rewrite Hseen. rewrite bool_decide_eq_true_2 by done.
      unfold set_alphabet. cbn [alphabet initialstate states finalstates].
      by rewrite list_intersection_idemp.
  - apply bool_decide_eq_false in Hdot. split_and!; [done | done | done | done | | |].
    + done.
    + intros Hu. exfalso. apply Hdot. intros Hin. apply Hu. by apply Hused.
    + by rewrite bool_decide_eq_false_2 by done.
Qed.

Lemma fmap_fst_pair {A B} (f : A → B) (l : list A) : ((λ x, (x, f x)) <$> l).*1 = l.
Proof. induction l as [|a l IH]; [done|]. cbn. by rewrite IH. Qed.

(** X11 — [all_transitions_by_label] yields every label that occurs in
    one of the given states exactly once, together with the states reached
    under that label from any of the given states: a state is among the
    targets exactly when one of the given states has a transition to it
    under that label. *)
Theorem all_transitions_by_label_spec h sts :
  let items := all_transitions_by_label h sts in
  NoDup items.*1 ∧
  (∀ l, l ∈ items.*1 ↔ ∃ s, s ∈ sts ∧ l ∈ dict_keys (state_transitions h s)) ∧
  (∀ l T, (l, T) ∈ items →
     NoDup T ∧
     ∀ q, q ∈ T ↔
          ∃ s r t, s ∈ sts ∧ r ∈ dict_get_or (state_transitions h s) l [] ∧
                   htrans h !! r = Some t ∧ targetstate t = q).
Proof.
  intros items. subst items. unfold all_transitions_by_label.
  rewrite fmap_fst_pair. split_and!.
  - apply NoDup_remove_dups.
  - intros l. rewrite elem_of_remove_dups, list_elem_of_In, in_flat_map.
    split; intros (s & Hs & Hl); exists s; split;
      first [by apply list_elem_of_In | by apply list_elem_of_In in Hs].
  - intros l T Hin. apply list_elem_of_fmap in Hin as (l0 & Heq & _). simplify_eq.
    split; [apply NoDup_remove_dups|].
    intros q. rewrite elem_of_remove_dups, list_elem_of_In, in_flat_map. split.
    + intros (s & Hs & Hq). apply list_elem_of_In in Hs, Hq.
      apply list_elem_of_omap in Hq as (r & Hr & Hlk).
      destruct (htrans h !! r) as [t|] eqn:E; [|done]. cbn in Hlk. simplify_eq.
      by exists s, r, t.
    + intros (s & r & t & Hs & Hr & Hlk & Hq). exists s.
      split; [by apply list_elem_of_In|]. apply list_elem_of_In, list_elem_of_omap.
      exists r. split; [done|]. rewrite Hlk. cbn. by subst.
Qed.

End sigma.

Section words.
Context {W : Type} `{!Weight W}.
Variable h : Heap W.
Variable F : FST.
Implicit Types (Q : list (WordItem W)) (x : WordItem W) (y : W * list Label).

Lemma words_step_cons s c p Q1 :
  ∃ ys ch,
    words_step h F ((s, c, p) :: Q1) = Some (ys, Q1 ++ ch) ∧
    (∀ y, y ∈ ys ↔
          ∃ st, hstates h !! s = Some st ∧ s ∈ finalstates F ∧
                y = (wadd c (finalweight st), p)) ∧
    (∀ x, x ∈ ch ↔
          ∃ st lbl t, hstates h !! s = Some st ∧
                      (lbl, t) ∈ all_transitions (htrans h) st ∧
                      x = (targetstate t, wadd c (weight t), p ++ [lbl])).
Proof.
  unfold words_step. destruct (hstates h !! s) as [st|] eqn:Hst.
  - eexists _, _. split; [reflexivity|]. split.
    + intros y. case_bool_decide as Hfin.
      * rewrite list_elem_of_singleton. split.
        -- intros ->. by exists st.
        -- by intros (st' & [= <-] & _ & ->).
      * split; [by intros ?%elem_of_nil|]. by intros (st' & _ & ? & _).
    + intros x. rewrite list_elem_of_fmap. split.
      * intros ([lbl t] & -> & Hin). by exists st, lbl, t.
      * intros (st' & lbl & t & [= <-] & Hin & ->). by exists (lbl, t).
  - exists [], []. rewrite app_nil_r. split; [done|]. split.
    + intros y. split; [by intros ?%elem_of_nil|]. by intros (st & ? & _).
    + intros x. split; [by intros ?%elem_of_nil|]. by intros (st & lbl & t & ? & _).
Qed.

Lemma words_run_stuck n Q : words_step h F Q = None → words_run h F n Q = ([], Q).
Proof. intros Hs. destruct n; [done|]. cbn [words_run]. by rewrite Hs. Qed.

Lemma words_run_add n m Q :
  words_run h F (n + m) Q =
    ((words_run h F n Q).1 ++ (words_run h F m (words_run h F n Q).2).1,
     (words_run h F m (words_run h F n Q).2).2).
Proof.
  revert Q. induction n as [|n IH]; intros Q.
  - cbn [Nat.add words_run fst snd app]. by destruct (words_run h F m Q).
  - cbn [Nat.add words_run]. destruct (words_step h F Q) as [[ys Q']|] eqn:Hs.
    + rewrite IH. cbn [fst snd]. by rewrite app_assoc.
    + cbn [fst snd app]. by rewrite (words_run_stuck m Q Hs).
Qed.

Lemma words_prefix n m : n ≤ m → words h F n `prefix_of` words h F m.
Proof.
  intros Hle. unfold words. replace m with (n + (m - n)) by lia.
  rewrite words_run_add. cbn [fst]. by apply prefix_app_r.
Qed.

Lemma words_run_sound n Q y :
  Forall (is_walk h F) Q → y ∈ (words_run h F n Q).1 → accepted h F y.
Proof.
  revert Q. induction n as [|n IH]; intros Q HQ Hy; [by apply elem_of_nil in Hy|].
  cbn [words_run] in Hy. destruct Q as [|[[s c] p] Q1]; [by apply elem_of_nil in Hy|].
  destruct (words_step_cons s c p Q1) as (ys & ch & Hstep & Hys & Hch).
  rewrite Hstep in Hy. cbn [fst] in Hy.
  apply Forall_cons in HQ as [Hx HQ1]. unfold is_walk in Hx. cbn [fst snd] in Hx.
  apply elem_of_app in Hy as [Hy|Hy].
  - apply Hys in Hy as (st & Hst & Hfin & ->). by exists s, st, c.
  - apply (IH (Q1 ++ ch)); [|done]. apply Forall_app. split; [done|].
    apply Forall_forall. intros x Hx'.
    apply Hch in Hx' as (st & lbl & t & Hst & Hin & ->).
    unfold is_walk. cbn [fst snd]. by eapply walk_snoc.
Qed.

Lemma words_run_pop k Q x :
  Q !! k = Some x → ∃ Q', (words_run h F k Q).2 = x :: Q'.
Proof.
  revert Q. induction k as [|k IH]; intros Q Hk.
  - destruct Q as [|x0 Q]; [done|]. cbn in Hk. simplify_eq. by exists Q.
  - destruct Q as [|[[s c] p] Q1]; [done|]. cbn [lookup list_lookup] in Hk.
    destruct (words_step_cons s c p Q1) as (ys & ch & Hstep & _).
    cbn [words_run]. rewrite Hstep. cbn [snd]. apply IH.
    by apply lookup_app_l_Some.
Qed.

Lemma words_run_reaches s c p :
  walk h (initialstate F) s c p →
  ∃ n Q', (words_run h F n [(initialstate F, w0, [])]).2 = (s, c, p) :: Q'.
Proof.
  induction 1 as [|s c p st lbl t Hwalk (n & Q' & Hn) Hst Hin].
  - by exists 0, [].
  - destruct (words_step_cons s c p Q') as (ys & ch & Hstep & _ & Hch).
    assert ((targetstate t, wadd c (weight t), p ++ [lbl]) ∈ Q' ++ ch) as Hmem.
    { apply elem_of_app. right. apply Hch. by exists st, lbl, t. }
    apply list_elem_of_lookup in Hmem as [k Hk].
    destruct (words_run_pop k _ _ Hk) as [Q'' Hpop].
    exists (n + (1 + k)), Q''. rewrite words_run_add. cbn [snd]. rewrite Hn.
    rewrite words_run_add. cbn [snd].
    assert (words_run h F 1 ((s, c, p) :: Q') = (ys ++ [], Q' ++ ch)) as ->.
    { cbn [words_run]. by rewrite Hstep. }
    done.
Qed.

(** X12 — [words] enumerates exactly the accepted label sequences: a
    pair is yielded at some point if and only if it is the label sequence
    of a walk from the initial state to a final state, with the weights
    along the walk summed from left to right and the final weight added
    last; and what has been yielded after some number of rounds stays a
    prefix of what is yielded later. *)
Theorem words_enumerates_accepted :
  (∀ y, (∃ n, y ∈ words h F n) ↔ accepted h F y) ∧
  (∀ n m, n ≤ m → words h F n `prefix_of` words h F m).
Proof.
  split; [|apply words_prefix]. intros y. split.
  - intros [n Hy]. apply (words_run_sound n _ y) in Hy; [done|].
    apply Forall_singleton. apply walk_start.
  - intros (s & st & c0 & Hwalk & Hfin & Hst & Hy).
    destruct (words_run_reaches _ _ _ Hwalk) as (n & Q' & Hn).
    destruct (words_step_cons s c0 y.2 Q') as (ys & ch & Hstep & Hys & _).
    exists (n + 1). unfold words. rewrite words_run_add. cbn [fst]. rewrite Hn.
    apply elem_of_app. right. cbn [words_run]. rewrite Hstep. cbn [fst].
    apply elem_of_app. left. apply Hys. exists st. split_and!; [done | done |].
    destruct y as [c p]. cbn [fst snd] in *. by subst.
Qed.

Lemma StronglySorted_app_2 {A} (R : A → A → Prop) (l1 l2 : list A) :
  StronglySorted R l1 → StronglySorted R l2 →
  (∀ a b, a ∈ l1 → b ∈ l2 → R a b) →
  StronglySorted R (l1 ++ l2).
Proof.
  intros H1 H2 H12. induction H1 as [|a l1 Hs IH Hall]; [done|].
  cbn [app]. constructor.
  - apply IH. intros a' b Ha' Hb. apply H12; [by right | done].
  - apply Forall_app. split; [done|]. apply Forall_forall. intros b Hb.
    apply H12; [left | done].
Qed.

Lemma words_run_levels n Q d :
  level_sorted d Q →
  Forall (λ y, d ≤ length y.2) (words_run h F n Q).1 ∧
  StronglySorted (λ a b : W * list Label, length a.2 ≤ length b.2)
                 (words_run h F n Q).1.
Proof.
  revert Q d. induction n as [|n IH]; intros Q d [Hbound Hsorted].
  - cbn. split; constructor.
  - cbn [words_run]. destruct Q as [|[[s c] p] Q1]; [cbn; split; constructor|].
    destruct (words_step_cons s c p Q1) as (ys & ch & Hstep & Hys & Hch).
    rewrite Hstep. cbn [fst].
    apply Forall_cons in Hbound as [Hp Hbound]. cbn [snd] in Hp.
    apply StronglySorted_inv in Hsorted as [Hsorted Hmin].
    rewrite Forall_forall in Hbound, Hmin.
    destruct (IH (Q1 ++ ch) (length p)) as [Hge Hs].
    { split.
      - apply Forall_app. split; apply Forall_forall; intros x Hx.
        + specialize (Hbound x Hx). specialize (Hmin x Hx). cbn [snd] in Hmin. lia.
        + apply Hch in Hx as (st & lbl & t & _ & _ & ->). cbn [snd].
          rewrite length_app. cbn. lia.
      - apply StronglySorted_app_2; [done | |].
        + clear Hstep. assert (∀ x, x ∈ ch → length x.2 = length p + 1) as Hlen.
          { intros x Hx. apply Hch in Hx as (st & lbl & t & _ & _ & ->). cbn [snd].
            rewrite length_app. cbn. lia. }
          clear Hch. induction ch as [|x ch IHch]; constructor.
          * apply IHch. intros x' Hx'. apply Hlen. by right.
          * apply Forall_forall. intros x' Hx'.
            rewrite (Hlen x), (Hlen x'); [lia | by right | left].
        + intros a b Ha Hb. specialize (Hbound a Ha).
          apply Hch in Hb as (st & lbl & t & _ & _ & ->). cbn [snd].
          rewrite length_app. cbn. lia. }
    assert (∀ y, y ∈ ys → y.2 = p) as Hyp.
    { intros y Hy. by apply Hys in Hy as (st & _ & _ & ->). }
    split.
    + apply Forall_app. split.
      * apply Forall_forall. intros y Hy. rewrite (Hyp y Hy). lia.
      * eapply Forall_impl; [exact Hge|]. cbn. intros y Hy. lia.
    + apply StronglySorted_app_2; [|done|].
      * clear Hstep Hys. induction ys as [|y ys IHys]; constructor.
        -- apply IHys. intros y' Hy'. apply Hyp. by right.
        -- apply Forall_forall. intros y' Hy'.
           rewrite (Hyp y), (Hyp y'); [lia | by right | left].
      * intros a b Ha Hb. rewrite (Hyp a Ha).
        rewrite Forall_forall in Hge. by apply Hge.
Qed.

(** X13 — [words] is a breadth-first enumeration: the label sequences
    are yielded in order of non-decreasing length, whatever the weights. *)
Theorem words_shortest_first (n : nat) :
  StronglySorted (λ a b : W * list Label, length a.2 ≤ length b.2) (words h F n) ∧
  ∀ i j a b, words h F n !! i = Some a → words h F n !! j = Some b →
             length a.2 < length b.2 → i < j.
Proof.
  assert (StronglySorted (λ a b : W * list Label, length a.2 ≤ length b.2)
            (words h F n)) as Hsorted.
  { apply (words_run_levels n _ 0). split.
    - apply Forall_singleton. cbn. lia.
    - repeat constructor. }
  split; [done|]. intros i j a b Hi Hj Hlt.
  destruct (decide (i < j)) as [|Hge]; [done|]. exfalso.
  destruct (decide (i = j)) as [->|Hne]; [simplify_eq; lia|].
  assert (j < i) as Hji by lia.
  pose proof (StronglySorted_lookup _ _ _ _ _ _ Hsorted Hj Hi Hji) as Hle.
  cbn in Hle. lia.
Qed.

End words.

(** ** Further properties of the traversal *)

Section apply_options.
Context {W : Type} `{!Weight W} {FL : Flags}.
Implicit Types (h : Heap W) (F : FST) (c : Config W).

Lemma run_options h F inverse opts opts' w n c :
  obey_flags opts = obey_flags opts' →
  run h F inverse opts w n c = run h F inverse opts' w n c.
Proof.
  intros Hobey. revert c. induction n as [|n IH]; intros c; [done|].
  cbn [run]. assert (step h F inverse opts w c = step h F inverse opts' w c) as ->.
  { unfold step, accepts. by rewrite Hobey. }
  destruct (step h F inverse opts' w c) as [[[it yld] c']|]; [|done].
  by rewrite IH.
Qed.

(** X14 — the options [weights], [tokenize_outputs] and [print_flags]
    change only how a result is presented, never which results [apply]
    yields nor their order: without [weights] the results are those with
    [weights] stripped of their costs, without [tokenize_outputs] they are
    those with [tokenize_outputs] joined into strings, and two option
    settings that agree on [obey_flags] yield equally many results. *)
Theorem apply_presentation_options h F word inverse n (tok obey pr : bool) :
  (∀ wts, apply h F word inverse (mkOptions false tok obey pr) n
          = drop_cost <$> apply h F word inverse (mkOptions wts tok obey pr) n) ∧
  (∀ wts, apply h F word inverse (mkOptions wts false obey pr) n
          = join_result <$> apply h F word inverse (mkOptions wts tok obey pr) n) ∧
  (∀ opts opts', obey_flags opts = obey_flags opts' →
     length (apply h F word inverse opts n) = length (apply h F word inverse opts' n)).
Proof.
  split_and!.
  - intros wts. unfold apply, yielded.
    rewrite (run_options h F inverse (mkOptions false tok obey pr)
               (mkOptions wts tok obey pr)) by done.
    rewrite <- list_fmap_compose. apply list_fmap_ext. intros i it _.
    unfold yield_value. cbn [weights tokenize_outputs print_flags compose].
    by destruct wts.
  - intros wts. unfold apply, yielded.
    rewrite (run_options h F inverse (mkOptions wts false obey pr)
               (mkOptions wts tok obey pr)) by done.
    rewrite <- list_fmap_compose. apply list_fmap_ext. intros i it _.
    unfold yield_value. cbn [weights tokenize_outputs print_flags compose].
    by destruct wts, tok.
  - intros opts opts' Hobey. unfold apply, yielded.
    rewrite !length_fmap. by rewrite (run_options h F inverse opts opts').
Qed.

Lemma foldl_ext_elem {A B} (f g : A → B → A) (a : A) (l : list B) :
  (∀ a b, b ∈ l → f a b = g a b) → foldl f a l = foldl g a l.
Proof.
  revert a. induction l as [|b l IH]; intros a Hfg; [done|].
  cbn [foldl]. rewrite Hfg by left. apply IH. intros a' b' Hb'. apply Hfg. by right.
Qed.

Lemma expand_single_member h F w it sid c :
  single_member_labels h →
  expand h F false w it sid c = expand h F true w it sid c.
Proof.
  intros Hsingle. unfold expand. destruct (hstates h !! sid) as [st|] eqn:Hst; [|done].
  apply foldl_ext_elem. intros c' [L t] Hin.
  apply elem_of_all_transitions in Hin as (b & r & Hb & _).
  assert (ltail L = []) as Htail.
  { apply (Hsingle sid st L Hst). apply list_elem_of_fmap. by exists (L, b). }
  unfold push_transition, IN, OUT, label_first, label_last. by rewrite Htail.
Qed.

(** X15 — on an automaton all of whose labels have a single member (an
    acceptor), [generate] and [analyze] yield the same results in the same
    order for every word and every option setting. *)
Theorem generate_analyze_acceptor h F :
  single_member_labels h →
  ∀ word opts n, generate h F word opts n = analyze h F word opts n.
Proof.
  intros Hsingle word opts n. unfold generate, analyze, apply, yielded. f_equal.
  f_equal. generalize (start F). induction n as [|n IH]; intros c; [done|].
  cbn [run]. assert (step h F false opts (tokenize_against_alphabet F word) c
                     = step h F true opts (tokenize_against_alphabet F word) c) as ->.
  { unfold step. destruct (heappop c.1) as [[it Q']|]; [|done].
    destruct (accepts F opts _ it); [done|].
    destruct (state it) as [sid|]; [|done]. by rewrite expand_single_member. }
  destruct (step h F true opts _ c) as [[[it yld] c']|]; [|done].
  by rewrite IH.
Qed.

End apply_options.

Section unknown_symbols.
Context {W : Type} `{!Weight W} {FL : Flags}.
Variable h : Heap W.
Variable F : FST.
Variable inverse : bool.
Variable opts : Options.
Variable w : list string.
Implicit Types (it x : Item W) (c : Config W) (Q : list (Item W)).

Lemma heappop_elems Q m R : heappop Q = Some (m, R) → ∀ x, x ∈ m :: R → x ∈ Q.
Proof.
  revert m R. induction Q as [|y Q IH]; intros m R; cbn [heappop]; [done|].
  destruct (heappop Q) as [[m' R']|] eqn:E.
  - specialize (IH m' R' eq_refl).
    destruct (item_lt m' y); intros [= <- <-] x Hx.
    + apply elem_of_cons in Hx as [->|Hx]; [right; apply IH; left|].
      apply elem_of_cons in Hx as [->|Hx]; [left | right; apply IH; by right].
    + done.
  - intros [= <- <-] x Hx. apply elem_of_cons in Hx as [->|Hx]; [left|].
    by apply elem_of_nil in Hx.
Qed.

(** the position of the first token outside the alphabet is never passed *)
Variable k : nat.
Variable tok : string.
Hypothesis Htok : w !! k = Some tok.
Hypothesis Hunknown : tok ∉ alphabet F.
Hypothesis Hnodot : no_input_symbol h inverse ".".

Local Abbreviation held x := (0 ≤ - negpos x ≤ Z.of_nat k)%Z.

Lemma transition_data_held it L t s st b d :
  hstates h !! s = Some st → (L, b) ∈ transitions st →
  held it →
  transition_data F inverse w it (L, t) = Some d →
  (0 ≤ - d.1.1.2 ≤ Z.of_nat k)%Z.
Proof.
  intros Hst Hb Hit. unfold transition_data. cbn [fst snd].
  destruct (bool_decide (IN inverse L = "") || is_flag (IN inverse L)).
  { intros [= <-]. cbn. lia. }
  destruct (- negpos it <? Z.of_nat (length w))%Z eqn:Hlt; [|done].
  case_bool_decide as Hnext; [|done]. intros [= <-]. cbn [fst snd].
  destruct (decide (- negpos it = Z.of_nat k)%Z) as [Heq|Hne]; [|lia].
  exfalso. rewrite Heq, Nat2Z.id, Htok in Hnext. cbn [default] in Hnext.
  rewrite bool_decide_eq_false_2 in Hnext by done.
  apply (Hnodot s st L Hst); [|done]. apply list_elem_of_fmap. by exists (L, b).
Qed.

Lemma expand_held it sid c :
  held it → (∀ x, x ∈ c.1 → held x) →
  ∀ x, x ∈ (expand h F inverse w it sid c).1 → held x.
Proof.
  intros Hit Hc x. rewrite expand_eq, elem_of_foldl_push_data.
  intros [Hx|(j & d & Hj & Hd & _)]; [by apply Hc|].
  apply list_elem_of_lookup_2 in Hj. unfold expand_data in Hj.
  destruct (hstates h !! sid) as [st|] eqn:Hst; [|by apply elem_of_nil in Hj].
  assert (negpos x = d.1.1.2) as -> by (by rewrite <- Hd).
  apply elem_of_app in Hj as [Hj|Hj].
  - case_bool_decide; [|by apply elem_of_nil in Hj].
    apply list_elem_of_singleton in Hj as ->. cbn. lia.
  - apply list_elem_of_omap in Hj as ([L t] & Hin & Hd').
    apply elem_of_all_transitions in Hin as (b & r & Hb & _).
    by eapply transition_data_held.
Qed.

Lemma held_not_accepted it : held it → accepts F opts w it = false.
Proof.
  intros Hit. unfold accepts. apply lookup_lt_Some in Htok.
  rewrite (bool_decide_eq_false_2 (- negpos it = Z.of_nat (length w))%Z) by lia.
  by rewrite andb_false_r.
Qed.

Lemma run_held n c :
  (∀ x, x ∈ c.1 → held x) → (run h F inverse opts w n c).1 = [].
Proof.
  revert c. induction n as [|n IH]; intros c Hc; [done|].
  cbn [run]. unfold step. destruct (heappop c.1) as [[it Q']|] eqn:Hpop; [|done].
  pose proof (heappop_elems _ _ _ Hpop) as Helems.
  assert (held it) as Hit by (apply Hc, Helems; left).
  assert (∀ x, x ∈ Q' → held x) as HQ' by (intros x Hx; apply Hc, Helems; by right).
  rewrite (held_not_accepted it Hit).
  destruct (state it) as [sid|].
  - specialize (IH (expand h F inverse w it sid (Q', c.2))).
    destruct (run h F inverse opts w n _) as [ys c'']. cbn [fst app] in *.
    apply IH. by apply expand_held.
  - specialize (IH (Q', c.2)). destruct (run h F inverse opts w n _) as [ys c''].
    cbn [fst app] in *. by apply IH.
Qed.

End unknown_symbols.

Section unknown_symbol_theorem.
Context {W : Type} `{!Weight W} {FL : Flags}.

(** X16 — a word with a token that is not in the alphabet can only be
    matched through the wildcard: when no label of the automaton has [.]
    on its input side (its first member for [generate], its last for
    [analyze]), [apply] yields nothing for such a word. *)
Theorem unknown_symbol_needs_wildcard (h : Heap W) (F : FST) (inverse : bool)
    (word tok : string) :
  no_input_symbol h inverse "." →
  tok ∈ tokenize_against_alphabet F word →
  tok ∉ alphabet F →
  ∀ opts n, apply h F word inverse opts n = [].
Proof.
  intros Hnodot Hin Hunknown opts n.
  apply list_elem_of_lookup in Hin as [k Hk].
  unfold apply, yielded.
  rewrite (run_held h F inverse opts _ k tok Hk Hunknown Hnodot); [done|].
  intros x Hx. cbn in Hx. apply list_elem_of_singleton in Hx as ->. cbn. lia.
Qed.

End unknown_symbol_theorem.

Lemma generate_analyze_acceptor_witness :
  single_member_labels (acceptor "a").1 ∧
  generate (FL := no_flags) (acceptor "a").1 (acceptor "a").2 "a" default_options 3
    = analyze (FL := no_flags) (acceptor "a").1 (acceptor "a").2 "a" default_options 3.
Proof.
  assert (single_member_labels (acceptor "a").1) as Hsingle.
  { intros s st L Hst HL. destruct s as [|[|s]]; vm_compute in Hst; simplify_eq.
    - apply list_elem_of_singleton in HL. by subst.
    - by apply elem_of_nil in HL. }
  split; [exact Hsingle|].
  exact (generate_analyze_acceptor (FL := no_flags) (acceptor "a").1 (acceptor "a").2
           Hsingle "a" default_options 3).
Defined.

Lemma unknown_symbol_needs_wildcard_witness :
  no_input_symbol (acceptor "a").1 false "." ∧
  apply (FL := no_flags) (acceptor "a").1 (acceptor "a").2 "ab" false default_options 5
    = [].
Proof.
  assert (no_input_symbol (acceptor "a").1 false ".") as Hnodot.
  { intros s st L Hst HL. destruct s as [|[|s]]; vm_compute in Hst; simplify_eq.
    - apply list_elem_of_singleton in HL. by subst.
    - by apply elem_of_nil in HL. }
  split; [exact Hnodot|].
  apply (unknown_symbol_needs_wildcard (FL := no_flags) (acceptor "a").1
           (acceptor "a").2 false "ab" "b" Hnodot).
  - apply (bool_decide_unpack _). vm_compute. exact I.
  - apply (bool_decide_unpack _). vm_compute. exact I.
Defined.

Section apply_soundness.
Context {W : Type} `{!Weight W} {FL : Flags}.
Variable h : Heap W.
Variable F : FST.
Variable inverse : bool.
Variable opts : Options.
Variable w : list string.
Implicit Types (it x : Item W) (c : Config W) (Q : list (Item W)).

Lemma transition_data_tracked it sid st L t d x :
  tracked h F inverse w it → state it = Some sid →
  hstates h !! sid = Some st → (L, t) ∈ all_transitions (htrans h) st →
  transition_data F inverse w it (L, t) = Some d →
  item_data x = d → tracked h F inverse w x.
Proof.
  intros [Hneg Hit] Hsid Hst Hin Hd Hx. rewrite Hsid in Hit.
  destruct Hit as (p & Hwalk & Hcons). unfold transition_data in Hd. cbn [fst snd] in Hd.
  unfold item_data in Hx. destruct d as [[[dc dn] dout] dst].
  injection Hx as Hxc Hxn Hxo Hxs.
  destruct (bool_decide (IN inverse L = "") || is_flag (IN inverse L)) eqn:Heps.
  - injection Hd as <- <- <- <-. unfold tracked. rewrite Hxn, Hxs. split; [lia|].
    exists (p ++ [L]). rewrite Hxc, Hxo. split.
    + by eapply walk_snoc.
    + apply consumes_epsilon; [done|].
      apply orb_true_iff in Heps as [?%bool_decide_eq_true|?]; [by left | by right].
  - apply orb_false_iff in Heps as [Hne%bool_decide_eq_false Hflag].
    destruct (- negpos it <? Z.of_nat (length w))%Z eqn:Hlt; [|done].
    apply Z.ltb_lt in Hlt.
    case_bool_decide as Hnext; [|done]. injection Hd as <- <- <- <-.
    unfold tracked. rewrite Hxn, Hxs. split; [lia|].
    exists (p ++ [L]). rewrite Hxc, Hxo. split; [by eapply walk_snoc|].
    assert (Z.to_nat (- negpos it) < length w) as Hpos by lia.
    apply lookup_lt_is_Some_2 in Hpos as [tok Htok].
    rewrite Htok in Hnext |- *. cbn [default] in Hnext |- *.
    replace (Z.to_nat (- (negpos it - 1))) with (S (Z.to_nat (- negpos it))) by lia.
    rewrite Hnext. by apply consumes_symbol.
Qed.

Lemma expand_tracked it sid c :
  tracked h F inverse w it → state it = Some sid →
  (∀ x, x ∈ c.1 → tracked h F inverse w x) →
  ∀ x, x ∈ (expand h F inverse w it sid c).1 → tracked h F inverse w x.
Proof.
  intros Hit Hsid Hc x. rewrite expand_eq, elem_of_foldl_push_data.
  intros [Hx|(j & d & Hj & Hd & _)]; [by apply Hc|].
  apply list_elem_of_lookup_2 in Hj. unfold expand_data in Hj.
  destruct (hstates h !! sid) as [st|] eqn:Hst; [|by apply elem_of_nil in Hj].
  apply elem_of_app in Hj as [Hj|Hj].
  - case_bool_decide as Hfin; [|by apply elem_of_nil in Hj].
    apply list_elem_of_singleton in Hj as ->.
    destruct Hit as [Hneg Hit]. rewrite Hsid in Hit. destruct Hit as (p & Hwalk & Hcons).
    unfold item_data in Hd. injection Hd as Hxc Hxn Hxo Hxs.
    unfold tracked. rewrite Hxn, Hxs.
    split; [done|]. exists p, sid, st, (cost it). by rewrite Hxc, Hxo.
  - apply list_elem_of_omap in Hj as ([L t] & Hin & Hd').
    by eapply transition_data_tracked.
Qed.

Lemma run_tracked n c y :
  (∀ x, x ∈ c.1 → tracked h F inverse w x) →
  y ∈ (run h F inverse opts w n c).1 →
  tracked h F inverse w y ∧ accepts F opts w y = true.
Proof.
  revert c. induction n as [|n IH]; intros c Hc Hy; [by apply elem_of_nil in Hy|].
  cbn [run] in Hy. unfold step in Hy.
  destruct (heappop c.1) as [[it Q']|] eqn:Hpop; [|by apply elem_of_nil in Hy].
  pose proof (heappop_elems _ _ _ Hpop) as Helems.
  assert (tracked h F inverse w it) as Hit by (apply Hc, Helems; left).
  assert (∀ x, x ∈ Q' → tracked h F inverse w x) as HQ'
    by (intros x Hx; apply Hc, Helems; by right).
  destruct (accepts F opts w it) eqn:Hacc.
  - destruct (run h F inverse opts w n (Q', c.2)) as [ys c''] eqn:Hrun.
    cbn [fst app] in Hy. apply elem_of_cons in Hy as [->|Hy]; [done|].
    apply (IH (Q', c.2)); [done|]. by rewrite Hrun.
  - destruct (state it) as [sid|] eqn:Hsid.
    + destruct (run h F inverse opts w n _) as [ys c''] eqn:Hrun.
      cbn [fst app] in Hy.
      apply (IH (expand h F inverse w it sid (Q', c.2))); [|by rewrite Hrun].
      by apply expand_tracked.
    + destruct (run h F inverse opts w n _) as [ys c''] eqn:Hrun.
      cbn [fst app] in Hy. apply (IH (Q', c.2)); [done|]. by rewrite Hrun.
Qed.

(** X22 — [apply] never yields a result that is not backed by a path:
    every entry it yields comes from a walk from the initial state to a
    final state whose labels read exactly the tokens of the word (epsilon
    and flag labels reading nothing, [.] standing for a token outside the
    alphabet) and produce the entry's output; the entry's cost is the sum
    of the weights along the walk plus the final weight; and with
    [obey_flags] the output has passed the flag filter. *)
Theorem apply_yields_only_paths (n : nat) (y : Item W) :
  y ∈ yielded h F inverse opts w n →
  (∃ p s st wsum,
     walk h (initialstate F) s wsum p ∧ s ∈ finalstates F ∧
     hstates h !! s = Some st ∧ cost y = wadd wsum (finalweight st) ∧
     consumes F inverse w p (length w) (output y)) ∧
  (obey_flags opts = true → flag_filter (alphabet F) (output y) = true).
Proof.
  intros Hy. unfold yielded in Hy.
  apply run_tracked in Hy as [[Hneg Htr] Hacc].
  2: { intros x Hx. cbn in Hx. apply list_elem_of_singleton in Hx as ->.
       split; [done|]. cbn. exists []. split; constructor. }
  unfold accepts in Hacc. apply andb_true_iff in Hacc as [Hacc Hflags].
  apply andb_true_iff in Hacc as [Hnone%bool_decide_eq_true Hpos%bool_decide_eq_true].
  rewrite Hnone in Htr. destruct Htr as (p & s & st & wsum & Hwalk & Hfin & Hst & Hc & Hcons).
  split.
  - exists p, s, st, wsum. split_and!; [done..|].
    replace (length w) with (Z.to_nat (- negpos y)) by lia. done.
  - intros Hobey. rewrite Hobey in Hflags. done.
Qed.

End apply_soundness.

Lemma apply_yields_only_paths_witness :
  mkItem 1%Z (-1)%Z 3 ["x"] None
    ∈ yielded (FL := no_flags) cost_fst.1 cost_fst.2 false default_options ["a"] 10 ∧
  flag_filter (Flags := no_flags) (alphabet cost_fst.2) ["x"] = true.
Proof.
  assert (mkItem 1%Z (-1)%Z 3 ["x"] None
            ∈ yielded (FL := no_flags) cost_fst.1 cost_fst.2 false default_options
                ["a"] 10) as Hy.
  { vm_compute. left. }
  split; [exact Hy|].
  exact (proj2 (apply_yields_only_paths (FL := no_flags) cost_fst.1 cost_fst.2 false
                  default_options ["a"] 10 _ Hy) eq_refl).
Defined.

(** ** The single-label transducer *)

Section label_shape.
Context {W : Type} `{!Weight W}.

(** the store and the automaton built by [FST(label = l, weight = wt)] for
    a label other than [('',)] *)
Lemma FST_init_label (h : Heap W) (l : Label) (wt : W) (alph : list string) :
  l ≠ L1 "" →
  FST_init h (Some l) wt alph =
    (mkHeap (hstates h ++
               [mkState [(l, [length (htrans h)])] None None winf None;
                mkState [] None None wt None])
            (htrans h ++ [mkTransition (S (length (hstates h))) l w0]),
     mkFST (remove_dups (label_symbols l)) (length (hstates h))
           [length (hstates h); S (length (hstates h))]
           [S (length (hstates h))]).
Proof.
  intros Hl. unfold FST_init, new_State. cbn [hstates htrans].
  rewrite decide_False by done.
  unfold heap_set_finalweight, heap_add_transition. cbn [hstates htrans].
  rewrite alter_snoc, <- app_assoc. cbn [app].
  rewrite list_lookup_middle by done.
  unfold add_transition. cbn [State_init transitions dict_set dict_get_or dict_get
    default list_union list_difference app set_transitions _transitionsin
    _transitionsout finalweight name set_finalweight].
  rewrite insert_middle, length_app. cbn [length]. rewrite Nat.add_1_r.
  destruct (decide_rel elem_of (length (hstates h)) [S (length (hstates h))])
    as [Hin%list_elem_of_singleton|_]; [lia|].
  reflexivity.
Qed.

(** a word that is itself an alphabet symbol is one token *)
Lemma lmt_whole_symbol alph x ts :
  x ≠ "" → x ∈ alph → longest_match_tokens alph x ts → ts = [x].
Proof.
  intros Hx Hin Hts. apply (longest_match_tokens_unique alph x); [done|].
  rewrite <- (str_app_nil_r x) at 1. apply lmt_symbol; [done | done | | constructor].
  intros p q Hp Heq. apply (f_equal String.length) in Heq.
  rewrite !str_length_app in Heq. simpl in Heq. lia.
Qed.

End label_shape.

Section label_run.
Context {W : Type} `{!Weight W} {FL : Flags}.
Variable h : Heap W.
Variable F : FST.
Variable l : Label.
Variables a b : string.
Variables init target r : nat.
Variables s0 s1 : State W.
Variable inverse : bool.
Variable opts : Options.

Hypothesis Hin : IN inverse l = a.
Hypothesis Hout : OUT inverse l = b.
Hypothesis Hinit : initialstate F = init.
Hypothesis Hfin : finalstates F = [target].
Hypothesis Halph : a ∈ alphabet F.
Hypothesis Hs0 : hstates h !! init = Some s0.
Hypothesis Htr0 : transitions s0 = [(l, [r])].
Hypothesis Hs1 : hstates h !! target = Some s1.
Hypothesis Htr1 : transitions s1 = [].
Hypothesis Ht : htrans h !! r = Some (mkTransition target l w0).
Hypothesis Hne : init ≠ target.
Hypothesis Ha : a ≠ "".
Hypothesis Hdot : a ≠ ".".
Hypothesis Hflag : is_flag a = false.

Lemma label_all_transitions :
  all_transitions (htrans h) s0 = [(l, mkTransition target l w0)].
Proof. unfold all_transitions. rewrite Htr0. simpl. by rewrite Ht. Qed.

(** from the initial state only the token [a] can be read, and [b] is
    written *)
Lemma label_first_data (w : list string) (it : Item W) :
  negpos it = 0%Z →
  expand_data h F inverse w it init =
    match w with
    | tok :: _ =>
        if decide (tok = a)
        then [(wadd (cost it) w0, (-1)%Z, output it ++ [b], Some target)]
        else []
    | [] => []
    end.
Proof.
  intros Hnp. unfold expand_data. rewrite Hs0, Hfin, label_all_transitions.
  rewrite bool_decide_eq_false_2 by (intros ?%list_elem_of_singleton; done).
  cbn [app omap list_omap]. unfold transition_data. cbn [fst snd weight targetstate].
  rewrite Hin, Hout, Hflag, Hnp.
  rewrite bool_decide_eq_false_2 by done. cbn [orb].
  destruct w as [|tok rest]; [done|].
  cbn [length]. replace (- 0 <? Z.of_nat (S (length rest)))%Z with true
    by (symmetry; apply Z.ltb_lt; lia).
  change (default "" ((tok :: rest) !! Z.to_nat (- 0))) with tok.
  destruct (decide (tok = a)) as [->|Htok].
  - rewrite (bool_decide_eq_true_2 (a ∈ alphabet F)) by done.
    rewrite (bool_decide_eq_false_2 (a = ".")) by done.
    rewrite (bool_decide_eq_true_2 (a = a)) by done. done.
  - destruct (bool_decide (tok ∈ alphabet F)).
    + rewrite (bool_decide_eq_false_2 (tok = a)) by done. done.
    + rewrite (bool_decide_eq_false_2 ("." = a)) by done. done.
Qed.

(** in the final state the path can only stop *)
Lemma label_final_data (w : list string) (it : Item W) :
  expand_data h F inverse w it target =
    [(wadd (cost it) (finalweight s1), negpos it, output it, None)].
Proof.
  unfold expand_data. rewrite Hs1, Hfin. unfold all_transitions. rewrite Htr1.
  rewrite bool_decide_eq_true_2 by left. done.
Qed.

(** the three rounds of the loop on the two-state transducer *)
Lemma label_run (w : list string) :
  let finished := mkItem (wadd (wadd w0 w0) (finalweight s1)) (-1)%Z 2 [b] None in
  (run h F inverse opts w 3 (start F)).2.1 = [] ∧
  (run h F inverse opts w 3 (start F)).1 =
    if bool_decide (w = [a]) && accepts F opts w finished then [finished] else [].
Proof.
  intros finished. unfold start, push, heappush. cbn [fst snd]. rewrite Hinit.
  rewrite run_S, step_singleton. cbn [state].
  rewrite (accepts_unfinished _ _ _ _ init) by done.
  rewrite expand_eq, label_first_data by done. cbn [cost output app].
  destruct w as [|tok rest].
  { cbn [foldl]. rewrite run_S, step_empty. done. }
  destruct (decide (tok = a)) as [->|Htok].
  2:{ cbn [foldl]. rewrite run_S, step_empty. cbn [fst snd app].
      rewrite bool_decide_eq_false_2 by (intros ?; simplify_eq). done. }
  cbn [foldl]. unfold push_data, push, heappush. cbn [fst snd].
  rewrite run_S, step_singleton. cbn [state].
  rewrite (accepts_unfinished _ _ _ _ target) by done.
  rewrite expand_eq, label_final_data. cbn [cost output negpos foldl].
  unfold push_data, push, heappush. cbn [fst snd].
  rewrite run_S, step_singleton. fold finished.
  destruct (accepts F opts (a :: rest) finished) eqn:Hacc.
  - cbn [run fst snd app]. split; [done|].
    rewrite bool_decide_eq_true_2; [done|].
    pose proof (accepts_negpos _ _ _ _ Hacc) as Hn. cbn in Hn.
    destruct rest; [done | cbn in Hn; lia].
  - cbn [state run fst snd app]. split; [done|]. by rewrite andb_false_r.
Qed.

End label_run.

Section transducer_theorem.
Context {W : Type} `{!Weight W} `{!WeightLaws W} {FL : Flags}.

(** X23 — the transducer built by [FST(label = (i, o))] maps [i] to [o]
    and back: [generate(i)] runs to completion with the single result [o]
    of cost 0 and yields nothing for any other word, and [analyze(o)] runs
    to completion with the single result [i] and yields nothing for any
    other word; this holds for a symbol on the reading side that is neither
    empty, nor the wildcard [.], nor a flag diacritic, and a symbol on the
    writing side that is not a flag diacritic. *)
Theorem pair_label_transducer (h : Heap W) (i o : string) (alph : list string)
    (opts : Options) (inverse : bool) :
  let a := if inverse then o else i in
  let b := if inverse then i else o in
  a ≠ "" → a ≠ "." → is_flag a = false → is_flag b = false →
  (∀ al out, Forall (λ s, is_flag s = false) out → flag_filter al out = true) →
  let hF := FST_init h (Some (L2 i o)) w0 alph in
  let yield_output := if tokenize_outputs opts then Tokens [b] else Joined b in
  let result :=
    if weights opts then Weighted yield_output w0 else Plain yield_output in
  ∀ n, 3 ≤ n →
    apply_all hF.1 hF.2 a inverse opts n = Some [result] ∧
    ∀ word, word ≠ a → apply_all hF.1 hF.2 word inverse opts n = Some [].
Proof.
  intros a b Ha Hdot Hflag Hflagb Hff hF yield_output result n Hn.
  subst hF. rewrite FST_init_label by done. cbn [fst snd].
  set (h' := mkHeap _ _). set (F := mkFST _ _ _ _).
  set (s1 := mkState [] None None w0 None).
  set (s0 := mkState [(L2 i o, [length (htrans h)])] None None winf None).
  assert (hstates h' !! S (length (hstates h)) = Some s1) as Hs1.
  { subst h'. cbn [hstates]. rewrite lookup_app_r by lia.
    by replace (S (length (hstates h)) - length (hstates h)) with 1 by lia. }
  assert (IN inverse (L2 i o) = a) as Hin by (subst a; by destruct inverse).
  assert (OUT inverse (L2 i o) = b) as Hout by (subst b; by destruct inverse).
  assert (a ∈ alphabet F) as Halph.
  { subst F a. cbn [alphabet]. apply elem_of_remove_dups. cbn.
    destruct inverse; [right; left | left]. }
  assert (∀ word,
    apply_all h' F word inverse opts n =
      Some (if bool_decide (tokenize_against_alphabet F word = [a])
            then [result] else [])) as Hrun.
  { intros word.
    destruct (label_run h' F (L2 i o) a b (length (hstates h)) (S (length (hstates h)))
                (length (htrans h)) s0 s1 inverse opts Hin Hout eq_refl eq_refl Halph
                (list_lookup_middle _ _ _ _ eq_refl) eq_refl Hs1 eq_refl
                (list_lookup_middle _ _ _ _ eq_refl) ltac:(lia) Ha Hdot Hflag
                (tokenize_against_alphabet F word)) as [Hdone Hys].
    rewrite (apply_all_done _ _ _ _ _ 3 n Hdone) by lia. rewrite Hys. f_equal.
    destruct (bool_decide (tokenize_against_alphabet F word = [a])) eqn:Htok;
      [|done].
    apply bool_decide_eq_true in Htok. rewrite Htok. cbn [andb].
    unfold accepts. cbn [state negpos output finalweight cost length].
    rewrite (Hff _ [b]) by (by repeat constructor).
    rewrite orb_true_r, andb_true_r, !bool_decide_eq_true_2 by done.
    cbn [andb fmap list_fmap]. unfold yield_value. cbn [output cost finalweight s1].
    rewrite !wadd_0_0.
    subst result yield_output. unfold filter_flags. cbn [List.filter].
    rewrite Hflagb. cbn [negb]. by destruct (print_flags opts). }
  split.
  - rewrite Hrun. rewrite bool_decide_eq_true_2; [done|].
    apply (lmt_whole_symbol (alphabet F)); [done | done |].
    apply (tokenize_against_alphabet_spec F a).
  - intros word Hword. rewrite Hrun. rewrite bool_decide_eq_false_2; [done|].
    intros Htok. apply Hword.
    pose proof (tokenize_against_alphabet_spec F word) as Hspec.
    rewrite Htok in Hspec. by apply lmt_singleton_inv in Hspec.
Qed.

End transducer_theorem.

Lemma pair_label_transducer_witness :
  "b" ≠ "." ∧
  apply_all (FL := no_flags) (FST_init empty_heap (Some (L2 "a" "b")) 0%Z []).1
    (FST_init empty_heap (Some (L2 "a" "b")) 0%Z []).2 "b" true default_options 3
    = Some [Plain (Joined "a")].
Proof.
  assert ("b" ≠ ".") as Hdot by discriminate.
  split; [exact Hdot|].
  refine (proj1 (pair_label_transducer (W := Z) (FL := no_flags) empty_heap "a" "b" []
                   default_options true _ Hdot _ _ _ 3 _)).
  - discriminate.
  - reflexivity.
  - reflexivity.
  - intros al out _. reflexivity.
  - lia.
Defined.

(** ** Further properties of the grammar compiler *)

Section rlg_success.
Context {W : Type} `{!Weight W}.
Variable scan : string → list string.
Implicit Types (h : Heap W) (F : FST) (sd : list (string * nat))
  (grammar : Grammar W) (rule : Rule W).

Lemma compile_rule_succeeds sd lexstate h F rule src :
  statedict_valid sd h →
  dict_get sd lexstate = Some src →
  (has_position scan rule → rule_target rule ∈ dict_keys sd) →
  ∃ h' F', compile_rule scan sd lexstate (inr (h, F)) rule = inr (h', F').
Proof.
  intros Hv Hsrc Htarget. destruct (Hv _ _ Hsrc) as (s_src & Hs & _).
  unfold has_position in *.
  destruct (decide (0 < max (length (rule_i scan rule)) (length (rule_o scan rule))))
    as [Hn|Hn].
  - specialize (Htarget Hn).
    destruct (dict_get sd (rule_target rule)) as [ts|] eqn:Hts.
    2: { by apply dict_get_None in Hts. }
    destruct (compile_rule_spec scan sd lexstate rule h F src ts s_src Hsrc Hs Hts)
      as (h' & F' & Hc & _).
    by exists h', F'.
  - unfold compile_rule. cbn [mbind Exc_bind].
    unfold dict_lookup. rewrite Hsrc. cbn [mbind Exc_bind]. cbv zeta.
    replace (max (length (rule_i scan rule)) (length (rule_o scan rule))) with 0
      by lia.
    cbn. by eexists _, _.
Qed.

Lemma foldl_compile_rule_succeeds sd lexstate (rules : list (Rule W)) h F src :
  statedict_valid sd h →
  dict_get sd lexstate = Some src →
  (∀ rule, rule ∈ rules → has_position scan rule → rule_target rule ∈ dict_keys sd) →
  ∃ hF, foldl (compile_rule scan sd lexstate) (inr (h, F)) rules = inr hF.
Proof.
  revert h F. induction rules as [|r rules IH]; intros h F Hv Hsrc Hall.
  - by exists (h, F).
  - cbn [foldl].
    destruct (compile_rule_succeeds sd lexstate h F r src Hv Hsrc) as (h1 & F1 & Hc).
    { apply Hall. left. }
    rewrite Hc. apply IH; [|done|].
    + eapply statedict_valid_extends; [|done].
      apply (compile_rule_grows scan _ _ _ _ _ _ _ Hv Hc).
    + intros rule Hin. apply Hall. by right.
Qed.

Lemma foldl_compile_ruleset_succeeds grammar sd (names : list string) h F :
  statedict_valid sd h →
  (∀ nm, nm ∈ names → nm ∈ dict_keys sd ∧ nm ∈ dict_keys grammar) →
  (∀ nm rules rule, nm ∈ names → dict_get grammar nm = Some rules → rule ∈ rules →
     has_position scan rule → rule_target rule ∈ dict_keys sd) →
  ∃ hF, foldl (compile_ruleset scan grammar sd) (inr (h, F)) names = inr hF.
Proof.
  revert h F. induction names as [|nm names IH]; intros h F Hv Hnames Hall.
  - by exists (h, F).
  - cbn [foldl]. destruct (Hnames nm) as [Hsd Hgr]; [left|].
    destruct (dict_get sd nm) as [src|] eqn:Hsrc.
    2: { by apply dict_get_None in Hsrc. }
    destruct (dict_get grammar nm) as [rules|] eqn:Hrules.
    2: { by apply dict_get_None in Hrules. }
    destruct (foldl_compile_rule_succeeds sd nm rules h F src Hv Hsrc) as [[h1 F1] Hc].
    { intros rule Hin. apply (Hall nm rules rule); [left | done | done]. }
    assert (compile_ruleset scan grammar sd (inr (h, F)) nm = inr (h1, F1)) as ->.
    { unfold compile_ruleset. cbn [mbind Exc_bind]. unfold dict_lookup.
      by rewrite Hrules. }
    apply IH.
    + eapply statedict_valid_extends; [|done].
      apply (foldl_compile_rule_grows scan _ _ _ _ _ _ Hv Hc).
    + intros nm' Hin. apply Hnames. by right.
    + intros nm' rules' rule Hin. apply Hall. by right.
Qed.

(** X17 — [rlg] returns an automaton exactly when the start symbol is a
    key of the grammar or [#], and every rule that has at least one token
    position and stands in a rule-set other than [#] continues to a key of
    the grammar or to [#]; in every other case it raises [KeyError]. *)
Theorem rlg_compiles_iff (h0 : Heap W) grammar (startsymbol : string) :
  (∃ hF, rlg scan h0 grammar startsymbol = inr hF) ↔
  declared grammar startsymbol ∧
  ∀ lexstate rules rule,
    dict_get grammar lexstate = Some rules → rule ∈ rules → lexstate ≠ "#" →
    has_position scan rule → declared grammar (rule_target rule).
Proof.
  unfold rlg, declared. destruct (FST_init h0 None w0 []) as [h1 newfst].
  destruct (make_statedict h1 (list_union (dict_keys grammar) ["#"]))
    as [h2 sd] eqn:Hsd.
  assert (∀ k, k ∈ dict_keys sd ↔ k ∈ dict_keys grammar ∨ k = "#") as Hkeys.
  { intros k. rewrite <- (make_statedict_keys scan h1 grammar k). by rewrite Hsd. }
  assert (statedict_valid sd h2) as Hv2.
  { pose proof (make_statedict_valid h1 (list_union (dict_keys grammar) ["#"])) as Hv.
    by rewrite Hsd in Hv. }
  assert (∀ lexstate, lexstate ∈ list_difference (dict_keys sd) ["#"] ↔
                      lexstate ∈ dict_keys grammar ∧ lexstate ≠ "#") as Hnames.
  { intros lexstate. rewrite list_elem_of_difference, Hkeys, list_elem_of_singleton.
    tauto. }
  split.
  - intros [hF Hrlg].
    unfold dict_lookup in Hrlg.
    destruct (dict_get sd startsymbol) as [init|] eqn:Hinit; [|done].
    cbn [mbind Exc_bind] in Hrlg.
    destruct (dict_get sd "#") as [final|] eqn:Hfinal; [|done].
    cbn [mbind Exc_bind] in Hrlg. split.
    + apply Hkeys. apply dict_get_Some_elem in Hinit.
      apply list_elem_of_fmap. by exists (startsymbol, init).
    + intros lexstate rules rule Hrules Hrule Hlex Hn.
      assert (statedict_valid sd (heap_set_finalweight h2 final w0)) as Hv3.
      { eapply statedict_valid_extends; [|exact Hv2].
        apply heap_set_finalweight_extends. }
      assert (lexstate ∈ list_difference (dict_keys sd) ["#"]) as Hin.
      { apply Hnames. split; [|done]. apply dict_get_Some_elem in Hrules.
        apply list_elem_of_fmap. by exists (lexstate, rules). }
      destruct (foldl_compile_ruleset_reaches scan grammar sd _ lexstate rules rule
                  _ _ _ Hv3 Hrlg Hin Hrules Hrule)
        as ([hb Fb] & [ha Fa] & _ & Hc & _).
      destruct (compile_rule_inr scan _ _ _ _ _ _ _ Hc) as (src & _ & Hts).
      destruct (Hts Hn) as [ts Hts']. apply Hkeys.
      apply dict_get_Some_elem in Hts'. apply list_elem_of_fmap.
      by exists (rule_target rule, ts).
  - intros [Hstart Hall]. unfold dict_lookup.
    destruct (dict_get sd startsymbol) as [init|] eqn:Hinit.
    2: { apply dict_get_None in Hinit. by apply Hkeys in Hstart. }
    destruct (dict_get sd "#") as [final|] eqn:Hfinal.
    2: { apply dict_get_None in Hfinal. exfalso. apply Hfinal, Hkeys. by right. }
    cbn [mbind Exc_bind].
    apply foldl_compile_ruleset_succeeds.
    + eapply statedict_valid_extends; [|exact Hv2]. apply heap_set_finalweight_extends.
    + intros nm Hnm. apply Hnames in Hnm as [Hgr _]. split; [|done].
      apply Hkeys. by left.
    + intros nm rules rule Hnm Hrules Hrule Hn. apply Hnames in Hnm as [_ Hne].
      apply Hkeys. by apply (Hall nm rules rule).
Qed.

End rlg_success.

Section rlg_shape.
Context {W : Type} `{!Weight W}.
Variable scan : string → list string.
Implicit Types (h : Heap W) (F : FST) (sd : list (string * nat))
  (grammar : Grammar W) (rule : Rule W).

Lemma finalweights_kept_refl h : finalweights_kept h h.
Proof. intros j s Hj. by exists s. Qed.

Lemma finalweights_kept_trans h1 h2 h3 :
  finalweights_kept h1 h2 → finalweights_kept h2 h3 → finalweights_kept h1 h3.
Proof.
  intros H12 H23 j s Hj. destruct (H12 j s Hj) as (s2 & Hj2 & Hf2).
  destruct (H23 j s2 Hj2) as (s3 & Hj3 & Hf3). exists s3. split; [done | congruence].
Qed.

Lemma heap_add_transition_finalweights h src other lbl wt :
  finalweights_kept h (heap_add_transition h src other lbl wt).
Proof.
  unfold heap_add_transition. destruct (hstates h !! src) as [s|] eqn:Hsrc;
    [|apply finalweights_kept_refl].
  cbn [add_transition]. intros j sj Hj. cbn [hstates].
  destruct (decide (j = src)) as [->|Hne].
  - eexists. rewrite list_lookup_insert_eq by by eapply lookup_lt_Some.
    split; [done|]. cbn. congruence.
  - exists sj. by rewrite list_lookup_insert_ne.
Qed.

Lemma position_step_keeps sd rule n h F cur x h' F' cur' :
  position_step sd rule n (inr (h, F, cur)) x = inr (h', F', cur') →
  alphabet F' = alphabet F ∧ initialstate F' = initialstate F ∧
  finalstates F' = finalstates F ∧ finalweights_kept h h'.
Proof.
  destruct x as [[ii oo] idx]. unfold position_step. cbn [mbind Exc_bind].
  unfold position_target. destruct (decide (idx = n - 1)) as [Hlast|Hmid].
  - destruct (dict_lookup sd (rule_target rule)) as [e|ts]; [done|].
    cbn [mbind Exc_bind]. intros [= <- <- <-].
    split_and!; [done | done | done |]. apply heap_add_transition_finalweights.
  - cbn [new_State mbind Exc_bind]. intros [= <- <- <-].
    split_and!; [done | done | done |].
    eapply finalweights_kept_trans; [|apply heap_add_transition_finalweights].
    intros j s Hj. exists s. split; [|done]. cbn [hstates]. by apply lookup_app_l_Some.
Qed.

Lemma foldl_position_step_keeps sd rule n l h F cur h' F' cur' :
  foldl (position_step sd rule n) (inr (h, F, cur)) l = inr (h', F', cur') →
  alphabet F' = alphabet F ∧ initialstate F' = initialstate F ∧
  finalstates F' = finalstates F ∧ finalweights_kept h h'.
Proof.
  revert h F cur. induction l as [|x l IH]; intros h F cur Hfold.
  - cbn in Hfold. simplify_eq. split_and!; [done..|apply finalweights_kept_refl].
  - cbn [foldl] in Hfold.
    destruct (position_step sd rule n (inr (h, F, cur)) x) as [e|[[h1 F1] cur1]] eqn:Hstep.
    { by rewrite foldl_position_step_error in Hfold. }
    destruct (position_step_keeps _ _ _ _ _ _ _ _ _ _ Hstep) as (Ha & Hi & Hf & Hk).
    destruct (IH _ _ _ Hfold) as (Ha' & Hi' & Hf' & Hk').
    split_and!; [congruence..|]. by eapply finalweights_kept_trans.
Qed.

Lemma compile_rule_keeps sd lexstate h F rule h' F' :
  compile_rule scan sd lexstate (inr (h, F)) rule = inr (h', F') →
  alphabet F' = list_union (alphabet F) (rule_symbols scan rule) ∧
  initialstate F' = initialstate F ∧ finalstates F' = finalstates F ∧
  finalweights_kept h h'.
Proof.
  unfold compile_rule. cbn [mbind Exc_bind].
  destruct (dict_lookup sd lexstate) as [e|src]; [done|]. cbn [mbind Exc_bind].
  cbv zeta.
  destruct (foldl _ _ _) as [e|[[h1 F1] cur1]] eqn:Hfold; [done|].
  cbn [mbind Exc_bind]. intros [= <- <-].
  by apply foldl_position_step_keeps in Hfold as (Ha & Hi & Hf & Hk).
Qed.

Lemma foldl_compile_rule_keeps sd lexstate (rules : list (Rule W)) h F h' F' :
  foldl (compile_rule scan sd lexstate) (inr (h, F)) rules = inr (h', F') →
  (∀ sym, sym ∈ alphabet F' ↔
          sym ∈ alphabet F ∨ ∃ rule, rule ∈ rules ∧ sym ∈ rule_symbols scan rule) ∧
  initialstate F' = initialstate F ∧ finalstates F' = finalstates F ∧
  finalweights_kept h h'.
Proof.
  revert h F. induction rules as [|r rules IH]; intros h F Hfold.
  - cbn in Hfold. simplify_eq. split_and!; [|done|done|apply finalweights_kept_refl].
    intros sym. split; [by left|]. by intros [?|(rule & ?%elem_of_nil & _)].
  - cbn [foldl] in Hfold.
    destruct (foldl_compile_rule_inr scan _ _ _ _ _ Hfold) as [[h1 F1] Hstep].
    rewrite Hstep in Hfold.
    destruct (compile_rule_keeps _ _ _ _ _ _ _ Hstep) as (Ha & Hi & Hf & Hk).
    destruct (IH _ _ Hfold) as (Ha' & Hi' & Hf' & Hk').
    split_and!; [|congruence|congruence|by eapply finalweights_kept_trans].
    intros sym. rewrite Ha', Ha, list_elem_of_union. split.
    + intros [[?|?]|(rule & Hin & Hsym)].
      * by left.
      * right. exists r. split; [left | done].
      * right. exists rule. split; [by right | done].
    + intros [?|(rule & Hin & Hsym)]; [left; by left|].
      apply elem_of_cons in Hin as [->|Hin]; [left; by right|].
      right. by exists rule.
Qed.

Lemma foldl_compile_ruleset_keeps grammar sd (names : list string) h F h' F' :
  foldl (compile_ruleset scan grammar sd) (inr (h, F)) names = inr (h', F') →
  (∀ sym, sym ∈ alphabet F' ↔
          sym ∈ alphabet F ∨
          ∃ lexstate rules rule, lexstate ∈ names ∧
            dict_get grammar lexstate = Some rules ∧ rule ∈ rules ∧
            sym ∈ rule_symbols scan rule) ∧
  initialstate F' = initialstate F ∧ finalstates F' = finalstates F ∧
  finalweights_kept h h'.
Proof.
  revert h F. induction names as [|nm names IH]; intros h F Hfold.
  - cbn in Hfold. simplify_eq. split_and!; [|done|done|apply finalweights_kept_refl].
    intros sym. split; [by left|].
    by intros [?|(lexstate & rules & rule & ?%elem_of_nil & _)].
  - cbn [foldl] in Hfold.
    destruct (foldl_compile_ruleset_inr scan _ _ _ _ _ Hfold) as [[h1 F1] Hstep].
    rewrite Hstep in Hfold.
    destruct (compile_ruleset_inr scan _ _ _ _ _ _ Hstep) as (rules & Hrules & Hc).
    destruct (foldl_compile_rule_keeps _ _ _ _ _ _ _ Hc) as (Ha & Hi & Hf & Hk).
    destruct (IH _ _ Hfold) as (Ha' & Hi' & Hf' & Hk').
    split_and!; [|congruence|congruence|by eapply finalweights_kept_trans].
    intros sym. rewrite Ha', Ha. split.
    + intros [[?|(rule & Hin & Hsym)]|(lexstate & rules' & rule & Hin & Hget & Hr & Hsym)].
      * by left.
      * right. exists nm, rules, rule. split_and!; [left | done..].
      * right. exists lexstate, rules', rule. split_and!; [by right | done..].
    + intros [?|(lexstate & rules' & rule & Hin & Hget & Hr & Hsym)]; [left; by left|].
      apply elem_of_cons in Hin as [->|Hin].
      * left. right. exists rule. split; [congruence | done].
      * right. by exists lexstate, rules', rule.
Qed.

Lemma elem_of_rule_symbols rule sym :
  sym ∈ rule_symbols scan rule ↔
  sym ≠ "" ∧ (sym ∈ rule_i scan rule ∨ sym ∈ rule_o scan rule).
Proof.
  unfold rule_symbols. rewrite elem_of_remove_dups, list_elem_of_In, filter_In.
  rewrite <- list_elem_of_In, elem_of_app, negb_true_iff, bool_decide_eq_false. tauto.
Qed.

(** X18 — in the automaton that [rlg] returns, the initial state is the
    state named after the start symbol; the only final state is the state
    named [#], and its final weight is 0.0; every rule-set name has its
    state among the automaton's states; and the alphabet consists exactly
    of the non-empty tokens of the rules that stand in rule-sets other than
    [#] (the empty symbol is never in it). *)
Theorem rlg_automaton_shape (h0 : Heap W) grammar (startsymbol : string)
    (hf : Heap W) (Ff : FST) :
  rlg scan h0 grammar startsymbol = inr (hf, Ff) →
  state_named hf (initialstate Ff) (Some startsymbol) ∧
  (∃ final st, finalstates Ff = [final] ∧ hstates hf !! final = Some st ∧
               name st = Some "#" ∧ finalweight st = w0) ∧
  (∀ nm, declared grammar nm → ∃ s, s ∈ states Ff ∧ state_named hf s (Some nm)) ∧
  (∀ sym, sym ∈ alphabet Ff ↔
          sym ≠ "" ∧
          ∃ lexstate rules rule,
            lexstate ≠ "#" ∧ dict_get grammar lexstate = Some rules ∧ rule ∈ rules ∧
            (sym ∈ rule_i scan rule ∨ sym ∈ rule_o scan rule)).
Proof.
  unfold rlg, declared. intros Hrlg.
  destruct (FST_init h0 None w0 []) as [h1 newfst] eqn:Hinit0.
  assert (alphabet newfst = []) as Hempty.
  { unfold FST_init in Hinit0. cbn in Hinit0. by simplify_eq. }
  destruct (make_statedict h1 (list_union (dict_keys grammar) ["#"]))
    as [h2 sd] eqn:Hsd.
  assert (∀ k, k ∈ dict_keys sd ↔ k ∈ dict_keys grammar ∨ k = "#") as Hkeys.
  { intros k. rewrite <- (make_statedict_keys scan h1 grammar k). by rewrite Hsd. }
  assert (statedict_valid sd h2) as Hv2.
  { pose proof (make_statedict_valid h1 (list_union (dict_keys grammar) ["#"])) as Hv.
    by rewrite Hsd in Hv. }
  unfold dict_lookup in Hrlg.
  destruct (dict_get sd startsymbol) as [init|] eqn:Hinit; [|done].
  cbn [mbind Exc_bind] in Hrlg.
  destruct (dict_get sd "#") as [final|] eqn:Hfinal; [|done].
  cbn [mbind Exc_bind] in Hrlg.
  assert (statedict_valid sd (heap_set_finalweight h2 final w0)) as Hv3.
  { eapply statedict_valid_extends; [|exact Hv2]. apply heap_set_finalweight_extends. }
  pose proof (foldl_compile_ruleset_grows scan _ _ _ _ _ _ Hv3 Hrlg) as (Hext & _ & Hsts).
  destruct (foldl_compile_ruleset_keeps _ _ _ _ _ _ _ Hrlg) as (Ha & Hi & Hf & Hk).
  cbn [fst snd alphabet initialstate finalstates states] in *.
  split_and!.
  - rewrite Hi. eapply state_named_extends; [exact Hext | by apply Hv3].
  - destruct (Hv2 _ _ Hfinal) as (s2 & Hs2 & Hn2).
    assert (hstates (heap_set_finalweight h2 final w0) !! final
            = Some (set_finalweight s2 w0)) as Hs3.
    { cbn [heap_set_finalweight hstates]. rewrite list_lookup_alter_eq. by rewrite Hs2. }
    destruct (Hk _ _ Hs3) as (st & Hst & Hfw).
    destruct (Hext _ _ Hs3) as (st' & Hst' & Hn' & _).
    exists final, st. split_and!; [done | done | | done].
    rewrite Hst in Hst'. simplify_eq. by rewrite Hn'.
  - intros nm Hnm. apply Hkeys in Hnm.
    destruct (dict_get sd nm) as [s|] eqn:Hs; [|by apply dict_get_None in Hs].
    exists s. split.
    + apply Hsts. apply elem_of_remove_dups, list_elem_of_fmap.
      exists (nm, s). split; [done|]. by apply dict_get_Some_elem.
    + eapply state_named_extends; [exact Hext | by apply Hv3].
  - intros sym. rewrite Ha, Hempty. split.
    + intros [?%elem_of_nil|(lexstate & rules & rule & Hin & Hget & Hr & Hsym)]; [done|].
      apply elem_of_rule_symbols in Hsym as [Hne Hio]. split; [done|].
      exists lexstate, rules, rule. split_and!; [|done..].
      apply list_elem_of_difference in Hin as [_ Hin].
      intros ->. apply Hin. left.
    + intros [Hne (lexstate & rules & rule & Hlex & Hget & Hr & Hio)]. right.
      exists lexstate, rules, rule. split_and!; [|done|done|].
      * apply list_elem_of_difference. split.
        -- apply Hkeys. left. apply dict_get_Some_elem in Hget.
           apply list_elem_of_fmap. by exists (lexstate, rules).
        -- by intros ?%list_elem_of_singleton.
      * by apply elem_of_rule_symbols.
Qed.

End rlg_shape.

Lemma rlg_automaton_shape_witness :
  rlg plain_tokens empty_heap ab_grammar "Start" = inr ab_fst ∧
  state_named ab_fst.1 (initialstate ab_fst.2) (Some "Start").
Proof.
  assert (rlg plain_tokens empty_heap ab_grammar "Start" = inr (ab_fst.1, ab_fst.2))
    as Hrlg by reflexivity.
  split; [exact Hrlg|].
  exact (proj1 (rlg_automaton_shape plain_tokens empty_heap ab_grammar "Start"
                  ab_fst.1 ab_fst.2 Hrlg)).
Defined.

(** ** Character ranges and the quoting of multi-character symbols *)

Section add_transition_items.
Context {W : Type} `{!Weight W}.
Implicit Types (th : TStore W) (s : State W) (h : Heap W).

Lemma all_transitions_items th s :
  all_transitions th s = flat_map (bucket_items th) (transitions s).
Proof.
  unfold all_transitions. apply flat_map_ext. by intros [L b].
Qed.

Lemma bucket_items_snoc th tnew L b :
  (∀ r, r ∈ b → r < length th) →
  bucket_items (th ++ [tnew]) (L, b) = bucket_items th (L, b).
Proof.
  intros Hb. unfold bucket_items. cbn [fst snd].
  induction b as [|r b IH]; [done|]. cbn [omap list_omap].
  rewrite lookup_app_l by (apply Hb; left).
  rewrite IH; [done|]. intros r' Hr'. apply Hb. by right.
Qed.

Lemma flat_map_ext_elem {A B} (f g : A → list B) (l : list A) :
  (∀ a, a ∈ l → f a = g a) → flat_map f l = flat_map g l.
Proof.
  induction l as [|a l IH]; intros Hfg; [done|]. cbn [flat_map].
  rewrite Hfg by left. rewrite IH; [done|]. intros a' Ha'. apply Hfg. by right.
Qed.

Lemma flat_map_items_set th tnew (tr : list (Label * list nat)) lbl :
  (∀ L b r, (L, b) ∈ tr → r ∈ b → r < length th) →
  flat_map (bucket_items (th ++ [tnew]))
           (dict_set tr lbl (dict_get_or tr lbl [] ++ [length th]))
    ≡ₚ flat_map (bucket_items th) tr ++ [(lbl, tnew)].
Proof.
  intros Hvalid. induction tr as [|[k v] tr IH].
  - cbn. unfold bucket_items. cbn.
    rewrite lookup_app_r by lia. by rewrite Nat.sub_diag.
  - assert (∀ r, r ∈ v → r < length th) as Hv.
    { intros r Hr. apply (Hvalid k v r); [left | done]. }
    unfold dict_get_or. cbn [dict_set dict_get].
    destruct (decide (k = lbl)) as [->|Hne].
    + cbn [flat_map default]. unfold bucket_items at 1. cbn [fst snd].
      rewrite omap_app. cbn [omap list_omap].
      rewrite lookup_app_r by lia. rewrite Nat.sub_diag. cbn.
      pose proof (bucket_items_snoc th tnew lbl v Hv) as Hsn.
      unfold bucket_items in Hsn. cbn [fst snd] in Hsn. rewrite Hsn.
      assert (flat_map (bucket_items (th ++ [tnew])) tr = flat_map (bucket_items th) tr)
        as ->.
      { apply flat_map_ext_elem. intros [L b] Hin.
        apply bucket_items_snoc. intros r Hr. apply (Hvalid L b r); [by right | done]. }
      rewrite <- !app_assoc. apply Permutation_app_head, Permutation_app_comm.
    + cbn [flat_map]. rewrite bucket_items_snoc by done.
      rewrite <- app_assoc. apply Permutation_app_head.
      apply IH. intros L b r Hin. apply (Hvalid L b r). by right.
Qed.

Lemma add_transition_items th s other lbl wt :
  refs_valid th s →
  all_transitions (add_transition th s other lbl wt).1
                  (add_transition th s other lbl wt).2
    ≡ₚ all_transitions th s ++ [(lbl, mkTransition other lbl wt)].
Proof.
  intros Hvalid. rewrite !all_transitions_items.
  destruct (add_transition_bucket th s other lbl wt Hvalid) as [Hb _].
  cbn [add_transition fst snd set_transitions transitions] in *.
  unfold dict_get_or at 1 in Hb. rewrite dict_get_set_eq in Hb. cbn [default] in Hb.
  unfold id in Hb. rewrite Hb.
  apply flat_map_items_set. by apply refs_valid_alt.
Qed.

Lemma add_labels_spec (labels : list string) h init second s0 :
  hstates h !! init = Some s0 →
  refs_valid (htrans h) s0 →
  htrans (add_labels h init second labels)
    = htrans h ++ ((λ sym, mkTransition second (L1 sym) w0) <$> labels) ∧
  length (hstates (add_labels h init second labels)) = length (hstates h) ∧
  (∀ j, j ≠ init →
        hstates (add_labels h init second labels) !! j = hstates h !! j) ∧
  ∃ s', hstates (add_labels h init second labels) !! init = Some s' ∧
        finalweight s' = finalweight s0 ∧ name s' = name s0 ∧
        all_transitions (htrans (add_labels h init second labels)) s'
          ≡ₚ all_transitions (htrans h) s0
             ++ ((λ sym, (L1 sym, mkTransition second (L1 sym) w0)) <$> labels).
Proof.
  revert h s0. induction labels as [|sym labels IH]; intros h s0 Hs0 Hvalid.
  - cbn. rewrite !app_nil_r. split_and!; [done..|]. by exists s0.
  - unfold add_labels. cbn [foldl]. fold (add_labels (heap_add_transition h init second
      (L1 sym) w0) init second labels).
    set (h1 := heap_add_transition h init second (L1 sym) w0).
    assert (h1 = mkHeap (<[init := (add_transition (htrans h) s0 second (L1 sym) w0).2]>
                           (hstates h))
                        (add_transition (htrans h) s0 second (L1 sym) w0).1) as Hh1.
    { subst h1. unfold heap_add_transition. by rewrite Hs0. }
    assert (hstates h1 !! init
            = Some (add_transition (htrans h) s0 second (L1 sym) w0).2) as Hs1.
    { rewrite Hh1. cbn [hstates].
      apply list_lookup_insert_eq. by eapply lookup_lt_Some. }
    assert (htrans h1 = (add_transition (htrans h) s0 second (L1 sym) w0).1) as Ht1
      by by rewrite Hh1.
    destruct (IH h1 _ Hs1) as (Htr & Hlen & Hother & s' & Hs' & Hfw & Hnm & Hperm).
    { rewrite Ht1. by apply add_transition_refs_valid. }
    split_and!.
    + rewrite Htr, Ht1. cbn [add_transition fst fmap list_fmap].
      by rewrite <- app_assoc.
    + rewrite Hlen, Hh1. cbn [hstates]. by rewrite length_insert.
    + intros j Hj. rewrite Hother by done. rewrite Hh1. cbn [hstates].
      by rewrite list_lookup_insert_ne.
    + exists s'. split_and!; [done | by rewrite Hfw | by rewrite Hnm |].
      rewrite Hperm, Ht1, add_transition_items by done.
      cbn [fmap list_fmap]. by rewrite <- app_assoc.
Qed.

End add_transition_items.

Section character_ranges_theorem.
Context {W : Type} `{!Weight W}.
Variable chr : Z → string.
Implicit Types (h : Heap W) (alph : list string) (syms : list Z).

Lemma int_not_among_strings (symbol : Z) alph : PyInt symbol ∉ PyStr <$> alph.
Proof. intros (s & Heq & _)%list_elem_of_fmap. discriminate. Qed.

Lemma character_ranges_step_None complement init second syms :
  foldl (character_ranges_step (W := W) chr complement init second) None syms = None.
Proof. induction syms as [|c syms IH]; [done|]. cbn [foldl]. exact IH. Qed.

Lemma character_ranges_fold complement init second syms h alph :
  foldl (character_ranges_step chr complement init second) (Some (h, alph)) syms =
    if forallb valid_code_point syms
    then Some (if complement then h else add_labels h init second (chr <$> syms),
               foldl (λ a c, list_union a [chr c]) alph syms)
    else None.
Proof.
  revert h alph. induction syms as [|c syms IH]; intros h alph.
  - cbn. by destruct complement.
  - cbn [foldl forallb]. unfold character_ranges_step at 2.
    rewrite bool_decide_eq_true_2 by apply int_not_among_strings.
    destruct (valid_code_point c); cbn [andb].
    + rewrite IH. destruct (forallb valid_code_point syms); [|done].
      by destruct complement.
    + apply character_ranges_step_None.
Qed.

Lemma forallb_false_elem {A} (f : A → bool) (l : list A) :
  forallb f l = false → ∃ x, x ∈ l ∧ f x = false.
Proof.
  induction l as [|a l IH]; [done|]. cbn [forallb].
  destruct (f a) eqn:E; cbn [andb].
  - intros Hl. destruct (IH Hl) as (x & Hx & Hfx). exists x. split; [by right | done].
  - intros _. exists a. split; [left | done].
Qed.

Lemma elem_of_alphabet_fold syms alph sym :
  sym ∈ foldl (λ a c, list_union a [chr c]) alph syms ↔
  sym ∈ alph ∨ ∃ c, c ∈ syms ∧ sym = chr c.
Proof.
  revert alph. induction syms as [|c syms IH]; intros alph.
  - cbn. split; [by left|]. by intros [?|(c & ?%elem_of_nil & _)].
  - cbn [foldl]. rewrite IH, list_elem_of_union, list_elem_of_singleton. split.
    + intros [[? | ->] | (c' & Hc' & ->)].
      * by left.
      * right. exists c. split; [left | done].
      * right. exists c'. split; [by right | done].
    + intros [?|(c' & Hc' & ->)]; [left; by left|].
      apply elem_of_cons in Hc' as [->|Hc']; [left; by right|].
      right. by exists c'.
Qed.

(** X19 — [character_ranges] raises [ValueError] exactly when one of the
    ranges holds an integer that is not a code point; otherwise it returns
    a two-state automaton whose alphabet holds the characters of the ranges
    (and [.] when complemented).  Complemented, the initial state has the
    single transition [.]; otherwise it has one transition per code point
    the loops visit, counted with multiplicity: the guard
    [symbol not in alphabet] compares an integer with the strings of the
    alphabet and never skips a symbol, so a code point that lies in two
    ranges gets two transitions. *)
Theorem character_ranges_spec (h : Heap W) (ranges : list (Z * Z)) (complement : bool) :
  (character_ranges chr h ranges complement = None ↔
   ∃ c, c ∈ range_symbols ranges ∧ valid_code_point c = false) ∧
  ∀ h' F',
    character_ranges chr h ranges complement = Some (h', F') →
    let init := length (hstates h) in
    let second := S init in
    let labels := if complement then ["."] else chr <$> range_symbols ranges in
    initialstate F' = init ∧ finalstates F' = [second] ∧
    states F' = [init; second] ∧
    (∀ sym, sym ∈ alphabet F' ↔
            (∃ c, c ∈ range_symbols ranges ∧ sym = chr c) ∨
            (complement = true ∧ sym = ".")) ∧
    htrans h' = htrans h ++ ((λ sym, mkTransition second (L1 sym) w0) <$> labels) ∧
    (∃ s0, hstates h' !! init = Some s0 ∧
           all_transitions (htrans h') s0
             ≡ₚ (λ sym, (L1 sym, mkTransition second (L1 sym) w0)) <$> labels) ∧
    (∃ s1, hstates h' !! second = Some s1 ∧ transitions s1 = [] ∧
           finalweight s1 = w0).
Proof.
  unfold character_ranges. cbn [FST_init new_State hstates htrans initialstate states].
  rewrite length_app. cbn [length]. rewrite Nat.add_1_r.
  set (init := length (hstates h)).
  set (S0 := State_init (W := W) None None).
  set (h3 := heap_set_finalweight _ (S init) w0).
  assert (hstates h3 = hstates h ++ [S0; set_finalweight S0 w0]) as Hh3.
  { subst h3. cbn [heap_set_finalweight hstates].
    replace (S init) with (length (hstates h ++ [S0]))
      by (rewrite length_app; cbn; lia).
    rewrite alter_snoc. by rewrite <- app_assoc. }
  assert (htrans h3 = htrans h) as Ht3 by done.
  assert (hstates h3 !! init = Some S0) as Hinit.
  { rewrite Hh3. by apply list_lookup_middle. }
  assert (hstates h3 !! S init = Some (set_finalweight S0 w0)) as Hsecond.
  { rewrite Hh3. rewrite lookup_app_r by (subst init; lia).
    replace (S init - length (hstates h)) with 1 by (subst init; lia). done. }
  assert (refs_valid (htrans h3) S0) as Hvalid by apply Forall_nil_2.
  rewrite character_ranges_fold.
  destruct (forallb valid_code_point (range_symbols ranges)) eqn:Hall.
  - split.
    { split; [done|]. intros (c & Hc & Hinv).
      rewrite forallb_forall in Hall. apply list_elem_of_In, Hall in Hc. congruence. }
    intros h' F' [= <- <-]. cbv zeta.
    cbn [initialstate finalstates states alphabet].
    set (labels := if complement then ["."] else chr <$> range_symbols ranges).
    assert ((if complement
             then heap_add_transition
                    (if complement then h3
                     else add_labels h3 init (S init) (chr <$> range_symbols ranges))
                    init (S init) (L1 ".") w0
             else if complement then h3
                  else add_labels h3 init (S init) (chr <$> range_symbols ranges))
            = add_labels h3 init (S init) labels) as ->.
    { subst labels. by destruct complement. }
    destruct (add_labels_spec labels h3 init (S init) S0 Hinit Hvalid)
      as (Htr & Hlen & Hother & s' & Hs' & _ & _ & Hperm).
    split_and!.
    + done.
    + done.
    + unfold list_union. cbn [list_difference].
      destruct (decide_rel elem_of init [S init]) as [Hin|_]; [|done].
      apply list_elem_of_singleton in Hin. lia.
    + intros sym. destruct complement.
      * rewrite list_elem_of_union, elem_of_alphabet_fold, list_elem_of_singleton.
        split.
        -- intros [[?%elem_of_nil | ?] | ->]; [done | by left | by right].
        -- intros [? | [_ ->]]; [left; by right | by right].
      * rewrite elem_of_alphabet_fold. split.
        -- intros [?%elem_of_nil|?]; [done | by left].
        -- intros [?|[? _]]; [by right | done].
    + by rewrite Htr, Ht3.
    + exists s'. split; [done|]. by rewrite Hperm.
    + exists (set_finalweight S0 w0). split; [|done].
      rewrite Hother by lia. done.
  - split; [|done]. split; [|done]. intros _. by apply forallb_false_elem.
Qed.

End character_ranges_theorem.

Section quoting.

#[local] Arguments String.append : simpl nomatch.

Local Abbreviation quote := ("'"%char).
Local Abbreviation backslash := ("\"%char).

Lemma escape_cons c s :
  str_replace (String c s) "'" "\'" =
    if decide (c = quote) then String backslash (String quote (str_replace s "'" "\'"))
    else String c (str_replace s "'" "\'").
Proof.
  unfold str_replace. cbn [str_replace_from String.prefix String.length Nat.sub].
  destruct (ascii_dec quote c) as [<-|Hne].
  - rewrite decide_True by done. by destruct s.
  - by rewrite decide_False by done.
Qed.

Lemma escape_head s r : str_replace s "'" "\'" ≠ String quote r.
Proof.
  destruct s as [|c s]; [done|]. rewrite escape_cons.
  case_decide as Hc; [done|]. intros [= Heq _]. done.
Qed.

Lemma unquote_escaped_quote t :
  multi_unquote (String backslash (String quote t)) = String quote (multi_unquote t).
Proof. unfold multi_unquote, str_replace. cbn. by destruct t. Qed.

Lemma unquote_other c t :
  (c ≠ backslash ∨ ∀ r, t ≠ String quote r) →
  multi_unquote (String c t) = String c (multi_unquote t).
Proof.
  intros Hc. unfold multi_unquote, str_replace.
  cbn [str_replace_from String.prefix].
  destruct (ascii_dec backslash c) as [<-|Hne]; [|done].
  destruct t as [|c' t]; [done|]. cbn [String.prefix].
  destruct (ascii_dec quote c') as [<-|Hne']; [|done].
  destruct Hc as [Hc|Hc]; [done|]. by destruct (Hc t).
Qed.


End quoting.

(** ** Copying an automaton *)

Section copy_lemmas.
Context {W : Type} `{!Weight W}.
Implicit Types (h hc : Heap W) (F : FST).

Lemma prefix_alter {A} (f : A → A) (l1 l : list A) i :
  l1 `prefix_of` l → length l1 ≤ i → l1 `prefix_of` alter f i l.
Proof.
  intros [k ->] Hi. rewrite alter_app_r_alt by done. by apply prefix_app_r.
Qed.

Lemma prefix_insert {A} (x : A) (l1 l : list A) i :
  l1 `prefix_of` l → length l1 ≤ i → l1 `prefix_of` <[i := x]> l.
Proof.
  intros [k ->] Hi. rewrite insert_app_r_alt by done. by apply prefix_app_r.
Qed.

(** the dictionary of copies allocates one new state per state, in order *)
Lemma copy_states_acc (sts : list nat) h (q1q2 : list (nat * nat)) :
  NoDup sts → (∀ k, k ∈ sts → k ∉ dict_keys q1q2) →
  foldl (λ '(h, q1q2) k,
           let '(s, h') := new_State h None None in (h', dict_set q1q2 k s))
        (h, q1q2) sts
  = (mkHeap (hstates h ++ replicate (length sts) (State_init None None)) (htrans h),
     q1q2 ++ zip sts (seq (length (hstates h)) (length sts))).
Proof.
  revert h q1q2. induction sts as [|k sts IH]; intros h q1q2 Hnd Hfresh.
  - cbn. rewrite !app_nil_r. by destruct h.
  - apply NoDup_cons in Hnd as [Hk Hnd]. cbn [foldl new_State].
    rewrite IH; [|done|].
    + cbn [hstates htrans length replicate seq zip zip_with].
      rewrite dict_set_fresh by (apply Hfresh; left).
      rewrite length_app. cbn [length]. rewrite Nat.add_1_r.
      by rewrite <- !app_assoc.
    + intros k' Hk'. rewrite dict_keys_set_elem. intros [->|Hin]; [done|].
      by apply (Hfresh k'); [right|].
Qed.

Lemma copy_states_spec h (sts : list nat) :
  NoDup sts →
  copy_states h sts
  = (mkHeap (hstates h ++ replicate (length sts) (State_init None None)) (htrans h),
     zip sts (seq (length (hstates h)) (length sts))).
Proof.
  intros Hnd. unfold copy_states. rewrite copy_states_acc; [done | done |].
  by intros k _ ?%elem_of_nil.
Qed.

Lemma remove_dups_NoDup_id {A} `{EqDecision A} (l : list A) :
  NoDup l → remove_dups l = l.
Proof.
  induction 1 as [|x l Hx Hnd IH]; [done|]. cbn [remove_dups].
  destruct (decide_rel elem_of x l); [done | by rewrite IH].
Qed.

Lemma snd_inj_NoDup {A B} (l : list (A * B)) a1 a2 b :
  NoDup l.*2 → (a1, b) ∈ l → (a2, b) ∈ l → a1 = a2.
Proof.
  induction l as [|[a0 b0] l IH]; intros Hnd H1 H2; [by apply elem_of_nil in H1|].
  cbn [fmap list_fmap snd] in Hnd. apply NoDup_cons in Hnd as [Hb0 Hnd].
  apply elem_of_cons in H1 as [H1|H1]; apply elem_of_cons in H2 as [H2|H2].
  - congruence.
  - simplify_eq. exfalso. apply Hb0. apply list_elem_of_fmap. by exists (a2, b0).
  - simplify_eq. exfalso. apply Hb0. apply list_elem_of_fmap. by exists (a1, b0).
  - by apply IH.
Qed.

(** two states with the same copy are the same state *)
Lemma fresh_copies_inj h (q1q2 : list (nat * nat)) s1 s2 s' :
  fresh_copies h q1q2 →
  dict_get q1q2 s1 = Some s' → dict_get q1q2 s2 = Some s' → s1 = s2.
Proof.
  intros (_ & Hnd & _) H1%dict_get_Some_elem H2%dict_get_Some_elem.
  by eapply snd_inj_NoDup.
Qed.

Lemma fresh_copies_ge h (q1q2 : list (nat * nat)) s s' :
  fresh_copies h q1q2 → dict_get q1q2 s = Some s' → length (hstates h) ≤ s'.
Proof. intros (_ & _ & Hge) Hs%dict_get_Some_elem. by eapply Hge. Qed.

Lemma refs_valid_prefix (th th' : TStore W) (st : State W) :
  th `prefix_of` th' → refs_valid th st → refs_valid th' st.
Proof.
  intros Hpre. rewrite !refs_valid_alt. intros Hv L b r Hin Hr.
  specialize (Hv L b r Hin Hr). apply prefix_length in Hpre. lia.
Qed.

Lemma all_transitions_prefix (th th' : TStore W) (st : State W) :
  th `prefix_of` th' → refs_valid th st →
  all_transitions th' st = all_transitions th st.
Proof.
  intros Hpre Hv. rewrite !all_transitions_items. apply flat_map_ext_elem.
  intros [L b] Hin. unfold bucket_items. cbn [fst snd].
  rewrite refs_valid_alt in Hv.
  assert (∀ r, r ∈ b → r < length th) as Hb by (intros r Hr; by eapply Hv).
  clear Hin. induction b as [|r b IH]; [done|]. cbn [omap list_omap].
  rewrite <- (prefix_lookup_lt th th' r) by (done || apply Hb; left).
  rewrite IH; [done|]. intros r' Hr'. apply Hb. by right.
Qed.

Lemma items_of_app (p1 p2 : list (nat * Label * Transition W)) s :
  items_of (p1 ++ p2) s = items_of p1 s ++ items_of p2 s.
Proof. unfold items_of. apply omap_app. Qed.

Lemma copied_items_app labelfilter (q1q2 : list (nat * nat))
    (i1 i2 : list (Label * Transition W)) :
  copied_items labelfilter q1q2 (i1 ++ i2)
    = copied_items labelfilter q1q2 i1 ++ copied_items labelfilter q1q2 i2.
Proof. unfold copied_items. by rewrite List.filter_app, omap_app. Qed.

(** one round of the loop over the transitions *)
Lemma copy_transition_inv h (q1q2 : list (nat * nat)) labelfilter hc processed
    s lbl (t : Transition W) s' t' :
  fresh_copies h q1q2 →
  copy_inv h q1q2 labelfilter hc processed →
  dict_get q1q2 s = Some s' →
  dict_get q1q2 (targetstate t) = Some t' →
  ∃ hc', copy_transition labelfilter q1q2 (Some hc) (s, lbl, t) = Some hc' ∧
         copy_inv h q1q2 labelfilter hc' (processed ++ [(s, lbl, t)]).
Proof.
  intros Hfresh (Hps & Hpt & Hall) Hs Ht. unfold copy_transition.
  cbn [mbind option_bind fst snd].
  assert (∀ s2, items_of (processed ++ [(s, lbl, t)]) s2 =
                items_of processed s2 ++ (if decide (s = s2) then [(lbl, t)] else []))
    as Hitems.
  { intros s2. rewrite items_of_app. f_equal. unfold items_of. cbn.
    by destruct (decide (s = s2)). }
  destruct (labelfilter lbl) eqn:Hlf.
  - rewrite Hs, Ht. cbn [mbind option_bind]. eexists. split; [reflexivity|].
    destruct (Hall s s' Hs) as (st & st' & Hst & Hst' & Hnm & Hfw & Hv & Hperm).
    unfold heap_add_transition. rewrite Hst'.
    destruct (add_transition (htrans hc) st' t' lbl (weight t)) as [th1 st1] eqn:Hadd.
    assert (th1 = (add_transition (htrans hc) st' t' lbl (weight t)).1) as Hth1
      by by rewrite Hadd.
    assert (st1 = (add_transition (htrans hc) st' t' lbl (weight t)).2) as Hst1
      by by rewrite Hadd.
    assert (htrans hc `prefix_of` th1) as Hpre1.
    { rewrite Hth1. cbn [add_transition fst]. by apply prefix_app_r. }
    split_and!.
    + cbn [hstates]. apply prefix_insert; [done|]. by eapply fresh_copies_ge.
    + cbn [htrans]. by etrans.
    + intros s2 s2' Hs2. cbn [hstates htrans].
      destruct (decide (s2' = s')) as [->|Hne].
      * assert (s2 = s) as -> by by eapply fresh_copies_inj.
        exists st, st1. rewrite list_lookup_insert_eq by by eapply lookup_lt_Some.
        split_and!; [done | done | by rewrite Hst1 | by rewrite Hst1 | |].
        -- rewrite Hth1, Hst1. by apply add_transition_refs_valid.
        -- rewrite Hth1, Hst1, add_transition_items by done.
           rewrite Hitems, decide_True by done. rewrite copied_items_app, Hperm.
           apply Permutation_app_head. unfold copied_items, copied_item.
           cbn [List.filter fst snd]. rewrite Hlf. cbn [omap list_omap fst snd].
           by rewrite Ht.
      * destruct (Hall s2 s2' Hs2) as (st2 & st2' & Hst2 & Hst2' & Hnm2 & Hfw2 & Hv2 & Hperm2).
        exists st2, st2'. rewrite list_lookup_insert_ne by done.
        split_and!; [done | done | done | done | by eapply refs_valid_prefix |].
        rewrite (all_transitions_prefix (htrans hc) th1) by done.
        rewrite Hitems. rewrite decide_False, app_nil_r; [done|].
        intros ->. congruence.
  - exists hc. split; [done|]. split_and!; [done | done |].
    intros s2 s2' Hs2.
    destruct (Hall s2 s2' Hs2) as (st2 & st2' & Hst2 & Hst2' & Hnm2 & Hfw2 & Hv2 & Hperm2).
    exists st2, st2'. split_and!; [done..|].
    rewrite Hitems, copied_items_app, Hperm2.
    destruct (decide (s = s2)); [|by rewrite app_nil_r].
    assert (copied_items labelfilter q1q2 [(lbl, t)] = []) as ->.
    { unfold copied_items. cbn [List.filter fst]. by rewrite Hlf. }
    by rewrite app_nil_r.
Qed.

(** the transitions of one source state *)
Lemma copy_transitions_of_state h (q1q2 : list (nat * nat)) labelfilter
    (its : list (Label * Transition W)) s hc processed :
  fresh_copies h q1q2 →
  is_Some (dict_get q1q2 s) →
  (∀ lt, lt ∈ its → is_Some (dict_get q1q2 (targetstate lt.2))) →
  copy_inv h q1q2 labelfilter hc processed →
  ∃ hc',
    foldl (copy_transition labelfilter q1q2) (Some hc)
          ((λ lt : Label * Transition W, (s, lt.1, lt.2)) <$> its) = Some hc' ∧
    copy_inv h q1q2 labelfilter hc'
      (processed ++ ((λ lt : Label * Transition W, (s, lt.1, lt.2)) <$> its)).
Proof.
  intros Hfresh [s' Hs] Hits. revert hc processed.
  induction its as [|[lbl t] its IH]; intros hc processed Hinv.
  - exists hc. cbn. by rewrite app_nil_r.
  - destruct (Hits (lbl, t)) as [t' Ht]; [left|]. cbn [snd] in Ht.
    destruct (copy_transition_inv h q1q2 labelfilter hc processed s lbl t s' t'
                Hfresh Hinv Hs Ht) as (hc1 & Hstep & Hinv1).
    cbn [fmap list_fmap foldl fst snd]. rewrite Hstep.
    destruct (IH (λ lt Hlt, Hits lt (list_elem_of_further _ _ _ Hlt)) hc1 _ Hinv1)
      as (hc' & Hfold & Hinv').
    exists hc'. split; [done|]. by rewrite <- app_assoc in Hinv'.
Qed.

Lemma FST_all_transitions_cons h s (sts : list nat) :
  FST_all_transitions h (s :: sts)
    = FST_all_transitions h [s] ++ FST_all_transitions h sts.
Proof. unfold FST_all_transitions. cbn [flat_map]. by rewrite app_nil_r. Qed.

Lemma FST_all_transitions_one h s (st : State W) :
  hstates h !! s = Some st →
  FST_all_transitions h [s]
    = (λ lt : Label * Transition W, (s, lt.1, lt.2)) <$> all_transitions (htrans h) st.
Proof.
  intros Hst. unfold FST_all_transitions. cbn [flat_map]. by rewrite Hst, app_nil_r.
Qed.

(** the whole loop over the transitions *)
Lemma copy_transitions_loop h (q1q2 : list (nat * nat)) labelfilter (sts : list nat)
    hc processed :
  fresh_copies h q1q2 →
  (∀ s, s ∈ sts →
     is_Some (dict_get q1q2 s) ∧
     ∃ st, hstates h !! s = Some st ∧ refs_valid (htrans h) st ∧
           ∀ lt, lt ∈ all_transitions (htrans h) st →
                 is_Some (dict_get q1q2 (targetstate lt.2))) →
  copy_inv h q1q2 labelfilter hc processed →
  ∃ hc',
    foldl (λ acc s,
             h ← acc;
             foldl (copy_transition labelfilter q1q2) (Some h)
                   (FST_all_transitions h [s]))
          (Some hc) sts = Some hc' ∧
    copy_inv h q1q2 labelfilter hc' (processed ++ FST_all_transitions h sts).
Proof.
  intros Hfresh. revert hc processed.
  induction sts as [|s sts IH]; intros hc processed Hsts Hinv.
  - exists hc. cbn. by rewrite app_nil_r.
  - destruct (Hsts s) as (Hcopy & st & Hst & Hv & Htargets); [left|].
    cbn [foldl mbind option_bind].
    assert (FST_all_transitions hc [s] = FST_all_transitions h [s]) as Hsame.
    { destruct Hinv as (Hps & Hpt & _).
      rewrite (FST_all_transitions_one hc s st) by by eapply prefix_lookup_Some.
      rewrite (FST_all_transitions_one h s st) by done.
      by rewrite (all_transitions_prefix (htrans h) (htrans hc)). }
    rewrite Hsame, (FST_all_transitions_one h s st) by done.
    destruct (copy_transitions_of_state h q1q2 labelfilter
                (all_transitions (htrans h) st) s hc processed Hfresh Hcopy Htargets Hinv)
      as (hc1 & Hfold1 & Hinv1).
    rewrite Hfold1.
    destruct (IH hc1 _ (λ s0 Hs0, Hsts s0 (list_elem_of_further _ _ _ Hs0)) Hinv1)
      as (hc' & Hfold & Hinv').
    exists hc'. split; [done|].
    rewrite FST_all_transitions_cons, (FST_all_transitions_one h s st) by done.
    by rewrite <- app_assoc in Hinv'.
Qed.

Lemma items_of_block s0 (its : list (Label * Transition W)) s :
  items_of ((λ lt : Label * Transition W, (s0, lt.1, lt.2)) <$> its) s
    = if decide (s0 = s) then its else [].
Proof.
  unfold items_of. induction its as [|[L t] its IH].
  - by destruct (decide (s0 = s)).
  - cbn [fmap list_fmap omap list_omap fst snd]. rewrite IH.
    by destruct (decide (s0 = s)).
Qed.

Lemma items_of_absent h (sts : list nat) s :
  s ∉ sts → items_of (FST_all_transitions h sts) s = [].
Proof.
  induction sts as [|s0 sts IH]; intros Hs; [done|].
  apply not_elem_of_cons in Hs as [Hne Hs].
  rewrite FST_all_transitions_cons, items_of_app, IH, app_nil_r by done.
  unfold FST_all_transitions. cbn [flat_map]. rewrite app_nil_r.
  destruct (hstates h !! s0) as [st0|]; [|done].
  rewrite items_of_block. by rewrite decide_False by done.
Qed.

(** the items enumerated for a state are the state's own items *)
Lemma items_of_all h (sts : list nat) s (st : State W) :
  NoDup sts → s ∈ sts → hstates h !! s = Some st →
  items_of (FST_all_transitions h sts) s = all_transitions (htrans h) st.
Proof.
  induction sts as [|s0 sts IH]; intros Hnd Hin Hst; [by apply elem_of_nil in Hin|].
  apply NoDup_cons in Hnd as [Hs0 Hnd].
  rewrite FST_all_transitions_cons, items_of_app.
  destruct (decide (s0 = s)) as [->|Hne].
  - rewrite (FST_all_transitions_one h s st), items_of_block, decide_True by done.
    rewrite items_of_absent by done. by rewrite app_nil_r.
  - apply elem_of_cons in Hin as [->|Hin]; [done|].
    rewrite IH by done.
    unfold FST_all_transitions. cbn [flat_map]. rewrite app_nil_r.
    destruct (hstates h !! s0) as [st0|]; [|done].
    rewrite items_of_block. by rewrite decide_False by done.
Qed.

(** the loop that copies the names *)
Lemma copy_names_loop h (q1q2 : list (nat * nat)) (sts named : list nat) hc :
  fresh_copies h q1q2 →
  hstates h `prefix_of` hstates hc →
  (∀ s, s ∈ sts → is_Some (hstates h !! s) ∧ is_Some (dict_get q1q2 s)) →
  (∀ s s', dict_get q1q2 s = Some s' →
     ∃ st', hstates hc !! s' = Some st' ∧ transitions st' = [] ∧
            finalweight st' = winf ∧
            (s ∈ named → ∃ st, hstates h !! s = Some st ∧ name st' = name st)) →
  ∃ h3, copy_names q1q2 hc sts = Some h3 ∧
    htrans h3 = htrans hc ∧ hstates h `prefix_of` hstates h3 ∧
    ∀ s s', dict_get q1q2 s = Some s' →
      ∃ st', hstates h3 !! s' = Some st' ∧ transitions st' = [] ∧
             finalweight st' = winf ∧
             (s ∈ named ++ sts → ∃ st, hstates h !! s = Some st ∧ name st' = name st).
Proof.
  intros Hfresh. unfold copy_names. revert named hc.
  induction sts as [|s sts IH]; intros named hc Hpre Hsts Hall.
  - exists hc. rewrite app_nil_r. by split_and!.
  - destruct (Hsts s) as ([st Hst] & [s' Hs]); [left|].
    cbn [foldl mbind option_bind]. rewrite Hs. cbn [mbind option_bind].
    rewrite (prefix_lookup_Some _ _ _ _ Hst Hpre). cbn [mbind option_bind].
    destruct (IH (named ++ [s]) (heap_set_name hc s' (name st)))
      as (h3 & Hfold & Htr & Hpre3 & Hall3).
    + cbn [heap_set_name hstates]. apply prefix_alter; [done|].
      by eapply fresh_copies_ge.
    + intros s0 Hs0. apply Hsts. by right.
    + intros s2 s2' Hs2. destruct (Hall s2 s2' Hs2) as (st2' & Hst2' & Htr2 & Hfw2 & Hnm2).
      cbn [heap_set_name hstates]. rewrite list_lookup_alter. case_decide as Heq.
      * subst s2'. assert (s2 = s) as -> by by eapply fresh_copies_inj.
        rewrite Hst2'. eexists. split_and!; [done | done | done |].
        intros _. by exists st.
      * exists st2'. split_and!; [done | done | done |].
        intros [Hin|Hin%list_elem_of_singleton]%elem_of_app; [by apply Hnm2|].
        subst s2. congruence.
    + exists h3. rewrite <- app_assoc in Hall3. by split_and!.
Qed.

(** the loop that copies the final weights *)
Lemma copy_finalweights_loop h (q1q2 : list (nat * nat)) (fins weighted : list nat)
    hc (P : nat → State W → Prop) :
  fresh_copies h q1q2 →
  hstates h `prefix_of` hstates hc →
  (∀ s, s ∈ fins → is_Some (hstates h !! s) ∧ is_Some (dict_get q1q2 s)) →
  (∀ s st' fw, P s st' → P s (set_finalweight st' fw)) →
  (∀ s s', dict_get q1q2 s = Some s' →
     ∃ st st', hstates h !! s = Some st ∧ hstates hc !! s' = Some st' ∧ P s st' ∧
            (s ∈ weighted → finalweight st' = finalweight st) ∧
            (s ∉ weighted → finalweight st' = winf)) →
  ∃ h5, copy_finalweights q1q2 hc fins = Some h5 ∧
    htrans h5 = htrans hc ∧ hstates h `prefix_of` hstates h5 ∧
    ∀ s s', dict_get q1q2 s = Some s' →
      ∃ st st', hstates h !! s = Some st ∧ hstates h5 !! s' = Some st' ∧ P s st' ∧
             (s ∈ weighted ++ fins → finalweight st' = finalweight st) ∧
             (s ∉ weighted ++ fins → finalweight st' = winf).
Proof.
  intros Hfresh. unfold copy_finalweights. revert weighted hc.
  induction fins as [|s fins IH]; intros weighted hc Hpre Hfins HP Hall.
  - exists hc. rewrite app_nil_r. by split_and!.
  - destruct (Hfins s) as ([st Hst] & [s' Hs]); [left|].
    cbn [foldl mbind option_bind]. rewrite Hs. cbn [mbind option_bind].
    rewrite (prefix_lookup_Some _ _ _ _ Hst Hpre). cbn [mbind option_bind].
    destruct (IH (weighted ++ [s]) (heap_set_finalweight hc s' (finalweight st)))
      as (h5 & Hfold & Htr & Hpre5 & Hall5).
    + cbn [heap_set_finalweight hstates]. apply prefix_alter; [done|].
      by eapply fresh_copies_ge.
    + intros s0 Hs0. apply Hfins. by right.
    + done.
    + intros s2 s2' Hs2.
      destruct (Hall s2 s2' Hs2) as (st2 & st2' & Hst2 & Hst2' & HP2 & Hin2 & Hout2).
      cbn [heap_set_finalweight hstates]. rewrite list_lookup_alter. case_decide as Heq.
      * subst s2'. assert (s2 = s) as -> by by eapply fresh_copies_inj.
        rewrite Hst2'. exists st2, (set_finalweight st2' (finalweight st)).
        split_and!; [done | done | by apply HP | |].
        -- intros _. cbn. congruence.
        -- intros Hn. exfalso. apply Hn. apply elem_of_app. right. left.
      * exists st2, st2'. split_and!; [done | done | done | |].
        -- intros [Hin|Hin%list_elem_of_singleton]%elem_of_app; [by apply Hin2|].
           subst s2. congruence.
        -- intros Hn. apply Hout2. intros Hin. apply Hn. apply elem_of_app. by left.
    + exists h5. rewrite <- app_assoc in Hall5. by split_and!.
Qed.

End copy_lemmas.

Section copy_theorem.
Context {W : Type} `{!Weight W}.
Implicit Types (h hc : Heap W) (F : FST).

Lemma mapM_elem_of {A B} (f : A → option B) (l : list A) (k : list B) y :
  mapM f l = Some k → (y ∈ k ↔ ∃ x, x ∈ l ∧ f x = Some y).
Proof.
  intros HF%mapM_Some_1. induction HF as [|x y0 l k Hxy HF IH].
  - split; [by intros ?%elem_of_nil|]. by intros (x & ?%elem_of_nil & _).
  - rewrite elem_of_cons, IH. split.
    + intros [->|(x' & Hx' & Hf)]; [exists x; split; [left | done]|].
      exists x'. split; [by right | done].
    + intros (x' & [->|Hx']%elem_of_cons & Hf); [left; congruence|].
      right. by exists x'.
Qed.

Lemma omap_total_length {A B} (f : A → option B) (l : list A) :
  (∀ x, x ∈ l → is_Some (f x)) → length (omap f l) = length l.
Proof.
  induction l as [|a l IH]; intros Hall; [done|]. cbn [omap list_omap].
  destruct (Hall a) as [b Hb]; [left|]. rewrite Hb. cbn [length]. f_equal.
  apply IH. intros x Hx. apply Hall. by right.
Qed.

(** X24 — [copy_filtered] of a closed automaton never fails and never
    touches the original: the objects of the store keep their places and
    their contents.  Every state gets a copy of its own, a new object, and
    [q1q2] maps the states one-to-one to their copies; the copy of the
    initial state is the new initial state and the copies of the final
    states are the new final states.  A copy has the name of its state,
    the final weight of its state if that state is final and
    [float("inf")] otherwise, and exactly one transition for each
    transition of its state whose label passes the filter, with the same
    label and weight, leading to the copy of the original target. *)
Theorem copy_filtered_spec h F (labelfilter : Label → bool) :
  closed_automaton h F →
  ∃ h' F' (q1q2 : list (nat * nat)),
    copy_filtered h F labelfilter = Some (h', F', q1q2) ∧
    hstates h `prefix_of` hstates h' ∧ htrans h `prefix_of` htrans h' ∧
    dict_keys q1q2 = states F ∧ NoDup q1q2.*2 ∧
    (∀ s s', dict_get q1q2 s = Some s' → length (hstates h) ≤ s') ∧
    alphabet F' = alphabet F ∧ states F' = q1q2.*2 ∧
    dict_get q1q2 (initialstate F) = Some (initialstate F') ∧
    (∀ s', s' ∈ finalstates F' ↔
           ∃ s, s ∈ finalstates F ∧ dict_get q1q2 s = Some s') ∧
    ∀ s s', dict_get q1q2 s = Some s' →
      ∃ st st', hstates h !! s = Some st ∧ hstates h' !! s' = Some st' ∧
        name st' = name st ∧
        finalweight st' =
          (if bool_decide (s ∈ finalstates F) then finalweight st else winf) ∧
        all_transitions (htrans h') st'
          ≡ₚ copied_items labelfilter q1q2 (all_transitions (htrans h) st) ∧
        length (all_transitions (htrans h') st')
          = length (List.filter (λ x, labelfilter x.1) (all_transitions (htrans h) st)).
Proof.
  intros (Hnd & Hinit & Hfins & Hclosed). unfold copy_filtered.
  cbn [FST_init new_State]. rewrite copy_states_spec by done. cbn [hstates htrans].
  set (S0 := State_init (W := W) None None).
  set (n := length (states F)).
  set (base := length (hstates h ++ [S0])).
  set (q1q2 := zip (states F) (seq base n)).
  set (h2 := mkHeap ((hstates h ++ [S0]) ++ replicate n S0) (htrans h)).
  assert (base = S (length (hstates h))) as Hbase.
  { subst base. rewrite length_app. cbn. lia. }
  assert (dict_keys q1q2 = states F) as Hkeys.
  { subst q1q2. unfold dict_keys. apply fst_zip. rewrite length_seq. done. }
  assert (q1q2.*2 = seq base n) as Hvals.
  { subst q1q2. apply snd_zip. rewrite length_seq. done. }
  assert (fresh_copies h q1q2) as Hfresh.
  { split_and!.
    - by rewrite Hkeys.
    - rewrite Hvals. apply NoDup_seq.
    - intros s s' Hin. apply elem_of_zip_r in Hin. apply elem_of_seq in Hin. lia. }
  assert (∀ s, s ∈ states F → is_Some (dict_get q1q2 s)) as Hcopy.
  { intros s Hs. destruct (dict_get q1q2 s) eqn:E; [done|].
    apply dict_get_None in E. by rewrite Hkeys in E. }
  assert (∀ s, is_Some (dict_get q1q2 s) → s ∈ states F) as Hcopy'.
  { intros s [s' Hs]. rewrite <- Hkeys. apply dict_get_Some_elem in Hs.
    apply list_elem_of_fmap. by exists (s, s'). }
  assert (hstates h `prefix_of` hstates h2) as Hpre2.
  { subst h2. cbn [hstates]. rewrite <- app_assoc. by apply prefix_app_r. }
  destruct (copy_names_loop h q1q2 (states F) [] h2 Hfresh Hpre2)
    as (h3 & Hnames & Htr3 & Hpre3 & Hall3).
  { intros s Hs. split; [|by apply Hcopy].
    destruct (Hclosed s Hs) as (st & Hst & _). by exists st. }
  { intros s s' Hs. exists S0. split_and!; [|done|done|by intros ?%elem_of_nil].
    apply dict_get_Some_elem, elem_of_zip_r, elem_of_seq in Hs.
    subst h2. cbn [hstates]. rewrite lookup_app_r by (fold base; lia).
    apply lookup_replicate_2. fold base. lia. }
  rewrite Hnames. cbn [mbind option_bind].
  destruct (mapM (dict_get q1q2) (finalstates F)) as [finals|] eqn:Hfinals.
  2: { apply mapM_None_1, Exists_exists in Hfinals as (s & Hs & Hnone).
       destruct (Hcopy s (Hfins s Hs)) as [s' Hs']. congruence. }
  cbn [mbind option_bind].
  destruct (Hcopy _ Hinit) as [init Hinit'].
  rewrite Hinit'. cbn [mbind option_bind].
  assert (copy_inv h q1q2 labelfilter h3 []) as Hinv3.
  { split_and!; [done | by rewrite Htr3 |].
    intros s s' Hs. destruct (Hall3 s s' Hs) as (st' & Hst' & Htrs & Hfw & Hnm).
    destruct Hnm as (st & Hst & Hnm); [by apply Hcopy'|].
    exists st, st'. split_and!; [done | done | done | done | |].
    - unfold refs_valid. rewrite Htrs. constructor.
    - unfold all_transitions. rewrite Htrs. done. }
  destruct (copy_transitions_loop h q1q2 labelfilter (dict_keys q1q2) h3 []
              Hfresh) as (h4 & Hloop & Hpre4s & Hpre4t & Hall4); [|done|].
  { rewrite Hkeys. intros s Hs. split; [by apply Hcopy|].
    destruct (Hclosed s Hs) as (st & Hst & Hv & Htargets).
    exists st. split_and!; [done | done |]. intros lt Hlt. by apply Hcopy, Htargets. }
  unfold copy_transitions. rewrite Hloop. cbn [mbind option_bind app].
  rewrite Hkeys in Hall4.
  destruct (copy_finalweights_loop h q1q2 (finalstates F) [] h4
              (λ s st', ∀ st, hstates h !! s = Some st →
                 name st' = name st ∧
                 all_transitions (htrans h4) st'
                   ≡ₚ copied_items labelfilter q1q2 (all_transitions (htrans h) st))
              Hfresh Hpre4s)
    as (h5 & Hfw5 & Htr5 & Hpre5 & Hall5).
  { intros s Hs. split; [|by apply Hcopy, Hfins].
    destruct (Hclosed s (Hfins s Hs)) as (st & Hst & _). by exists st. }
  { intros s st' fw HP st Hst. apply HP in Hst. done. }
  { intros s s' Hs.
    destruct (Hall4 s s' Hs) as (st & st' & Hst & Hst' & Hnm & Hfw & Hv & Hperm).
    exists st, st'. split_and!; [done | done | | by intros ?%elem_of_nil | done].
    intros st0 Hst0. assert (st0 = st) as -> by congruence. split; [done|].
    rewrite Hperm. cbn [app].
    by rewrite (items_of_all h (states F) s st) by (done || by apply Hcopy'). }
  rewrite Hfw5. cbn [mbind option_bind].
  eexists _, _, _. split; [reflexivity|].
  cbn [alphabet states initialstate finalstates app] in *.
  split_and!.
  - done.
  - rewrite Htr5. done.
  - done.
  - by destruct Hfresh as (_ & ? & _).
  - intros s s' Hs. by eapply fresh_copies_ge.
  - done.
  - apply remove_dups_NoDup_id. by destruct Hfresh as (_ & ? & _).
  - done.
  - intros s'. rewrite elem_of_remove_dups. by apply mapM_elem_of.
  - intros s s' Hs.
    destruct (Hall5 s s' Hs) as (st & st' & Hst & Hst' & HP & Hin & Hout).
    destruct (HP st Hst) as [Hnm Hperm].
    exists st, st'. split_and!; [done | done | done | | by rewrite Htr5 |].
    + case_bool_decide; [by apply Hin | by apply Hout].
    + rewrite Htr5, Hperm. unfold copied_items. apply omap_total_length.
      intros [L t] Hx%list_elem_of_In. apply filter_In in Hx as [Hx%list_elem_of_In _].
      unfold copied_item. cbn [fst snd].
      destruct (Hclosed s) as (st0 & Hst0 & _ & Htargets); [by apply Hcopy'|].
      assert (st0 = st) as -> by congruence. destruct (Hcopy (targetstate t)) as [t' Ht'].
      { by apply (Htargets (L, t)). }
      rewrite Ht'. done.
Qed.

End copy_theorem.

Lemma copy_filtered_spec_witness :
  closed_automaton tie_heap tie_fst ∧
  is_Some (copy_filtered tie_heap tie_fst (λ _, true)).
Proof.
  assert (closed_automaton tie_heap tie_fst) as Hclosed.
  { split_and!.
    - apply (bool_decide_unpack _). vm_compute. exact I.
    - left.
    - intros s Hs. by right.
    - intros s Hs.
      assert (s = 0 ∨ s = 1 ∨ s = 2) as [-> | [-> | ->]].
      { apply elem_of_cons in Hs as [-> | Hs]; [by left|].
        apply elem_of_cons in Hs as [-> | Hs]; [right; by left|].
        apply list_elem_of_singleton in Hs as ->. right; by right. }
      + eexists. split; [reflexivity|]. split.
        * repeat constructor.
        * intros lt Hlt. cbn in Hlt.
          apply elem_of_cons in Hlt as [-> | Hlt]; [right; left|].
          apply list_elem_of_singleton in Hlt as ->. right; right; left.
      + eexists. split; [reflexivity|]. split; [constructor|].
        intros lt Hlt. by apply elem_of_nil in Hlt.
      + eexists. split; [reflexivity|]. split; [constructor|].
        intros lt Hlt. by apply elem_of_nil in Hlt. }
  split; [exact Hclosed|].
  destruct (copy_filtered_spec tie_heap tie_fst (λ _, true) Hclosed)
    as (h' & F' & q1q2 & -> & _).
  by eexists.
Defined.

(** * [FST.todict] *)

Section sorting.
Context {A : Type}.

Lemma insert_by_perm (lt : A → A → bool) x (l : list A) :
  insert_by lt x l ≡ₚ x :: l.
Proof.
  induction l as [|y l IH]; [done|]. cbn [insert_by].
  destruct (lt x y); [done|]. rewrite IH. apply Permutation_swap.
Qed.

Lemma sorted_by_perm (lt : A → A → bool) (l : list A) :
  sorted_by lt l ≡ₚ l.
Proof.
  unfold sorted_by.
  assert (∀ acc, foldl (λ acc x, insert_by lt x acc) acc l ≡ₚ acc ++ l) as Hgen.
  { induction l as [|x l IH]; intros acc; cbn [foldl].
    - by rewrite app_nil_r.
    - rewrite IH, insert_by_perm. cbn. apply Permutation_middle. }
  apply (Hgen []).
Qed.

End sorting.

Section todict_lemmas.
Context {W : Type} `{!Weight W}.
Implicit Types (h : Heap W) (F : FST).

Lemma concat_fmap_perm {B C} (f g : B → list C) (l k : list B) :
  l ≡ₚ k → (∀ x, f x ≡ₚ g x) → concat (f <$> l) ≡ₚ concat (g <$> k).
Proof.
  intros Hlk Hfg. induction Hlk as [|x l k _ IH|x y l|l k m _ IH1 _ IH2].
  - done.
  - cbn. by rewrite IH, Hfg.
  - cbn. rewrite !app_assoc, !Hfg.
    rewrite (Permutation_app_comm (g y) (g x)).
    apply Permutation_app_head.
    induction l as [|z l IH]; [done|]. cbn. by rewrite IH, Hfg.
  - rewrite IH1. rewrite <- IH2.
    clear -Hfg. induction k as [|z k IH]; [done|]. cbn. by rewrite IH, Hfg.
Qed.

Lemma arcs_perm h s st :
  hstates h !! s = Some st →
  arcs h s ≡ₚ (all_transitions (htrans h) st).*2.
Proof.
  intros Hst. unfold arcs, sorted_items, state_transitions. rewrite Hst.
  rewrite <- list_fmap_compose. unfold all_transitions.
  rewrite (concat_fmap_perm _
             (λ item : Label * list nat, omap (λ r, htrans h !! r) item.2)
             _ (transitions st)).
  - induction (transitions st) as [|[L b] l IH]; [done|].
    cbn [fmap list_fmap concat flat_map]. rewrite fmap_app, <- IH.
    apply Permutation_app_tail. cbn [snd].
    clear. induction b as [|r b IH]; [done|]. cbn [omap list_omap].
    destruct (htrans h !! r); cbn; by rewrite ?IH.
  - apply sorted_by_perm.
  - intros x. cbn. apply sorted_by_perm.
Qed.

Lemma arcs_dangling h s : hstates h !! s = None → arcs h s = [].
Proof.
  intros Hst. unfold arcs, sorted_items, state_transitions. by rewrite Hst.
Qed.

Lemma elem_of_arcs h s t :
  t ∈ arcs h s ↔
  ∃ st lbl, hstates h !! s = Some st ∧ (lbl, t) ∈ all_transitions (htrans h) st.
Proof.
  destruct (hstates h !! s) as [st|] eqn:Hst.
  - rewrite (arcs_perm h s st Hst), list_elem_of_fmap. split.
    + intros ([lbl t'] & -> & Hin). by exists st, lbl.
    + intros (st' & lbl & Heq & Hin). simplify_eq. by exists (lbl, t).
  - rewrite arcs_dangling by done. split; [by intros ?%elem_of_nil|].
    by intros (? & ? & ? & _).
Qed.

Lemma total_arcs_left h : arcs_left h [] = total_arcs h.
Proof.
  unfold arcs_left, total_arcs.
  assert (∀ k (l : list (State W)), (∀ i st, l !! i = Some st → hstates h !! (k + i) = Some st) →
            sum_list ((λ s, if bool_decide (s ∈ []) then 0 else length (arcs h s))
                        <$> seq k (length l))
            = sum_list ((λ st, length (all_transitions (htrans h) st)) <$> l)) as Hgen.
  { intros k l. revert k. induction l as [|st l IH]; intros k Hl; [done|].
    cbn [length seq fmap list_fmap sum_list]. rewrite IH.
    - rewrite bool_decide_eq_false_2 by apply not_elem_of_nil.
      f_equal. rewrite (arcs_perm h k st), length_fmap; [done|].
      specialize (Hl 0 st eq_refl). by rewrite Nat.add_0_r in Hl.
    - intros i st' Hi. specialize (Hl (S i) st' Hi).
      by replace (S k + i) with (k + S i) by lia. }
  apply Hgen. by intros i st Hi.
Qed.

Lemma number_arcs_fold (statenums : list (nat * nat)) (q : list nat)
    (items : list (Label * list (Transition W))) :
  foldl (λ q item, foldl (number_arc statenums) q item.2) q items
  = q ++ List.filter (λ s, negb (bool_decide (s ∈ dict_keys statenums)))
                     (targetstate <$> concat items.*2).
Proof.
  assert (∀ (l : list (Transition W)) q,
            foldl (number_arc statenums) q l
            = q ++ List.filter (λ s, negb (bool_decide (s ∈ dict_keys statenums)))
                               (targetstate <$> l)) as Harcs.
  { induction l as [|t l IH]; intros q0; cbn [foldl fmap list_fmap List.filter].
    - by rewrite app_nil_r.
    - rewrite IH. unfold number_arc. case_bool_decide; cbn [negb]; [done|].
      by rewrite <- app_assoc. }
  revert q. induction items as [|[L b] items IH]; intros q;
    cbn [foldl fmap list_fmap concat snd].
  - by rewrite app_nil_r.
  - rewrite IH, Harcs, fmap_app, List.filter_app. by rewrite <- app_assoc.
Qed.

Lemma arcs_left_number h (sts : list nat) s :
  s ∉ sts →
  arcs_left h (sts ++ [s]) + length (arcs h s) = arcs_left h sts.
Proof.
  intros Hs. unfold arcs_left.
  assert (∀ l : list nat, NoDup l →
            sum_list ((λ x, if bool_decide (x ∈ sts ++ [s]) then 0
                            else length (arcs h x)) <$> l)
            + (if bool_decide (s ∈ l) then length (arcs h s) else 0)
            = sum_list ((λ x, if bool_decide (x ∈ sts) then 0
                              else length (arcs h x)) <$> l)) as Hgen.
  { induction l as [|x l IH]; intros Hnd; [done|].
    apply NoDup_cons in Hnd as [Hx Hnd]. specialize (IH Hnd).
    cbn [fmap list_fmap sum_list].
    destruct (decide (x = s)) as [->|Hne].
    - rewrite (bool_decide_eq_true_2 (s ∈ sts ++ [s])) by (apply elem_of_app; right; left).
      rewrite (bool_decide_eq_false_2 (s ∈ sts)) by done.
      rewrite (bool_decide_eq_true_2 (s ∈ s :: l)) by left.
      rewrite (bool_decide_eq_false_2 (s ∈ l)) in IH by done. unfold id in IH |- *. lia.
    - assert (bool_decide (x ∈ sts ++ [s]) = bool_decide (x ∈ sts)) as ->.
      { apply bool_decide_ext. rewrite elem_of_app, list_elem_of_singleton. tauto. }
      assert (bool_decide (s ∈ x :: l) = bool_decide (s ∈ l)) as ->.
      { apply bool_decide_ext. rewrite elem_of_cons. split; [|by right].
        intros [Heq|Hin]; [by symmetry in Heq | done]. }
      unfold id in IH |- *. lia. }
  rewrite <- (Hgen _ (NoDup_seq 0 (length (hstates h)))).
  f_equal. case_bool_decide as Hin; [done|].
  rewrite arcs_dangling; [done|]. apply lookup_ge_None.
  rewrite elem_of_seq in Hin. lia.
Qed.

Lemma statenums_snoc (sts : list nat) s :
  s ∉ sts →
  dict_set (zip sts (seq 0 (length sts))) s (length sts)
  = zip (sts ++ [s]) (seq 0 (length (sts ++ [s]))).
Proof.
  intros Hs. rewrite dict_set_fresh.
  - rewrite length_app. cbn [length]. rewrite Nat.add_1_r, seq_S.
    cbn [plus]. symmetry. rewrite (zip_with_app pair) by (by rewrite length_seq). done.
  - unfold dict_keys. by rewrite fst_zip by (by rewrite length_seq).
Qed.

Lemma statenums_keys (sts : list nat) :
  dict_keys (zip sts (seq 0 (length sts))) = sts.
Proof. unfold dict_keys. apply fst_zip. by rewrite length_seq. Qed.

Lemma number_round_inv h F x x' :
  numbering_inv h F x → number_round h x = Some x' →
  numbering_inv h F x' ∧
  length x'.1.1 + arcs_left h x'.1.2 < length x.1.1 + arcs_left h x.1.2.
Proof.
  destruct x as [[q sts] statenums]. intros (-> & Hnd & Hreach & Hhead & Hclosed) Hround.
  unfold number_round in Hround. destruct q as [|state q]; [done|].
  rewrite statenums_keys in Hround. case_bool_decide as Hin.
  - injection Hround as <-. cbn [fst snd length]. split; [|lia].
    split_and!; [done | done | | |].
    + intros s Hs. apply Hreach. apply elem_of_app in Hs as [Hs|Hs];
        apply elem_of_app; [by left | right; by right].
    + destruct sts as [|s0 sts]; [by apply elem_of_nil in Hin | done].
    + intros s t Hs Ht. specialize (Hclosed s t Hs Ht).
      apply elem_of_app in Hclosed as [Hc|Hc]; apply elem_of_app; [by left|].
      apply elem_of_cons in Hc as [->|Hc]; [by left | by right].
  - rewrite number_arcs_fold, statenums_snoc in Hround by done.
    rewrite statenums_keys in Hround. fold (arcs h state) in Hround.
    injection Hround as <-. cbn [fst snd length]. split.
    + split_and!.
      * done.
      * apply NoDup_app. split_and!; [done | | apply NoDup_singleton].
        intros s Hs ->%list_elem_of_singleton. done.
      * intros s Hs. rewrite <- app_assoc in Hs.
        apply elem_of_app in Hs as [Hs|Hs]; [apply Hreach, elem_of_app; by left|].
        apply elem_of_cons in Hs as [->|Hs]; [apply Hreach, elem_of_app; right; left|].
        apply elem_of_app in Hs as [Hs|Hs];
          [apply Hreach, elem_of_app; right; by right|].
        apply list_elem_of_In, filter_In in Hs as [Hs _].
        apply list_elem_of_In, list_elem_of_fmap in Hs as (t & -> & Ht).
        apply elem_of_arcs in Ht as (st & lbl & Hst & Ht).
        destruct (Hreach state) as (c & p & Hwalk); [apply elem_of_app; right; left|].
        exists (wadd c (weight t)), (p ++ [lbl]). by eapply walk_snoc.
      * destruct sts as [|s0 sts]; [|done]. cbn in Hhead |- *. done.
      * intros s t Hs Ht. rewrite <- app_assoc.
        apply elem_of_app in Hs as [Hs | ->%list_elem_of_singleton].
        -- specialize (Hclosed s t Hs Ht).
           apply elem_of_app in Hclosed as [Hc|Hc]; apply elem_of_app; [by left|].
           right. apply elem_of_cons in Hc as [->|Hc]; [left|].
           right. apply elem_of_app. by left.
        -- destruct (decide (targetstate t ∈ sts ++ [state])) as [Hk|Hk].
           ++ apply elem_of_app in Hk as [Hk|Hk]; apply elem_of_app; [by left|].
              right. apply list_elem_of_singleton in Hk as ->. left.
           ++ apply elem_of_app. right. right. apply elem_of_app. right.
              apply list_elem_of_In, filter_In. split.
              ** apply list_elem_of_In, list_elem_of_fmap. by exists t.
              ** by rewrite bool_decide_eq_false_2.
    + rewrite <- (arcs_left_number h sts state) by done.
      rewrite length_app.
      pose proof (List.filter_length_le
                    (λ s, negb (bool_decide (s ∈ sts ++ [state])))
                    (targetstate <$> arcs h state)) as Hle.
      rewrite length_fmap in Hle. lia.
Qed.

Lemma number_loop_spec h F fuel x :
  numbering_inv h F x →
  length x.1.1 + arcs_left h x.1.2 ≤ fuel →
  ∃ sts, number_loop h fuel x = Some (sts, zip sts (seq 0 (length sts))) ∧
         numbering_inv h F ([], sts, zip sts (seq 0 (length sts))).
Proof.
  revert x. induction fuel as [|fuel IH]; intros x Hinv Hfuel.
  - destruct x as [[q sts] statenums]. cbn [fst snd] in Hfuel.
    destruct q as [|s q]; [|cbn in Hfuel; lia].
    pose proof Hinv as (-> & _). exists sts. done.
  - cbn [number_loop]. destruct (number_round h x) as [x'|] eqn:Hround.
    + destruct (number_round_inv h F x x' Hinv Hround) as [Hinv' Hless].
      apply IH; [done | lia].
    + destruct x as [[q sts] statenums]. destruct q as [|s q].
      * pose proof Hinv as (-> & _). exists sts. done.
      * cbn in Hround. by case_bool_decide.
Qed.

End todict_lemmas.

(** X25 — the first pass of [todict] ends (a number of rounds above the
    number of transitions in the store is enough) and numbers exactly the
    states that can be reached from the initial state: each of them gets
    one number, the numbers are [0, 1, ...] in the order in which the
    states were first taken from the queue, and the initial state has
    number 0.  States that cannot be reached get no number. *)
Theorem todict_numbering_spec {W : Type} `{!Weight W} (h : Heap W) (F : FST)
    (fuel : nat) :
  total_arcs h < fuel →
  ∃ sts, todict_numbering h F fuel = Some (sts, zip sts (seq 0 (length sts))) ∧
    NoDup sts ∧ sts !! 0 = Some (initialstate F) ∧
    ∀ s, s ∈ sts ↔ reachable h (initialstate F) s.
Proof.
  intros Hfuel. unfold todict_numbering.
  destruct (number_loop_spec h F fuel ([initialstate F], [], []))
    as (sts & Hloop & _ & Hnd & Hreach & Hhead & Hclosed).
  - split_and!; [done | constructor | | done |].
    + intros s ->%list_elem_of_singleton. exists w0, []. constructor.
    + intros s t Hs. by apply elem_of_nil in Hs.
  - cbn [fst snd length]. rewrite total_arcs_left. lia.
  - exists sts. rewrite app_nil_r in Hhead, Hreach.
    split_and!; [done | done | by destruct sts |].
    intros s. split; [apply Hreach|].
    intros (c & p & Hwalk). induction Hwalk as [|s c p st lbl t _ IH Hst Ht].
    + destruct sts; [done|]. injection Hhead as ->. left.
    + specialize (Hclosed s t IH). rewrite app_nil_r in Hclosed.
      apply Hclosed, elem_of_arcs. by exists st, lbl.
Qed.

Lemma todict_numbering_spec_witness :
  total_arcs tie_heap < 3 ∧
  ∃ sts, todict_numbering tie_heap tie_fst 3
         = Some (sts, zip sts (seq 0 (length sts))) ∧
    NoDup sts ∧ sts !! 0 = Some (initialstate tie_fst) ∧
    ∀ s, s ∈ sts ↔ reachable tie_heap (initialstate tie_fst) s.
Proof.
  assert (total_arcs tie_heap < 3) as Hfuel by (vm_compute; lia).
  split; [exact Hfuel|].
  exact (todict_numbering_spec tie_heap tie_fst 3 Hfuel).
Defined.

Section todict_build_lemmas.
Context {W : Type} `{!Weight W}.
Implicit Types (h : Heap W) (F : FST).

Lemma elem_of_sorted_items h s (item : Label * list (Transition W)) :
  item ∈ sorted_items h s ↔
  ∃ L b, (L, b) ∈ state_transitions h s ∧
         item = (L, sorted_by (λ a b : Transition W, wlt (weight a) (weight b))
                              (omap (λ r, htrans h !! r) b)).
Proof.
  unfold sorted_items. rewrite list_elem_of_fmap. split.
  - intros ([L b] & -> & Hin). rewrite sorted_by_perm in Hin. by exists L, b.
  - intros (L & b & Hin & ->). exists (L, b). split; [done|].
    by rewrite sorted_by_perm.
Qed.

Lemma sorted_items_arcs h s L t :
  (L, t) ∈ FST_labelled_arcs h s ↔
  ∃ ts, (L, ts) ∈ sorted_items h s ∧ t ∈ ts.
Proof.
  unfold FST_labelled_arcs. split.
  - destruct (hstates h !! s) as [st|] eqn:Hst; [|by intros ?%elem_of_nil].
    intros (b & r & Hb & Hr & Ht)%elem_of_all_transitions.
    eexists. split.
    + apply elem_of_sorted_items. exists L, b. split; [|done].
      unfold state_transitions. by rewrite Hst.
    + rewrite sorted_by_perm. apply list_elem_of_omap. by exists r.
  - intros (ts & (L' & b & Hb & Heq)%elem_of_sorted_items & Ht).
    injection Heq as <- ->. rewrite sorted_by_perm in Ht.
    apply list_elem_of_omap in Ht as (r & Hr & Ht).
    unfold state_transitions in Hb.
    destruct (hstates h !! s) as [st|]; [|by apply elem_of_nil in Hb].
    apply elem_of_all_transitions. by exists b, r.
Qed.

Lemma add_symbol_spec (al : list (string * nat)) (sym : string) :
  (alph_ok al → alph_ok (add_symbol al sym)) ∧
  ∀ x, x ∈ dict_keys (add_symbol al sym) ↔
       x ∈ dict_keys al ∨ (x ≠ "" ∧ x = sym).
Proof.
  unfold add_symbol. destruct (decide (sym = "")) as [->|Hne].
  { split; [done|]. intros x. split; [by left|]. by intros [?|[? ?]]. }
  case_bool_decide as Hin.
  { split; [done|]. intros x. split; [by left|]. by intros [?|[_ ->]]. }
  rewrite dict_set_fresh by done. split.
  - intros [Hnum Hempty]. split.
    + rewrite fmap_app, length_app, Hnum. cbn [length fmap list_fmap snd].
      rewrite Nat.add_1_r, seq_S. done.
    + unfold dict_keys in *. rewrite fmap_app. cbn [fmap list_fmap fst].
      rewrite elem_of_app, list_elem_of_singleton. intros [?|?]; [done|].
      by apply Hne.
  - intros x. unfold dict_keys. rewrite fmap_app. cbn [fmap list_fmap fst].
    rewrite elem_of_app, list_elem_of_singleton. split.
    + intros [? | ->]; [by left | by right].
    + intros [?|[_ ->]]; [by left | by right].
Qed.

Lemma tr_list_append (trs : list (nat * list (string * list nat)))
    (src : nat) (tl : string) (n : nat) src' tl' :
  tr_list (append_target trs src tl n) src' tl'
  = tr_list trs src' tl' ++
    (if bool_decide (src' = src ∧ tl' = tl) then [n] else []).
Proof.
  unfold tr_list, append_target, dict_get_or.
  destruct (decide (src' = src)) as [->|Hsrc].
  - rewrite dict_get_set_eq. cbn [default]. unfold id.
    destruct (decide (tl' = tl)) as [->|Htl].
    + rewrite dict_get_set_eq, bool_decide_eq_true_2 by done. done.
    + rewrite dict_get_set_ne by done.
      rewrite bool_decide_eq_false_2 by (by intros [_ ?]). by rewrite app_nil_r.
  - rewrite dict_get_set_ne by done.
    rewrite bool_decide_eq_false_2 by (by intros [? _]). by rewrite app_nil_r.
Qed.

Lemma todict_arc_None (statenums : list (nat * nat)) src tl
    (ts : list (Transition W)) :
  foldl (todict_arc statenums src tl) None ts = None.
Proof. induction ts as [|t ts IH]; [done|]. cbn. exact IH. Qed.

Lemma todict_arcs_spec (statenums : list (nat * nat)) src tl
    (ts : list (Transition W)) trs :
  (∀ t, t ∈ ts → is_Some (dict_get statenums (targetstate t))) →
  ∃ trs', foldl (todict_arc statenums src tl) (Some trs) ts = Some trs' ∧
    ∀ src' tl' n, n ∈ tr_list trs' src' tl' ↔
      n ∈ tr_list trs src' tl' ∨
      (src' = src ∧ tl' = tl ∧
       ∃ t, t ∈ ts ∧ dict_get statenums (targetstate t) = Some n).
Proof.
  revert trs. induction ts as [|t ts IH]; intros trs Hnum.
  - exists trs. split; [done|]. intros src' tl' n. split; [by left|].
    by intros [?|(_ & _ & t & ?%elem_of_nil & _)].
  - destruct (Hnum t) as [k Hk]; [left|].
    destruct (IH (append_target trs src tl k)) as (trs' & Hfold & Hspec).
    { intros t' Ht'. apply Hnum. by right. }
    exists trs'. split.
    + cbn [foldl]. unfold todict_arc at 2. cbn [mbind option_bind].
      rewrite Hk. cbn [mbind option_bind]. exact Hfold.
    + intros src' tl' n. rewrite Hspec, tr_list_append, elem_of_app. split.
      * intros [[Hn|Hn]|(-> & -> & t' & Ht' & Hn)].
        -- by left.
        -- case_bool_decide as Hc; [|by apply elem_of_nil in Hn].
           destruct Hc as [-> ->]. apply list_elem_of_singleton in Hn as ->.
           right. split_and!; [done | done |]. exists t. split; [left | done].
        -- right. split_and!; [done | done |]. exists t'. split; [by right | done].
      * intros [Hn|(-> & -> & t' & Ht' & Hn)]; [left; by left|].
        apply elem_of_cons in Ht' as [->|Ht'].
        -- left. right. rewrite bool_decide_eq_true_2 by done.
           apply list_elem_of_singleton. congruence.
        -- right. split_and!; [done | done |]. by exists t'.
Qed.

Lemma todict_item_None (statenums : list (nat * nat)) src
    (items : list (Label * list (Transition W))) :
  foldl (todict_item statenums src) None items = None.
Proof. induction items as [|x items IH]; [done|]. cbn. exact IH. Qed.

Lemma todict_item_raises (statenums : list (nat * nat)) src
    (items : list (Label * list (Transition W))) acc :
  (∃ item, item ∈ items ∧ label_syms item.1 = None) →
  foldl (todict_item statenums src) acc items = None.
Proof.
  revert acc. induction items as [|x items IH]; intros acc (item & Hin & Hbad).
  { by apply elem_of_nil in Hin. }
  cbn [foldl]. apply elem_of_cons in Hin as [->|Hin].
  - assert (todict_item statenums src acc x = None) as ->.
    { unfold todict_item. destruct acc; [|done]. cbn [mbind option_bind].
      by rewrite Hbad. }
    apply todict_item_None.
  - apply IH. by exists item.
Qed.

Lemma label_syms_symbols (L : Label) io x :
  label_syms L = Some io → (x ∈ label_symbols L ↔ x = io.1 ∨ x = io.2).
Proof.
  unfold label_syms, label_symbols. destruct L as [i tail].
  cbn [lhead ltail]. destruct tail as [|o [|? ?]]; intros Heq; simplify_eq;
    cbn [fst snd].
  - rewrite list_elem_of_singleton. tauto.
  - rewrite elem_of_cons, list_elem_of_singleton. tauto.
Qed.

Lemma todict_items_spec (statenums : list (nat * nat)) src
    (items : list (Label * list (Transition W))) trs al :
  (∀ item, item ∈ items → is_Some (label_syms item.1)) →
  (∀ item t, item ∈ items → t ∈ item.2 →
             is_Some (dict_get statenums (targetstate t))) →
  ∃ trs' al',
    foldl (todict_item statenums src) (Some (trs, al)) items = Some (trs', al') ∧
    (alph_ok al → alph_ok al') ∧
    (∀ x, x ∈ dict_keys al' ↔
          x ∈ dict_keys al ∨
          (x ≠ "" ∧ ∃ item, item ∈ items ∧ x ∈ label_symbols item.1)) ∧
    ∀ src' tl' n, n ∈ tr_list trs' src' tl' ↔
      n ∈ tr_list trs src' tl' ∨
      (src' = src ∧
       ∃ item t, item ∈ items ∧ t ∈ item.2 ∧ tlabel_of item.1 = tl' ∧
                 dict_get statenums (targetstate t) = Some n).
Proof.
  revert trs al. induction items as [|item items IH]; intros trs al Hlab Hnum.
  - exists trs, al. split_and!; [done | done | |].
    + intros x. split; [by left|]. by intros [?|(_ & ? & ?%elem_of_nil & _)].
    + intros src' tl' n. split; [by left|].
      by intros [?|(_ & ? & ? & ?%elem_of_nil & _)].
  - destruct (Hlab item) as [io Hio]; [left|].
    destruct (todict_arcs_spec statenums src (tlabel io.1 io.2) item.2 trs)
      as (trs1 & Harcs & Htrs1).
    { intros t Ht. apply (Hnum item t); [left | done]. }
    set (al1 := add_symbol (add_symbol al io.1) io.2).
    destruct (IH trs1 al1) as (trs' & al' & Hfold & Hok & Hkeys & Htrs).
    { intros x Hx. apply Hlab. by right. }
    { intros x t Hx Ht. apply (Hnum x t); [by right | done]. }
    exists trs', al'. split_and!.
    + cbn [foldl]. unfold todict_item at 2. cbn [mbind option_bind fst snd].
      rewrite Hio. cbn [mbind option_bind]. rewrite Harcs.
      cbn [mbind option_bind]. exact Hfold.
    + intros Hal. apply Hok. subst al1.
      by apply add_symbol_spec, add_symbol_spec.
    + intros x. rewrite Hkeys. subst al1.
      rewrite (proj2 (add_symbol_spec _ _)), (proj2 (add_symbol_spec _ _)).
      split.
      * intros [[[Hx|[Hx ->]]|[Hx ->]]|(Hx & item' & Hin & Hsym)].
        -- by left.
        -- right. split; [done|]. exists item. split; [left|].
           apply (label_syms_symbols _ io); [done | by left].
        -- right. split; [done|]. exists item. split; [left|].
           apply (label_syms_symbols _ io); [done | by right].
        -- right. split; [done|]. exists item'. split; [by right | done].
      * intros [Hx|(Hx & item' & Hin & Hsym)]; [left; left; by left|].
        apply elem_of_cons in Hin as [->|Hin].
        -- destruct (proj1 (label_syms_symbols _ io x Hio) Hsym) as [-> | ->].
           ++ left. left. by right.
           ++ left. by right.
        -- right. split; [done|]. by exists item'.
    + intros src' tl' n. rewrite Htrs, Htrs1. split.
      * intros [[Hn|(-> & -> & t & Ht & Hn)]|(-> & item' & t & Hin & Ht & Htl & Hn)].
        -- by left.
        -- right. split; [done|]. exists item, t. split_and!; [left | done | | done].
           unfold tlabel_of. by rewrite Hio.
        -- right. split; [done|]. exists item', t. split_and!; [by right | done..].
      * intros [Hn|(-> & item' & t & Hin & Ht & Htl & Hn)]; [left; by left|].
        apply elem_of_cons in Hin as [->|Hin].
        -- left. right. split_and!; [done | | by exists t].
           unfold tlabel_of in Htl. by rewrite Hio in Htl.
        -- right. split; [done|]. by exists item', t.
Qed.

Lemma build_inv_trans h F (statenums : list (nat * nat)) net0 net1 net2
    (xs ys : list (nat * nat)) :
  build_inv h F statenums net0 net1 xs →
  build_inv h F statenums net1 net2 ys →
  build_inv h F statenums net0 net2 (xs ++ ys).
Proof.
  intros (Hok1 & Hkeys1 & Hone1 & Hfin1 & Htr1) (Hok2 & Hkeys2 & Hone2 & Hfin2 & Htr2).
  split_and!.
  - intros Hal. by apply Hok2, Hok1.
  - intros x. rewrite Hkeys2, Hkeys1. split.
    + intros [[Hx|(Hx & k & s & L & b & Hin & Hrest)]|(Hx & k & s & L & b & Hin & Hrest)].
      * by left.
      * right. split; [done|]. exists k, s, L, b. split; [|done].
        apply elem_of_app. by left.
      * right. split; [done|]. exists k, s, L, b. split; [|done].
        apply elem_of_app. by right.
    + intros [Hx|(Hx & k & s & L & b & Hin & Hrest)]; [left; by left|].
      apply elem_of_app in Hin as [Hin|Hin].
      * left. right. split; [done|]. by exists k, s, L, b.
      * right. split; [done|]. by exists k, s, L, b.
  - intros Hal. by apply Hone2, Hone1.
  - intros k. rewrite Hfin2, Hfin1. split.
    + intros [[Hk|(s & Hin & Hs)]|(s & Hin & Hs)].
      * by left.
      * right. exists s. split; [|done]. apply elem_of_app. by left.
      * right. exists s. split; [|done]. apply elem_of_app. by right.
    + intros [Hk|(s & Hin & Hs)]; [left; by left|].
      apply elem_of_app in Hin as [Hin|Hin].
      * left. right. by exists s.
      * right. by exists s.
  - intros src tl n. rewrite Htr2, Htr1. split.
    + intros [[Hn|(s & t & L & Hin & Hrest)]|(s & t & L & Hin & Hrest)].
      * by left.
      * right. exists s, t, L. split; [|done]. apply elem_of_app. by left.
      * right. exists s, t, L. split; [|done]. apply elem_of_app. by right.
    + intros [Hn|(s & t & L & Hin & Hrest)]; [left; by left|].
      apply elem_of_app in Hin as [Hin|Hin].
      * left. right. by exists s, t, L.
      * right. by exists s, t, L.
Qed.

Lemma build_inv_refl h F (statenums : list (nat * nat)) net :
  build_inv h F statenums net net [].
Proof.
  split_and!; [done | | done | |].
  - intros x. split; [by left|].
    by intros [?|(_ & ? & ? & ? & ? & ?%elem_of_nil & _)].
  - intros k. split; [by left|]. by intros [?|(? & ?%elem_of_nil & _)].
  - intros src tl n. split; [by left|].
    by intros [?|(? & ? & ? & ?%elem_of_nil & _)].
Qed.

Lemma todict_state_spec h F (statenums : list (nat * nat)) net0 k s :
  (∀ item, item ∈ sorted_items h s → is_Some (label_syms item.1)) →
  (∀ t, t ∈ arcs h s → is_Some (dict_get statenums (targetstate t))) →
  ∃ net, todict_state h F statenums (Some net0) (k, s) = Some net ∧
         build_inv h F statenums net0 net [(k, s)].
Proof.
  intros Hlab Hnum.
  destruct (todict_items_spec statenums k (sorted_items h s)
              (js_transitions net0) (js_alphabet net0) Hlab)
    as (trs & al & Hfold & Hok & Hkeys & Htrs).
  { intros item t Hitem Ht. apply Hnum. unfold arcs.
    apply list_elem_of_In, in_concat. exists item.2.
    split; apply list_elem_of_In; [|done].
    apply list_elem_of_fmap. by exists item. }
  eexists. split.
  { unfold todict_state. cbn [mbind option_bind fst snd]. rewrite Hfold.
    cbn [mbind option_bind fst snd]. reflexivity. }
  split_and!; cbn [js_alphabet js_finals js_transitions].
  - done.
  - intros x. rewrite Hkeys. split.
    + intros [Hx|(Hx & item & (L & b & Hb & ->)%elem_of_sorted_items & Hsym)];
        [by left|].
      right. split; [done|]. exists k, s, L, b. split_and!; [left | done | done].
    + intros [Hx|(Hx & k' & s' & L & b & Hin & Hb & Hsym)]; [by left|].
      apply list_elem_of_singleton in Hin. injection Hin as -> ->.
      right. split; [done|].
      exists (L, sorted_by (λ a b : Transition W, wlt (weight a) (weight b))
                           (omap (λ r, htrans h !! r) b)).
      split; [|exact Hsym]. apply elem_of_sorted_items. by exists L, b.
  - intros Hone k' v. case_bool_decide; [|apply Hone].
    destruct (decide (k = k')) as [->|Hne].
    + rewrite dict_get_set_eq. congruence.
    + rewrite dict_get_set_ne by done. apply Hone.
  - intros k'. case_bool_decide as Hfin.
    + destruct (decide (k = k')) as [->|Hne].
      * rewrite dict_get_set_eq. split; [|done]. intros _. right.
        exists s. split; [left | done].
      * rewrite dict_get_set_ne by done. split; [by left|].
        intros [?|(s' & Hin & _)]; [done|].
        apply list_elem_of_singleton in Hin. by injection Hin as -> ->.
    + split; [by left|]. intros [?|(s' & Hin & Hs')]; [done|].
      apply list_elem_of_singleton in Hin. injection Hin as -> ->. done.
  - intros src tl n. rewrite Htrs. split.
    + intros [Hn|(-> & item & t & Hitem & Ht & Htl & Hn)]; [by left|].
      right. exists s, t, item.1. split_and!; [left | | done | done].
      apply sorted_items_arcs. exists item.2. by destruct item.
    + intros [Hn|(s' & t & L & Hin & Ht & Htl & Hn)]; [by left|].
      apply list_elem_of_singleton in Hin. injection Hin as -> ->.
      apply sorted_items_arcs in Ht as (ts & Hitem & Ht).
      right. split; [done|]. by exists (L, ts), t.
Qed.

Lemma todict_states_spec h F (statenums : list (nat * nat)) net0
    (xs : list (nat * nat)) :
  (∀ k s item, (k, s) ∈ xs → item ∈ sorted_items h s →
               is_Some (label_syms item.1)) →
  (∀ k s t, (k, s) ∈ xs → t ∈ arcs h s →
            is_Some (dict_get statenums (targetstate t))) →
  ∃ net, foldl (todict_state h F statenums) (Some net0) xs = Some net ∧
         build_inv h F statenums net0 net xs.
Proof.
  revert net0. induction xs as [|[k s] xs IH]; intros net0 Hlab Hnum.
  - exists net0. split; [done|]. apply build_inv_refl.
  - destruct (todict_state_spec h F statenums net0 k s) as (net1 & Hstep & Hinv1).
    { intros item. apply (Hlab k s). left. }
    { intros t. apply (Hnum k s). left. }
    destruct (IH net1) as (net & Hfold & Hinv).
    { intros k' s' item Hin. apply (Hlab k' s'). by right. }
    { intros k' s' t Hin. apply (Hnum k' s'). by right. }
    exists net. split; [cbn [foldl]; by rewrite Hstep|].
    by apply (build_inv_trans h F statenums net0 net1 net [(k, s)] xs).
Qed.

Lemma todict_state_None h F (statenums : list (nat * nat))
    (xs : list (nat * nat)) :
  foldl (todict_state h F statenums) None xs = None.
Proof. induction xs as [|x xs IH]; [done|]. cbn. exact IH. Qed.

Lemma todict_states_raise h F (statenums : list (nat * nat)) acc
    (xs : list (nat * nat)) :
  (∃ k s item, (k, s) ∈ xs ∧ item ∈ sorted_items h s ∧ label_syms item.1 = None) →
  foldl (todict_state h F statenums) acc xs = None.
Proof.
  revert acc. induction xs as [|[k s] xs IH]; intros acc (k' & s' & item & Hin & Hitem & Hbad).
  { by apply elem_of_nil in Hin. }
  cbn [foldl]. apply elem_of_cons in Hin as [Heq|Hin].
  - injection Heq as -> ->.
    assert (todict_state h F statenums acc (k, s) = None) as ->.
    { unfold todict_state. destruct acc as [net|]; [|done].
      cbn [mbind option_bind fst snd].
      rewrite (todict_item_raises statenums k (sorted_items h s)); [done|].
      by exists item. }
    apply todict_state_None.
  - apply IH. by exists k', s', item.
Qed.

Lemma statenums_get (sts : list nat) s n :
  NoDup sts →
  dict_get (zip sts (seq 0 (length sts))) s = Some n ↔ sts !! n = Some s.
Proof.
  intros Hnd. split.
  - intros Hget%dict_get_Some_elem.
    apply elem_of_lookup_zip_with in Hget as (i & a & b & Heq & Ha & Hb).
    injection Heq as -> ->. apply lookup_seq in Hb as [-> _]. done.
  - intros Hn. apply dict_get_elem; [by rewrite statenums_keys|].
    apply elem_of_lookup_zip_with. exists n, s, n. split_and!; [done | done |].
    apply lookup_seq. split; [done|]. by eapply lookup_lt_Some.
Qed.

Lemma label_syms_None (L : Label) :
  label_syms L = None ↔ 1 < length (ltail L).
Proof.
  unfold label_syms. destruct (ltail L) as [|o [|? ?]]; cbn [length]; split;
    (done || lia).
Qed.

Lemma todict_numbering_run h F fuel :
  total_arcs h < fuel →
  ∃ sts, todict_numbering h F fuel = Some (sts, zip sts (seq 0 (length sts))) ∧
    NoDup sts ∧
    (∀ s, s ∈ sts ↔ reachable h (initialstate F) s) ∧
    ∀ s t, s ∈ sts → t ∈ arcs h s → targetstate t ∈ sts.
Proof.
  intros Hfuel. unfold todict_numbering.
  destruct (number_loop_spec h F fuel ([initialstate F], [], []))
    as (sts & Hloop & _ & Hnd & Hreach & Hhead & Hclosed).
  - split_and!; [done | constructor | | done |].
    + intros s ->%list_elem_of_singleton. exists w0, []. constructor.
    + intros s t Hs. by apply elem_of_nil in Hs.
  - cbn [fst snd length]. rewrite total_arcs_left. lia.
  - exists sts. rewrite app_nil_r in Hhead, Hreach.
    assert (∀ s t, s ∈ sts → t ∈ arcs h s → targetstate t ∈ sts) as Hclosed'.
    { intros s t Hs Ht. specialize (Hclosed s t Hs Ht).
      by rewrite app_nil_r in Hclosed. }
    split_and!; [done | done | | done].
    intros s. split; [apply Hreach|].
    intros (c & p & Hwalk). induction Hwalk as [|s c p st lbl t _ IH Hst Ht].
    + destruct sts; [done|]. injection Hhead as ->. left.
    + apply (Hclosed' s t IH), elem_of_arcs. by exists st, lbl.
Qed.

Lemma elem_of_enumerate (sts : list nat) k s :
  (k, s) ∈ imap pair sts ↔ sts !! k = Some s.
Proof.
  rewrite elem_of_lookup_imap. split.
  - intros (i & y & Heq & Hi). by injection Heq as -> ->.
  - intros Hk. by exists k, s.
Qed.

Lemma todict_build_spec h F (sts : list nat) :
  NoDup sts →
  (∀ s t, s ∈ sts → t ∈ arcs h s → targetstate t ∈ sts) →
  ((∃ s item, s ∈ sts ∧ item ∈ sorted_items h s ∧ label_syms item.1 = None) →
   todict_build h F sts (zip sts (seq 0 (length sts))) = None) ∧
  ((∀ s item, s ∈ sts → item ∈ sorted_items h s → is_Some (label_syms item.1)) →
   ∃ net, todict_build h F sts (zip sts (seq 0 (length sts))) = Some net ∧
          build_inv h F (zip sts (seq 0 (length sts))) (mkJsNet [] [] []) net
                    (imap pair sts)).
Proof.
  intros Hnd Hclosed. unfold todict_build. split.
  - intros (s & item & Hs & Hitem & Hbad). apply todict_states_raise.
    apply list_elem_of_lookup in Hs as [k Hk].
    exists k, s, item. split; [by apply elem_of_enumerate | done].
  - intros Hgood. apply todict_states_spec.
    + intros k s item Hk%elem_of_enumerate. apply Hgood.
      by eapply list_elem_of_lookup_2.
    + intros k s t Hk%elem_of_enumerate Ht.
      assert (targetstate t ∈ sts) as Hin.
      { apply (Hclosed s t); [by eapply list_elem_of_lookup_2 | done]. }
      apply list_elem_of_lookup in Hin as [n Hn].
      exists n. by apply statenums_get.
Qed.

Lemma labels_unpack_dec h (sts : list nat) :
  (∀ s item, s ∈ sts → item ∈ sorted_items h s → is_Some (label_syms item.1)) ∨
  (∃ s item, s ∈ sts ∧ item ∈ sorted_items h s ∧ label_syms item.1 = None).
Proof.
  destruct (decide (Forall (λ s, Forall (λ item : Label * list (Transition W),
                                           is_Some (label_syms item.1))
                                        (sorted_items h s)) sts)) as [Hall|Hex].
  - left. intros s item Hs Hitem.
    rewrite Forall_forall in Hall. specialize (Hall s Hs).
    rewrite Forall_forall in Hall. by apply Hall.
  - right. apply not_Forall_Exists in Hex; [|apply _].
    apply Exists_exists in Hex as (s & Hs & Hex).
    apply not_Forall_Exists in Hex; [|apply _].
    apply Exists_exists in Hex as (item & Hitem & Hbad).
    exists s, item. split_and!; [done | done |].
    cbn in Hbad. destruct (label_syms item.1); [|done]. exfalso. by apply Hbad.
Qed.

End todict_build_lemmas.

(** X26 — [todict] ends for every automaton.  It raises [ValueError] when
    a state that can be reached from the initial state has a label of more
    than two members among the keys of its transitions, and returns a
    dictionary otherwise.  The symbol table of that dictionary holds
    exactly the non-empty symbols of the labels of the reachable states,
    whatever the alphabet of the automaton is, and numbers them 3, 4, ...
    in the order in which it met them. *)
Theorem todict_alphabet {W : Type} `{!Weight W} (h : Heap W) (F : FST)
    (fuel : nat) :
  total_arcs h < fuel →
  ((∃ s L b, reachable h (initialstate F) s ∧ (L, b) ∈ state_transitions h s ∧
             1 < length (ltail L)) →
   todict h F fuel = Some None) ∧
  ((∀ s L b, reachable h (initialstate F) s → (L, b) ∈ state_transitions h s →
             length (ltail L) ≤ 1) →
   ∃ net, todict h F fuel = Some (Some net) ∧
     (js_alphabet net).*2 = seq 3 (length (js_alphabet net)) ∧
     ∀ x, x ∈ dict_keys (js_alphabet net) ↔
          x ≠ "" ∧ ∃ s L b, reachable h (initialstate F) s ∧
                            (L, b) ∈ state_transitions h s ∧ x ∈ label_symbols L).
Proof.
  intros Hfuel.
  destruct (todict_numbering_run h F fuel Hfuel) as (sts & Hnum & Hnd & Hreach & Hclosed).
  destruct (todict_build_spec h F sts Hnd Hclosed) as [Hraise Hbuild].
  unfold todict. rewrite Hnum. cbn [fmap option_fmap option_map fst snd]. split.
  - intros (s & L & b & Hs & Hb & Hlong). rewrite Hraise; [done|].
    eexists s, _. split_and!; [by apply Hreach | |].
    + apply elem_of_sorted_items. by exists L, b.
    + by apply label_syms_None.
  - intros Hshort. destruct Hbuild as (net & -> & Hok & Hkeys & _).
    { intros s item Hs (L & b & Hb & ->)%elem_of_sorted_items. cbn [fst].
      destruct (label_syms L) eqn:Hsyms; [done|].
      apply label_syms_None in Hsyms.
      specialize (Hshort s L b (proj1 (Hreach s) Hs) Hb). lia. }
    exists net. split_and!; [done | |].
    + apply Hok. split; [done | apply not_elem_of_nil].
    + intros x. rewrite Hkeys. cbn [js_alphabet dict_keys fmap list_fmap]. split.
      * intros [Hx|(Hx & k & s & L & b & Hk%elem_of_enumerate & Hb & Hsym)].
        { by apply elem_of_nil in Hx. }
        split; [done|]. exists s, L, b. split_and!; [|done|done].
        apply Hreach. by eapply list_elem_of_lookup_2.
      * intros (Hx & s & L & b & Hs & Hb & Hsym). right. split; [done|].
        apply Hreach, list_elem_of_lookup in Hs as [k Hk].
        exists k, s, L, b. split_and!; [by apply elem_of_enumerate | done | done].
Qed.

Lemma todict_alphabet_witness :
  total_arcs tie_heap < 3 ∧
  (∀ s L b, reachable tie_heap (initialstate tie_fst) s →
            (L, b) ∈ state_transitions tie_heap s → length (ltail L) ≤ 1) ∧
  ∃ net, todict tie_heap tie_fst 3 = Some (Some net) ∧
         dict_keys (js_alphabet net) = ["a"].
Proof.
  assert (total_arcs tie_heap < 3) as Hfuel by (vm_compute; lia).
  assert (∀ s L b, reachable tie_heap (initialstate tie_fst) s →
            (L, b) ∈ state_transitions tie_heap s → length (ltail L) ≤ 1) as Hshort.
  { intros s L b _ Hb. unfold state_transitions in Hb.
    destruct s as [|[|[|s]]]; cbn in Hb.
    - apply elem_of_cons in Hb as [Hb|Hb]; [injection Hb as -> _; cbn; lia|].
      apply list_elem_of_singleton in Hb. injection Hb as -> _. cbn. lia.
    - by apply elem_of_nil in Hb.
    - by apply elem_of_nil in Hb.
    - by apply elem_of_nil in Hb. }
  split; [exact Hfuel|]. split; [exact Hshort|].
  destruct (proj2 (todict_alphabet tie_heap tie_fst 3 Hfuel) Hshort)
    as (net & Hnet & _).
  exists net. split; [exact Hnet|].
  vm_compute in Hnet. injection Hnet as <-. reflexivity.
Defined.

(** X27 — in the dictionary that [todict] returns the states go by the
    numbers of the first pass: [finals] has the key [k], with the value 1,
    exactly when the state numbered [k] is a final state, and the list
    [transitions[src][tl]] holds the number [n] exactly when the state
    numbered [src] has a transition to the state numbered [n] under a
    label that is written [tl] (the symbol itself when the two sides of
    the label are equal, [isym|osym] otherwise).  A state without a number
    appears nowhere. *)
Theorem todict_finals_transitions {W : Type} `{!Weight W} (h : Heap W) (F : FST)
    (fuel : nat) (net : JsNet) :
  total_arcs h < fuel →
  todict h F fuel = Some (Some net) →
  ∃ sts statenums, todict_numbering h F fuel = Some (sts, statenums) ∧
    (∀ k, is_Some (dict_get (js_finals net) k) ↔
          ∃ s, sts !! k = Some s ∧ s ∈ finalstates F) ∧
    (∀ k v, dict_get (js_finals net) k = Some v → v = 1) ∧
    ∀ src tl n, n ∈ tr_list (js_transitions net) src tl ↔
      ∃ s t L, sts !! src = Some s ∧ sts !! n = Some (targetstate t) ∧
               (L, t) ∈ FST_labelled_arcs h s ∧ tlabel_of L = tl.
Proof.
  intros Hfuel Hnet.
  destruct (todict_numbering_run h F fuel Hfuel) as (sts & Hnum & Hnd & Hreach & Hclosed).
  destruct (todict_build_spec h F sts Hnd Hclosed) as [Hraise Hbuild].
  unfold todict in Hnet. rewrite Hnum in Hnet.
  cbn [fmap option_fmap option_map fst snd] in Hnet.
  destruct (labels_unpack_dec h sts) as [Hgood|Hbad].
  2: { rewrite (Hraise Hbad) in Hnet. done. }
  destruct (Hbuild Hgood) as (net' & Hnet' & _ & _ & Hone & Hfin & Htr).
  assert (net' = net) as -> by congruence.
  exists sts, (zip sts (seq 0 (length sts))). split_and!; [done | | |].
  - intros k. rewrite Hfin. cbn [js_finals dict_get]. split.
    + intros [[? ?]|(s & Hk%elem_of_enumerate & Hs)]; [done|]. by exists s.
    + intros (s & Hk & Hs). right. exists s. by rewrite elem_of_enumerate.
  - apply Hone. intros k v. done.
  - intros src tl n. rewrite Htr. split.
    + intros [Hn|(s & t & L & Hk%elem_of_enumerate & Ht & Htl & Hn)].
      { by apply elem_of_nil in Hn. }
      exists s, t, L. split_and!; [done | | done | done].
      by apply statenums_get.
    + intros (s & t & L & Hk & Hn & Ht & Htl). right.
      exists s, t, L. split_and!; [by apply elem_of_enumerate | done | done |].
      by apply statenums_get.
Qed.

Lemma todict_finals_transitions_witness :
  total_arcs tie_heap < 3 ∧
  todict tie_heap tie_fst 3
  = Some (Some (mkJsNet [(0, [("", [1]); ("a", [2])])] [("a", 3)] [(1, 1); (2, 1)])) ∧
  ∃ sts statenums, todict_numbering tie_heap tie_fst 3 = Some (sts, statenums) ∧
    ∀ k, is_Some (dict_get [(1, 1); (2, 1)] k) ↔
         ∃ s, sts !! k = Some s ∧ s ∈ finalstates tie_fst.
Proof.
  assert (total_arcs tie_heap < 3) as Hfuel by (vm_compute; lia).
  assert (todict tie_heap tie_fst 3
          = Some (Some (mkJsNet [(0, [("", [1]); ("a", [2])])] [("a", 3)] [(1, 1); (2, 1)])))
    as Hnet by (vm_compute; reflexivity).
  split; [exact Hfuel|]. split; [exact Hnet|].
  destruct (todict_finals_transitions tie_heap tie_fst 3 _ Hfuel Hnet)
    as (sts & statenums & Hnum & Hfin & _).
  exists sts, statenums. split; [exact Hnum | exact Hfin].
Defined.
